(** * An order-statistics red-black tree with parent pointers

    A shallow embedding of [src/RBTree.h]: the node store is a finite map
    from addresses to nodes, the code's functions are programs of a state and
    failure monad over that store, and every loop is a function recursive on
    a bound of its number of iterations.  The file first gives the code, then
    the abstract view of a tree and the vocabulary of the specifications,
    and then proves the specifications. *)

From Stdlib Require Import ZArith Lia List.
From stdpp Require Import base option gmap list.

Local Open Scope Z_scope.

(** * The node store

    A [Node_*] is an optional address ([None] is [nullptr]); the store maps
    every live address to its node record.  Dereferencing [nullptr] or a
    freed address has no defined result and is modelled by failure. *)

Definition addr := positive.
Definition ptr := option addr.

(** Unsigned and signed machine integers of the source, with wrap-around. *)
Definition size_t (x : Z) : Z := x mod 2 ^ 64.
Definition uint8_t (x : Z) : Z := x mod 2 ^ 8.
Definition ptrdiff_t (x : Z) : Z := (x + 2 ^ 63) mod 2 ^ 64 - 2 ^ 63.

(** Largest element count for which every rank and cursor difference fits
    [ptrdiff_t]. *)
Definition max_size : Z := 2 ^ 63 - 1.

(** [struct Node_] together with the [value] member of [NodeVal_<T>]; the
    head node is a plain [Node_] and carries no value. *)
Record Node_ (T : Type) := mkNode {
  left : ptr;
  right : ptr;
  parent : ptr;
  size : Z;
  black_height : Z;
  black : bool;
  value : option T
}.
Arguments mkNode {T}.
Arguments left {T}.
Arguments right {T}.
Arguments parent {T}.
Arguments size {T}.
Arguments black_height {T}.
Arguments black {T}.
Arguments value {T}.

Abbreviation heap T := (gmap addr (Node_ T)).

(** State-and-failure monad over the store. *)
Definition M (T A : Type) : Type := heap T -> option (A * heap T).
Definition ret {T A} (x : A) : M T A := fun h => Some (x, h).
Definition bind {T A B} (m : M T A) (f : A -> M T B) : M T B :=
  fun h => match m h with Some (x, h') => f x h' | None => None end.
Definition fail {T A} : M T A := fun _ => None.

Notation "'do' x <- m ; k" := (bind m (fun x => k))
  (at level 10, x name, m at level 100, k at level 200).
Notation "'do_' m ; k" := (bind m (fun _ => k))
  (at level 10, m at level 100, k at level 200).

Section RBTree.
Context {T : Type}.
Local Abbreviation Node_ := (Node_ T).
Local Abbreviation M := (M T).

Definition load (p : ptr) : M Node_ := fun h =>
  match p with
  | Some a => match h !! a with Some n => Some (n, h) | None => None end
  | None => None
  end.
Definition store (p : ptr) (n : Node_) : M unit := fun h =>
  match p with
  | Some a => match h !! a with Some _ => Some (tt, <[a:=n]> h) | None => None end
  | None => None
  end.
Definition malloc (n : Node_) : M ptr := fun h =>
  let a := fresh (dom h) in Some (Some a, <[a:=n]> h).
Definition free (p : ptr) : M unit := fun h =>
  match p with
  | Some a => match h !! a with Some _ => Some (tt, delete a h) | None => None end
  | None => Some (tt, h)
  end.

Definition with_left (v : ptr) (n : Node_) : Node_ :=
  mkNode v (right n) (parent n) (size n) (black_height n) (black n) (value n).
Definition with_right (v : ptr) (n : Node_) : Node_ :=
  mkNode (left n) v (parent n) (size n) (black_height n) (black n) (value n).
Definition with_parent (v : ptr) (n : Node_) : Node_ :=
  mkNode (left n) (right n) v (size n) (black_height n) (black n) (value n).
Definition with_size (v : Z) (n : Node_) : Node_ :=
  mkNode (left n) (right n) (parent n) v (black_height n) (black n) (value n).
Definition with_black_height (v : Z) (n : Node_) : Node_ :=
  mkNode (left n) (right n) (parent n) (size n) v (black n) (value n).
Definition with_black (v : bool) (n : Node_) : Node_ :=
  mkNode (left n) (right n) (parent n) (size n) (black_height n) v (value n).
Definition with_value (v : option T) (n : Node_) : Node_ :=
  mkNode (left n) (right n) (parent n) (size n) (black_height n) (black n) v.

(** [p->f] and [p->f = v]. *)
Definition get {A} (f : Node_ -> A) (p : ptr) : M A :=
  do n <- load p; ret (f n).
Definition set {A} (w : A -> Node_ -> Node_) (p : ptr) (v : A) : M unit :=
  do n <- load p; store p (w v n).

(** [a == b] and [!p] on pointers. *)
Definition ptr_eqb (a b : ptr) : bool :=
  match a, b with
  | Some x, Some y => Pos.eqb x y
  | None, None => true
  | _, _ => false
  end.
Definition is_null (p : ptr) : bool :=
  match p with None => true | Some _ => false end.

(** The fresh node built by [Node_()]. *)
Definition new_Node_ (v : option T) : Node_ :=
  mkNode None None None 1 0 false v.
(** [Node_(const Node_& x, Node_* p)]. *)
Definition copy_Node_ (x : Node_) (p : ptr) : Node_ :=
  mkNode None None p (size x) (black_height x) (black x) (value x).

(** * Navigation ([namespace RBTreeBase_]) *)

Fixpoint First_ (fuel : nat) (nd : ptr) : M ptr :=
  match fuel with
  | O => fail
  | S fuel =>
    do l <- get left nd;
    if is_null l then ret nd else First_ fuel l
  end.

Fixpoint Last_ (fuel : nat) (nd : ptr) : M ptr :=
  match fuel with
  | O => fail
  | S fuel =>
    do r <- get right nd;
    if is_null r then ret nd else Last_ fuel r
  end.

Definition ConnectLeft_ (p ch : ptr) : M unit :=
  do_ set with_left p ch;
  if is_null ch then ret tt else set with_parent ch p.
Definition ConnectLeftNoCheck_ (p ch : ptr) : M unit :=
  do_ set with_left p ch; set with_parent ch p.
Definition ConnectRight_ (p ch : ptr) : M unit :=
  do_ set with_right p ch;
  if is_null ch then ret tt else set with_parent ch p.
Definition ConnectRightNoCheck_ (p ch : ptr) : M unit :=
  do_ set with_right p ch; set with_parent ch p.
Definition ConnectParent_ (orig n : ptr) : M unit :=
  do p <- get parent orig;
  do_ set with_parent n p;
  if is_null p then ret tt
  else
    do pl <- get left p;
    if ptr_eqb pl orig then set with_left p n else set with_right p n.
Definition ConnectParentNoCheck_ (orig n : ptr) : M unit :=
  do p <- get parent orig;
  do_ set with_parent n p;
  do pl <- get left p;
  if ptr_eqb pl orig then set with_left p n else set with_right p n.
Definition Size_ (nd : ptr) : M Z :=
  if is_null nd then ret 0 else get size nd.

(** [for (; nd->parent && nd->parent->right == nd; nd = nd->parent);] *)
Fixpoint climb_right (fuel : nat) (nd : ptr) : M ptr :=
  match fuel with
  | O => fail
  | S fuel =>
    do p <- get parent nd;
    if is_null p then ret nd
    else
      do pr <- get right p;
      if ptr_eqb pr nd then climb_right fuel p else ret nd
  end.
(** [for (; nd->parent && nd->parent->left == nd; nd = nd->parent);] *)
Fixpoint climb_left (fuel : nat) (nd : ptr) : M ptr :=
  match fuel with
  | O => fail
  | S fuel =>
    do p <- get parent nd;
    if is_null p then ret nd
    else
      do pl <- get left p;
      if ptr_eqb pl nd then climb_left fuel p else ret nd
  end.

Definition Next_ (fuel : nat) (nd : ptr) : M ptr :=
  do r <- get right nd;
  if is_null r then
    do nd <- climb_right fuel nd;
    get parent nd
  else First_ fuel r.
Definition Prev_ (fuel : nat) (nd : ptr) : M ptr :=
  do l <- get left nd;
  if is_null l then
    do nd <- climb_left fuel nd;
    get parent nd
  else Last_ fuel l.

Fixpoint Select_ (fuel : nat) (nd : ptr) (x : Z) : M ptr :=
  match fuel with
  | O => fail
  | S fuel =>
    do l <- get left nd;
    do sl <- Size_ l;
    if sl =? x then ret nd
    else if sl >? x then Select_ fuel l x
    else
      do r <- get right nd;
      Select_ fuel r (size_t (x - size_t (sl + 1)))
  end.

(** The [while] loop of the [x < 0] branch of [Advance_]; the result is
    [inl nd] when the loop returns [nd] from inside, [inr (nd, g)] when the
    loop condition fails. *)
Fixpoint Advance_back (fuel : nat) (nd : ptr) (g : Z) : M (ptr + ptr * Z) :=
  match fuel with
  | O => fail
  | S fuel' =>
    do l <- get left nd;
    do sl <- Size_ l;
    if sl <? g then
      let g := size_t (g - size_t (sl + 1)) in
      do nd <- climb_left fuel nd;
      do nd <- get parent nd;
      if g =? 0 then ret (inl nd) else Advance_back fuel' nd g
    else ret (inr (nd, g))
  end.
Fixpoint Advance_forth (fuel : nat) (nd : ptr) (g : Z) : M (ptr + ptr * Z) :=
  match fuel with
  | O => fail
  | S fuel' =>
    do r <- get right nd;
    do sr <- Size_ r;
    if sr <? g then
      let g := size_t (g - size_t (sr + 1)) in
      do nd <- climb_right fuel nd;
      do nd <- get parent nd;
      if g =? 0 then ret (inl nd) else Advance_forth fuel' nd g
    else ret (inr (nd, g))
  end.

Definition Advance_ (fuel : nat) (nd : ptr) (x : Z) : M ptr :=
  if x =? 0 then ret nd
  else if x <? 0 then
    do res <- Advance_back fuel nd (size_t (- x));
    match res with
    | inl nd => ret nd
    | inr (nd, g) =>
      do l <- get left nd;
      do sl <- Size_ l;
      Select_ fuel l (size_t (sl - g))
    end
  else
    do res <- Advance_forth fuel nd (size_t x);
    match res with
    | inl nd => ret nd
    | inr (nd, g) =>
      do r <- get right nd;
      Select_ fuel r (size_t (g - 1))
    end.

(** The [for] loop of [Order_]. *)
Fixpoint Order_loop (fuel : nat) (nd : ptr) (ans : Z) : M Z :=
  match fuel with
  | O => fail
  | S fuel =>
    do p <- get parent nd;
    if is_null p then ret ans
    else
      do pr <- get right p;
      if ptr_eqb pr nd then
        do pl <- get left p;
        do sl <- Size_ pl;
        Order_loop fuel p (size_t (ans + size_t (sl + 1)))
      else Order_loop fuel p ans
  end.
Definition Order_ (fuel : nat) (nd : ptr) : M Z :=
  do l <- get left nd;
  do ans <- Size_ l;
  Order_loop fuel nd ans.
Definition Difference_ (fuel : nat) (a b : ptr) : M Z :=
  do oa <- Order_ fuel a;
  do ob <- Order_ fuel b;
  ret (ptrdiff_t (ptrdiff_t oa - ptrdiff_t ob)).

(** * Cursors: [Iterator_<T>] and [ConstIterator_<T>] hold one [Node_*]. *)
Record Iterator_ := mkIterator { ptr_ : ptr }.
Record ConstIterator_ := mkConstIterator { cptr_ : ptr }.

Definition Iterator_is_null (it : Iterator_) : bool := is_null (ptr_ it).
Definition Iterator_operator_bool (it : Iterator_) : bool := is_null (ptr_ it).
Definition ConstIterator_is_null (it : ConstIterator_) : bool := is_null (cptr_ it).
Definition ConstIterator_operator_bool (it : ConstIterator_) : bool :=
  is_null (cptr_ it).
(** [ConstIterator_(const Iterator_<T>& it)]. *)
Definition ConstIterator_of (it : Iterator_) : ConstIterator_ :=
  mkConstIterator (ptr_ it).

(** * [class RBTree<T>]

    A tree object holds one pointer, [head_], to its head node; member
    functions take the object and, where they assign [head_], return it. *)
Record RBTree := mkRBTree { head_ : ptr }.

(** [virtual void Pull_(NodeBase_* nd) const {}]: the augmentation hook, empty
    in this class. *)
Definition Pull_ (nd : ptr) : M unit := ret tt.

Definition PullSize_ (nd : ptr) : M unit :=
  do l <- get left nd;
  do sl <- Size_ l;
  do r <- get right nd;
  do sr <- Size_ r;
  do_ set with_size nd (size_t (size_t (sl + sr) + 1));
  Pull_ nd.
Definition PullSizeNoCheck_ (nd : ptr) : M unit :=
  do l <- get left nd;
  do sl <- get size l;
  do r <- get right nd;
  do sr <- get size r;
  do_ set with_size nd (size_t (size_t (sl + sr) + 1));
  Pull_ nd.

Fixpoint IncreaseSize_ (fuel : nat) (nd head : ptr) (sz : Z) : M ptr :=
  match fuel with
  | O => fail
  | S fuel =>
    do s <- get size nd;
    do_ set with_size nd (size_t (s + sz));
    do_ Pull_ nd;
    do p <- get parent nd;
    if ptr_eqb p head then ret nd else IncreaseSize_ fuel p head sz
  end.

Fixpoint DecreaseSize_ (fuel : nat) (this : RBTree) (nd : ptr) : M unit :=
  match fuel with
  | O => fail
  | S fuel =>
    if ptr_eqb nd (head_ this) then ret tt
    else
      do s <- get size nd;
      do_ set with_size nd (size_t (s - 1));
      do_ Pull_ nd;
      do p <- get parent nd;
      DecreaseSize_ fuel this p
  end.

Definition PaintBlack_ (nd : ptr) : M unit :=
  if is_null nd then ret tt
  else
    do b <- get black nd;
    do bh <- get black_height nd;
    do_ set with_black_height nd (uint8_t (bh + Z.b2z (negb b)));
    set with_black nd true.

(** [x->black_height += d] on the [uint8_t] field. *)
Definition add_black_height (nd : ptr) (d : Z) : M unit :=
  do bh <- get black_height nd;
  set with_black_height nd (uint8_t (bh + d)).
(** [x->size += d] on the [size_t] field. *)
Definition add_size (nd : ptr) (d : Z) : M unit :=
  do s <- get size nd;
  set with_size nd (size_t (s + d)).

(** The tail of Case 4 of [InsertRepair_], after the rotations. *)
Definition InsertRepair_finish (fuel : nat) (p g head : ptr) (sz : Z) : M ptr :=
  do_ PullSize_ g;
  do_ set with_black g false;
  do_ add_black_height g (-1);
  do_ PullSizeNoCheck_ p;
  do_ set with_black p true;
  do_ add_black_height p 1;
  do pp <- get parent p;
  if ptr_eqb pp head then ret p
  else IncreaseSize_ fuel pp head sz.

(** The [while (true)] loop of [InsertRepair_]. *)
Fixpoint InsertRepair_loop (fuel : nat) (nd head : ptr) (sz : Z) : M ptr :=
  match fuel with
  | O => fail
  | S fuel =>
    do p <- get parent nd;
    if ptr_eqb p head then (* Case 1 *)
      do_ set with_black nd true;
      do_ add_black_height nd 1;
      ret nd
    else
    do pb <- get black p;
    if pb then (* Case 2 *)
      IncreaseSize_ fuel p head sz
    else
    do g <- get parent p;
    do gl <- get left g;
    do u <- (if ptr_eqb gl p then get right g else get left g);
    do ub <- (if is_null u then ret true else get black u);
    if ub then (* Case 4 *)
      do gl <- get left g;
      if ptr_eqb p gl then
        do pr <- get right p;
        do np <-
          (if ptr_eqb nd pr then
             (* std::swap(nd, p) *)
             let '(nd, p) := (p, nd) in
             do pl <- get left p;
             do_ ConnectRight_ nd pl;
             do_ ConnectLeftNoCheck_ p nd;
             do_ PullSize_ nd;
             ret p
           else ret p);
        let p := np in
        do_ ConnectParent_ g p;
        do pr <- get right p;
        do_ ConnectLeft_ g pr;
        do_ ConnectRightNoCheck_ p g;
        InsertRepair_finish fuel p g head sz
      else
        do pl <- get left p;
        do np <-
          (if ptr_eqb nd pl then
             let '(nd, p) := (p, nd) in
             do pr <- get right p;
             do_ ConnectLeft_ nd pr;
             do_ ConnectRightNoCheck_ p nd;
             do_ PullSize_ nd;
             ret p
           else ret p);
        let p := np in
        do_ ConnectParent_ g p;
        do pl <- get left p;
        do_ ConnectRight_ g pl;
        do_ ConnectLeftNoCheck_ p g;
        InsertRepair_finish fuel p g head sz
    else (* Case 3 *)
      do_ add_size p sz;
      do_ set with_black p true;
      do_ add_black_height p 1;
      do_ Pull_ p;
      do_ add_size g sz;
      do_ set with_black g false;
      do_ Pull_ g;
      do_ set with_black u true;
      do_ add_black_height u 1;
      InsertRepair_loop fuel g head sz
  end.

Definition InsertRepair_ (fuel : nat) (nd head : ptr) (sz : Z) : M ptr :=
  do_ Pull_ nd;
  InsertRepair_loop fuel nd head sz.

(** [!x || x->black] *)
Definition null_or_black (x : ptr) : M bool :=
  if is_null x then ret true else get black x.
(** [x && !x->black] *)
Definition is_red (x : ptr) : M bool :=
  if is_null x then ret false else do b <- get black x; ret (negb b).

(** The [while (true)] loop of [RemoveRepair_]: [None] when the function
    returns from inside the loop, [Some (p, s)] when the loop is left by
    [break]. *)
Fixpoint RemoveRepair_loop (fuel : nat) (this : RBTree) (p s : ptr)
  : M (option (ptr * ptr)) :=
  match fuel with
  | O => fail
  | S fuel =>
    do sb <- get black s;
    if negb sb then (* Case 2 *)
      do_ set with_black p false;
      do_ add_black_height p (-1);
      do_ set with_black s true;
      do_ add_black_height s 1;
      do_ ConnectParentNoCheck_ p s;
      do pl <- get left p;
      if ptr_eqb pl s then
        do sr <- get right s;
        do_ ConnectLeft_ p sr;
        do_ ConnectRightNoCheck_ s p;
        do_ PullSize_ p;
        do_ PullSize_ s;
        do_ add_size p 1;
        do_ add_size s 1;
        do s <- get left p;
        ret (Some (p, s))
      else
        do sl <- get left s;
        do_ ConnectRight_ p sl;
        do_ ConnectLeftNoCheck_ s p;
        do_ PullSize_ p;
        do_ PullSize_ s;
        do_ add_size p 1;
        do_ add_size s 1;
        do s <- get right p;
        ret (Some (p, s))
    else
    do pb <- get black p;
    do c <-
      (if pb then
         do sl <- get left s;
         do slb <- null_or_black sl;
         if slb then
           do sr <- get right s;
           null_or_black sr
         else ret false
       else ret false);
    if c then (* Case 3 *)
      do_ set with_black s false;
      do_ add_black_height s (-1);
      do_ add_size p (-1);
      do_ add_black_height p (-1);
      do_ Pull_ p;
      let nd := p in
      do p <- get parent nd;
      if ptr_eqb p (head_ this) then ret None (* Case 1 *)
      else
        do pl <- get left p;
        do s <- (if ptr_eqb pl nd then get right p else get left p);
        RemoveRepair_loop fuel this p s
    else ret (Some (p, s))
  end.

(** The part of [RemoveRepair_] after its loop (Cases 4, 5 and 6). *)
Definition RemoveRepair_finish (fuel : nat) (this : RBTree) (p s : ptr)
  : M unit :=
  (* s is black here *)
  do pl <- get left p;
  do sin <- (if ptr_eqb pl s then get right s else get left s);
  do sout <- (if ptr_eqb pl s then get left s else get right s);
  do soutr <- is_red sout;
  if soutr then (* Case 6 *)
    do_ set with_black sout true;
    do_ add_black_height sout 1;
    do pb <- get black p;
    do_ add_black_height s (Z.b2z pb);
    do pb <- get black p;
    do_ add_black_height p (- Z.b2z pb);
    do pb <- get black p;
    do_ set with_black s pb;
    do_ set with_black p true;
    do_ ConnectParentNoCheck_ p s;
    do pl <- get left p;
    do_ (if ptr_eqb pl s then
           do sr <- get right s;
           do_ ConnectLeft_ p sr;
           ConnectRightNoCheck_ s p
         else
           do sl <- get left s;
           do_ ConnectRight_ p sl;
           ConnectLeftNoCheck_ s p);
    do_ PullSize_ p;
    do_ PullSizeNoCheck_ s;
    do sp <- get parent s;
    DecreaseSize_ fuel this sp
  else
  do sinr <- is_red sin;
  if sinr then (* Case 5 *)
    do pb <- get black p;
    do_ add_black_height p (- Z.b2z pb);
    do pb <- get black p;
    do_ add_black_height sin (1 + Z.b2z pb);
    do pb <- get black p;
    do_ set with_black sin pb;
    do_ set with_black p true;
    do_ ConnectParentNoCheck_ p sin;
    do pl <- get left p;
    do_ (if ptr_eqb pl s then
           do sinl <- get left sin;
           do_ ConnectRight_ s sinl;
           do sinr <- get right sin;
           do_ ConnectLeft_ p sinr;
           do_ ConnectRightNoCheck_ sin p;
           ConnectLeftNoCheck_ sin s
         else
           do sinr <- get right sin;
           do_ ConnectLeft_ s sinr;
           do sinl <- get left sin;
           do_ ConnectRight_ p sinl;
           do_ ConnectLeftNoCheck_ sin p;
           ConnectRightNoCheck_ sin s);
    do_ PullSize_ p;
    do_ PullSize_ s;
    do_ PullSizeNoCheck_ sin;
    do sinp <- get parent sin;
    DecreaseSize_ fuel this sinp
  else (* Case 4, p is red here (or it will be Case 3) *)
    do_ set with_black s false;
    do_ add_black_height s (-1);
    do_ set with_black p true;
    DecreaseSize_ fuel this p.

Definition RemoveRepair_ (fuel : nat) (this : RBTree) (p s : ptr) : M unit :=
  if ptr_eqb p (head_ this) then ret tt
  else
  do res <- RemoveRepair_loop fuel this p s;
  match res with
  | None => ret tt
  | Some (p, s) => RemoveRepair_finish fuel this p s
  end.

Definition InsertBefore_ (fuel : nat) (this : RBTree) (a b : ptr) : M unit :=
  do_ (if negb (ptr_eqb a (head_ this)) then
         do al <- get left a;
         if is_null al then ConnectLeftNoCheck_ a b
         else
           do lst <- Last_ fuel al;
           ConnectRightNoCheck_ lst b
       else
         do hl <- get left (head_ this);
         if is_null hl then ConnectLeftNoCheck_ (head_ this) b
         else
           do lst <- Last_ fuel hl;
           ConnectRightNoCheck_ lst b);
  do_ InsertRepair_ fuel b (head_ this) 1;
  ret tt.

(** [Sup_(x)->value]: the head node has no value member. *)
Definition get_value (x : ptr) : M T :=
  do v <- get value x;
  match v with Some v => ret v | None => fail end.

(** The part of [Remove_] that follows the exchange of values: node [a],
    which has at most one child, is taken out of the tree. *)
Definition Remove_unlink (fuel : nat) (this : RBTree) (a : ptr) : M unit :=
  do ab <- get black a;
  if negb ab then (* no child *)
    do ap <- get parent a;
    do apl <- get left ap;
    do_ (if ptr_eqb apl a then set with_left ap None
         else set with_right ap None);
    do ap <- get parent a;
    DecreaseSize_ fuel this ap
  else
    do al <- get left a;
    do child <- (if negb (is_null al) then ret al else get right a);
    if negb (is_null child) then (* child must be red *)
      do_ set with_black child true;
      do_ add_black_height child 1;
      do_ ConnectParent_ a child;
      do cp <- get parent child;
      DecreaseSize_ fuel this cp
    else
      do ap <- get parent a;
      do apl <- get left ap;
      if ptr_eqb apl a then (* no child *)
        do_ set with_left ap None;
        do ap <- get parent a;
        do apr <- get right ap;
        RemoveRepair_ fuel this ap apr
      else
        do_ set with_right ap None;
        do ap <- get parent a;
        do apl <- get left ap;
        RemoveRepair_ fuel this ap apl.

Definition Remove_ (fuel : nat) (this : RBTree) (a : ptr) : M ptr :=
  do al <- get left a;
  do ar <- get right a;
  do a <-
    (if negb (is_null al) && negb (is_null ar) then
       do tmp <- Last_ fuel al;
       (* swap(Sup_(tmp)->value, Sup_(a)->value) *)
       do vt <- get_value tmp;
       do va <- get_value a;
       do_ set with_value tmp (Some va);
       do_ set with_value a (Some vt);
       ret tmp
     else ret a);
  do_ Remove_unlink fuel this a;
  ret a.

(** [for (; !r->black || l->black_height != r->black_height; r = r->left);] *)
Fixpoint Merge_descend_left (fuel : nat) (l r : ptr) : M ptr :=
  match fuel with
  | O => fail
  | S fuel =>
    do rb <- get black r;
    do c <-
      (if negb rb then ret true
       else
         do lbh <- get black_height l;
         do rbh <- get black_height r;
         ret (negb (lbh =? rbh)));
    if c then
      do rl <- get left r;
      Merge_descend_left fuel l rl
    else ret r
  end.
(** [for (; !l->black || l->black_height != r->black_height; l = l->right);] *)
Fixpoint Merge_descend_right (fuel : nat) (l r : ptr) : M ptr :=
  match fuel with
  | O => fail
  | S fuel =>
    do lb <- get black l;
    do c <-
      (if negb lb then ret true
       else
         do lbh <- get black_height l;
         do rbh <- get black_height r;
         ret (negb (lbh =? rbh)));
    if c then
      do lr <- get right l;
      Merge_descend_right fuel lr r
    else ret l
  end.

Definition Merge_ (fuel : nat) (l m r : ptr) : M ptr :=
  if is_null l then
    do_ set with_right m None;
    do_ set with_left m None;
    do_ set with_size m 1;
    if is_null r then
      do_ set with_black m true;
      do_ set with_black_height m 1;
      ret m
    else
      do_ set with_black m false;
      do_ set with_black_height m 0;
      do fr <- First_ fuel r;
      do_ ConnectLeftNoCheck_ fr m;
      do_ set with_parent r None;
      InsertRepair_ fuel m None 1
  else if is_null r then
    do_ set with_right m None;
    do_ set with_left m None;
    do_ set with_size m 1;
    do_ set with_black m false;
    do_ set with_black_height m 0;
    do ll <- Last_ fuel l;
    do_ ConnectRightNoCheck_ ll m;
    do_ set with_parent l None;
    InsertRepair_ fuel m None 1
  else
  do lbh <- get black_height l;
  do rbh <- get black_height r;
  if lbh =? rbh then
    do_ ConnectLeftNoCheck_ m l;
    do_ ConnectRightNoCheck_ m r;
    do_ PullSizeNoCheck_ m;
    do_ set with_black m true;
    do lbh <- get black_height l;
    do_ set with_black_height m (uint8_t (lbh + 1));
    ret m
  else if lbh <? rbh then
    let ret_ := r in
    do r <- Merge_descend_left fuel l r;
    do_ ConnectParentNoCheck_ r m;
    do_ ConnectLeftNoCheck_ m l;
    do_ ConnectRightNoCheck_ m r;
    do_ PullSizeNoCheck_ m;
    do_ set with_black m false;
    do lbh <- get black_height l;
    do_ set with_black_height m lbh;
    do_ set with_parent ret_ None;
    do ls <- get size l;
    InsertRepair_ fuel m None (size_t (ls + 1))
  else
    let ret_ := l in
    do l <- Merge_descend_right fuel l r;
    do_ ConnectParentNoCheck_ l m;
    do_ ConnectLeftNoCheck_ m l;
    do_ ConnectRightNoCheck_ m r;
    do_ PullSizeNoCheck_ m;
    do_ set with_black m false;
    do lbh <- get black_height l;
    do_ set with_black_height m lbh;
    do_ set with_parent ret_ None;
    do rs <- get size r;
    InsertRepair_ fuel m None (size_t (rs + 1)).

(** The [while (p != head_)] loop of [Split_]. *)
Fixpoint Split_loop (fuel : nat) (this : RBTree) (nd p left_ right_ : ptr)
  : M (ptr * ptr) :=
  match fuel with
  | O => fail
  | S fuel' =>
    if ptr_eqb p (head_ this) then ret (left_, right_)
    else
      do pl <- get left p;
      let is_left := ptr_eqb pl nd in
      let nd := p in
      do p <- get parent p;
      if is_left then
        do ndr <- get right nd;
        do_ PaintBlack_ ndr;
        do ndr <- get right nd;
        do right_ <- Merge_ fuel right_ nd ndr;
        Split_loop fuel' this nd p left_ right_
      else
        do ndl <- get left nd;
        do_ PaintBlack_ ndl;
        do ndl <- get left nd;
        do left_ <- Merge_ fuel ndl nd left_;
        Split_loop fuel' this nd p left_ right_
  end.

Definition Split_ (fuel : nat) (this : RBTree) (nd : ptr) (pivot : bool)
  : M (ptr * ptr) :=
  do p <- get parent nd;
  do left_ <- get left nd;
  do right_ <- get right nd;
  do_ PaintBlack_ left_;
  do_ PaintBlack_ right_;
  do right_ <- (if pivot then Merge_ fuel None nd right_ else ret right_);
  Split_loop fuel this nd p left_ right_.

(** The [while (now)] loop of [PartitionBound_]. *)
Fixpoint PartitionBound_loop (fuel : nat) (func : T -> bool) (now last : ptr)
  : M ptr :=
  match fuel with
  | O => fail
  | S fuel =>
    if is_null now then ret last
    else
      do val <- get_value now;
      if func val then
        do r <- get right now;
        PartitionBound_loop fuel func r last
      else
        do l <- get left now;
        PartitionBound_loop fuel func l now
  end.
Definition PartitionBound_ (fuel : nat) (this : RBTree) (func : T -> bool)
  : M ptr :=
  do now <- get left (head_ this);
  PartitionBound_loop fuel func now (head_ this).

Fixpoint PartitionBoundIter_loop (fuel : nat) (func : ConstIterator_ -> bool)
  (now last : ptr) : M ptr :=
  match fuel with
  | O => fail
  | S fuel =>
    if is_null now then ret last
    else if func (mkConstIterator now) then
      do r <- get right now;
      PartitionBoundIter_loop fuel func r last
    else
      do l <- get left now;
      PartitionBoundIter_loop fuel func l now
  end.
Definition PartitionBoundIter_ (fuel : nat) (this : RBTree)
  (func : ConstIterator_ -> bool) : M ptr :=
  do now <- get left (head_ this);
  PartitionBoundIter_loop fuel func now (head_ this).

Definition GenNode_ (val : T) : M ptr := malloc (new_Node_ (Some val)).
(** [GenNode_(NodeType_* x, NodeBase_* p)] *)
Definition GenNode_copy (x p : ptr) : M ptr :=
  do n <- load x;
  malloc (copy_Node_ n p).
Definition FreeNode_ (nd : ptr) : M unit :=
  do_ load nd;
  free nd.

(** The [while (true)] loop of [ClearTree_(NodeBase_* nd)]. *)
Fixpoint ClearTree_loop (fuel : nat) (nd now : ptr) : M unit :=
  match fuel with
  | O => fail
  | S fuel =>
    let tmp := now in
    do l <- get left now;
    if negb (is_null l) then
      do_ set with_left tmp None;
      ClearTree_loop fuel nd l
    else
    do r <- get right now;
    if negb (is_null r) then
      do_ set with_right tmp None;
      ClearTree_loop fuel nd r
    else if ptr_eqb now nd then ret tt
    else
      do p <- get parent now;
      do_ FreeNode_ tmp;
      ClearTree_loop fuel nd p
  end.
Definition ClearTree_ (fuel : nat) (this : RBTree) : M unit :=
  ClearTree_loop fuel (head_ this) (head_ this).

(** The [while (true)] loop of [CopyTree_]. *)
Fixpoint CopyTree_loop (fuel : nat) (orig dest now : ptr) : M unit :=
  match fuel with
  | O => fail
  | S fuel =>
    do dl <- get left dest;
    do nl <- get left now;
    if is_null dl && negb (is_null nl) then
      do c <- GenNode_copy nl dest;
      do_ set with_left dest c;
      CopyTree_loop fuel orig c nl
    else
    do dr <- get right dest;
    do nr <- get right now;
    if is_null dr && negb (is_null nr) then
      do c <- GenNode_copy nr dest;
      do_ set with_right dest c;
      CopyTree_loop fuel orig c nr
    else if ptr_eqb now orig then ret tt
    else
      do dp <- get parent dest;
      do np <- get parent now;
      CopyTree_loop fuel orig dp np
  end.
Definition CopyTree_ (fuel : nat) (dest orig : ptr) : M unit :=
  CopyTree_loop fuel orig dest orig.

Definition Init_ : M RBTree :=
  do h <- malloc (new_Node_ None);
  ret (mkRBTree h).

(** ** Public members *)

(** [RBTree()] *)
Definition RBTree_new : M RBTree := Init_.
(** [RBTree(RBTree&& tree)]: the new object and the moved-from [tree]. *)
Definition RBTree_move (tree : RBTree) : M (RBTree * RBTree) :=
  do this <- Init_;
  (* std::swap(head_, tree.head_) *)
  ret (mkRBTree (head_ tree), mkRBTree (head_ this)).
(** [~RBTree()] *)
Definition RBTree_destroy (fuel : nat) (this : RBTree) : M unit :=
  do_ ClearTree_ fuel this;
  free (head_ this).

(** [RBTree& operator=(const RBTree& tree)] *)
Definition copy_assign (fuel : nat) (this tree : RBTree) : M unit :=
  do_ ClearTree_ fuel this;
  CopyTree_ fuel (head_ this) (head_ tree).
(** [RBTree& operator=(RBTree&& tree)]: the two objects after the call. *)
Definition move_assign (this tree : RBTree) : M (RBTree * RBTree) :=
  (* std::swap(head_, tree.head_) *)
  ret (mkRBTree (head_ tree), mkRBTree (head_ this)).

Definition begin_ (fuel : nat) (this : RBTree) : M Iterator_ :=
  do f <- First_ fuel (head_ this);
  ret (mkIterator f).
Definition end_ (this : RBTree) : Iterator_ := mkIterator (head_ this).

Definition empty (this : RBTree) : M bool :=
  do l <- get left (head_ this);
  ret (is_null l).
Definition size_ (this : RBTree) : M Z :=
  do l <- get left (head_ this);
  Size_ l.

(** [operator[](size_type x)] *)
Definition at_ (fuel : nat) (this : RBTree) (x : Z) : M T :=
  do l <- get left (head_ this);
  do nd <- Select_ fuel l x;
  get_value nd.
Definition front (fuel : nat) (this : RBTree) : M T :=
  do l <- get left (head_ this);
  do nd <- First_ fuel l;
  get_value nd.
Definition back (fuel : nat) (this : RBTree) : M T :=
  do l <- get left (head_ this);
  do nd <- Last_ fuel l;
  get_value nd.
Definition partition_bound (fuel : nat) (this : RBTree) (func : T -> bool)
  : M Iterator_ :=
  do r <- PartitionBound_ fuel this func;
  ret (mkIterator r).
Definition iter_partition_bound (fuel : nat) (this : RBTree)
  (func : ConstIterator_ -> bool) : M Iterator_ :=
  do r <- PartitionBoundIter_ fuel this func;
  ret (mkIterator r).

Definition push_back (fuel : nat) (this : RBTree) (val : T) : M unit :=
  do b <- GenNode_ val;
  InsertBefore_ fuel this (head_ this) b.
Definition push_front (fuel : nat) (this : RBTree) (val : T) : M unit :=
  do b <- GenNode_ val;
  do f <- First_ fuel (head_ this);
  InsertBefore_ fuel this f b.
Definition pop_back (fuel : nat) (this : RBTree) : M unit :=
  do l <- get left (head_ this);
  do lst <- Last_ fuel l;
  do a <- Remove_ fuel this lst;
  FreeNode_ a.
Definition pop_front (fuel : nat) (this : RBTree) : M unit :=
  do l <- get left (head_ this);
  do fst <- First_ fuel l;
  do a <- Remove_ fuel this fst;
  FreeNode_ a.
(** [insert(iterator it, const T& val)]; [emplace] builds the node from
    constructor arguments and is otherwise the same. *)
Definition insert_ (fuel : nat) (this : RBTree) (it : Iterator_) (val : T)
  : M Iterator_ :=
  do p <- GenNode_ val;
  do_ InsertBefore_ fuel this (ptr_ it) p;
  ret (mkIterator p).
Definition erase (fuel : nat) (this : RBTree) (it : Iterator_) : M unit :=
  do a <- Remove_ fuel this (ptr_ it);
  FreeNode_ a.
Definition clear (fuel : nat) (this : RBTree) : M unit := ClearTree_ fuel this.

(** [void swap(RBTree& x)] *)
Definition swap (this x : RBTree) : M (RBTree * RBTree) :=
  ret (mkRBTree (head_ x), mkRBTree (head_ this)).

Definition insert_merge (fuel : nat) (this tree : RBTree) (val : T) : M unit :=
  do l <- get left (head_ this);
  do m <- GenNode_ val;
  do r <- get left (head_ tree);
  do root <- Merge_ fuel l m r;
  do_ ConnectLeft_ (head_ this) root;
  set with_left (head_ tree) None.

(** [void merge(RBTree& tree)]: the two objects after the call. *)
Definition merge (fuel : nat) (this tree : RBTree) : M (RBTree * RBTree) :=
  do te <- empty tree;
  if te then ret (this, tree)
  else
  do e <- empty this;
  if e then ret (mkRBTree (head_ tree), mkRBTree (head_ this))
  else
  do tl <- get left (head_ tree);
  do ts <- get size tl;
  do l <- get left (head_ this);
  do s <- get size l;
  do pivot <-
    (if ts <? s then
       do tl <- get left (head_ tree);
       do f <- First_ fuel tl;
       Remove_ fuel tree f
     else
       do l <- get left (head_ this);
       do lst <- Last_ fuel l;
       Remove_ fuel this lst);
  do l <- get left (head_ this);
  do tl <- get left (head_ tree);
  do root <- Merge_ fuel l pivot tl;
  do_ ConnectLeft_ (head_ this) root;
  do_ set with_left (head_ tree) None;
  ret (this, tree).

Definition erase_and_split (fuel : nat) (this : RBTree) (it : Iterator_)
  : M RBTree :=
  do ret_ <- RBTree_new;
  do lr <- Split_ fuel this (ptr_ it) false;
  do_ FreeNode_ (ptr_ it);
  do_ ConnectLeft_ (head_ this) (fst lr);
  do_ ConnectLeft_ (head_ ret_) (snd lr);
  ret ret_.

Definition split (fuel : nat) (this : RBTree) (it : Iterator_) : M RBTree :=
  if ptr_eqb (ptr_ it) (ptr_ (end_ this)) then RBTree_new
  else
    do ret_ <- RBTree_new;
    do lr <- Split_ fuel this (ptr_ it) true;
    do_ ConnectLeft_ (head_ this) (fst lr);
    do_ ConnectLeft_ (head_ ret_) (snd lr);
    ret ret_.

(** [bool CheckRB_(NodeBase_* a) const] of the debug build. *)
Fixpoint CheckRB_ (fuel : nat) (a : ptr) : M bool :=
  match fuel with
  | O => fail
  | S fuel =>
    if is_null a then ret true
    else
      do n <- load a;
      let z := uint8_t (black_height n - Z.b2z (black n)) in
      let H := fun x : ptr => if is_null x then ret 0 else get black_height x in
      do hl <- H (left n);
      do hr <- H (right n);
      do redl <- is_red (left n);
      do redr <- is_red (right n);
      do lp <- (if is_null (left n) then ret true
                else do p <- get parent (left n); ret (ptr_eqb p a));
      do rp <- (if is_null (right n) then ret true
                else do p <- get parent (right n); ret (ptr_eqb p a));
      do sl <- Size_ (left n);
      do sr <- Size_ (right n);
      if negb (hl =? z) || negb (hr =? z) || (negb (black n) && (redl || redr))
         || negb lp || negb rp
         || negb (size n =? size_t (size_t (sl + sr) + 1))
      then ret false
      else
        do cl <- CheckRB_ fuel (left n);
        if cl then CheckRB_ fuel (right n) else ret false
  end.
(** [bool CheckRB_() const] *)
Definition check_ (fuel : nat) (this : RBTree) : M bool :=
  do l <- get left (head_ this);
  if is_null l then ret true
  else
    do b <- get black l;
    if b then CheckRB_ fuel l else ret false.

End RBTree.

(** * Abstract view of the node graph *)

Section Abs.
Context {T : Type}.
Local Abbreviation Node_ := (Node_ T).
Local Abbreviation heap := (gmap addr Node_).

(** A subtree as the store holds it: every node with its address and the
    fields the code maintains. *)
Inductive tree :=
| Leaf
| Node (l : tree) (a : addr) (sz bh : Z) (b : bool) (v : T) (r : tree).

Definition root (t : tree) : ptr :=
  match t with Leaf => None | Node _ a _ _ _ _ _ => Some a end.
Definition tsize (t : tree) : Z :=
  match t with Leaf => 0 | Node _ _ sz _ _ _ _ => sz end.
Definition bhf (t : tree) : Z :=
  match t with Leaf => 0 | Node _ _ _ bh _ _ _ => bh end.
(** Absent or black. *)
Definition is_black (t : tree) : bool :=
  match t with Leaf => true | Node _ _ _ _ b _ _ => b end.

Fixpoint elems (t : tree) : list (addr * T) :=
  match t with
  | Leaf => []
  | Node l a _ _ _ v r => elems l ++ (a, v) :: elems r
  end.
Fixpoint addrs (t : tree) : list addr :=
  match t with
  | Leaf => []
  | Node l a _ _ _ _ r => addrs l ++ a :: addrs r
  end.
Fixpoint values (t : tree) : list T :=
  match t with
  | Leaf => []
  | Node l _ _ _ _ v r => values l ++ v :: values r
  end.
Fixpoint count (t : tree) : nat :=
  match t with
  | Leaf => O
  | Node l _ _ _ _ _ r => S (count l + count r)
  end.
Fixpoint height (t : tree) : nat :=
  match t with
  | Leaf => O
  | Node l _ _ _ _ _ r => S (Nat.max (height l) (height r))
  end.

(** The store holds [t] below a node whose address is [par]: child pointers
    and parent pointers agree with the shape, fields with the annotations. *)
Fixpoint rep (h : heap) (par : ptr) (t : tree) : Prop :=
  match t with
  | Leaf => True
  | Node l a sz bh b v r =>
    h !! a = Some (mkNode (root l) (root r) par sz bh b (Some v))
    /\ rep h (Some a) l /\ rep h (Some a) r
  end.

(** The invariants of [CheckRB_] on one subtree: size, black height of both
    children, no red node with a red child. *)
Fixpoint valid (t : tree) : Prop :=
  match t with
  | Leaf => True
  | Node l a sz bh b v r =>
    sz = tsize l + tsize r + 1
    /\ bhf l = bh - Z.b2z b /\ bhf r = bh - Z.b2z b
    /\ (b = false -> is_black l = true /\ is_black r = true)
    /\ valid l /\ valid r
  end.

(** Number of black nodes along a path from the root of [t] to an absent
    child. *)
Inductive path_blacks : tree -> Z -> Prop :=
| pb_leaf : path_blacks Leaf 0
| pb_left l a sz bh b v r n :
    path_blacks l n -> path_blacks (Node l a sz bh b v r) (n + Z.b2z b)
| pb_right l a sz bh b v r n :
    path_blacks r n -> path_blacks (Node l a sz bh b v r) (n + Z.b2z b).

(** One step of a path from a node up to the root: the parent's fields and
    the sibling subtree. *)
Inductive frame :=
| InL (a : addr) (sz bh : Z) (b : bool) (v : T) (r : tree)
| InR (l : tree) (a : addr) (sz bh : Z) (b : bool) (v : T).

Definition fill (f : frame) (t : tree) : tree :=
  match f with
  | InL a sz bh b v r => Node t a sz bh b v r
  | InR l a sz bh b v => Node l a sz bh b v t
  end.
Definition faddr (f : frame) : addr :=
  match f with InL a _ _ _ _ _ => a | InR _ a _ _ _ _ => a end.
Definition fsize (f : frame) : Z :=
  match f with InL _ sz _ _ _ _ => sz | InR _ _ sz _ _ _ => sz end.
Definition fbh (f : frame) : Z :=
  match f with InL _ _ bh _ _ _ => bh | InR _ _ _ bh _ _ => bh end.
Definition fblack (f : frame) : bool :=
  match f with InL _ _ _ b _ _ => b | InR _ _ _ _ b _ => b end.
Definition fsib (f : frame) : tree :=
  match f with InL _ _ _ _ _ r => r | InR l _ _ _ _ _ => l end.
Definition fadd (d : Z) (f : frame) : frame :=
  match f with
  | InL a sz bh b v r => InL a (sz + d) bh b v r
  | InR l a sz bh b v => InR l a (sz + d) bh b v
  end.

(** The path from a node to the root, innermost frame first. *)
Definition ctx := list frame.

Fixpoint plug (c : ctx) (t : tree) : tree :=
  match c with
  | [] => t
  | f :: c => plug c (fill f t)
  end.

Definition parent_of (c : ctx) (top : ptr) : ptr :=
  match c with [] => top | f :: _ => Some (faddr f) end.
Fixpoint top_of (c : ctx) (a : addr) : addr :=
  match c with [] => a | f :: c => top_of c (faddr f) end.

Fixpoint caddrs (c : ctx) : list addr :=
  match c with
  | [] => []
  | f :: c => faddr f :: addrs (fsib f) ++ caddrs c
  end.

(** The store holds the path [c] above a hole whose root pointer is [child];
    [top] is the parent pointer of the outermost node. *)
Fixpoint rep_ctx (h : heap) (top : ptr) (c : ctx) (child : ptr) : Prop :=
  match c with
  | [] => True
  | InL a sz bh b v r :: c' =>
    h !! a = Some (mkNode child (root r) (parent_of c' top) sz bh b (Some v))
    /\ rep h (Some a) r /\ rep_ctx h top c' (Some a)
  | InR l a sz bh b v :: c' =>
    h !! a = Some (mkNode (root l) child (parent_of c' top) sz bh b (Some v))
    /\ rep h (Some a) l /\ rep_ctx h top c' (Some a)
  end.

(** [c] is the path above a well-formed hole: a subtree of size [hsz] and
    black height [hbh] whose root is black or absent when [hblack]. *)
Fixpoint ctx_valid (c : ctx) (hblack : bool) (hsz hbh : Z) : Prop :=
  match c with
  | [] => True
  | f :: c' =>
    fsize f = hsz + tsize (fsib f) + 1
    /\ hbh = fbh f - Z.b2z (fblack f)
    /\ bhf (fsib f) = fbh f - Z.b2z (fblack f)
    /\ (fblack f = false -> hblack = true /\ is_black (fsib f) = true)
    /\ valid (fsib f)
    /\ ctx_valid c' (fblack f) (fsize f) (fbh f)
  end.

(** The outermost node on the path is black. *)
Definition top_black (c : ctx) : Prop :=
  match last c with Some f => fblack f = true | None => True end.

(** What the head node of a tree object holds. *)
Definition head_node (rt : ptr) : Node_ := mkNode rt None None 1 0 false None.

(** The tree object [this] owns the nodes of [t]: its head node points to
    the root of [t], which points back. *)
Definition tree_rep (h : heap) (this : RBTree) (t : tree) : Prop :=
  exists hd, head_ this = Some hd
    /\ h !! hd = Some (head_node (root t))
    /\ rep h (Some hd) t
    /\ (hd ∉ addrs t)
    /\ NoDup (addrs t).

(** The five global invariants on the tree of one object. *)
Definition rb_tree (t : tree) : Prop := valid t /\ is_black t = true.

(** Total correctness: [m] run on [h] returns a result satisfying [Q]. *)
Definition wp {A} (m : M T A) (h : heap) (Q : A -> heap -> Prop) : Prop :=
  exists x h', m h = Some (x, h') /\ Q x h'.

End Abs.

Arguments tree : clear implicits.
Arguments frame : clear implicits.
Arguments ctx : clear implicits.

(** * Vocabulary of the specifications *)

Section Vocabulary.
Context {T : Type}.
Local Abbreviation Node_ := (Node_ T).
Local Abbreviation heap := (gmap addr Node_).
Local Abbreviation tree := (tree T).
Local Abbreviation ctx := (ctx T).
Implicit Types (h : heap) (t l r : tree) (c : ctx) (a : addr) (p : ptr).

(** ** Distinct addresses, in a form that decomposes along [++] and [::] *)

Definition disj (L1 L2 : list addr) : Prop := Forall (fun x => x ∉ L2) L1.

(** ** Heaps that agree outside a set of addresses *)

Definition ptr_list (p : ptr) : list addr :=
  match p with Some a => [a] | None => [] end.

Definition frame_eq (L : list addr) (h0 h' : heap) : Prop :=
  forall x, x ∉ L -> h' !! x = h0 !! x.

(** The head node of a tree object, when the code is given one. *)

Definition head_rec (h : heap) (head : ptr) (rt : ptr) : Prop :=
  match head with Some hd => h !! hd = Some (head_node rt) | None => True end.

Definition ctop (c : ctx) (a : addr) : addr := default a (faddr <$> last c).

(** What [InsertRepair_] establishes: the repaired tree [t'] replaces the
    tree [t0] in the store, with the same nodes in the same order. *)

Definition repaired (h : heap) (head : ptr) (t0 : tree) (L : list addr)
  (res : ptr) (h' : heap) : Prop :=
  exists t', res = root t' /\ is_Some (root t') /\ rep h' head t'
    /\ rb_tree t'
    /\ elems t' = elems t0
    /\ head_rec h' head (root t')
    /\ frame_eq (L ++ ptr_list head) h h'.

(** Paths that only go right (resp. left): the hole is the last (first)
    position of the in-order sequence. *)

Definition right_spine (c : ctx) : Prop :=
  Forall (fun f => match f with InR _ _ _ _ _ _ => True | _ => False end) c.

Definition left_spine (c : ctx) : Prop :=
  Forall (fun f => match f with InL _ _ _ _ _ _ => True | _ => False end) c.

(** The tree of [this] now holds the sequence [E]; nothing outside [L] has
    changed. *)

Definition inserted (h : heap) (this : RBTree) (E : list (addr * T))
  (L : list addr) (h' : heap) : Prop :=
  exists t', tree_rep h' this t' /\ rb_tree t' /\ elems t' = E
    /\ frame_eq L h h'.

(** What a public insertion establishes: a node [b] that was not allocated
    before now sits in the sequence. *)

Definition inserted_new (h : heap) (this : RBTree) (hd : addr) (t : tree)
  (E : addr -> list (addr * T)) (res : ptr) (h' : heap) : Prop :=
  exists b, res = Some b /\ h !! b = None
    /\ inserted h this (E b) (b :: hd :: addrs t) h'.

(** What [Merge_] establishes: a red-black tree whose sequence is the left
    sequence, the middle node, the right sequence. *)

Definition merged (h : heap) (tl : tree) (m : addr) (v : T) (tr : tree)
  (res : ptr) (h' : heap) : Prop :=
  exists t', res = root t' /\ is_Some (root t') /\ (exists par, rep h' par t')
    /\ rb_tree t' /\ elems t' = elems tl ++ (m, v) :: elems tr
    /\ frame_eq (m :: addrs tl ++ addrs tr) h h'.

(** What removal establishes: a red-black tree with sequence [E] hangs
    below the head node again. *)

Definition fixed (h : heap) (hd : addr) (E : list (addr * T)) (L : list addr)
  (h' : heap) : Prop :=
  exists t', rep h' (Some hd) t' /\ rb_tree t' /\ elems t' = E
    /\ h' !! hd = Some (head_node (root t')) /\ frame_eq (hd :: L) h h'.

(** Both children of a node are black (or absent). *)

Definition kids_black (t : tree) : bool :=
  match t with
  | Leaf => true
  | Node l _ _ _ _ _ r => is_black l && is_black r
  end.

(** The state in which the loop of [RemoveRepair_] is entered and left: the
    subtree [D] below the frame [fp] is one black node short, and the sizes
    stored on the path above it still count the removed node. *)

Definition deficient (h : heap) (hd : addr) (fp : frame T) (c : ctx) (D : tree)
  : Prop :=
  rep_ctx h (Some hd) (fp :: c) (root D) /\ rep h (Some (faddr fp)) D
  /\ NoDup (hd :: caddrs (fp :: c) ++ addrs D)
  /\ head_rec h (Some hd) (Some (ctop c (faddr fp)))
  /\ valid D /\ is_black D = true
  /\ ctx_valid (fp :: c) true (tsize D + 1) (bhf D + 1) /\ top_black (fp :: c)
  /\ Forall (fun f => fsize f < 2 ^ 64) (fp :: c).

Definition loop_exit (h : heap) (hd : addr) (E : list (addr * T))
  (L : list addr) (fuel : nat) (res : option (ptr * ptr)) (h' : heap) : Prop :=
  match res with
  | None => fixed h hd E L h'
  | Some (p', s') =>
    exists fp' c' D', p' = Some (faddr fp') /\ s' = root (fsib fp')
      /\ (length c' + 1 < fuel)%nat
      /\ deficient h' hd fp' c' D'
      /\ is_black (fsib fp') = true
      /\ (fblack fp' = true -> kids_black (fsib fp') = false)
      /\ elems (plug (fp' :: c') D') = E
      /\ (forall x, x ∈ caddrs (fp' :: c') ++ addrs D' -> x ∈ L)
      /\ frame_eq (hd :: L) h h'
  end.

(** The tree after [PaintBlack_] on its root. *)

Definition paint (t : tree) : tree :=
  match t with
  | Leaf => Leaf
  | Node l a sz bh b v r => Node l a sz (bh + Z.b2z (negb b)) true v r
  end.

(** The parts of the sequence before and after the hole of a context. *)

Fixpoint cpre (c : ctx) : list (addr * T) :=
  match c with
  | [] => []
  | InL _ _ _ _ _ _ :: c' => cpre c'
  | InR l a _ _ _ v :: c' => cpre c' ++ elems l ++ [(a, v)]
  end.

Fixpoint cpost (c : ctx) : list (addr * T) :=
  match c with
  | [] => []
  | InL a _ _ _ v r :: c' => (a, v) :: elems r ++ cpost c'
  | InR _ _ _ _ _ _ :: c' => cpost c'
  end.

(** What the loop of [Split_] returns: the two trees and their sequences. *)

Definition split_done (h : heap) (EL ER : list (addr * T)) (L : list addr)
  (res : ptr * ptr) (h' : heap) : Prop :=
  exists TL TR pL pR, res = (root TL, root TR)
    /\ rep h' pL TL /\ rep h' pR TR /\ rb_tree TL /\ rb_tree TR
    /\ elems TL = EL /\ elems TR = ER /\ frame_eq L h h'.

(** The result of [merge]: the receiver holds both sequences, the argument
    is empty. *)

Definition merge_done (h : heap) (E : list (addr * T)) (L : list addr)
  (res : RBTree * RBTree) (h' : heap) : Prop :=
  exists t', tree_rep h' (fst res) t' /\ rb_tree t' /\ elems t' = E
    /\ tree_rep h' (snd res) Leaf /\ frame_eq L h h'.

(** Cursor [a] designates position [i] of the tree below the head node
    [hd]; the head node itself is the position one past the end. *)

Inductive at_pos (t : tree) (hd : addr) : addr -> nat -> Prop :=
  | at_end : at_pos t hd hd (count t)
  | at_node c l a sz bh b v r :
      t = plug c (Node l a sz bh b v r) ->
      at_pos t hd a (length (cpre c) + count l).

(** Frames whose hole is the right, resp. left, child. *)

Definition is_InR (f : frame T) : bool :=
  match f with InR _ _ _ _ _ _ => true | InL _ _ _ _ _ _ => false end.

Definition is_InL (f : frame T) : bool := negb (is_InR f).

(** Where the binary search stops in a sequence [E] whose values are
    [P ++ F], the predicate being true on [P] and false on [F]: at the
    node of the first value of [F], or at [last] when there is none. *)

Definition bound_at (E : list (addr * T)) (P F : list T) (last res : ptr) : Prop :=
  match F with
  | [] => res = last
  | v :: F' => exists a E1 E2, res = Some a /\ E = E1 ++ (a, v) :: E2
      /\ E1.*2 = P /\ E2.*2 = F'
  end.

(** [h'] is [h] with the nodes of [L] freed. *)

Definition freed (L : list addr) h h' : Prop :=
  (forall x, x ∈ L -> h' !! x = None) /\ (forall x, x ∉ L -> h' !! x = h !! x).

(** The addresses a tree object owns: its head node and its nodes. *)

Definition footprint (o : RBTree) (t : tree) : list addr := ptr_list (head_ o) ++ addrs t.

(** The store holds the tree [t] for the object [o], with the invariants. *)

Definition good (h : heap) (o : RBTree) (t : tree) : Prop :=
  tree_rep h o t /\ rb_tree t /\ Z.of_nat (count t) <= max_size.

(** Every live object owns a red-black tree, and no two objects share a
    node. *)

Definition winv (h : heap) (objs : list RBTree) (ts : list tree) : Prop :=
  length objs = length ts
  /\ (forall i o t, objs !! i = Some o -> ts !! i = Some t -> good h o t)
  /\ (forall i j o1 t1 o2 t2, i <> j ->
        objs !! i = Some o1 -> ts !! i = Some t1 ->
        objs !! j = Some o2 -> ts !! j = Some t2 ->
        disj (footprint o1 t1) (footprint o2 t2)).

(** The store and the tree objects that are alive. *)

Record world := mkWorld { w_heap : heap; w_objs : list RBTree }.

(** A cursor of the tree [t] of [this]: a node of it, or the end. *)

Definition node_cursor (t : tree) (it : Iterator_) : Prop :=
  exists a, ptr_ it = Some a /\ a ∈ addrs t.

Definition cursor_of (this : RBTree) (t : tree) (it : Iterator_) : Prop :=
  it = end_ this \/ node_cursor t it.

(** The worlds the public operations build from nothing: constructing an
    empty tree, inserting, erasing, merging two different objects and
    splitting.  Each call is given enough fuel for its loops, and no tree
    grows beyond [max_size] elements. *)

Inductive reachable : world -> Prop :=
| reach_init : reachable (mkWorld ∅ [])
| reach_new w o h' :
    reachable w ->
    RBTree_new (w_heap w) = Some (o, h') ->
    reachable (mkWorld h' (w_objs w ++ [o]))
| reach_push_back w i this t fuel v h' :
    reachable w -> w_objs w !! i = Some this -> tree_rep (w_heap w) this t ->
    Z.of_nat (count t) < max_size -> (count t < fuel)%nat ->
    push_back fuel this v (w_heap w) = Some (tt, h') ->
    reachable (mkWorld h' (w_objs w))
| reach_push_front w i this t fuel v h' :
    reachable w -> w_objs w !! i = Some this -> tree_rep (w_heap w) this t ->
    Z.of_nat (count t) < max_size -> (count t < fuel)%nat ->
    push_front fuel this v (w_heap w) = Some (tt, h') ->
    reachable (mkWorld h' (w_objs w))
| reach_insert w i this t it fuel v res h' :
    reachable w -> w_objs w !! i = Some this -> tree_rep (w_heap w) this t ->
    cursor_of this t it ->
    Z.of_nat (count t) < max_size -> (count t < fuel)%nat ->
    insert_ fuel this it v (w_heap w) = Some (res, h') ->
    reachable (mkWorld h' (w_objs w))
| reach_erase w i this t it fuel h' :
    reachable w -> w_objs w !! i = Some this -> tree_rep (w_heap w) this t ->
    node_cursor t it -> (count t < fuel)%nat ->
    erase fuel this it (w_heap w) = Some (tt, h') ->
    reachable (mkWorld h' (w_objs w))
| reach_pop_back w i this t fuel h' :
    reachable w -> w_objs w !! i = Some this -> tree_rep (w_heap w) this t ->
    t <> Leaf -> (count t < fuel)%nat ->
    pop_back fuel this (w_heap w) = Some (tt, h') ->
    reachable (mkWorld h' (w_objs w))
| reach_pop_front w i this t fuel h' :
    reachable w -> w_objs w !! i = Some this -> tree_rep (w_heap w) this t ->
    t <> Leaf -> (count t < fuel)%nat ->
    pop_front fuel this (w_heap w) = Some (tt, h') ->
    reachable (mkWorld h' (w_objs w))
| reach_merge w i j this tree t1 t2 fuel res h' :
    reachable w -> i <> j ->
    w_objs w !! i = Some this -> w_objs w !! j = Some tree ->
    tree_rep (w_heap w) this t1 -> tree_rep (w_heap w) tree t2 ->
    Z.of_nat (count t1 + count t2) <= max_size ->
    (count t1 < fuel)%nat -> (count t2 < fuel)%nat ->
    merge fuel this tree (w_heap w) = Some (res, h') ->
    reachable (mkWorld h' (<[i := fst res]> (<[j := snd res]> (w_objs w))))
| reach_split w i this t it fuel ret h' :
    reachable w -> w_objs w !! i = Some this -> tree_rep (w_heap w) this t ->
    cursor_of this t it -> (2 * count t < fuel)%nat ->
    split fuel this it (w_heap w) = Some (ret, h') ->
    reachable (mkWorld h' (w_objs w ++ [ret])).

(** What the invariants say about one node [a] of a tree whose head node is
    [hd]: [c] is the path above it, [l] and [r] its subtrees. *)

Definition node_inv (h : heap) (hd : addr) (c : ctx) (l : tree) (a : addr)
  (sz bh : Z) (b : bool) (v : T) (r : tree) : Prop :=
  h !! a = Some (mkNode (root l) (root r) (parent_of c (Some hd)) sz bh b (Some v))
  /\ sz = tsize l + tsize r + 1
  /\ (b = false -> is_black l = true /\ is_black r = true)
  /\ (forall n, path_blacks (Node l a sz bh b v r) n -> n = bh)
  /\ bhf l = bhf r
  /\ (forall x (n : Node_), root l = Some x \/ root r = Some x ->
        h !! x = Some n -> parent n = Some a).

End Vocabulary.

Arguments world : clear implicits.

(** * The operators of the cursors

    [Iterator_<T>] and [ConstIterator_<T>] have the same members; the ones
    below are written for [Iterator_]. *)

Section Iterators.
Context {T : Type}.
Local Abbreviation M := (M T).

(** [operator*] *)
Definition Iterator_deref (it : Iterator_) : M T := get_value (ptr_ it).
(** [operator++()] and [operator--()] *)
Definition Iterator_inc (fuel : nat) (it : Iterator_) : M Iterator_ :=
  do p <- Next_ fuel (ptr_ it); ret (mkIterator p).
Definition Iterator_dec (fuel : nat) (it : Iterator_) : M Iterator_ :=
  do p <- Prev_ fuel (ptr_ it); ret (mkIterator p).
(** [operator+=], [operator+], and [operator-=], [operator-] with an offset *)
Definition Iterator_add (fuel : nat) (it : Iterator_) (x : Z) : M Iterator_ :=
  do p <- Advance_ fuel (ptr_ it) x; ret (mkIterator p).
Definition Iterator_sub (fuel : nat) (it : Iterator_) (x : Z) : M Iterator_ :=
  do p <- Advance_ fuel (ptr_ it) (ptrdiff_t (- x)); ret (mkIterator p).
(** [operator-] with a cursor *)
Definition Iterator_diff (fuel : nat) (a b : Iterator_) : M Z :=
  Difference_ fuel (ptr_ a) (ptr_ b).
(** [operator[]] of a cursor *)
Definition Iterator_index (fuel : nat) (it : Iterator_) (x : Z) : M T :=
  do p <- Advance_ fuel (ptr_ it) x; get_value p.
(** [operator==] and [operator!=] *)
Definition Iterator_eq (a b : Iterator_) : bool := ptr_eqb (ptr_ a) (ptr_ b).
Definition Iterator_ne (a b : Iterator_) : bool := negb (ptr_eqb (ptr_ a) (ptr_ b)).
(** [operator<], [operator<=], [operator>], [operator>=] *)
Definition Iterator_lt (fuel : nat) (a b : Iterator_) : M bool :=
  do d <- Difference_ fuel (ptr_ a) (ptr_ b); ret (d <? 0).
Definition Iterator_le (fuel : nat) (a b : Iterator_) : M bool :=
  do r <- Iterator_lt fuel b a; ret (negb r).
Definition Iterator_gt (fuel : nat) (a b : Iterator_) : M bool :=
  Iterator_lt fuel b a.
Definition Iterator_ge (fuel : nat) (a b : Iterator_) : M bool :=
  do r <- Iterator_lt fuel a b; ret (negb r).

End Iterators.

Section VocX.
Context {T : Type}.
Local Abbreviation Node_ := (Node_ T).
Local Abbreviation heap := (gmap addr Node_).
Local Abbreviation tree := (tree T).
Local Abbreviation ctx := (ctx T).
Implicit Types (h : heap) (t l r : tree) (c : ctx) (a : addr) (p : ptr).

(** The cursor [a] stands at index [i] of the sequence of [t]: it is the
    node of the element of that index, or the head node [hd] for the index
    one past the last. *)
Definition cursor_at (t : tree) (hd : addr) (a : addr) (i : nat) : Prop :=
  (a = hd /\ i = count t) \/ exists v, elems t !! i = Some (a, v).

(** [t'] is a copy of [t]: the same shape, the same annotations and the same
    values, node addresses apart. *)
Fixpoint copy_of (t t' : tree) : Prop :=
  match t, t' with
  | Leaf, Leaf => True
  | Node l _ sz bh b v r, Node l' _ sz' bh' b' v' r' =>
    sz' = sz /\ bh' = bh /\ b' = b /\ v' = v /\ copy_of l l' /\ copy_of r r'
  | _, _ => False
  end.

End VocX.

(** * Two concrete trees in one store *)

(** The tree [10, 20, 30] with head node 1 and the tree [40] with head
    node 5. *)

Definition ex_heap : gmap addr (Node_ Z) :=
  <[1%positive := head_node (Some 2%positive)]>
  (<[2%positive := mkNode (Some 3%positive) (Some 4%positive) (Some 1%positive) 3 1 true (Some 20)]>
  (<[3%positive := mkNode None None (Some 2%positive) 1 0 false (Some 10)]>
  (<[4%positive := mkNode None None (Some 2%positive) 1 0 false (Some 30)]>
  (<[5%positive := head_node (Some 6%positive)]>
  (<[6%positive := mkNode None None (Some 5%positive) 1 1 true (Some 40)]> ∅))))).

Definition ex_this : RBTree := mkRBTree (Some 1%positive).

Definition ex_other : RBTree := mkRBTree (Some 5%positive).

Definition ex_left : tree Z := Node Leaf 3%positive 1 0 false 10 Leaf.

Definition ex_right : tree Z := Node Leaf 4%positive 1 0 false 30 Leaf.

Definition ex_tree : tree Z := Node ex_left 2%positive 3 1 true 20 ex_right.

Definition ex_tree2 : tree Z := Node Leaf 6%positive 1 1 true 40 Leaf.

(** A world built by the operations: a new tree, then one [push_back]. *)

Definition ex_obj : RBTree := mkRBTree (Some 1%positive).

Definition ex_h1 : gmap addr (Node_ Z) := <[1%positive := head_node None]> ∅.

Definition ex_h2 : gmap addr (Node_ Z) :=
  match push_back 5 ex_obj 7 ex_h1 with Some (_, h) => h | None => ∅ end.

Definition ex_world : world Z := mkWorld ex_h2 [ex_obj].

(** The two trees and a third object, with head node 7, that has no
    element. *)

Definition ex_heap3 : gmap addr (Node_ Z) :=
  <[7%positive := head_node None]> ex_heap.

Definition ex_empty : RBTree := mkRBTree (Some 7%positive).

Section Base.

Context {T : Type}.

Local Abbreviation Node_ := (Node_ T).

Local Abbreviation heap := (gmap addr Node_).

Local Abbreviation tree := (tree T).

Local Abbreviation ctx := (ctx T).

Implicit Types (h : heap) (t l r : tree) (c : ctx) (a : addr) (p : ptr).

(** ** Machine integers *)

Lemma size_t_small x : 0 <= x <= max_size -> size_t x = x.
Proof. unfold size_t, max_size. intros. apply Z.mod_small. lia. Qed.

Lemma size_t_small' x : 0 <= x < 2 ^ 64 -> size_t x = x.
Proof. unfold size_t. intros. apply Z.mod_small. lia. Qed.

Lemma uint8_t_small x : 0 <= x < 256 -> uint8_t x = x.
Proof. unfold uint8_t. intros. apply Z.mod_small. lia. Qed.

Lemma ptrdiff_t_small x : - 2 ^ 63 <= x <= max_size -> ptrdiff_t x = x.
Proof.
  unfold ptrdiff_t, max_size. intros.
  rewrite Z.mod_small by lia. lia.
Qed.

Lemma pow2_le_63 k : 0 <= k -> 2 ^ k <= 2 ^ 63 -> k <= 63.
Proof. intros Hk H. apply (Z.pow_le_mono_r_iff 2); lia. Qed.

(** ** Pointer comparison *)

Lemma ptr_eqb_refl p : ptr_eqb p p = true.
Proof. destruct p; simpl; [apply Pos.eqb_refl | done]. Qed.

Lemma ptr_eqb_ne a b : a <> b -> ptr_eqb (Some a) (Some b) = false.
Proof. intros. simpl. by apply Pos.eqb_neq. Qed.

Lemma ptr_eqb_eq p q : ptr_eqb p q = true <-> p = q.
Proof.
  destruct p, q; simpl; try (split; congruence).
  rewrite Pos.eqb_eq. split; congruence.
Qed.

Lemma ptr_eqb_neq p q : ptr_eqb p q = false <-> p <> q.
Proof.
  rewrite <- ptr_eqb_eq. destruct (ptr_eqb p q); split; congruence.
Qed.

(** ** Rules of the total-correctness predicate *)

Lemma wp_bind {A B} (m : M T A) (k : A -> M T B) h Q :
  wp m h (fun x h' => wp (k x) h' Q) -> wp (bind m k) h Q.
Proof.
  intros (x & h' & Hm & y & h'' & Hk & HQ).
  exists y, h''. unfold bind. by rewrite Hm.
Qed.

Lemma wp_ret {A} (x : A) h (Q : A -> heap -> Prop) : Q x h -> wp (ret x) h Q.
Proof. intros. by exists x, h. Qed.

Lemma wp_mono {A} (m : M T A) h (Q Q' : A -> heap -> Prop) :
  wp m h Q -> (forall x h', Q x h' -> Q' x h') -> wp m h Q'.
Proof. intros (x & h' & Hm & HQ) HQQ. exists x, h'. eauto. Qed.

Lemma wp_load a n h Q :
  h !! a = Some n -> Q n h -> wp (load (Some a)) h Q.
Proof. intros Hl HQ. exists n, h. unfold load. by rewrite Hl. Qed.

Lemma wp_get {A} (f : Node_ -> A) a n h Q :
  h !! a = Some n -> Q (f n) h -> wp (get f (Some a)) h Q.
Proof.
  intros Hl HQ. exists (f n), h. unfold get, bind, load, ret. by rewrite Hl.
Qed.

Lemma wp_set {A} (w : A -> Node_ -> Node_) a v n h Q :
  h !! a = Some n -> Q tt (<[a := w v n]> h) -> wp (set w (Some a) v) h Q.
Proof.
  intros Hl HQ. exists tt, (<[a := w v n]> h).
  unfold set, bind, load, store. rewrite Hl. simpl. rewrite Hl. done.
Qed.

Lemma wp_set' {A} (w : A -> Node_ -> Node_) a v n n' h Q :
  h !! a = Some n -> n' = w v n -> Q tt (<[a := n']> h) ->
  wp (set w (Some a) v) h Q.
Proof. intros Hl -> HQ. by eapply wp_set. Qed.

Lemma wp_inv {A} (m : M T A) h Q :
  wp m h Q -> exists x h', m h = Some (x, h') /\ Q x h'.
Proof. done. Qed.

Lemma lookup_insert_ne' h a b (n : Node_) (o : option Node_) :
  a <> b -> h !! b = o -> <[a := n]> h !! b = o.
Proof. intros. by rewrite lookup_insert_ne. Qed.

(** ** Shape lemmas *)

Lemma addrs_elems t : addrs t = (elems t).*1.
Proof.
  induction t as [|l IHl a sz bh b v r IHr]; simpl; [done|].
  rewrite fmap_app. simpl. by rewrite IHl, IHr.
Qed.

Lemma values_elems t : values t = (elems t).*2.
Proof.
  induction t as [|l IHl a sz bh b v r IHr]; simpl; [done|].
  rewrite fmap_app. simpl. by rewrite IHl, IHr.
Qed.

Lemma count_addrs t : length (addrs t) = count t.
Proof.
  induction t as [|l IHl a sz bh b v r IHr]; simpl; [done|].
  rewrite length_app. simpl. lia.
Qed.

Lemma height_le_count t : (height t <= count t)%nat.
Proof. induction t; simpl; lia. Qed.

Lemma root_addrs t a : root t = Some a -> a ∈ addrs t.
Proof.
  destruct t; simpl; [done|]. intros [= ->].
  apply elem_of_app. right. apply elem_of_cons. by left.
Qed.

(** ** Frame lemmas for the representation predicates *)

Lemma rep_agree h h' par t :
  (forall x, x ∈ addrs t -> h' !! x = h !! x) -> rep h par t -> rep h' par t.
Proof.
  revert par. induction t as [|l IHl a sz bh b v r IHr]; simpl; [done|].
  intros par Hag (Ha & Hl & Hr). split_and!.
  - rewrite Hag; [done|]. apply elem_of_app. right. apply elem_of_cons. by left.
  - apply IHl; [|done]. intros. apply Hag. apply elem_of_app. by left.
  - apply IHr; [|done]. intros. apply Hag. apply elem_of_app. right.
    apply elem_of_cons. by right.
Qed.

Lemma rep_insert_notin h par t a (n : Node_) :
  a ∉ addrs t -> rep h par t -> rep (<[a := n]> h) par t.
Proof.
  intros Hn. apply rep_agree. intros x Hx.
  apply lookup_insert_ne. by intros ->.
Qed.

Lemma rep_delete_notin h par t a :
  a ∉ addrs t -> rep h par t -> rep (delete a h) par t.
Proof.
  intros Hn. apply rep_agree. intros x Hx.
  apply lookup_delete_ne. by intros ->.
Qed.

Lemma rep_ctx_agree h h' top c child :
  (forall x, x ∈ caddrs c -> h' !! x = h !! x) ->
  rep_ctx h top c child -> rep_ctx h' top c child.
Proof.
  revert child. induction c as [|f c IH]; simpl; [done|].
  intros child Hag. destruct f; simpl in *; intros (Ha & Hs & Hc); split_and!.
  - rewrite Hag; [done|]. apply elem_of_cons. by left.
  - eapply rep_agree; [|done]. intros. apply Hag.
    apply elem_of_cons. right. apply elem_of_app. by left.
  - apply IH; [|done]. intros. apply Hag.
    apply elem_of_cons. right. apply elem_of_app. by right.
  - rewrite Hag; [done|]. apply elem_of_cons. by left.
  - eapply rep_agree; [|done]. intros. apply Hag.
    apply elem_of_cons. right. apply elem_of_app. by left.
  - apply IH; [|done]. intros. apply Hag.
    apply elem_of_cons. right. apply elem_of_app. by right.
Qed.

Lemma rep_ctx_insert_notin h top c child a (n : Node_) :
  a ∉ caddrs c -> rep_ctx h top c child ->
  rep_ctx (<[a := n]> h) top c child.
Proof.
  intros Hn. apply rep_ctx_agree. intros x Hx.
  apply lookup_insert_ne. by intros ->.
Qed.

Lemma rep_plug h top c t :
  rep h top (plug c t) <->
  rep_ctx h top c (root t) /\ rep h (parent_of c top) t.
Proof.
  revert t. induction c as [|f c IH]; intros t; simpl; [tauto|].
  rewrite IH. destruct f; simpl; tauto.
Qed.

Lemma elems_plug c t :
  exists pre post, forall t', elems (plug c t') = pre ++ elems t' ++ post.
Proof.
  clear t. induction c as [|f c IH]; simpl.
  - exists [], []. intros. by rewrite app_nil_r.
  - destruct IH as (pre & post & IH). destruct f; simpl.
    + exists pre, ((a, v) :: elems r ++ post). intros.
      rewrite IH. simpl. by rewrite <- ?app_assoc.
    + exists (pre ++ elems l ++ [(a, v)]), post. intros.
      rewrite IH. simpl. rewrite <- ?app_assoc. simpl. by rewrite <- ?app_assoc.
Qed.

Lemma elems_plug_eq c t t' :
  elems t = elems t' -> elems (plug c t) = elems (plug c t').
Proof.
  intros E. destruct (elems_plug c t) as (pre & post & Hp).
  by rewrite !Hp, E.
Qed.

Lemma addrs_plug c t : addrs (plug c t) ≡ₚ caddrs c ++ addrs t.
Proof.
  revert t. induction c as [|f c IH]; intros t; simpl; [done|].
  rewrite IH. destruct f; simpl; solve_Permutation.
Qed.

Lemma root_plug c t a : root t = Some a -> root (plug c t) = Some (top_of c a).
Proof.
  revert t a. induction c as [|f c IH]; intros t a Ht; simpl; [done|].
  apply IH. by destruct f.
Qed.

(** ** Consequences of the invariants *)

Lemma valid_tsize t : valid t -> tsize t = Z.of_nat (count t).
Proof.
  induction t as [|l IHl a sz bh b v r IHr]; simpl; [done|].
  intros (-> & _ & _ & _ & Hl & Hr). rewrite IHl, IHr by done. lia.
Qed.

Lemma valid_tsize_nonneg t : valid t -> 0 <= tsize t.
Proof. intros. rewrite valid_tsize by done. lia. Qed.

Lemma valid_tsize_pos l a sz bh b v r :
  valid (Node l a sz bh b v r) -> 0 < sz.
Proof.
  intros H. apply valid_tsize in H. simpl in H. lia.
Qed.

Lemma valid_bhf_nonneg t : valid t -> 0 <= bhf t.
Proof.
  induction t as [|l IHl a sz bh b v r IHr]; simpl; [done|].
  intros (_ & E & _ & _ & Hl & _). specialize (IHl Hl). destruct b; simpl in *; lia.
Qed.

Lemma valid_pow t : valid t -> 2 ^ bhf t <= tsize t + 1.
Proof.
  induction t as [|l IHl a sz bh b v r IHr]; simpl; [done|].
  intros (-> & El & Er & _ & Hl & Hr).
  specialize (IHl Hl). specialize (IHr Hr).
  pose proof (valid_bhf_nonneg _ Hl).
  pose proof (valid_tsize_nonneg _ Hl). pose proof (valid_tsize_nonneg _ Hr).
  destruct b; simpl in *.
  - rewrite El in IHl. rewrite Er in IHr.
    replace bh with (Z.succ (bh - 1)) at 1 by lia.
    rewrite Z.pow_succ_r by lia. lia.
  - rewrite El, Z.sub_0_r in IHl. lia.
Qed.

Lemma valid_bhf_bound t : valid t -> tsize t <= max_size -> 0 <= bhf t <= 63.
Proof.
  intros Hv Hs. pose proof (valid_pow _ Hv). pose proof (valid_bhf_nonneg _ Hv).
  split; [done|]. apply pow2_le_63; [done|]. unfold max_size in Hs. lia.
Qed.

Lemma valid_path_blacks t n : valid t -> path_blacks t n -> n = bhf t.
Proof.
  intros Hv Hp. induction Hp; simpl in *.
  - done.
  - destruct Hv as (_ & E & _ & _ & Hl & _). specialize (IHHp Hl). lia.
  - destruct Hv as (_ & _ & E & _ & _ & Hr). specialize (IHHp Hr). lia.
Qed.

Lemma disj_sym L1 L2 : disj L1 L2 -> disj L2 L1.
Proof.
  unfold disj. rewrite !Forall_forall. intros H x Hx Hx'. by eapply H.
Qed.

Lemma disj_elem L1 L2 x : disj L1 L2 -> x ∈ L1 -> x ∉ L2.
Proof. unfold disj. rewrite Forall_forall. auto. Qed.

Lemma disj_nil_l L : disj [] L <-> True.
Proof. unfold disj. split; [done|]. intros. apply Forall_nil_2. Qed.

Lemma disj_nil_r L : disj L [] <-> True.
Proof.
  unfold disj. split; [done|]. intros _. apply Forall_forall. intros x _.
  apply not_elem_of_nil.
Qed.

Lemma disj_cons_l a L1 L2 : disj (a :: L1) L2 <-> (a ∉ L2) /\ disj L1 L2.
Proof. unfold disj. by rewrite Forall_cons. Qed.

Lemma disj_app_l L1 L1' L2 : disj (L1 ++ L1') L2 <-> disj L1 L2 /\ disj L1' L2.
Proof. unfold disj. by rewrite Forall_app. Qed.

Lemma disj_cons_r a L1 L2 : disj L1 (a :: L2) <-> (a ∉ L1) /\ disj L1 L2.
Proof.
  unfold disj. rewrite !Forall_forall. setoid_rewrite not_elem_of_cons.
  split.
  - intros H. split; [intros Ha; by destruct (H _ Ha)|]. intros x Hx. by apply H.
  - intros [Ha H] x Hx. split; [by intros ->|by apply H].
Qed.

Lemma disj_app_r L1 L2 L2' : disj L1 (L2 ++ L2') <-> disj L1 L2 /\ disj L1 L2'.
Proof.
  unfold disj. rewrite !Forall_forall. setoid_rewrite not_elem_of_app.
  split; [intros H; split; intros x Hx; by apply H|].
  intros [H1 H2] x Hx. split; [by apply H1|by apply H2].
Qed.

Lemma NoDup_app_disj (L1 L2 : list addr) :
  NoDup (L1 ++ L2) <-> NoDup L1 /\ disj L1 L2 /\ NoDup L2.
Proof. rewrite NoDup_app. unfold disj. by rewrite Forall_forall. Qed.

Lemma NoDup_nil_iff : NoDup (@nil addr) <-> True.
Proof. split; [done|]. intros. apply NoDup_nil_2. Qed.

Lemma not_elem_of_nil_iff (x : addr) : x ∉ [] <-> True.
Proof. split; [done|]. intros _. apply not_elem_of_nil. Qed.

Lemma ptr_eqb_ptr_list a p : a ∉ ptr_list p -> ptr_eqb (Some a) p = false.
Proof.
  destruct p as [b|]; simpl; [|done]. intros H. apply Pos.eqb_neq.
  intros ->. apply H. by apply list_elem_of_singleton.
Qed.

Lemma frame_eq_refl L h : frame_eq L h h.
Proof. by intros x _. Qed.

Lemma frame_eq_trans L h0 h1 h2 :
  frame_eq L h0 h1 -> frame_eq L h1 h2 -> frame_eq L h0 h2.
Proof. intros H1 H2 x Hx. by rewrite H2, H1. Qed.

Lemma frame_eq_mono L L' h0 h1 :
  frame_eq L h0 h1 -> (forall x, x ∈ L -> x ∈ L') -> frame_eq L' h0 h1.
Proof. intros H HL x Hx. apply H. auto. Qed.

Lemma rep_rebase L h0 h' par t :
  frame_eq L h0 h' -> disj (addrs t) L -> rep h0 par t -> rep h' par t.
Proof.
  intros Hfr Hd. apply rep_agree. intros x Hx. apply Hfr.
  by eapply disj_elem.
Qed.

Lemma rep_ctx_rebase L h0 h' top c child :
  frame_eq L h0 h' -> disj (caddrs c) L ->
  rep_ctx h0 top c child -> rep_ctx h' top c child.
Proof.
  intros Hfr Hd. apply rep_ctx_agree. intros x Hx. apply Hfr.
  by eapply disj_elem.
Qed.

Lemma ptr_eqb_root_ne_l t a : a ∉ addrs t -> ptr_eqb (root t) (Some a) = false.
Proof.
  intros Hn. apply ptr_eqb_neq. intros E. by apply root_addrs in E.
Qed.

Lemma ptr_eqb_root_ne_r t a : a ∉ addrs t -> ptr_eqb (Some a) (root t) = false.
Proof.
  intros Hn. apply ptr_eqb_neq. intros E. symmetry in E. by apply root_addrs in E.
Qed.

Lemma head_rec_insert h head rt a (n : Node_) :
  a ∉ ptr_list head -> head_rec h head rt -> head_rec (<[a := n]> h) head rt.
Proof.
  destruct head as [hd|]; simpl; [|done]. intros Hn Hh.
  rewrite lookup_insert_ne; [done|]. intros ->. apply Hn.
  by apply list_elem_of_singleton.
Qed.

Lemma head_rec_rebase L h0 h' head rt :
  frame_eq L h0 h' -> disj (ptr_list head) L ->
  head_rec h0 head rt -> head_rec h' head rt.
Proof.
  destruct head as [hd|]; simpl; [|done]. intros Hfr Hd Hh.
  rewrite Hfr; [done|]. eapply disj_elem; [exact Hd|].
  by apply list_elem_of_singleton.
Qed.

(** ** Reading through the root pointer of an abstract subtree *)

Lemma wp_Size_root h par t Q :
  rep h par t -> Q (tsize t) h -> wp (Size_ (root t)) h Q.
Proof.
  destruct t; simpl; intros Hr HQ; [by apply wp_ret|].
  eapply wp_get; [apply Hr|done].
Qed.

Lemma wp_null_or_black_root h par t Q :
  rep h par t -> Q (is_black t) h ->
  wp (if is_null (root t) then ret true else get black (root t)) h Q.
Proof.
  destruct t; simpl; intros Hr HQ; [by apply wp_ret|].
  eapply wp_get; [apply Hr|done].
Qed.

Lemma wp_set_parent_root h par0 par t Q :
  rep h par0 t -> NoDup (addrs t) ->
  (forall h', rep h' par t -> frame_eq (addrs t) h h' -> Q tt h') ->
  wp (if is_null (root t) then ret tt else set with_parent (root t) par) h Q.
Proof.
  destruct t as [|l a sz bh b v r]; simpl; intros Hr Hnd HQ.
  - apply wp_ret. apply HQ; [done|apply frame_eq_refl].
  - destruct Hr as (Ha & Hl & Hr).
    apply NoDup_app in Hnd as (_ & Hd & Hnd). apply NoDup_cons in Hnd as [Har _].
    assert (a ∉ addrs l).
    { intros Hin. apply (Hd _ Hin). apply elem_of_cons. by left. }
    eapply wp_set; [exact Ha|]. apply HQ.
    + split_and!; [apply lookup_insert_eq|by apply rep_insert_notin..].
    + intros x Hx. apply lookup_insert_ne. intros ->. apply Hx.
      apply elem_of_app. right. apply elem_of_cons. by left.
Qed.

End Base.

(** * Proof automation for straight-line store code *)

Ltac neq := solve [ assumption | apply not_eq_sym; assumption | congruence ].

Ltac destruct_ands :=
  repeat match goal with
  | H : _ /\ _ |- _ => destruct H
  | H : True |- _ => clear H
  end.

(** Decomposition of distinctness facts into atoms. *)

Ltac nodup_norm_in H :=
  cbn [caddrs addrs app faddr fsib ptr_list] in H;
  repeat first
    [ rewrite NoDup_cons in H | rewrite NoDup_app_disj in H
    | rewrite NoDup_nil_iff in H
    | rewrite disj_cons_l in H | rewrite disj_app_l in H
    | rewrite disj_cons_r in H | rewrite disj_app_r in H
    | rewrite disj_nil_l in H | rewrite disj_nil_r in H
    | rewrite not_elem_of_cons in H | rewrite not_elem_of_app in H
    | rewrite not_elem_of_nil_iff in H ].

Ltac nodup_norm :=
  cbn [caddrs addrs app faddr fsib ptr_list];
  repeat first
    [ rewrite NoDup_cons | rewrite NoDup_app_disj
    | rewrite NoDup_nil_iff
    | rewrite disj_cons_l | rewrite disj_app_l
    | rewrite disj_cons_r | rewrite disj_app_r
    | rewrite disj_nil_l | rewrite disj_nil_r
    | rewrite not_elem_of_cons | rewrite not_elem_of_app
    | rewrite not_elem_of_nil_iff ].

Ltac distinct_atom :=
  solve [ assumption | apply not_eq_sym; assumption
        | apply disj_sym; assumption | exact I ].

Ltac solve_distinct := nodup_norm; repeat split; distinct_atom.

Ltac nodup_all :=
  repeat match goal with
  | H : NoDup _ |- _ => progress (nodup_norm_in H); destruct_ands
  | H : _ ∉ _ |- _ => progress (nodup_norm_in H); destruct_ands
  | H : disj _ _ |- _ => progress (nodup_norm_in H); destruct_ands
  end.

Ltac lookup :=
  lazymatch goal with
  | |- <[?a := _]> _ !! ?a = _ => apply lookup_insert_eq
  | |- <[_ := _]> _ !! _ = _ => apply lookup_insert_ne'; [neq | lookup]
  | |- ?h !! ?a = _ =>
    first
      [ eassumption
      | match goal with
        | Hfr : frame_eq _ _ h |- _ =>
          etrans; [apply (Hfr a); solve_distinct | lookup]
        end ]
  end.

Ltac simpl_fields :=
  cbv beta;
  cbn [left right parent size black_height black value head_node
       is_null root tsize bhf is_black negb andb orb fst snd].

Ltac simpl_with :=
  cbv beta delta [with_left with_right with_parent with_size
                  with_black_height with_black with_value];
  cbn [left right parent size black_height black value].

Ltac simpl_ptr_eqb :=
  repeat first
    [ rewrite ptr_eqb_refl
    | rewrite ptr_eqb_ne by neq
    | rewrite ptr_eqb_ptr_list by distinct_atom
    | rewrite ptr_eqb_root_ne_l by distinct_atom
    | rewrite ptr_eqb_root_ne_r by distinct_atom
    | progress change (@ptr_eqb (Some ?a) None) with false
    | progress change (@ptr_eqb None (Some ?a)) with false
    | progress change (@ptr_eqb None None) with true ].

Ltac rep_frame :=
  lazymatch goal with
  | |- rep (<[_ := _]> _) _ _ =>
    apply rep_insert_notin; [distinct_atom | rep_frame]
  | |- rep_ctx (<[_ := _]> _) _ _ _ =>
    apply rep_ctx_insert_notin; [distinct_atom | rep_frame]
  | |- head_rec (<[_ := _]> _) _ _ =>
    apply head_rec_insert; [solve_distinct | rep_frame]
  | |- rep ?h _ _ =>
    first
      [ eassumption
      | match goal with
        | Hfr : frame_eq _ _ h |- _ =>
          eapply (rep_rebase _ _ _ _ _ Hfr); [solve_distinct | rep_frame]
        end ]
  | |- rep_ctx ?h _ _ _ =>
    first
      [ eassumption
      | match goal with
        | Hfr : frame_eq _ _ h |- _ =>
          eapply (rep_ctx_rebase _ _ _ _ _ _ Hfr); [solve_distinct | rep_frame]
        end ]
  | |- head_rec ?h _ _ =>
    first
      [ eassumption
      | match goal with
        | Hfr : frame_eq _ _ h |- _ =>
          eapply (head_rec_rebase _ _ _ _ _ Hfr); [solve_distinct | rep_frame]
        end ]
  end.

Ltac wp_step :=
  lazymatch goal with
  | |- wp (bind _ _) _ _ => apply wp_bind; wp_step
  | |- wp (ret _) _ _ => apply wp_ret; simpl_fields
  | |- wp (get _ (Some _)) _ _ => eapply wp_get; [lookup | simpl_fields]
  | |- wp (set _ (Some _) _) _ _ =>
      eapply wp_set';
      [lookup | simpl_with; reflexivity
      | simpl_fields; rewrite ?insert_insert_eq]
  | |- wp (load (Some _)) _ _ => eapply wp_load; [lookup | simpl_fields]
  | |- wp (Pull_ _) _ _ => unfold Pull_; wp_step
  | |- wp (Size_ (root _)) _ _ =>
      eapply wp_Size_root; [rep_frame | simpl_fields]
  | |- wp (Size_ (Some ?a)) ?h ?Q => change (wp (get size (Some a)) h Q); wp_step
  | |- wp (Size_ None) ?h ?Q => change (wp (ret 0) h Q); wp_step
  | |- wp (if is_null (root ?t) then ret tt else set with_parent (root ?t) _) _ _ =>
      eapply wp_set_parent_root;
      [rep_frame | distinct_atom
      | let h' := fresh "h" in let Hr := fresh "Hr" in let Hfr := fresh "Hfr" in
        intros h' Hr Hfr; simpl_fields]
  | |- wp (if is_null (root ?t) then ret true else get black (root ?t)) _ _ =>
      eapply wp_null_or_black_root; [rep_frame | simpl_fields]
  | |- wp (add_size _ _) _ _ => unfold add_size; wp_step
  | |- wp (add_black_height _ _) _ _ => unfold add_black_height; wp_step
  | |- wp (ConnectLeft_ _ _) _ _ => unfold ConnectLeft_; wp_step
  | |- wp (ConnectRight_ _ _) _ _ => unfold ConnectRight_; wp_step
  | |- wp (ConnectLeftNoCheck_ _ _) _ _ => unfold ConnectLeftNoCheck_; wp_step
  | |- wp (ConnectRightNoCheck_ _ _) _ _ => unfold ConnectRightNoCheck_; wp_step
  | |- wp (PullSize_ _) _ _ => unfold PullSize_; wp_step
  | |- wp (PullSizeNoCheck_ _) _ _ => unfold PullSizeNoCheck_; wp_step
  | |- wp (PaintBlack_ (Some _)) _ _ => unfold PaintBlack_; simpl_fields; wp_step
  | |- wp (PaintBlack_ None) _ _ => unfold PaintBlack_; simpl_fields; wp_step
  | |- wp (null_or_black _) _ _ => unfold null_or_black; simpl_fields; wp_step
  | |- wp (is_red (Some _)) _ _ => unfold is_red; simpl_fields; wp_step
  | |- wp (is_red None) _ _ => unfold is_red; simpl_fields; wp_step
  | |- wp (get_value _) _ _ => unfold get_value; wp_step
  | |- wp (InsertRepair_finish _ _ _ _ _) _ _ =>
      unfold InsertRepair_finish; wp_step
  | |- wp (if true then _ else _) _ _ => cbv iota
  | |- wp (if false then _ else _) _ _ => cbv iota
  | |- wp (if ptr_eqb _ _ then _ else _) _ _ =>
      progress simpl_ptr_eqb; simpl_fields
  | |- wp (match ptr_eqb _ _ with _ => _ end) _ _ =>
      progress simpl_ptr_eqb; simpl_fields
  end.

Ltac wp_run := repeat wp_step.

Ltac unwrap :=
  repeat match goal with
  | |- context [size_t ?x] => rewrite (size_t_small' x) by lia
  | |- context [uint8_t ?x] => rewrite (uint8_t_small x) by lia
  end.

(** Solves [h' !! a = Some n] up to arithmetic on the fields. *)

Ltac field_eq := first [ done | lia | unwrap; first [ done | lia ] ].

Ltac lookup_eq := etrans; [ lookup | f_equal; f_equal; field_eq ].

Ltac pose_sizes :=
  repeat match goal with
  | H : valid ?t |- _ =>
    is_var t;
    lazymatch goal with
    | _ : 0 <= tsize t |- _ => fail
    | _ => pose proof (valid_tsize_nonneg t H)
    end
  end.

Ltac frame_solve :=
  let x := fresh "x" in let Hx := fresh "Hx" in
  intros x Hx; nodup_all;
  repeat first
    [ rewrite lookup_insert_ne by neq
    | match goal with
      | Hfr : frame_eq _ _ ?h |- context [?h !! x] =>
        rewrite (Hfr x) by solve_distinct
      end ];
  done.

Ltac elem_norm :=
  repeat first [ rewrite elem_of_app | rewrite elem_of_cons
               | rewrite elem_of_nil ].

Ltac solve_elem :=
  intros ?; cbn [caddrs addrs app faddr fsib ptr_list]; elem_norm; tauto.

Ltac solve_rep :=
  cbn [rep rep_ctx root parent_of faddr];
  repeat match goal with |- _ /\ _ => split end;
  lazymatch goal with
  | |- _ !! _ = Some _ => lookup_eq
  | |- rep _ _ _ => rep_frame
  | |- rep_ctx _ _ _ _ => rep_frame
  | |- True => exact I
  end.

Ltac simpl_with_in H :=
  cbv beta delta [with_left with_right with_parent with_size
                  with_black_height with_black with_value] in H;
  cbn [left right parent size black_height black value] in H.

Ltac list_assoc :=
  cbn [elems addrs values app];
  repeat first [ rewrite <- app_assoc | rewrite <- app_comm_cons ];
  reflexivity.

Section Ins.

Context {T : Type}.

Local Abbreviation Node_ := (Node_ T).

Local Abbreviation heap := (gmap addr Node_).

Local Abbreviation tree := (tree T).

Local Abbreviation ctx := (ctx T).

Implicit Types (h : heap) (t l r : tree) (c : ctx) (a : addr) (p : ptr).

Lemma fadd_props inc (f : frame T) :
  faddr (fadd inc f) = faddr f /\ fsib (fadd inc f) = fsib f.
Proof. by destruct f. Qed.

Lemma parent_of_fadd inc c head :
  parent_of (fadd inc <$> c) head = parent_of c head.
Proof. destruct c as [|[] c]; done. Qed.

Lemma faddr_caddrs c x : x ∈ faddr <$> c -> x ∈ caddrs c.
Proof.
  induction c as [|f c IH]; simpl; [done|].
  rewrite !elem_of_cons, elem_of_app. tauto.
Qed.

Lemma rep_ctx_cons_lookup h head f c child :
  rep_ctx h head (f :: c) child ->
  exists n, h !! faddr f = Some n /\ black n = fblack f
    /\ parent n = parent_of c head /\ size n = fsize f.
Proof. destruct f; simpl; intros (Ha & _); (eexists; split; [exact Ha|done]). Qed.

Lemma IncreaseSize_spec fuel h head c child inc :
  (length c <= fuel)%nat -> c <> [] ->
  rep_ctx h head c child ->
  NoDup (caddrs c) -> disj (ptr_list head) (caddrs c) ->
  Forall (fun f => 0 <= fsize f + inc < 2 ^ 64) c ->
  wp (IncreaseSize_ fuel (parent_of c head) head inc) h (fun res h' =>
    res = faddr <$> last c
    /\ rep_ctx h' head (fadd inc <$> c) child
    /\ frame_eq (faddr <$> c) h h').
Proof.
  revert h c child.
  induction fuel as [|fuel IH]; intros h c child Hf Hne Hrep Hnd Hhd Hb;
    [destruct c; [done|simpl in Hf; lia]|].
  destruct c as [|f c]; [done|]. clear Hne.
  rewrite Forall_cons in Hb. destruct Hb as [Hb1 Hb].
  simpl IncreaseSize_.
  assert (Hstep : forall n, h !! faddr f = Some n ->
     parent n = parent_of c head ->
     rep_ctx (<[faddr f := with_size (size_t (size n + inc)) n]> h) head c (Some (faddr f)) ->
     wp (if ptr_eqb (parent_of c head) head then ret (Some (faddr f))
         else IncreaseSize_ fuel (parent_of c head) head inc)
        (<[faddr f := with_size (size_t (size n + inc)) n]> h)
        (fun res h' => res = faddr <$> last (f :: c)
           /\ rep_ctx h' head (fadd inc <$> c) (Some (faddr f))
           /\ h' !! faddr f = Some (with_size (size_t (size n + inc)) n)
           /\ frame_eq (faddr f :: (faddr <$> c)) h h')).
  { intros n Hn Hp Hc'. destruct c as [|f' c].
    - simpl. rewrite ptr_eqb_refl. apply wp_ret. split_and!; [done|done|lookup|].
      intros x Hx. apply lookup_insert_ne. nodup_all. neq.
    - simpl parent_of. nodup_all. simpl_ptr_eqb.
      eapply wp_mono.
      { apply (IH _ (f' :: c) (Some (faddr f))); [simpl in *; lia|done|done| solve_distinct |solve_distinct |done]. }
      simpl. intros res h' (-> & Hr & Hfr). split_and!; [done|done| |].
      + rewrite Hfr; [lookup|]. intros Hin. apply (faddr_caddrs (f' :: c)) in Hin.
        assert (faddr f ∉ caddrs (f' :: c)) by solve_distinct. done.
      + intros x Hx. apply not_elem_of_cons in Hx as [? ?].
        rewrite Hfr by done. by apply lookup_insert_ne. }
  assert (Hsib : forall h', frame_eq (faddr f :: (faddr <$> c)) h h' ->
     forall par, rep h par (fsib f) -> rep h' par (fsib f)).
  { intros h' Hfr par. apply rep_agree. intros x Hx. apply Hfr.
    nodup_all. apply not_elem_of_cons. split; [intros ->; contradiction|].
    intros Hin. apply faddr_caddrs in Hin.
    eapply disj_elem; [|exact Hx|exact Hin]. done. }
  nodup_all.
  destruct f as [a sz bh b v r | l a sz bh b v]; simpl in *;
    destruct Hrep as (Ha & Hs & Hc); wp_run.
  - eapply wp_mono; [apply (Hstep _ Ha eq_refl)|].
    + by apply rep_ctx_insert_notin.
    + simpl. intros res h' (-> & Hr & Ha' & Hfr). split_and!; [done| |by eapply Hsib|done|done].
      rewrite Ha', parent_of_fadd. simpl_with. unwrap. done.
  - eapply wp_mono; [apply (Hstep _ Ha eq_refl)|].
    + by apply rep_ctx_insert_notin.
    + simpl. intros res h' (-> & Hr & Ha' & Hfr). split_and!; [done| |by eapply Hsib|done|done].
      rewrite Ha', parent_of_fadd. simpl_with. unwrap. done.
Qed.

Lemma ctop_cons f c a : ctop (f :: c) a = ctop c (faddr f).
Proof. unfold ctop. rewrite last_cons. by destruct (last c). Qed.

Lemma last_ctop f c : faddr <$> last (f :: c) = Some (ctop c (faddr f)).
Proof. unfold ctop. rewrite last_cons. by destruct (last c). Qed.

Lemma ctop_fadd inc c a : ctop (fadd inc <$> c) a = ctop c a.
Proof.
  unfold ctop. rewrite fmap_last. destruct (last c) as [[]|]; done.
Qed.

(** ** Pure facts about paths *)

Lemma ctx_valid_fadd inc c b hsz hbh :
  ctx_valid c b hsz hbh -> ctx_valid (fadd inc <$> c) b (hsz + inc) hbh.
Proof.
  revert b hsz hbh. induction c as [|f c IH]; intros b hsz hbh; simpl; [done|].
  intros (Hs & Hb1 & Hb2 & Hc & Hv & Hr).
  destruct f; simpl in *; split_and!; try done; try lia; by apply IH.
Qed.

Lemma ctx_valid_weaken c hsz hbh :
  ctx_valid c false hsz hbh -> ctx_valid c true hsz hbh.
Proof.
  destruct c as [|f c]; simpl; [done|].
  intros (Hs & Hb1 & Hb2 & Hc & Hv & Hr). split_and!; try done.
  intros E. by destruct (Hc E).
Qed.

Lemma ctx_valid_black_top f c b b' hsz hbh :
  fblack f = true -> ctx_valid (f :: c) b hsz hbh -> ctx_valid (f :: c) b' hsz hbh.
Proof.
  simpl. intros E (Hs & Hb1 & Hb2 & Hc & Hv & Hr). split_and!; try done.
  congruence.
Qed.

Lemma valid_fill f t :
  valid t -> ctx_valid [f] (is_black t) (tsize t) (bhf t) -> valid (fill f t).
Proof.
  simpl. intros Ht (Hs & Hb1 & Hb2 & Hc & Hv & _).
  destruct f; simpl in *; split_and!; try done; try lia.
  intros E. by destruct (Hc E).
Qed.

Lemma valid_plug c t :
  valid t -> ctx_valid c (is_black t) (tsize t) (bhf t) -> valid (plug c t).
Proof.
  revert t. induction c as [|f c IH]; intros t Ht Hc; simpl; [done|].
  apply IH.
  - apply valid_fill; [done|]. simpl in *. tauto.
  - simpl in Hc. destruct Hc as (_ & _ & _ & _ & _ & Hr). by destruct f.
Qed.

Lemma top_black_singleton (f : frame T) : top_black [f] -> fblack f = true.
Proof. done. Qed.

Lemma top_black_cons f f' c : top_black (f :: f' :: c) -> top_black (f' :: c).
Proof. unfold top_black. by rewrite last_cons_cons. Qed.

Lemma top_black_tl f c : top_black (f :: c) -> top_black c.
Proof. destruct c; [done|]. apply top_black_cons. Qed.

Lemma top_black_fadd inc c : top_black c -> top_black (fadd inc <$> c).
Proof.
  unfold top_black. rewrite fmap_last. destruct (last c) as [[]|]; done.
Qed.

Lemma is_black_plug c t :
  c <> [] -> top_black c -> is_black (plug c t) = true.
Proof.
  revert t. induction c as [|f c IH]; intros t Hne Hb; [done|].
  simpl. destruct c as [|f' c].
  - simpl. unfold top_black in Hb. simpl in Hb. by destruct f.
  - apply IH; [done|]. by apply top_black_cons in Hb.
Qed.

Lemma root_plug_cons f c t : root (plug (f :: c) t) = Some (ctop c (faddr f)).
Proof.
  revert f t. induction c as [|f' c IH]; intros f t.
  - by destruct f.
  - rewrite ctop_cons. apply (IH f' (fill f t)).
Qed.

Lemma elems_plug_fadd inc c t : elems (plug (fadd inc <$> c) t) = elems (plug c t).
Proof.
  revert t. induction c as [|f c IH]; intros t; simpl; [done|].
  rewrite IH. apply elems_plug_eq. by destruct f.
Qed.

Lemma ctx_valid_fsize_nonneg c b hsz hbh :
  ctx_valid c b hsz hbh -> 0 <= hsz -> Forall (fun f => 0 <= fsize f) c.
Proof.
  revert b hsz hbh. induction c as [|f c IH]; intros b hsz hbh Hc Hs;
    [apply Forall_nil_2|].
  simpl in Hc. destruct Hc as (E & _ & _ & _ & Hv & Hc).
  apply valid_tsize_nonneg in Hv.
  apply Forall_cons. split; [lia|]. eapply IH; [exact Hc|lia].
Qed.

Lemma root_plug_fadd_cons inc f c t :
  root (plug (fadd inc <$> (f :: c)) t) = faddr <$> last (f :: c).
Proof.
  rewrite fmap_cons, root_plug_cons, ctop_fadd, last_ctop.
  by destruct f.
Qed.

Lemma pow2_le_64 k : 0 <= k -> 2 ^ k <= 2 ^ 64 -> k <= 64.
Proof. intros Hk H. apply (Z.pow_le_mono_r_iff 2); lia. Qed.

Lemma ConnectParent_spec h head c orig n (on nn : Node_) :
  rep_ctx h head c (Some orig) ->
  h !! orig = Some on -> parent on = parent_of c head ->
  h !! n = Some nn ->
  NoDup (orig :: n :: caddrs c) ->
  disj (ptr_list head) (orig :: n :: caddrs c) ->
  head_rec h head (Some (ctop c orig)) ->
  wp (ConnectParent_ (Some orig) (Some n)) h (fun _ h' =>
    h' !! n = Some (with_parent (parent_of c head) nn)
    /\ rep_ctx h' head c (Some n)
    /\ head_rec h' head (Some (ctop c n))
    /\ frame_eq (n :: caddrs c ++ ptr_list head) h h').
Proof.
  intros Hc Ho Hp Hn Hnd Hhd Hhr.
  unfold ConnectParent_. wp_run. rewrite Hp.
  destruct head as [hd|];
    (destruct c as [|f c]; [|rewrite !ctop_cons in *; destruct f as [a sz bh b v r | l a sz bh b v]]);
    simpl in *; destruct_ands; nodup_all.
  - wp_run. unfold ctop; simpl. split_and!; [lookup|done|lookup|frame_solve].
  - wp_run. split_and!; [lookup| lookup | rep_frame | rep_frame | | frame_solve].
    rewrite !lookup_insert_ne by neq. done.
  - wp_run. split_and!; [lookup| lookup | rep_frame | rep_frame | | frame_solve].
    rewrite !lookup_insert_ne by neq. done.
  - wp_run. split_and!; [lookup|done|done|frame_solve].
  - wp_run. split_and!; [lookup| lookup | rep_frame | rep_frame | done | frame_solve].
  - wp_run. split_and!; [lookup| lookup | rep_frame | rep_frame | done | frame_solve].
Qed.

Lemma repaired_weaken h0 h head t0 t1 (L L1 : list addr) res h' :
  elems t1 = elems t0 ->
  (forall x, x ∈ L1 -> x ∈ L) ->
  frame_eq (L ++ ptr_list head) h0 h ->
  repaired h head t1 L1 res h' -> repaired h0 head t0 L res h'.
Proof.
  intros He HL Hfr (t' & ? & ? & ? & ? & ? & ? & Hfr'). exists t'.
  split_and!; try done; [congruence|].
  eapply frame_eq_trans; [exact Hfr|]. eapply frame_eq_mono; [exact Hfr'|].
  intros x. rewrite !elem_of_app. intros [?|?]; auto.
Qed.

Lemma root_or_increase fuel h head c t nd inc :
  (length c <= fuel)%nat -> root t = Some nd ->
  rep_ctx h head c (Some nd) -> rep h (parent_of c head) t ->
  NoDup (caddrs c ++ addrs t) -> disj (ptr_list head) (caddrs c ++ addrs t) ->
  head_rec h head (Some (ctop c nd)) ->
  valid t -> ctx_valid c (is_black t) (tsize t - inc) (bhf t) -> top_black c ->
  (c = [] -> is_black t = true) ->
  0 <= inc -> 0 <= tsize t - inc ->
  Forall (fun f => fsize f + inc < 2 ^ 64) c ->
  wp (if ptr_eqb (parent_of c head) head then ret (Some nd)
      else IncreaseSize_ fuel (parent_of c head) head inc) h
     (repaired h head (plug c t) (caddrs c ++ addrs t)).
Proof.
  intros Hf Hroot Hc Ht Hnd Hhd Hhr Hv Hcv Htb Hblk Hinc Hsz Hb.
  destruct c as [|f c].
  { simpl. rewrite ptr_eqb_refl. apply wp_ret. exists t. split_and!.
    - by rewrite Hroot.
    - rewrite Hroot. eauto.
    - done.
    - split; auto.
    - done.
    - by rewrite Hroot.
    - apply frame_eq_refl. }
  nodup_all. cbn [parent_of]. simpl_ptr_eqb.
  eapply wp_mono.
  { apply (IncreaseSize_spec fuel h head (f :: c) (Some nd) inc); try done.
    - solve_distinct.
    - solve_distinct.
    - pose proof (ctx_valid_fsize_nonneg _ _ _ _ Hcv Hsz) as Hnn.
      rewrite Forall_forall in *. intros x Hx.
      specialize (Hb x Hx). specialize (Hnn x Hx). simpl in *. lia. }
  intros res h' (-> & Hc' & Hfr).
  assert (Hfr' : frame_eq (caddrs (f :: c)) h h').
  { eapply frame_eq_mono; [exact Hfr|]. apply faddr_caddrs. }
  exists (plug (fadd inc <$> (f :: c)) t).
  rewrite root_plug_fadd_cons. split_and!; [done|by rewrite last_ctop| | | | |].
  - apply rep_plug. rewrite Hroot, parent_of_fadd. split; [done|].
    eapply rep_rebase; [exact Hfr'| |exact Ht]. solve_distinct.
  - split.
    + apply valid_plug; [done|].
      apply (ctx_valid_fadd inc) in Hcv.
      by replace (tsize t - inc + inc) with (tsize t) in Hcv by lia.
    + apply is_black_plug; [done|]. by apply top_black_fadd.
  - by rewrite elems_plug_fadd.
  - rewrite last_ctop. rewrite ctop_cons in Hhr.
    eapply head_rec_rebase; [exact Hfr'| |done]. solve_distinct.
  - eapply frame_eq_mono; [exact Hfr'|]. intros x Hx.
    apply elem_of_app. left. apply elem_of_app. by left.
Qed.

Lemma ctx_valid_eq c b s1 s2 k1 k2 :
  ctx_valid c b s1 k1 -> s1 = s2 -> k1 = k2 -> ctx_valid c b s2 k2.
Proof. by intros H -> ->. Qed.

Lemma IncreaseSize_repaired fuel h head f c t nd inc :
  (S (length c) <= fuel)%nat -> root t = Some nd ->
  rep_ctx h head (f :: c) (Some nd) -> rep h (Some (faddr f)) t ->
  NoDup (caddrs (f :: c) ++ addrs t) ->
  disj (ptr_list head) (caddrs (f :: c) ++ addrs t) ->
  head_rec h head (Some (ctop (f :: c) nd)) ->
  valid t -> ctx_valid (f :: c) (is_black t) (tsize t - inc) (bhf t) ->
  top_black (f :: c) ->
  0 <= inc -> 0 <= tsize t - inc ->
  Forall (fun f => fsize f + inc < 2 ^ 64) (f :: c) ->
  wp (IncreaseSize_ fuel (Some (faddr f)) head inc) h
     (repaired h head (plug (f :: c) t) (caddrs (f :: c) ++ addrs t)).
Proof.
  intros Hf Hroot Hc Ht Hnd Hhd Hhr Hv Hcv Htb Hinc Hsz Hb.
  pose proof (root_or_increase fuel h head (f :: c) t nd inc) as H.
  cbn [parent_of] in H. rewrite ptr_eqb_ptr_list in H.
  - apply H; try done.
  - nodup_all. done.
Qed.

Ltac spec_colors :=
  repeat match goal with
  | H : false = false -> _ |- _ => specialize (H eq_refl)
  | H : true = false -> _ |- _ => clear H
  end; destruct_ands.

Ltac ir_prep Hc Ht Hcv Hnd Hhd Hb Hv Hf Hhr :=
  rewrite ?Forall_cons in Hb; rewrite ?ctop_cons in Hhr;
  simpl in Hc, Ht, Hcv, Hnd, Hhd, Hb, Hv, Hf;
  cbn [faddr] in Hhr;
  destruct_ands; spec_colors; nodup_all; pose_sizes; cbn [Z.b2z] in *.

Ltac case4 c2 ga pnew T4 :=
  apply wp_bind; eapply wp_mono;
  [ eapply (ConnectParent_spec _ _ c2 ga pnew);
    [rep_frame|lookup|reflexivity|lookup|solve_distinct|solve_distinct|rep_frame]
  | let h1 := fresh "h" in let Hn1 := fresh "Hn" in
    let Hc1 := fresh "Hc" in let Hhr1 := fresh "Hhr" in let Hfr1 := fresh "Hfr" in
    intros [] h1 (Hn1 & Hc1 & Hhr1 & Hfr1); simpl_with_in Hn1;
    wp_run; unwrap;
    eapply wp_mono;
    [ eapply (root_or_increase _ _ _ c2 T4 pnew);
      [ lia
      | done
      | rep_frame
      | solve_rep
      | solve_distinct
      | solve_distinct
      | rep_frame
      | simpl; split_and!; try done; try lia
      | eapply ctx_valid_eq; [eassumption|simpl; lia..]
      | done
      | done
      | lia
      | simpl; lia
      | done ]
    | intros ? ?; apply repaired_weaken;
      [ simpl plug; apply elems_plug_eq; cbn [fill]; list_assoc
      | solve_elem
      | frame_solve ] ] ].

Lemma InsertRepair_loop_spec fuel : forall h head c l nd sz bh v r inc,
  (length c < fuel)%nat ->
  rep_ctx h head c (Some nd) ->
  rep h (parent_of c head) (Node l nd sz bh false v r) ->
  NoDup (caddrs c ++ addrs (Node l nd sz bh false v r)) ->
  disj (ptr_list head) (caddrs c ++ addrs (Node l nd sz bh false v r)) ->
  head_rec h head (Some (ctop c nd)) ->
  valid (Node l nd sz bh false v r) ->
  ctx_valid c true (sz - inc) bh ->
  top_black c ->
  0 < inc -> 0 <= sz - inc -> 2 ^ bh <= sz - inc + 1 -> 0 <= bh ->
  Forall (fun f => fsize f + inc < 2 ^ 64) c -> sz < 2 ^ 64 ->
  wp (InsertRepair_loop fuel (Some nd) head inc) h
    (repaired h head (plug c (Node l nd sz bh false v r))
       (caddrs c ++ addrs (Node l nd sz bh false v r))).
Proof.
  induction fuel as [|fuel IH];
    intros h head c l nd sz bh v r inc Hf Hc Ht Hnd Hhd Hhr Hv Hcv Htb Hinc Hsz Hpow Hbh Hb Hszb;
    [lia|].
  assert (bh <= 64) by (apply pow2_le_64; [done|]; lia).
  cbn [InsertRepair_loop].
  destruct c as [|fp c].
  { (* Case 1 *)
    ir_prep Hc Ht Hcv Hnd Hhd Hb Hv Hf Hhr. simpl parent_of in *.
    wp_run. unwrap.
    exists (Node l nd sz (bh + 1) true v r).
    split_and!; [done|done|solve_rep|split|done|rep_frame|frame_solve].
    - simpl. split_and!; try done; lia.
    - done. }
  destruct (fblack fp) eqn:Epb.
  { (* Case 2 *)
    pose proof Hc as (pn & Hpn & Hpb & Hpp & Hps)%rep_ctx_cons_lookup.
    pose proof Ht as Ht'. simpl in Ht'. destruct Ht' as (Hnd_ & Hl & Hr).
    assert (nd ≠ faddr fp /\ faddr fp ∉ ptr_list head) as [? ?].
    { clear -Hnd Hhd. nodup_all. done. }
    wp_run. rewrite Hpb, Epb. cbv iota.
    apply (IncreaseSize_repaired fuel h head fp c (Node l nd sz bh false v r) nd);
      try done.
    - simpl in *; lia.
    - eapply ctx_valid_black_top; [done|]. simpl tsize; simpl bhf. exact Hcv.
    - lia. }
  destruct c as [|fg c2]; [by rewrite (top_black_singleton _ Htb) in Epb|].
  apply top_black_tl in Htb. pose proof (top_black_tl _ _ Htb) as Htb2.
  destruct (is_black (fsib fg)) eqn:Eub.
  2:{ (* Case 3 *)
    destruct fg as [ga gsz gbh gb gv u | u ga gsz gbh gb gv];
    destruct fp as [pa psz pbh pb pv ps | ps pa psz pbh pb pv];
    destruct u as [|ul ua usz ubh ub uv ur]; try done;
    simpl in Epb, Eub; subst pb ub;
    ir_prep Hc Ht Hcv Hnd Hhd Hb Hv Hf Hhr;
    (assert (pbh = bh) by lia); subst pbh;
    (assert (ubh = bh) by lia); subst ubh;
    (assert (gb = true) by (destruct gb; [done|spec_colors; done])); subst gb;
    cbn [Z.b2z] in *;
    (assert (2 ^ gbh <= gsz + 1) by
       (match goal with H : valid ul |- _ => pose proof (valid_pow _ H) as Hpu end;
        replace (bhf ul) with bh in Hpu by lia;
        replace gbh with (Z.succ bh) by lia; rewrite Z.pow_succ_r by done; lia));
    wp_run; unwrap;
    (eapply wp_mono;
     [ first
       [ eapply (IH _ head c2 (Node (Node l nd sz bh false v r) pa (psz + inc) (bh + 1) true pv ps)
                   ga (gsz + inc) gbh gv (Node ul ua usz (bh + 1) true uv ur) inc); [lia|rep_frame|solve_rep|..]
       | eapply (IH _ head c2 (Node ps pa (psz + inc) (bh + 1) true pv (Node l nd sz bh false v r))
                   ga (gsz + inc) gbh gv (Node ul ua usz (bh + 1) true uv ur) inc); [lia|rep_frame|solve_rep|..]
       | eapply (IH _ head c2 (Node ul ua usz (bh + 1) true uv ur)
                   ga (gsz + inc) gbh gv
                   (Node (Node l nd sz bh false v r) pa (psz + inc) (bh + 1) true pv ps) inc); [lia|rep_frame|solve_rep|..]
       | eapply (IH _ head c2 (Node ul ua usz (bh + 1) true uv ur)
                   ga (gsz + inc) gbh gv
                   (Node ps pa (psz + inc) (bh + 1) true pv (Node l nd sz bh false v r)) inc); [lia|rep_frame|solve_rep|..] ];
       [ solve_distinct
       | solve_distinct
       | rep_frame
       | simpl; split_and!; try done; try lia
       | replace (gsz + inc - inc) with gsz by lia; done
       | done
       | done
       | lia
       | replace (gsz + inc - inc) with gsz by lia; done
       | lia
       | done
       | lia ]
     | intros res h'; apply repaired_weaken;
       [ simpl plug; apply elems_plug_eq; cbn [fill]; list_assoc
       | solve_elem
       | frame_solve ] ]). }
  (* Case 4 *)
  destruct fg as [ga gsz gbh gb gv u | u ga gsz gbh gb gv];
  destruct fp as [pa psz pbh pb pv ps | ps pa psz pbh pb pv];
  simpl in Epb, Eub; subst pb;
  ir_prep Hc Ht Hcv Hnd Hhd Hb Hv Hf Hhr;
  (assert (pbh = bh) by lia); subst pbh;
  (assert (gb = true) by (destruct gb; [done|spec_colors; done])); subst gb;
  cbn [Z.b2z] in *;
  wp_run; rewrite Eub; wp_run.
  all: [> case4 c2 ga pa
            (Node (Node l nd sz bh false v r) pa (sz + (tsize ps + tsize u + 1) + 1)
                  (bh + 1) true pv
                  (Node ps ga (tsize ps + tsize u + 1) bh false gv u))
        | case4 c2 ga nd
            (Node (Node ps pa (tsize ps + tsize l + 1) bh false pv l) nd
                  ((tsize ps + tsize l + 1) + (tsize r + tsize u + 1) + 1)
                  (bh + 1) true v
                  (Node r ga (tsize r + tsize u + 1) bh false gv u))
        | case4 c2 ga nd
            (Node (Node u ga (tsize u + tsize l + 1) bh false gv l) nd
                  ((tsize u + tsize l + 1) + (tsize r + tsize ps + 1) + 1)
                  (bh + 1) true v
                  (Node r pa (tsize r + tsize ps + 1) bh false pv ps))
        | case4 c2 ga pa
            (Node (Node u ga (tsize u + tsize ps + 1) bh false gv ps) pa
                  ((tsize u + tsize ps + 1) + sz + 1)
                  (bh + 1) true pv
                  (Node l nd sz bh false v r)) ].
Qed.

End Ins.

Section InsB.

Context {T : Type}.

Local Abbreviation Node_ := (Node_ T).

Local Abbreviation heap := (gmap addr Node_).

Local Abbreviation tree := (tree T).

Local Abbreviation ctx := (ctx T).

Implicit Types (h : heap) (t l r : tree) (c : ctx) (a : addr) (p : ptr).

(** ** More pure facts about paths *)

Lemma plug_app c1 c2 t : plug (c1 ++ c2) t = plug c2 (plug c1 t).
Proof. revert t. induction c1 as [|f c1 IH]; intros t; simpl; [done|apply IH]. Qed.

Lemma valid_fill_inv f t :
  valid (fill f t) -> valid t /\ ctx_valid [f] (is_black t) (tsize t) (bhf t).
Proof.
  destruct f; simpl; intros (Hs & Hb1 & Hb2 & Hc & Hv1 & Hv2);
    split_and!; try done; try lia.
  intros E. by destruct (Hc E).
Qed.

Lemma valid_plug_inv c t :
  valid (plug c t) -> valid t /\ ctx_valid c (is_black t) (tsize t) (bhf t).
Proof.
  revert t. induction c as [|f c IH]; intros t; simpl; [done|].
  intros (Hf & Hc)%IH. apply valid_fill_inv in Hf as (Ht & Hf).
  split; [done|]. simpl in Hf. destruct Hf as (? & ? & ? & ? & ? & _).
  split_and!; try done. by destruct f.
Qed.

Lemma is_black_plug_inv c t :
  c <> [] -> is_black (plug c t) = true -> top_black c.
Proof.
  revert t. induction c as [|f c IH]; intros t Hne Hb; [done|].
  destruct c as [|f' c].
  - simpl in Hb. unfold top_black. simpl. by destruct f.
  - unfold top_black. rewrite last_cons_cons. apply (IH (fill f t)); done.
Qed.

Lemma ctx_valid_tsize_le c b t :
  ctx_valid c b (tsize t) (bhf t) -> 0 <= tsize t -> tsize t <= tsize (plug c t).
Proof.
  revert b t. induction c as [|f c IH]; intros b t Hc Ht; simpl; [lia|].
  simpl in Hc. destruct Hc as (Hs & _ & _ & _ & Hv & Hc).
  apply valid_tsize_nonneg in Hv.
  etrans; [|apply (IH (fblack f))].
  - destruct f; simpl in *; lia.
  - by destruct f.
  - destruct f; simpl in *; lia.
Qed.

Lemma ctx_valid_fsize_le c b t :
  ctx_valid c b (tsize t) (bhf t) -> 0 <= tsize t ->
  Forall (fun f => fsize f <= tsize (plug c t)) c.
Proof.
  revert b t. induction c as [|f c IH]; intros b t Hc Ht; [apply Forall_nil_2|].
  pose proof Hc as Hc0.
  simpl in Hc. destruct Hc as (Hs & _ & _ & _ & Hv & Hc).
  apply valid_tsize_nonneg in Hv.
  assert (Hc' : ctx_valid c (fblack f) (tsize (fill f t)) (bhf (fill f t)))
    by (by destruct f).
  assert (0 <= tsize (fill f t)) by (destruct f; simpl in *; lia).
  apply Forall_cons. split.
  - simpl. etrans; [|by eapply ctx_valid_tsize_le]. by destruct f.
  - simpl. by eapply IH.
Qed.

Lemma length_plug_height c t : (length c + height t <= height (plug c t))%nat.
Proof.
  revert t. induction c as [|f c IH]; intros t; simpl; [lia|].
  etrans; [|apply IH]. destruct f; simpl; lia.
Qed.

Lemma count_plug c t t' :
  count t = count t' -> count (plug c t) = count (plug c t').
Proof.
  revert t t'. induction c as [|f c IH]; intros t t' E; simpl; [done|].
  apply IH. destruct f; simpl; lia.
Qed.

Lemma elems_right_spine c t :
  right_spine c -> exists pre, forall t', elems (plug c t') = pre ++ elems t'.
Proof.
  clear t. induction c as [|f c IH]; intros Hs.
  - exists []. done.
  - apply Forall_cons in Hs as [Hf Hs]. destruct (IH Hs) as (pre & Hp).
    destruct f; [done|]. exists (pre ++ elems l ++ [(a, v)]). intros t'.
    simpl. rewrite Hp. simpl. rewrite <- !app_assoc. done.
Qed.

Lemma elems_left_spine c t :
  left_spine c -> exists post, forall t', elems (plug c t') = elems t' ++ post.
Proof.
  clear t. induction c as [|f c IH]; intros Hs.
  - exists []. intros. by rewrite app_nil_r.
  - apply Forall_cons in Hs as [Hf Hs]. destruct (IH Hs) as (post & Hp).
    destruct f; [|done]. exists ((a, v) :: elems r ++ post). intros t'.
    simpl. rewrite Hp. simpl. rewrite <- !app_assoc. done.
Qed.

(** ** [First_] and [Last_] *)

Lemma Last_spec fuel h par t :
  rep h par t -> t <> Leaf -> (height t <= fuel)%nat ->
  wp (Last_ fuel (root t)) h (fun res h' =>
    h' = h /\ exists c l x sz bh b v,
      t = plug c (Node l x sz bh b v Leaf) /\ res = Some x /\ right_spine c).
Proof.
  revert h par t. induction fuel as [|fuel IH]; intros h par t Hr Hne Hf.
  { destruct t; [done|simpl in Hf; lia]. }
  destruct t as [|l a sz bh b v r]; [done|]. clear Hne.
  simpl in Hr. destruct Hr as (Ha & Hl & Hr). simpl Last_. simpl root.
  wp_run. destruct r as [|rl ra rsz rbh rb rv rr] eqn:Er.
  - simpl. apply wp_ret. split; [done|].
    exists [], l, a, sz, bh, b, v. split_and!; try done. apply Forall_nil_2.
  - simpl_fields. eapply wp_mono.
    { apply (IH h (Some a) (Node rl ra rsz rbh rb rv rr)); [done|done|].
      simpl in *. lia. }
    intros res h' (-> & c & l' & x & sz' & bh' & b' & v' & E & -> & Hs).
    split; [done|].
    exists (c ++ [InR l a sz bh b v]), l', x, sz', bh', b', v'.
    split_and!; [|done|].
    + rewrite plug_app. simpl. by rewrite <- E.
    + apply Forall_app. split; [done|]. by apply Forall_singleton.
Qed.

Lemma First_spec fuel h par t :
  rep h par t -> t <> Leaf -> (height t <= fuel)%nat ->
  wp (First_ fuel (root t)) h (fun res h' =>
    h' = h /\ exists c x sz bh b v r,
      t = plug c (Node Leaf x sz bh b v r) /\ res = Some x /\ left_spine c).
Proof.
  revert h par t. induction fuel as [|fuel IH]; intros h par t Hr Hne Hf.
  { destruct t; [done|simpl in Hf; lia]. }
  destruct t as [|l a sz bh b v r]; [done|]. clear Hne.
  simpl in Hr. destruct Hr as (Ha & Hl & Hr). simpl First_. simpl root.
  wp_run. destruct l as [|ll la lsz lbh lb lv lr] eqn:El.
  - simpl. apply wp_ret. split; [done|].
    exists [], a, sz, bh, b, v, r. split_and!; try done. apply Forall_nil_2.
  - simpl_fields. eapply wp_mono.
    { apply (IH h (Some a) (Node ll la lsz lbh lb lv lr)); [done|done|].
      simpl in *. lia. }
    intros res h' (-> & c & x & sz' & bh' & b' & v' & r' & E & -> & Hs).
    split; [done|].
    exists (c ++ [InL a sz bh b v r]), x, sz', bh', b', v', r'.
    split_and!; [|done|].
    + rewrite plug_app. simpl. by rewrite <- E.
    + apply Forall_app. split; [done|]. by apply Forall_singleton.
Qed.

(** ** Linking a fresh node below its parent and repairing *)

Lemma rb_tree_elems_distinct h this t :
  tree_rep h this t -> exists hd, head_ this = Some hd /\ hd ∉ addrs t.
Proof. intros (hd & ? & _ & _ & ? & _). eauto. Qed.

Lemma repaired_tree_rep h hd t0 (L : list addr) res h' (this : RBTree) :
  head_ this = Some hd ->
  repaired h (Some hd) t0 L res h' ->
  hd ∉ addrs t0 -> NoDup (addrs t0) ->
  exists t', tree_rep h' this t' /\ rb_tree t' /\ elems t' = elems t0
    /\ frame_eq (L ++ [hd]) h h'.
Proof.
  intros Hh (t' & -> & Hs & Hr & Hrb & He & Hhr & Hfr) Hn Hnd.
  exists t'. split_and!; try done.
  assert (addrs t' = addrs t0) as Ea by (by rewrite !addrs_elems, He).
  exists hd. rewrite Ea. split_and!; done.
Qed.

Lemma InsertRepair_leaf fuel h hd c b val :
  rep_ctx h (Some hd) c (Some b) ->
  h !! b = Some (mkNode None None (parent_of c (Some hd)) 1 0 false (Some val)) ->
  head_rec h (Some hd) (Some (ctop c b)) ->
  NoDup (b :: hd :: caddrs c) ->
  rb_tree (plug c Leaf) -> tsize (plug c Leaf) + 1 < 2 ^ 64 ->
  (length c < fuel)%nat ->
  wp (InsertRepair_ fuel (Some b) (Some hd) 1) h
     (repaired h (Some hd) (plug c (Node Leaf b 1 0 false val Leaf)) (b :: caddrs c)).
Proof.
  intros Hc Hb Hhr Hnd [Hv Hblk] Hsz Hf.
  unfold InsertRepair_, Pull_. apply wp_bind, wp_ret.
  apply valid_plug_inv in Hv as (_ & Hcv). simpl in Hcv.
  nodup_all.
  eapply wp_mono.
  { apply (InsertRepair_loop_spec fuel h (Some hd) c Leaf b 1 0 val Leaf 1).
    - done.
    - done.
    - simpl. split_and!; done.
    - solve_distinct.
    - solve_distinct.
    - done.
    - simpl. split_and!; done.
    - done.
    - destruct c; [done|]. by eapply is_black_plug_inv.
    - lia.
    - lia.
    - simpl. lia.
    - lia.
    - pose proof (ctx_valid_fsize_le c true Leaf Hcv) as Hle.
      eapply Forall_impl; [apply Hle; simpl; lia|]. simpl. intros. lia.
    - lia. }
  intros res h'. apply repaired_weaken; [done|solve_elem|apply frame_eq_refl].
Qed.

Lemma link_left h top a sz bh bl v r c b val :
  rep_ctx h top (InL a sz bh bl v r :: c) None ->
  h !! b = Some (new_Node_ (Some val)) ->
  NoDup (b :: caddrs (InL a sz bh bl v r :: c)) ->
  wp (ConnectLeftNoCheck_ (Some a) (Some b)) h (fun _ h' =>
    rep_ctx h' top (InL a sz bh bl v r :: c) (Some b)
    /\ h' !! b = Some (mkNode None None (Some a) 1 0 false (Some val))
    /\ frame_eq [a; b] h h').
Proof.
  intros Hc Hb Hn. simpl in Hc. destruct_ands. nodup_all. unfold new_Node_ in Hb.
  wp_run. split_and!; [solve_rep|lookup|frame_solve].
Qed.

Lemma link_right h top l a sz bh bl v c b val :
  rep_ctx h top (InR l a sz bh bl v :: c) None ->
  h !! b = Some (new_Node_ (Some val)) ->
  NoDup (b :: caddrs (InR l a sz bh bl v :: c)) ->
  wp (ConnectRightNoCheck_ (Some a) (Some b)) h (fun _ h' =>
    rep_ctx h' top (InR l a sz bh bl v :: c) (Some b)
    /\ h' !! b = Some (mkNode None None (Some a) 1 0 false (Some val))
    /\ frame_eq [a; b] h h').
Proof.
  intros Hc Hb Hn. simpl in Hc. destruct_ands. nodup_all. unfold new_Node_ in Hb.
  wp_run. split_and!; [solve_rep|lookup|frame_solve].
Qed.

Lemma tree_rep_plug h this hd cb t :
  head_ this = Some hd -> tree_rep h this (plug cb t) ->
  h !! hd = Some (head_node (root (plug cb t)))
  /\ rep_ctx h (Some hd) cb (root t) /\ rep h (parent_of cb (Some hd)) t
  /\ NoDup (hd :: caddrs cb ++ addrs t).
Proof.
  intros Hh (hd' & Hh' & Hhd & Hr & Hn & Hnd).
  assert (hd' = hd) as -> by congruence.
  apply rep_plug in Hr as [Hc Ht]. split_and!; try done.
  apply NoDup_cons. rewrite <- addrs_plug. done.
Qed.

Lemma frame_eq_perm (L L' : list addr) h0 h :
  L ≡ₚ L' -> frame_eq L h0 h -> frame_eq L' h0 h.
Proof.
  intros HP H. eapply frame_eq_mono; [exact H|]. intros x Hx. by rewrite <- HP.
Qed.

Lemma addrs_plug_leaf (cb : ctx) b hd :
  b :: hd :: addrs (plug cb Leaf) ≡ₚ b :: hd :: caddrs cb.
Proof. rewrite addrs_plug. simpl. by rewrite app_nil_r. Qed.

Lemma insert_linked fuel h0 h this hd cb b val :
  head_ this = Some hd -> tree_rep h0 this (plug cb Leaf) ->
  rb_tree (plug cb Leaf) -> tsize (plug cb Leaf) + 1 < 2 ^ 64 ->
  (length cb < fuel)%nat -> b ∉ hd :: addrs (plug cb Leaf) ->
  rep_ctx h (Some hd) cb (Some b) ->
  h !! b = Some (mkNode None None (parent_of cb (Some hd)) 1 0 false (Some val)) ->
  head_rec h (Some hd) (Some (ctop cb b)) ->
  frame_eq (b :: hd :: addrs (plug cb Leaf)) h0 h ->
  wp (InsertRepair_ fuel (Some b) (Some hd) 1) h (fun _ h' =>
    inserted h0 this (elems (plug cb (Node Leaf b 1 0 false val Leaf)))
      (b :: hd :: addrs (plug cb Leaf)) h').
Proof.
  intros Hh Htr Hrb Hsz Hf Hb Hc Hbl Hhr Hfr.
  pose proof (tree_rep_plug _ _ _ _ _ Hh Htr) as (_ & _ & _ & Hnd).
  rewrite addrs_plug in Hb. simpl in Hb, Hnd.
  rewrite app_nil_r in Hb, Hnd.
  apply (frame_eq_perm _ _ _ _ (addrs_plug_leaf cb b hd)) in Hfr.
  eapply wp_mono.
  { apply (InsertRepair_leaf fuel h hd cb b val); try done.
    nodup_all. solve_distinct. }
  intros res h' Hrep.
  eapply (repaired_tree_rep _ _ _ _ _ _ this Hh) in Hrep as (t' & ? & ? & ? & Hfr').
  - exists t'. split_and!; try done.
    eapply frame_eq_perm; [symmetry; apply addrs_plug_leaf|].
    eapply frame_eq_trans; [exact Hfr|]. eapply frame_eq_mono; [exact Hfr'|].
    solve_elem.
  - rewrite addrs_plug. simpl. nodup_all. solve_distinct.
  - rewrite addrs_plug. simpl. nodup_all. solve_distinct.
Qed.

Lemma height_plug_lt c l a sz bh bl v r :
  (length c < height (plug c (Node l a sz bh bl v r)))%nat.
Proof.
  pose proof (length_plug_height c (Node l a sz bh bl v r)). simpl in *. lia.
Qed.

Lemma InsertBefore_node fuel h this hd c l a sz bh bl v r b val :
  let t := plug c (Node l a sz bh bl v r) in
  head_ this = Some hd -> tree_rep h this t -> rb_tree t ->
  tsize t + 1 < 2 ^ 64 -> (height t < fuel)%nat ->
  h !! b = Some (new_Node_ (Some val)) -> b ∉ hd :: addrs t ->
  wp (InsertBefore_ fuel this (Some a) (Some b)) h (fun _ h' =>
    exists E1 E2, elems t = E1 ++ (a, v) :: E2
      /\ inserted h this (E1 ++ (b, val) :: (a, v) :: E2) (b :: hd :: addrs t) h').
Proof.
  intros t Hh Htr Hrb Hsz Hf Hb Hn. subst t.
  destruct this as [hp]. simpl in Hh. subst hp.
  assert (Hh : head_ (mkRBTree (Some hd)) = Some hd) by done.
  pose proof (tree_rep_plug _ _ _ _ _ Hh Htr) as (Hhd & Hc & Ht & Hnd).
  unfold InsertBefore_. cbn [head_].
  assert (a <> hd) by (clear -Hnd; nodup_all; neq).
  simpl in Ht. destruct Ht as (Ha & Hl & Hr).
  rewrite ptr_eqb_ne by done. cbn [negb].
  apply wp_bind. apply wp_bind. eapply wp_get; [exact Ha|]. simpl_fields.
  destruct l as [|ll la lsz lbh lb lv lr].
  - (* no left child: the new node becomes the left child of [a] *)
    simpl_fields.
    set (cb := InL a sz bh bl v r :: c).
    change (plug c (Node Leaf a sz bh bl v r)) with (plug cb Leaf) in *.
    pose proof (tree_rep_plug _ _ _ _ _ Hh Htr) as (_ & Hcb & _ & Hndb).
    eapply wp_mono.
    { apply (link_left h (Some hd) a sz bh bl v r c b val); [exact Hcb|done|].
      rewrite addrs_plug in Hn. simpl in Hn, Hndb. rewrite app_nil_r in Hn, Hndb.
      subst cb. clear -Hn Hndb. nodup_all. solve_distinct. }
    intros [] h1 (Hc1 & Hb1 & Hfr1).
    apply wp_bind. eapply wp_mono.
    { idtac.
      - apply (insert_linked fuel h h1 (mkRBTree (Some hd)) hd cb b val); try done.
        + pose proof (height_plug_lt c Leaf a sz bh bl v r). simpl in *. lia.
        + subst cb. rewrite root_plug_cons in Hhd. rewrite ctop_cons.
          eapply (head_rec_rebase _ h h1 (Some hd)); [exact Hfr1| |exact Hhd].
          rewrite addrs_plug in Hn. simpl in Hn, Hndb. rewrite app_nil_r in Hn, Hndb.
          clear -Hn Hndb. nodup_all. solve_distinct.
        + eapply frame_eq_mono; [exact Hfr1|].
          intros x. rewrite addrs_plug. revert x. subst cb. solve_elem.
    }
    intros ? h2 Hins. apply wp_ret.
    destruct (elems_plug c (Node Leaf a sz bh bl v r)) as (pre & post & Hp).
    exists pre, (elems r ++ post). split.
    + subst cb. cbn [plug fill]. rewrite Hp. simpl. done.
    + subst cb. cbn [plug fill] in Hins. rewrite Hp in Hins. simpl in Hins.
      exact Hins.
  - (* otherwise it becomes the right child of the last node on the left *)
    simpl_fields. apply wp_bind.
    eapply wp_mono.
    { apply (Last_spec fuel h (Some a) (Node ll la lsz lbh lb lv lr)); [done|done|].
      pose proof (length_plug_height c (Node (Node ll la lsz lbh lb lv lr) a sz bh bl v r)).
      simpl in *. lia. }
    intros res h1 (-> & cl & l2 & x & xsz & xbh & xb & xv & El & -> & Hsp).
    set (cb := InR l2 x xsz xbh xb xv :: cl ++ InL a sz bh bl v r :: c).
    assert (Ecb : plug c (Node (Node ll la lsz lbh lb lv lr) a sz bh bl v r) = plug cb Leaf).
    { subst cb. simpl. rewrite plug_app. simpl. by rewrite <- El. }
    rewrite Ecb in *.
    pose proof (tree_rep_plug _ _ _ _ _ Hh Htr) as (_ & Hcb & _ & Hndb).
    eapply wp_mono.
    { apply (link_right h (Some hd) l2 x xsz xbh xb xv (cl ++ InL a sz bh bl v r :: c) b val);
        [exact Hcb|done|].
      rewrite addrs_plug in Hn. simpl in Hn, Hndb. rewrite app_nil_r in Hn, Hndb.
      subst cb. clear -Hn Hndb. nodup_all. solve_distinct. }
    intros [] h1 (Hc1 & Hb1 & Hfr1).
    apply wp_bind. eapply wp_mono.
    { idtac.
      - apply (insert_linked fuel h h1 (mkRBTree (Some hd)) hd cb b val); try done.
        + pose proof (length_plug_height cb Leaf). simpl in *. lia.
        + subst cb. rewrite root_plug_cons in Hhd. rewrite ctop_cons.
          eapply (head_rec_rebase _ h h1 (Some hd)); [exact Hfr1| |exact Hhd].
          rewrite addrs_plug in Hn. simpl in Hn, Hndb. rewrite app_nil_r in Hn, Hndb.
          clear -Hn Hndb. nodup_all. solve_distinct.
        + eapply frame_eq_mono; [exact Hfr1|].
          intros y. rewrite addrs_plug. revert y. subst cb. solve_elem.
    }
    intros ? h2 Hins. apply wp_ret.
    destruct (elems_plug c (Node Leaf a sz bh bl v r)) as (pre & post & Hp).
    destruct (elems_right_spine cl Leaf Hsp) as (prel & Hpl).
    exists (pre ++ prel ++ elems l2 ++ [(x, xv)]), (elems r ++ post). split.
    + subst cb. cbn [plug fill]. rewrite plug_app. cbn [plug fill]. rewrite Hp.
      simpl. rewrite Hpl. list_assoc.
    + subst cb. cbn [plug fill] in Hins. rewrite plug_app in Hins.
      cbn [plug fill] in Hins. rewrite Hp in Hins. simpl in Hins.
      rewrite Hpl in Hins.
      match goal with
      | H : inserted _ _ ?E1 _ _ |- inserted _ _ ?E2 _ _ =>
        replace E2 with E1; [exact H|list_assoc]
      end.
Qed.

Lemma InsertBefore_end fuel h this hd t b val :
  head_ this = Some hd -> tree_rep h this t -> rb_tree t ->
  tsize t + 1 < 2 ^ 64 -> (height t < fuel)%nat ->
  h !! b = Some (new_Node_ (Some val)) -> b ∉ hd :: addrs t ->
  wp (InsertBefore_ fuel this (Some hd) (Some b)) h (fun _ h' =>
    inserted h this (elems t ++ [(b, val)]) (b :: hd :: addrs t) h').
Proof.
  intros Hh Htr Hrb Hsz Hf Hb Hn.
  destruct this as [hp]. simpl in Hh. subst hp.
  assert (Hh : head_ (mkRBTree (Some hd)) = Some hd) by done.
  pose proof (tree_rep_plug _ _ _ [] _ Hh Htr) as (Hhd & _ & Ht & Hnd).
  simpl in Hhd, Ht, Hnd.
  unfold InsertBefore_. cbn [head_]. rewrite ptr_eqb_refl. cbn [negb].
  apply wp_bind. apply wp_bind. eapply wp_get; [exact Hhd|]. simpl_fields.
  destruct t as [|tl ta tsz tbh tb tv tr].
  - (* empty tree: the new node becomes the root *)
    simpl_fields. unfold new_Node_ in Hb. nodup_all. unfold head_node in Hhd.
    wp_run.
    apply wp_bind. eapply wp_mono.
    { apply (insert_linked fuel h _ (mkRBTree (Some hd)) hd [] b val).
      - done.
      - done.
      - done.
      - simpl. lia.
      - simpl. lia.
      - simpl. solve_distinct.
      - done.
      - lookup.
      - simpl. unfold ctop. simpl. lookup.
      - simpl. frame_solve. }
    intros ? h2 Hins. apply wp_ret. exact Hins.
  - simpl_fields. apply wp_bind.
    eapply wp_mono.
    { apply (Last_spec fuel h (Some hd) (Node tl ta tsz tbh tb tv tr)); [done|done|lia]. }
    intros res h1 (-> & cl & l2 & x & xsz & xbh & xb & xv & El & -> & Hsp).
    set (cb := InR l2 x xsz xbh xb xv :: cl).
    assert (Ecb : Node tl ta tsz tbh tb tv tr = plug cb Leaf).
    { subst cb. simpl. by rewrite <- El. }
    rewrite Ecb in *.
    pose proof (tree_rep_plug _ _ _ _ _ Hh Htr) as (_ & Hcb & _ & Hndb).
    eapply wp_mono.
    { apply (link_right h (Some hd) l2 x xsz xbh xb xv cl b val);
        [exact Hcb|done|].
      rewrite addrs_plug in Hn. simpl in Hn, Hndb. rewrite app_nil_r in Hn, Hndb.
      subst cb. clear -Hn Hndb. nodup_all. solve_distinct. }
    intros [] h1 (Hc1 & Hb1 & Hfr1).
    apply wp_bind. eapply wp_mono.
    { apply (insert_linked fuel h h1 (mkRBTree (Some hd)) hd cb b val); try done.
      + pose proof (length_plug_height cb Leaf). simpl in *. lia.
      + subst cb. rewrite root_plug_cons in Hhd. rewrite ctop_cons.
        eapply (head_rec_rebase _ h h1 (Some hd)); [exact Hfr1| |exact Hhd].
        rewrite addrs_plug in Hn. simpl in Hn, Hndb. rewrite app_nil_r in Hn, Hndb.
        clear -Hn Hndb. nodup_all. solve_distinct.
      + eapply frame_eq_mono; [exact Hfr1|].
        intros y. rewrite addrs_plug. revert y. subst cb. solve_elem. }
    intros ? h2 Hins. apply wp_ret.
    destruct (elems_right_spine cl Leaf Hsp) as (prel & Hpl).
    subst cb. cbn [plug fill] in Hins |- *. rewrite Hpl in Hins. rewrite Hpl.
    match goal with
    | H : inserted _ _ ?E1 _ _ |- inserted _ _ ?E2 _ _ =>
      replace E2 with E1; [exact H|list_assoc]
    end.
Qed.

(** ** Allocation *)

Lemma wp_malloc (n : Node_) h Q :
  (forall a, h !! a = None -> Q (Some a) (<[a := n]> h)) -> wp (malloc n) h Q.
Proof.
  intros HQ. exists (Some (fresh (dom h))), (<[fresh (dom h) := n]> h).
  split; [done|]. apply HQ. apply not_elem_of_dom. apply is_fresh.
Qed.

End InsB.

Section PubIns.

Context {T : Type}.

Local Abbreviation Node_ := (Node_ T).

Local Abbreviation heap := (gmap addr Node_).

Local Abbreviation tree := (tree T).

Local Abbreviation ctx := (ctx T).

Implicit Types (h : heap) (t l r : tree) (c : ctx) (a : addr) (p : ptr).

Lemma in_addrs_plug t a :
  a ∈ addrs t -> exists c l sz bh b v r, t = plug c (Node l a sz bh b v r).
Proof.
  induction t as [|l IHl x sz bh b v r IHr]; simpl; [by intros ?%elem_of_nil|].
  rewrite elem_of_app, elem_of_cons. intros [Hin|[->|Hin]].
  - destruct (IHl Hin) as (c & l' & sz' & bh' & b' & v' & r' & ->).
    exists (c ++ [InL x sz bh b v r]), l', sz', bh', b', v', r'.
    by rewrite plug_app.
  - by exists [], l, sz, bh, b, v, r.
  - destruct (IHr Hin) as (c & l' & sz' & bh' & b' & v' & r' & ->).
    exists (c ++ [InR l x sz bh b v]), l', sz', bh', b', v', r'.
    by rewrite plug_app.
Qed.

Lemma split_unique (E1 E1' E2 E2' : list (addr * T)) a v v' :
  NoDup ((E1 ++ (a, v) :: E2).*1) ->
  E1 ++ (a, v) :: E2 = E1' ++ (a, v') :: E2' ->
  E1 = E1' /\ v = v' /\ E2 = E2'.
Proof.
  revert E1'. induction E1 as [|[x w] E1 IH]; intros E1' Hnd E.
  - destruct E1' as [|[x' w'] E1']; simpl in *.
    + by inversion E.
    + inversion E; subst. apply NoDup_cons in Hnd as [Hn _].
      exfalso. apply Hn. rewrite fmap_app. apply elem_of_app. right.
      simpl. apply elem_of_cons. by left.
  - destruct E1' as [|[x' w'] E1']; simpl in *.
    + inversion E; subst. apply NoDup_cons in Hnd as [Hn _].
      exfalso. apply Hn. rewrite fmap_app. apply elem_of_app. right.
      simpl. apply elem_of_cons. by left.
    + inversion E; subst. apply NoDup_cons in Hnd as [_ Hnd].
      destruct (IH E1' Hnd) as (-> & -> & ->); done.
Qed.

Lemma tree_rep_alloc h this t x :
  tree_rep h this t -> x ∈ ptr_list (head_ this) ++ addrs t -> is_Some (h !! x).
Proof.
  intros (hd & Hh & Hhd & Hr & _) Hx. rewrite Hh in Hx. simpl in Hx.
  apply elem_of_cons in Hx as [->|Hx]; [eauto|].
  clear Hhd. revert Hr Hx. generalize (Some hd).
  induction t as [|l IHl y sz bh b v r IHr]; simpl; intros par Hr Hx;
    [by apply elem_of_nil in Hx|].
  destruct Hr as (Hy & Hl & Hr).
  apply elem_of_app in Hx as [Hx|Hx]; [by eapply IHl|].
  apply elem_of_cons in Hx as [->|Hx]; [eauto|by eapply IHr].
Qed.

Lemma tree_rep_fresh h this t hd x :
  head_ this = Some hd -> tree_rep h this t -> h !! x = None ->
  x ∉ hd :: addrs t.
Proof.
  intros Hh Htr Hx Hin.
  assert (is_Some (h !! x)) as [? ?]; [|congruence].
  eapply tree_rep_alloc; [exact Htr|]. by rewrite Hh.
Qed.

Lemma tree_rep_frame (L : list addr) h h' this t hd :
  head_ this = Some hd -> frame_eq L h h' -> disj (hd :: addrs t) L ->
  tree_rep h this t -> tree_rep h' this t.
Proof.
  intros Hh Hfr Hd (hd' & Hh' & Hhd & Hr & Hn & Hnd).
  assert (hd' = hd) as -> by congruence.
  apply disj_cons_l in Hd as [? ?].
  exists hd. split_and!; try done.
  - by rewrite Hfr.
  - by eapply rep_rebase.
Qed.

Lemma frame_eq_insert h a (n : Node_) : frame_eq [a] h (<[a := n]> h).
Proof.
  intros x Hx. apply lookup_insert_ne. intros ->. apply Hx.
  by apply list_elem_of_singleton.
Qed.

Lemma inserted_rebase h0 h this E (L : list addr) h' :
  frame_eq L h0 h -> inserted h this E L h' -> inserted h0 this E L h'.
Proof.
  intros Hfr (t' & ? & ? & ? & Hfr'). exists t'. split_and!; try done.
  by eapply frame_eq_trans.
Qed.

Lemma insert_end_spec fuel h this hd t val :
  head_ this = Some hd -> tree_rep h this t -> rb_tree t ->
  tsize t + 1 < 2 ^ 64 -> (height t < fuel)%nat ->
  wp (do b <- GenNode_ val;
      do_ InsertBefore_ fuel this (Some hd) b; ret b) h
    (inserted_new h this hd t (fun b => elems t ++ [(b, val)])).
Proof.
  intros Hh Htr Hrb Hsz Hf.
  apply wp_bind. apply wp_malloc. intros b Hb.
  pose proof (tree_rep_fresh _ _ _ _ _ Hh Htr Hb) as Hn.
  apply wp_bind. eapply wp_mono.
  { apply (InsertBefore_end fuel _ this hd t b val); try done.
    - eapply tree_rep_frame; [done|apply frame_eq_insert| |done].
      nodup_all. solve_distinct.
    - apply lookup_insert_eq. }
  intros ? h' Hins. apply wp_ret. exists b. split_and!; [done|done|].
  eapply inserted_rebase; [|exact Hins].
  eapply frame_eq_mono; [apply frame_eq_insert|]. solve_elem.
Qed.

Lemma insert_node_spec fuel h this hd t a val :
  head_ this = Some hd -> tree_rep h this t -> rb_tree t ->
  tsize t + 1 < 2 ^ 64 -> (height t < fuel)%nat -> a ∈ addrs t ->
  wp (do b <- GenNode_ val;
      do_ InsertBefore_ fuel this (Some a) b; ret b) h (fun res h' =>
    exists E1 v E2, elems t = E1 ++ (a, v) :: E2
      /\ inserted_new h this hd t (fun b => E1 ++ (b, val) :: (a, v) :: E2) res h').
Proof.
  intros Hh Htr Hrb Hsz Hf Ha.
  destruct (in_addrs_plug _ _ Ha) as (c & l & sz & bh & bl & v & r & ->).
  apply wp_bind. apply wp_malloc. intros b Hb.
  pose proof (tree_rep_fresh _ _ _ _ _ Hh Htr Hb) as Hn.
  apply wp_bind. eapply wp_mono.
  { apply (InsertBefore_node fuel _ this hd c l a sz bh bl v r b val); try done.
    - eapply tree_rep_frame; [done|apply frame_eq_insert| |done].
      nodup_all. solve_distinct.
    - apply lookup_insert_eq. }
  intros ? h' (E1 & E2 & He & Hins). apply wp_ret.
  exists E1, v, E2. split; [done|].
  exists b. split_and!; [done|done|].
  eapply inserted_rebase; [|exact Hins].
  eapply frame_eq_mono; [apply frame_eq_insert|]. solve_elem.
Qed.

End PubIns.

Ltac wp_run_to_reroot :=
  repeat (lazymatch goal with
          | |- wp (bind (set with_parent _ None) _) _ _ => fail
          | |- _ => wp_step
          end).

Section Mrg.

Context {T : Type}.

Local Abbreviation Node_ := (Node_ T).

Local Abbreviation heap := (gmap addr Node_).

Local Abbreviation tree := (tree T).

Local Abbreviation ctx := (ctx T).

Implicit Types (h : heap) (t l r : tree) (c : ctx) (a : addr) (p : ptr).

Lemma wp_reroot h par0 par t a Q :
  rep h par0 t -> root t = Some a -> NoDup (addrs t) ->
  (forall h', rep h' par t -> frame_eq [a] h h' -> Q tt h') ->
  wp (set with_parent (Some a) par) h Q.
Proof.
  destruct t as [|l x sz bh b v r]; simpl; intros Hr [= ->] Hnd HQ.
  destruct Hr as (Ha & Hl & Hr). nodup_all.
  eapply wp_set; [exact Ha|]. apply HQ.
  - split_and!; [apply lookup_insert_eq|by apply rep_insert_notin..].
  - apply frame_eq_insert.
Qed.

Lemma root_plug_same c t t' : root t = root t' -> root (plug c t) = root (plug c t').
Proof. destruct c as [|f c]; [done|]. intros _. by rewrite !root_plug_cons. Qed.

Lemma InsertRepair_none fuel h c l nd sz bh v r inc :
  rep h None (plug c (Node l nd sz bh false v r)) ->
  NoDup (addrs (plug c (Node l nd sz bh false v r))) ->
  valid (Node l nd sz bh false v r) ->
  ctx_valid c true (sz - inc) bh -> top_black c ->
  0 < inc -> 0 <= sz - inc -> 2 ^ bh <= sz - inc + 1 -> 0 <= bh ->
  Forall (fun f => fsize f + inc < 2 ^ 64) c -> sz < 2 ^ 64 ->
  (length c < fuel)%nat ->
  wp (InsertRepair_ fuel (Some nd) None inc) h
     (repaired h None (plug c (Node l nd sz bh false v r))
        (addrs (plug c (Node l nd sz bh false v r)))).
Proof.
  intros Hr Hnd Hv Hcv Htb Hinc Hsz Hpow Hbh Hfs Hlt Hf.
  unfold InsertRepair_, Pull_. apply wp_bind, wp_ret.
  apply rep_plug in Hr as [Hc Hn]. rewrite addrs_plug in Hnd.
  eapply wp_mono.
  { apply (InsertRepair_loop_spec fuel h None c l nd sz bh v r inc); try done.
    simpl. solve_distinct. }
  intros res h'. apply repaired_weaken; [done| |apply frame_eq_refl].
  intros x. by rewrite addrs_plug.
Qed.

Lemma left_spine_app c1 c2 : left_spine c1 -> left_spine c2 -> left_spine (c1 ++ c2).
Proof. apply Forall_app_2. Qed.

Lemma right_spine_app c1 c2 :
  right_spine c1 -> right_spine c2 -> right_spine (c1 ++ c2).
Proof. apply Forall_app_2. Qed.

Lemma Merge_descend_left_spec fuel h la (nl : Node_) par t :
  rep h par t -> h !! la = Some nl -> valid t ->
  0 < black_height nl <= bhf t -> (height t <= fuel)%nat ->
  wp (Merge_descend_left fuel (Some la) (root t)) h (fun res h' =>
    h' = h /\ exists c rl x sx vx rr,
      t = plug c (Node rl x sx (black_height nl) true vx rr)
      /\ res = Some x /\ left_spine c).
Proof.
  revert par t. induction fuel as [|fuel IH]; intros par t Hr Hl Hv Hbh Hf.
  { destruct t; simpl in *; lia. }
  destruct t as [|tl a sz bh b v tr]; [simpl in Hbh; lia|].
  simpl in Hr, Hv, Hbh, Hf. destruct Hr as (Ha & Hrl & Hrr).
  destruct Hv as (Hsz & Hbl & Hbr & Hcol & Hvl & Hvr).
  simpl Merge_descend_left. simpl root. wp_run.
  assert (Hrec : 0 < black_height nl <= bhf tl -> 
    wp (Merge_descend_left fuel (Some la) (root tl)) h (fun res h' =>
      h' = h /\ exists c rl x sx vx rr,
        Node tl a sz bh b v tr = plug c (Node rl x sx (black_height nl) true vx rr)
        /\ res = Some x /\ left_spine c)).
  { intros Hb. eapply wp_mono; [apply (IH (Some a) tl); try done; lia|].
    intros res h' (-> & c & rl & x & sx & vx & rr & -> & -> & Hls).
    split; [done|].
    exists (c ++ [InL a sz bh b v tr]), rl, x, sx, vx, rr.
    rewrite plug_app. split_and!; [done|done|].
    apply left_spine_app; [done|]. by repeat constructor. }
  destruct b; simpl negb; cbv iota.
  - wp_run. destruct (Z.eqb_spec (black_height nl) bh) as [->|Hne]; simpl negb; cbv iota.
    + wp_run. split; [done|]. exists [], tl, a, sz, v, tr. split_and!; try done.
      constructor.
    + wp_run. apply Hrec. simpl in Hbl. lia.
  - wp_run. apply Hrec. simpl in Hbl. lia.
Qed.

Lemma Merge_descend_right_spec fuel h ra (nr : Node_) par t :
  rep h par t -> h !! ra = Some nr -> valid t ->
  0 < black_height nr <= bhf t -> (height t <= fuel)%nat ->
  wp (Merge_descend_right fuel (root t) (Some ra)) h (fun res h' =>
    h' = h /\ exists c ll x sx vx lr,
      t = plug c (Node ll x sx (black_height nr) true vx lr)
      /\ res = Some x /\ right_spine c).
Proof.
  revert par t. induction fuel as [|fuel IH]; intros par t Hr Hl Hv Hbh Hf.
  { destruct t; simpl in *; lia. }
  destruct t as [|tl a sz bh b v tr]; [simpl in Hbh; lia|].
  simpl in Hr, Hv, Hbh, Hf. destruct Hr as (Ha & Hrl & Hrr).
  destruct Hv as (Hsz & Hbl & Hbr & Hcol & Hvl & Hvr).
  simpl Merge_descend_right. simpl root. wp_run.
  assert (Hrec : 0 < black_height nr <= bhf tr -> 
    wp (Merge_descend_right fuel (root tr) (Some ra)) h (fun res h' =>
      h' = h /\ exists c ll x sx vx lr,
        Node tl a sz bh b v tr = plug c (Node ll x sx (black_height nr) true vx lr)
        /\ res = Some x /\ right_spine c)).
  { intros Hb. eapply wp_mono; [apply (IH (Some a) tr); try done; lia|].
    intros res h' (-> & c & ll & x & sx & vx & lr & -> & -> & Hls).
    split; [done|].
    exists (c ++ [InR tl a sz bh b v]), ll, x, sx, vx, lr.
    rewrite plug_app. split_and!; [done|done|].
    apply right_spine_app; [done|]. by repeat constructor. }
  destruct b; simpl negb; cbv iota.
  - wp_run. destruct (Z.eqb_spec bh (black_height nr)) as [<-|Hne]; simpl negb; cbv iota.
    + wp_run. split; [done|]. exists [], tl, a, sz, v, tr. split_and!; try done.
      constructor.
    + wp_run. apply Hrec. simpl in Hbr. lia.
  - wp_run. apply Hrec. simpl in Hbr. lia.
Qed.

Lemma repaired_merged h0 h tl m v tr t1 res h' :
  elems t1 = elems tl ++ (m, v) :: elems tr ->
  (forall x, x ∈ addrs t1 -> x ∈ m :: addrs tl ++ addrs tr) ->
  frame_eq (m :: addrs tl ++ addrs tr) h0 h ->
  repaired h None t1 (addrs t1) res h' -> merged h0 tl m v tr res h'.
Proof.
  intros He Hin Hfr (t' & -> & Hs & Hr & Hrb & He' & _ & Hfr').
  exists t'. split_and!; try done.
  - by exists None.
  - congruence.
  - eapply frame_eq_trans; [exact Hfr|]. eapply frame_eq_mono; [exact Hfr'|].
    intros x Hx. apply Hin. by rewrite app_nil_r in Hx.
Qed.

Lemma Merge_leaf_l fuel h m (nm : Node_) v tr pr :
  rep h pr tr -> h !! m = Some nm -> value nm = Some v ->
  rb_tree tr -> NoDup (m :: addrs tr) ->
  tsize tr + 1 < 2 ^ 64 -> (height tr < fuel)%nat ->
  wp (Merge_ fuel None (Some m) (root tr)) h (merged h Leaf m v tr).
Proof.
  intros Hr Hm Hv [Hvr Hbr] Hnd Hsz Hf.
  destruct nm as [nl nr np ns nbh nb nv]. simpl in Hv. subst nv.
  unfold Merge_. simpl_fields. wp_run.
  destruct (root tr) as [ra|] eqn:Hrt; simpl_fields.
  - assert (tr <> Leaf) as Hne by (by intros ->).
    wp_run. apply wp_bind.
    eapply wp_mono.
    { rewrite <- Hrt. eapply (First_spec _ _ pr tr); [|done|lia].
      apply rep_insert_notin; [|done]. nodup_all. done. }
    intros res h1 (-> & c & x & sz & bh & b & vx & rx & -> & -> & Hls).
    pose proof Hr as Hr0. apply rep_plug in Hr0 as [Hc Hx].
    simpl in Hx. destruct Hx as (Hx & _ & Hrx).
    pose proof Hnd as Hnd0. rewrite addrs_plug in Hnd. nodup_all.
    wp_run_to_reroot. apply wp_bind.
    change (plug c (Node Leaf x sz bh b vx rx))
      with (plug (InL x sz bh b vx rx :: c) Leaf) in *.
    set (c1 := InL x sz bh b vx rx :: c) in *.
    eapply (wp_reroot _ pr None (plug c1 (Node Leaf m 1 0 false v Leaf)) ra).
    { apply rep_plug. subst c1. split; solve_rep. }
    { rewrite <- Hrt. subst c1. by rewrite !root_plug_cons. }
    { rewrite addrs_plug. subst c1. solve_distinct. }
    intros h2 Hr2 Hfr2.
    apply valid_plug_inv in Hvr as Hcv. destruct Hcv as [_ Hcv].
    eapply wp_mono.
    { apply (InsertRepair_none fuel h2 c1 Leaf m 1 0 v Leaf 1); try done; try lia.
      - rewrite addrs_plug. subst c1. solve_distinct.
      - by apply (is_black_plug_inv c1 Leaf).
      - pose proof (ctx_valid_fsize_le c1 true Leaf Hcv) as Hle.
        eapply Forall_impl; [apply Hle; simpl; lia|].
        intros f Hfle. cbv beta in Hfle. lia.
      - pose proof (length_plug_height c1 (@Leaf T)). simpl in *. lia. }
    intros res h'. apply repaired_merged.
    + destruct (elems_left_spine c Leaf Hls) as [post Hp].
      subst c1. cbn [plug fill]. rewrite !Hp. done.
    + subst c1. intros y. rewrite !addrs_plug. revert y. solve_elem.
    + eapply frame_eq_trans; [|eapply frame_eq_mono; [exact Hfr2|]].
      * eapply (frame_eq_mono [m; x]); [frame_solve|].
        subst c1. intros y. rewrite addrs_plug. revert y. solve_elem.
      * intros y Hy. apply list_elem_of_singleton in Hy as ->.
        apply elem_of_cons. right. simpl. apply root_addrs. done.
  - destruct tr; [|done]. wp_run.
    exists (Node Leaf m 1 1 true v Leaf). split_and!; try done.
    + exists np. simpl. split_and!; try done. lookup.
    + simpl. apply frame_eq_insert.
Qed.

Lemma Merge_leaf_r fuel h m (nm : Node_) v tl pl :
  rep h pl tl -> h !! m = Some nm -> value nm = Some v ->
  rb_tree tl -> NoDup (m :: addrs tl) -> tl <> Leaf ->
  tsize tl + 1 < 2 ^ 64 -> (height tl < fuel)%nat ->
  wp (Merge_ fuel (root tl) (Some m) None) h (merged h tl m v Leaf).
Proof.
  intros Hr Hm Hv [Hvr Hbr] Hnd Hne Hsz Hf.
  destruct nm as [nl nr np ns nbh nb nv]. simpl in Hv. subst nv.
  unfold Merge_.
  destruct (root tl) as [la|] eqn:Hrt; [|by destruct tl]. simpl_fields.
  wp_run. apply wp_bind.
  eapply wp_mono.
  { rewrite <- Hrt. eapply (Last_spec _ _ pl tl); [|done|lia].
    apply rep_insert_notin; [|done]. nodup_all. done. }
  intros res h1 (-> & c & lx & x & sz & bh & b & vx & -> & -> & Hls).
  pose proof Hr as Hr0. apply rep_plug in Hr0 as [Hc Hx].
  simpl in Hx. destruct Hx as (Hx & Hrx & _).
  pose proof Hnd as Hnd0. rewrite addrs_plug in Hnd. nodup_all.
  wp_run_to_reroot. apply wp_bind.
  change (plug c (Node lx x sz bh b vx Leaf))
    with (plug (InR lx x sz bh b vx :: c) Leaf) in *.
  set (c1 := InR lx x sz bh b vx :: c) in *.
  eapply (wp_reroot _ pl None (plug c1 (Node Leaf m 1 0 false v Leaf)) la).
  { apply rep_plug. subst c1. split; solve_rep. }
  { rewrite <- Hrt. subst c1. by rewrite !root_plug_cons. }
  { rewrite addrs_plug. subst c1. solve_distinct. }
  intros h2 Hr2 Hfr2.
  apply valid_plug_inv in Hvr as Hcv. destruct Hcv as [_ Hcv].
  eapply wp_mono.
  { apply (InsertRepair_none fuel h2 c1 Leaf m 1 0 v Leaf 1); try done; try lia.
    - rewrite addrs_plug. subst c1. solve_distinct.
    - by apply (is_black_plug_inv c1 Leaf).
    - pose proof (ctx_valid_fsize_le c1 true Leaf Hcv) as Hle.
      eapply Forall_impl; [apply Hle; simpl; lia|].
      intros f Hfle. cbv beta in Hfle. lia.
    - pose proof (length_plug_height c1 (@Leaf T)). simpl in *. lia. }
  intros res h'. apply repaired_merged.
  + destruct (elems_right_spine c Leaf Hls) as [pre Hp].
    subst c1. cbn [plug fill]. rewrite !Hp. list_assoc.
  + subst c1. intros y. rewrite !addrs_plug. revert y. solve_elem.
  + eapply frame_eq_trans; [|eapply frame_eq_mono; [exact Hfr2|]].
    * eapply (frame_eq_mono [m; x]); [frame_solve|].
      subst c1. intros y. rewrite addrs_plug. revert y. solve_elem.
    * intros y Hy. apply list_elem_of_singleton in Hy as ->.
      apply elem_of_cons. right. apply elem_of_app. left.
      apply root_addrs. done.
Qed.

Lemma wp_get_root_bh h par t a Q :
  rep h par t -> root t = Some a -> Q (bhf t) h ->
  wp (get black_height (Some a)) h Q.
Proof.
  destruct t as [|l x sz bh b v r]; simpl; intros Hr [= ->] HQ.
  destruct Hr as (Ha & _). eapply wp_get; [exact Ha|done].
Qed.

Lemma Merge_lt fuel h m (nm : Node_) v tl tr pl pr :
  rep h pl tl -> rep h pr tr -> h !! m = Some nm -> value nm = Some v ->
  rb_tree tl -> rb_tree tr -> NoDup (m :: addrs tl ++ addrs tr) ->
  tl <> Leaf -> bhf tl < bhf tr ->
  tsize tl + tsize tr + 1 < 2 ^ 64 ->
  (height tl < fuel)%nat -> (height tr < fuel)%nat ->
  wp (Merge_ fuel (root tl) (Some m) (root tr)) h (merged h tl m v tr).
Proof.
  intros Hl Hr Hm Hv [Hvl Hbl] [Hvr Hbr] Hnd Hne Hlt Hsz Hfl Hfr.
  destruct nm as [nl nr np ns nbh nb nv]. simpl in Hv. subst nv.
  destruct tl as [|tll la lsz lbh lb lv tlr]; [done|]. clear Hne.
  simpl in Hbl. subst lb.
  pose proof (valid_bhf_nonneg _ Hvl) as Hlbh0.
  pose proof Hvl as Hvl0.
  simpl in Hl, Hvl, Hlt, Hsz, Hlbh0. destruct Hl as (Hla & Hll & Hlr).
  destruct Hvl as (Hlsz & Hlbl & Hlbr & _ & Hvll & Hvlr).
  pose proof (valid_bhf_nonneg _ Hvll) as Hllbh0. cbn [Z.b2z] in *.
  unfold Merge_.
  destruct (root tr) as [ra|] eqn:Hrt; [|destruct tr; simpl in *; [lia|done]].
  simpl_fields. wp_run. apply wp_bind.
  eapply wp_get_root_bh; [exact Hr|exact Hrt|].
  destruct (Z.eqb_spec lbh (bhf tr)) as [?|_]; [lia|].
  destruct (Z.ltb_spec lbh (bhf tr)) as [_|?]; [|lia].
  apply wp_bind. eapply wp_mono.
  { rewrite <- Hrt. eapply (Merge_descend_left_spec _ _ la _ pr tr);
      [done|exact Hla|done|simpl; lia|lia]. }
  intros res h1 (-> & c & rl & x & sx & vx & rr & -> & -> & Hls).
  simpl black_height in *.
  destruct c as [|[p psz pbh pb pv psib|] c'];
    [simpl in Hlt; lia| |by inversion Hls].
  set (c := InL p psz pbh pb pv psib :: c') in *.
  set (X := Node rl x sx lbh true vx rr) in *.
  set (tl := Node tll la lsz lbh true lv tlr) in *.
  pose proof Hr as Hr0. apply rep_plug in Hr0 as [Hc HX].
  subst c X tl.
  simpl in Hc, HX. destruct Hc as (Hp & Hps & Hc'). destruct HX as (Hx & Hrl & Hrr).
  pose proof Hnd as Hnd0. rewrite addrs_plug in Hnd. nodup_all.
  apply valid_plug_inv in Hvr as Hcv. destruct Hcv as [HvX Hcv].
  pose proof HvX as HvX0.
  simpl in HvX. destruct HvX as (Hxsz & Hxbl & Hxbr & _ & Hvrl & Hvrr).
  pose proof (ctx_valid_tsize_le _ _ _ Hcv) as Hle. cbn [tsize] in Hle.
  pose_sizes.
  assert (Hbound : lsz + sx + 1 < 2 ^ 64) by lia.
  unfold ConnectParentNoCheck_. wp_run_to_reroot. apply wp_bind.
  set (c := InL p psz pbh pb pv psib :: c') in *.
  set (X := Node rl x sx lbh true vx rr) in *.
  set (tl := Node tll la lsz lbh true lv tlr) in *.
  eapply (wp_reroot _ pr None (plug c (Node tl m (lsz + sx + 1) lbh false v X)) ra).
  { apply rep_plug. subst c X tl. split; solve_rep. }
  { rewrite <- Hrt. subst c. by rewrite !root_plug_cons. }
  { rewrite addrs_plug. subst c X tl. solve_distinct. }
  intros h2 Hr2 Hfr2.
  pose proof Hr2 as Hr2'. apply rep_plug in Hr2' as [_ Hm2].
  subst tl. cbn [rep] in Hm2. destruct Hm2 as (_ & (Hla2 & _) & _).
  wp_run. rewrite (size_t_small' (lsz + 1)) by lia.
  set (tl := Node tll la lsz lbh true lv tlr) in *.
  eapply wp_mono.
  { apply (InsertRepair_none fuel h2 c tl m (lsz + sx + 1) lbh v X (lsz + 1)); try done; try lia.
    - rewrite addrs_plug. subst c X tl. solve_distinct.
    - subst X tl. simpl. split_and!; try done; lia.
    - eapply ctx_valid_eq; [exact Hcv|simpl; lia|done].
    - by apply (is_black_plug_inv c X).
    - pose proof (valid_pow _ HvX0) as Hpw. subst X. cbn [tsize bhf] in Hpw. lia.
    - pose proof (ctx_valid_fsize_le c true X Hcv) as Hfs.
      eapply Forall_impl; [apply Hfs; simpl; lia|].
      intros f Hfle. cbv beta in Hfle. lia.
    - pose proof (length_plug_height c X). lia. }
  intros res h'. apply repaired_merged.
  + destruct (elems_left_spine c Leaf Hls) as [post Hp'].
    rewrite !Hp'. subst X tl. list_assoc.
  + subst c X tl. intros y. rewrite !addrs_plug. revert y. solve_elem.
  + eapply frame_eq_trans; [|eapply frame_eq_mono; [exact Hfr2|]].
    * eapply (frame_eq_mono [m; la; x; p]); [frame_solve|].
      subst c X tl. intros y. rewrite addrs_plug. revert y. solve_elem.
    * intros y Hy. apply list_elem_of_singleton in Hy as ->.
      apply elem_of_cons. right. apply elem_of_app. right.
      apply root_addrs. done.
Qed.

Lemma Merge_gt fuel h m (nm : Node_) v tl tr pl pr :
  rep h pl tl -> rep h pr tr -> h !! m = Some nm -> value nm = Some v ->
  rb_tree tl -> rb_tree tr -> NoDup (m :: addrs tl ++ addrs tr) ->
  tr <> Leaf -> bhf tr < bhf tl ->
  tsize tl + tsize tr + 1 < 2 ^ 64 ->
  (height tl < fuel)%nat -> (height tr < fuel)%nat ->
  wp (Merge_ fuel (root tl) (Some m) (root tr)) h (merged h tl m v tr).
Proof.
  intros Hl Hr Hm Hv [Hvl Hbl] [Hvr Hbr] Hnd Hne Hlt Hsz Hfl Hfr.
  destruct nm as [nl nr np ns nbh nb nv]. simpl in Hv. subst nv.
  destruct tr as [|trl ra rsz rbh rb rv trr]; [done|]. clear Hne.
  simpl in Hbr. subst rb.
  pose proof (valid_bhf_nonneg _ Hvr) as Hrbh0.
  pose proof Hvr as Hvr0.
  simpl in Hr, Hvr, Hlt, Hsz, Hrbh0. destruct Hr as (Hra & Hrl & Hrr).
  destruct Hvr as (Hrsz & Hrbl & Hrbr & _ & Hvrl & Hvrr).
  pose proof (valid_bhf_nonneg _ Hvrl) as Hrlbh0. cbn [Z.b2z] in *.
  unfold Merge_.
  destruct (root tl) as [la|] eqn:Hrt; [|destruct tl; simpl in *; [lia|done]].
  simpl_fields. apply wp_bind.
  eapply wp_get_root_bh; [exact Hl|exact Hrt|]. wp_run.
  destruct (Z.eqb_spec (bhf tl) rbh) as [?|_]; [lia|].
  destruct (Z.ltb_spec (bhf tl) rbh) as [?|_]; [lia|].
  apply wp_bind. eapply wp_mono.
  { rewrite <- Hrt. eapply (Merge_descend_right_spec _ _ ra _ pl tl);
      [done|exact Hra|done|simpl; lia|lia]. }
  intros res h1 (-> & c & ll & x & sx & vx & lr & -> & -> & Hls).
  simpl black_height in *.
  destruct c as [|[|psib p psz pbh pb pv] c'];
    [simpl in Hlt; lia|by inversion Hls|].
  set (c := InR psib p psz pbh pb pv :: c') in *.
  set (X := Node ll x sx rbh true vx lr) in *.
  set (tr := Node trl ra rsz rbh true rv trr) in *.
  pose proof Hl as Hl0. apply rep_plug in Hl0 as [Hc HX].
  subst c X tr.
  simpl in Hc, HX. destruct Hc as (Hp & Hps & Hc'). destruct HX as (Hx & Hxl & Hxr).
  pose proof Hnd as Hnd0. rewrite addrs_plug in Hnd. nodup_all.
  apply valid_plug_inv in Hvl as Hcv. destruct Hcv as [HvX Hcv].
  pose proof HvX as HvX0.
  simpl in HvX. destruct HvX as (Hxsz & Hxbl & Hxbr & _ & Hvxl & Hvxr).
  pose proof (ctx_valid_tsize_le _ _ _ Hcv) as Hle. cbn [tsize] in Hle.
  pose_sizes.
  assert (Hbound : sx + rsz + 1 < 2 ^ 64) by lia.
  unfold ConnectParentNoCheck_. wp_run_to_reroot. apply wp_bind.
  set (c := InR psib p psz pbh pb pv :: c') in *.
  set (X := Node ll x sx rbh true vx lr) in *.
  set (tr := Node trl ra rsz rbh true rv trr) in *.
  eapply (wp_reroot _ pl None (plug c (Node X m (sx + rsz + 1) rbh false v tr)) la).
  { apply rep_plug. subst c X tr. split; solve_rep. }
  { rewrite <- Hrt. subst c. by rewrite !root_plug_cons. }
  { rewrite addrs_plug. subst c X tr. solve_distinct. }
  intros h2 Hr2 Hfr2.
  pose proof Hr2 as Hr2'. apply rep_plug in Hr2' as [_ Hm2].
  subst tr. cbn [rep] in Hm2. destruct Hm2 as (_ & _ & (Hra2 & _)).
  wp_run. rewrite (size_t_small' (rsz + 1)) by lia.
  set (tr := Node trl ra rsz rbh true rv trr) in *.
  eapply wp_mono.
  { apply (InsertRepair_none fuel h2 c X m (sx + rsz + 1) rbh v tr (rsz + 1)); try done; try lia.
    - rewrite addrs_plug. subst c X tr. solve_distinct.
    - subst X tr. simpl. split_and!; try done; lia.
    - eapply ctx_valid_eq; [exact Hcv|simpl; lia|done].
    - by apply (is_black_plug_inv c X).
    - pose proof (valid_pow _ HvX0) as Hpw. subst X. cbn [tsize bhf] in Hpw. lia.
    - pose proof (ctx_valid_fsize_le c true X Hcv) as Hfs.
      eapply Forall_impl; [apply Hfs; simpl; lia|].
      intros f Hfle. cbv beta in Hfle. lia.
    - pose proof (length_plug_height c X). lia. }
  intros res h'. apply repaired_merged.
  + destruct (elems_right_spine c Leaf Hls) as [pre Hp'].
    rewrite !Hp'. subst X tr. list_assoc.
  + subst c X tr. intros y. rewrite !addrs_plug. revert y. solve_elem.
  + eapply frame_eq_trans; [|eapply frame_eq_mono; [exact Hfr2|]].
    * eapply (frame_eq_mono [m; ra; x; p]); [frame_solve|].
      subst c X tr. intros y. rewrite addrs_plug. revert y. solve_elem.
    * intros y Hy. apply list_elem_of_singleton in Hy as ->.
      apply elem_of_cons. right. apply elem_of_app. left.
      apply root_addrs. done.
Qed.

End Mrg.

Section Mrg2.

Context {T : Type}.

Local Abbreviation Node_ := (Node_ T).

Local Abbreviation heap := (gmap addr Node_).

Local Abbreviation tree := (tree T).

Local Abbreviation ctx := (ctx T).

Implicit Types (h : heap) (t l r : tree) (c : ctx) (a : addr) (p : ptr).

Lemma Merge_eq fuel h m (nm : Node_) v tl tr pl pr :
  rep h pl tl -> rep h pr tr -> h !! m = Some nm -> value nm = Some v ->
  rb_tree tl -> rb_tree tr -> NoDup (m :: addrs tl ++ addrs tr) ->
  tl <> Leaf -> tr <> Leaf -> bhf tl = bhf tr ->
  tsize tl + tsize tr + 1 < 2 ^ 64 ->
  wp (Merge_ fuel (root tl) (Some m) (root tr)) h (merged h tl m v tr).
Proof.
  intros Hl Hr Hm Hv [Hvl Hbl] [Hvr Hbr] Hnd Hnl Hnr Heq Hsz.
  destruct nm as [nl nr np ns nbh nb nv]. simpl in Hv. subst nv.
  destruct tl as [|tll la lsz lbh lb lv tlr]; [done|]. clear Hnl.
  destruct tr as [|trl ra rsz rbh rb rv trr]; [done|]. clear Hnr.
  simpl in Hbl, Hbr, Heq. subst lb rb rbh.
  pose proof (valid_pow _ Hvl) as Hpw. pose proof (valid_bhf_nonneg _ Hvl) as Hbh0.
  pose proof Hvl as Hvl0. pose proof Hvr as Hvr0.
  simpl in Hl, Hr, Hvl, Hvr, Hsz, Hpw, Hbh0.
  destruct Hl as (Hla & Hll & Hlr). destruct Hr as (Hra & Hrl & Hrr).
  destruct Hvl as (Hlsz & Hlbl & Hlbr & _ & Hvll & Hvlr).
  destruct Hvr as (Hrsz & Hrbl & Hrbr & _ & Hvrl & Hvrr).
  pose_sizes. nodup_all.
  assert (lbh <= 64).
  { apply pow2_le_64; [done|]. lia. }
  unfold Merge_. simpl_fields. wp_run.
  rewrite Z.eqb_refl. wp_run.
  exists (Node (Node tll la lsz lbh true lv tlr) m (lsz + rsz + 1) (lbh + 1) true v
            (Node trl ra rsz lbh true rv trr)).
  split_and!.
  - done.
  - by eexists.
  - exists np. solve_rep.
  - split; [|done]. simpl. cbn [Z.b2z]. split_and!; try done; lia.
  - done.
  - eapply (frame_eq_mono [m; la; ra]); [frame_solve|]. solve_elem.
Qed.

Lemma Merge_spec fuel h m (nm : Node_) v tl tr pl pr :
  rep h pl tl -> rep h pr tr -> h !! m = Some nm -> value nm = Some v ->
  rb_tree tl -> rb_tree tr -> NoDup (m :: addrs tl ++ addrs tr) ->
  tsize tl + tsize tr + 1 < 2 ^ 64 ->
  (height tl < fuel)%nat -> (height tr < fuel)%nat ->
  wp (Merge_ fuel (root tl) (Some m) (root tr)) h (merged h tl m v tr).
Proof.
  intros Hl Hr Hm Hv Hbl Hbr Hnd Hsz Hfl Hfr.
  assert (tl = Leaf \/ tl <> Leaf) as [->|Hnl] by (destruct tl; auto).
  { simpl in *. by eapply Merge_leaf_l. }
  assert (tr = Leaf \/ tr <> Leaf) as [->|Hnr] by (destruct tr; auto).
  { simpl in Hnd, Hsz. rewrite app_nil_r in Hnd.
    eapply wp_mono; [eapply (Merge_leaf_r fuel h m nm v tl pl); try done; lia|].
    intros res h' (t' & ? & ? & ? & ? & ? & Hfr'). exists t'.
    split_and!; done. }
  destruct (Z.lt_trichotomy (bhf tl) (bhf tr)) as [?|[?|?]].
  - by eapply Merge_lt.
  - by eapply Merge_eq.
  - by eapply Merge_gt.
Qed.

End Mrg2.

Section Del.

Context {T : Type}.

Local Abbreviation Node_ := (Node_ T).

Local Abbreviation heap := (gmap addr Node_).

Local Abbreviation tree := (tree T).

Local Abbreviation ctx := (ctx T).

Implicit Types (h : heap) (t l r : tree) (c : ctx) (a : addr) (p : ptr).

Lemma DecreaseSize_spec fuel h this hd c child :
  head_ this = Some hd ->
  (length c < fuel)%nat ->
  rep_ctx h (Some hd) c child ->
  NoDup (hd :: caddrs c) ->
  Forall (fun f => 0 < fsize f < 2 ^ 64) c ->
  wp (DecreaseSize_ fuel this (parent_of c (Some hd))) h (fun _ h' =>
    rep_ctx h' (Some hd) (fadd (-1) <$> c) child
    /\ frame_eq (faddr <$> c) h h').
Proof.
  intros Hh. revert h c child.
  induction fuel as [|fuel IH]; intros h c child Hf Hrep Hnd Hb; [lia|].
  simpl DecreaseSize_. rewrite Hh.
  destruct c as [|f c].
  { cbn [parent_of]. rewrite ptr_eqb_refl. apply wp_ret. split; [done|apply frame_eq_refl]. }
  rewrite Forall_cons in Hb. destruct Hb as [Hb1 Hb].
  assert (Hstep : forall n, h !! faddr f = Some n ->
     parent n = parent_of c (Some hd) ->
     rep_ctx (<[faddr f := with_size (size_t (size n - 1)) n]> h) (Some hd) c
       (Some (faddr f)) ->
     wp (DecreaseSize_ fuel this (parent_of c (Some hd)))
        (<[faddr f := with_size (size_t (size n - 1)) n]> h)
        (fun _ h' =>
           rep_ctx h' (Some hd) (fadd (-1) <$> c) (Some (faddr f))
           /\ h' !! faddr f = Some (with_size (size_t (size n - 1)) n)
           /\ frame_eq (faddr f :: (faddr <$> c)) h h')).
  { intros n Hn Hp Hc'.
    eapply wp_mono.
    { apply (IH _ c (Some (faddr f))); [simpl in Hf; lia|done| |done].
      nodup_all. solve_distinct. }
    simpl. intros _ h' (Hr & Hfr). split_and!; [done| |].
    + rewrite Hfr; [lookup|]. intros Hin. apply faddr_caddrs in Hin.
      nodup_all. done.
    + intros x Hx. apply not_elem_of_cons in Hx as [? ?].
      rewrite Hfr by done. by apply lookup_insert_ne. }
  assert (Hsib : forall h', frame_eq (faddr f :: (faddr <$> c)) h h' ->
     forall par, rep h par (fsib f) -> rep h' par (fsib f)).
  { intros h' Hfr par. apply rep_agree. intros x Hx. apply Hfr.
    nodup_all. apply not_elem_of_cons. split; [intros ->; contradiction|].
    intros Hin. apply faddr_caddrs in Hin.
    eapply disj_elem; [|exact Hx|exact Hin]. done. }
  nodup_all.
  destruct f as [a sz bh b v r | l a sz bh b v]; simpl in Hrep, Hstep, Hsib; cbn [fsize parent_of faddr] in *;
    destruct Hrep as (Ha & Hs & Hc); simpl_ptr_eqb; wp_run.
  - pose proof (Hstep _ Ha eq_refl) as Hst. simpl_with_in Hst.
    eapply wp_mono; [apply Hst|].
    + by apply rep_ctx_insert_notin.
    + simpl. intros _ h' (Hr & Ha' & Hfr). split_and!; [ |by eapply Hsib|done|done].
      rewrite Ha', parent_of_fadd. simpl_with. unwrap. done.
  - pose proof (Hstep _ Ha eq_refl) as Hst. simpl_with_in Hst.
    eapply wp_mono; [apply Hst|].
    + by apply rep_ctx_insert_notin.
    + simpl. intros _ h' (Hr & Ha' & Hfr). split_and!; [ |by eapply Hsib|done|done].
      rewrite Ha', parent_of_fadd. simpl_with. unwrap. done.
Qed.

Lemma fixed_weaken h0 h hd E E1 (L L1 : list addr) h' :
  E1 = E -> (forall x, x ∈ L1 -> x ∈ L) -> frame_eq (hd :: L) h0 h ->
  fixed h hd E1 L1 h' -> fixed h0 hd E L h'.
Proof.
  intros <- HL Hfr (t' & ? & ? & ? & ? & Hfr'). exists t'. split_and!; try done.
  eapply frame_eq_trans; [exact Hfr|]. eapply frame_eq_mono; [exact Hfr'|].
  intros x Hx. apply elem_of_cons in Hx as [->|Hx]; apply elem_of_cons; auto.
Qed.

Lemma ctx_valid_fsize_gt c b hsz hbh :
  ctx_valid c b hsz hbh -> 0 <= hsz -> Forall (fun f => hsz < fsize f) c.
Proof.
  revert b hsz hbh. induction c as [|f c IH]; intros b hsz hbh Hc Hs;
    [apply Forall_nil_2|].
  simpl in Hc. destruct Hc as (E & _ & _ & _ & Hv & Hc).
  apply valid_tsize_nonneg in Hv.
  apply Forall_cons. split; [lia|].
  eapply Forall_impl; [eapply IH; [exact Hc|lia]|]. simpl. intros. lia.
Qed.

Lemma root_plug_fadd inc c t : root (plug (fadd inc <$> c) t) = root (plug c t).
Proof.
  destruct c as [|f c]; [done|].
  rewrite root_plug_fadd_cons, root_plug_cons, last_ctop. done.
Qed.

Lemma root_plug_ctop c t a : root t = Some a -> root (plug c t) = Some (ctop c a).
Proof.
  destruct c as [|f c]; [done|]. intros Hr. rewrite root_plug_cons.
  by rewrite ctop_cons.
Qed.

Lemma caddrs_fadd inc c : caddrs (fadd inc <$> c) = caddrs c.
Proof.
  induction c as [|f c IH]; [done|].
  rewrite fmap_cons. cbn [caddrs]. rewrite IH. by destruct f.
Qed.

Lemma DecreaseSize_fixed fuel h this hd c t :
  head_ this = Some hd -> (length c < fuel)%nat ->
  rep_ctx h (Some hd) c (root t) -> rep h (parent_of c (Some hd)) t ->
  NoDup (hd :: caddrs c ++ addrs t) ->
  head_rec h (Some hd) (root (plug c t)) ->
  valid t -> ctx_valid c (is_black t) (tsize t + 1) (bhf t) -> top_black c ->
  (c = [] -> is_black t = true) ->
  Forall (fun f => fsize f < 2 ^ 64) c ->
  wp (DecreaseSize_ fuel this (parent_of c (Some hd))) h
     (fun _ => fixed h hd (elems (plug c t)) (caddrs c)).
Proof.
  intros Hh Hf Hc Ht Hnd Hhd Hv Hcv Htb Hroot Hb.
  pose proof (valid_tsize_nonneg _ Hv) as Hnn.
  eapply wp_mono.
  { apply (DecreaseSize_spec fuel h this hd c (root t)); try done.
    - nodup_all. solve_distinct.
    - pose proof (ctx_valid_fsize_gt _ _ _ _ Hcv) as Hgt.
      rewrite Forall_forall in *. intros x Hx.
      specialize (Hb x Hx). specialize (Hgt ltac:(lia) x Hx). simpl in Hgt. lia. }
  intros _ h' (Hc' & Hfr).
  assert (Hfr' : frame_eq (caddrs c) h h').
  { eapply frame_eq_mono; [exact Hfr|]. apply faddr_caddrs. }
  nodup_all.
  exists (plug (fadd (-1) <$> c) t). split_and!.
  - apply rep_plug. rewrite parent_of_fadd. split; [done|].
    eapply rep_rebase; [exact Hfr'| |exact Ht]. solve_distinct.
  - split.
    + apply valid_plug; [done|].
      apply (ctx_valid_fadd (-1)) in Hcv.
      eapply ctx_valid_eq; [exact Hcv|lia|done].
    + destruct c as [|f c]; [by apply Hroot|].
      apply is_black_plug; [done|]. by apply top_black_fadd.
  - apply elems_plug_fadd.
  - rewrite root_plug_fadd. simpl in Hhd. rewrite Hfr'; done.
  - eapply frame_eq_mono; [exact Hfr'|]. intros x Hx. by apply elem_of_cons; right.
Qed.

End Del.

Ltac dec_fixed c T6 s :=
  eapply wp_mono;
  [ eapply (DecreaseSize_fixed _ _ _ _ c T6);
    [ done
    | lia
    | rep_frame
    | solve_rep
    | solve_distinct
    | rewrite (root_plug_ctop c T6 s eq_refl); rep_frame
    | simpl; cbn [Z.b2z]; split_and!; try done; try lia
    | eapply ctx_valid_eq; [eassumption|simpl; lia..]
    | first [done | eapply top_black_tl; eassumption]
    | first [done | simpl; auto]
    | done ]
  | intros ? ?; apply fixed_weaken;
    [ simpl plug; apply elems_plug_eq; cbn [fill]; list_assoc
    | solve_elem
    | frame_solve ] ].

Section Del2.

Context {T : Type}.

Local Abbreviation Node_ := (Node_ T).

Local Abbreviation heap := (gmap addr Node_).

Local Abbreviation tree := (tree T).

Local Abbreviation ctx := (ctx T).

Implicit Types (h : heap) (t l r : tree) (c : ctx) (a : addr) (p : ptr).

Lemma wp_ext {A} (m m' : M T A) h Q : m h = m' h -> wp m' h Q -> wp m h Q.
Proof. unfold wp. by intros ->. Qed.

Lemma ConnectParentNoCheck_eq h orig n (on : Node_) pa :
  h !! orig = Some on -> parent on = Some pa ->
  ConnectParentNoCheck_ (Some orig) n h = ConnectParent_ (Some orig) n h.
Proof.
  intros Ho Hp. cbv [ConnectParentNoCheck_ ConnectParent_ bind get load ret].
  rewrite Ho. cbv beta iota. rewrite Hp.
  by destruct (set with_parent n (Some pa) h) as [[? ?]|].
Qed.

Lemma ConnectParentNoCheck_spec h hd c orig n (on nn : Node_) :
  rep_ctx h (Some hd) c (Some orig) ->
  h !! orig = Some on -> parent on = parent_of c (Some hd) ->
  h !! n = Some nn ->
  NoDup (hd :: orig :: n :: caddrs c) ->
  head_rec h (Some hd) (Some (ctop c orig)) ->
  wp (ConnectParentNoCheck_ (Some orig) (Some n)) h (fun _ h' =>
    h' !! n = Some (with_parent (parent_of c (Some hd)) nn)
    /\ rep_ctx h' (Some hd) c (Some n)
    /\ head_rec h' (Some hd) (Some (ctop c n))
    /\ frame_eq (n :: caddrs c ++ [hd]) h h').
Proof.
  intros Hc Ho Hp Hn Hnd Hhr.
  assert (exists pa, parent_of c (Some hd) = Some pa) as [pa Hpa]
    by (destruct c; simpl; eauto).
  eapply wp_ext.
  { eapply ConnectParentNoCheck_eq; [exact Ho|]. by rewrite Hp. }
  eapply (ConnectParent_spec h (Some hd) c orig n on nn); try done.
  - nodup_all. solve_distinct.
  - nodup_all. simpl. solve_distinct.
Qed.

Lemma wp_is_red_root h par t Q :
  rep h par t -> Q (negb (is_black t)) h -> wp (is_red (root t)) h Q.
Proof.
  destruct t; simpl; intros Hr HQ; [by apply wp_ret|].
  unfold is_red. simpl. apply wp_bind. eapply wp_get; [apply Hr|]. by apply wp_ret.
Qed.

Lemma top_black_swap (f f' : frame T) c :
  top_black (f :: c) -> (c = [] -> fblack f' = true) -> top_black (f' :: c).
Proof.
  destruct c as [|f2 c]; [intros _ H; by apply H|]. intros H _. exact H.
Qed.

Lemma RemoveRepair_finish_spec fuel h this hd fp c D :
  head_ this = Some hd ->
  (length c + 1 < fuel)%nat ->
  rep_ctx h (Some hd) (fp :: c) (root D) -> rep h (Some (faddr fp)) D ->
  NoDup (hd :: caddrs (fp :: c) ++ addrs D) ->
  head_rec h (Some hd) (Some (ctop c (faddr fp))) ->
  valid D -> is_black D = true ->
  ctx_valid (fp :: c) true (tsize D + 1) (bhf D + 1) -> top_black (fp :: c) ->
  Forall (fun f => fsize f < 2 ^ 64) (fp :: c) ->
  is_black (fsib fp) = true ->
  (fblack fp = true -> kids_black (fsib fp) = false) ->
  wp (RemoveRepair_finish fuel this (Some (faddr fp)) (root (fsib fp))) h
     (fun _ => fixed h hd (elems (plug (fp :: c) D)) (caddrs (fp :: c) ++ addrs D)).
Proof.
  intros Hh Hf Hc Ht Hnd Hhr Hv Hbl Hcv Htb Hb Hsb Hkb.
  pose proof (valid_bhf_nonneg _ Hv) as HbhD.
  pose proof (valid_tsize_nonneg _ Hv) as HszD.
  rewrite Forall_cons in Hb. destruct Hb as [Hb1 Hb].
  destruct fp as [p psz pbh pb pv S | S p psz pbh pb pv].
  - simpl in Hsb, Hkb, Hb1. cbn [faddr fsib].
    destruct S as [|sl s ssz sbh sb sv sr].
    { simpl in Hcv. destruct Hcv as (_ & ? & ? & _). lia. }
    simpl in Hsb. subst sb.
    simpl in Hc, Ht, Hcv. destruct Hc as (Hp & (Hs & Hsl & Hsr) & Hc).
    destruct Hcv as (Hpsz & Hpbh & Hsbh & Hpcol & (Hssz & Hslbh & Hsrbh & _ & Hvsl & Hvsr) & Hcv).
    cbn [Z.b2z] in *.
    assert (0 <= Z.b2z pb <= 1) by (destruct pb; simpl; lia).
    assert (Hroot : c = [] -> pb = true).
    { intros ->. apply (top_black_singleton _ Htb). }
    nodup_all. pose_sizes.
    unfold RemoveRepair_finish. simpl_fields. wp_run.
    apply wp_bind. eapply wp_is_red_root; [rep_frame|].
    destruct (is_black sr) eqn:Esr; simpl negb; cbv iota.
    2:{ (* Case 6 *)
      destruct sr as [|srl sra srsz srbh srb srv srr]; [done|].
      simpl in Esr. subst srb.
      simpl in Hsr, Hvsr, Hsrbh. destruct_ands. nodup_all. pose_sizes.
      cbn [tsize faddr] in *.
      assert (0 <= pbh <= 70).
      { pose proof (valid_pow _ Hvsl) as Hpw. pose proof (valid_bhf_nonneg _ Hvsl).
        assert (bhf sl <= 64) by (apply pow2_le_64; [done|lia]). destruct pb; simpl in *; lia. }
      simpl_fields. wp_run.
      apply wp_bind; eapply wp_mono;
      [ eapply (ConnectParentNoCheck_spec _ hd c p s);
        [rep_frame|lookup|reflexivity|lookup|solve_distinct|rep_frame]|].
      intros [] h1 (Hn1 & Hc1 & Hhr1 & Hfr1); simpl_with_in Hn1.
      wp_run.
      dec_fixed c (Node (Node D p (tsize D + tsize sl + 1) (pbh - Z.b2z pb) true pv sl) s
                   (psz - 1) pbh pb sv (Node srl sra srsz (srbh + 1) true srv srr)) s. }
    apply wp_bind. eapply wp_is_red_root; [rep_frame|].
    destruct (is_black sl) eqn:Esl; simpl negb; cbv iota.
    2:{ (* Case 5 *)
      destruct sl as [|sll sina sinsz sinbh sinb sinv slr]; [done|].
      simpl in Esl. subst sinb.
      simpl in Hsl, Hvsl, Hslbh. destruct_ands. nodup_all. pose_sizes.
      cbn [tsize faddr] in *.
      assert (0 <= pbh <= 70).
      { pose proof (valid_pow _ Hvsr) as Hpw. pose proof (valid_bhf_nonneg _ Hvsr).
        assert (bhf sr <= 64) by (apply pow2_le_64; [done|lia]). lia. }
      simpl_fields. wp_run.
      apply wp_bind; eapply wp_mono;
      [ eapply (ConnectParentNoCheck_spec _ hd c p sina);
        [rep_frame|lookup|reflexivity|lookup|solve_distinct|rep_frame]|].
      intros [] h1 (Hn1 & Hc1 & Hhr1 & Hfr1); simpl_with_in Hn1.
      wp_run.
      dec_fixed c (Node (Node D p (tsize D + tsize sll + 1) (pbh - Z.b2z pb) true pv sll) sina
                   (psz - 1) pbh pb sinv (Node slr s (tsize slr + tsize sr + 1) sbh true sv sr)) sina. }
    (* Case 4 *)
    assert (pb = false) as ->.
    { destruct pb; [|done]. specialize (Hkb eq_refl). simpl in Hkb.
      rewrite Esl, Esr in Hkb. done. }
    cbn [Z.b2z tsize faddr] in *.
    assert (0 <= pbh <= 70).
    { pose proof (valid_pow _ Hvsr) as Hpw. pose proof (valid_bhf_nonneg _ Hvsr).
      assert (bhf sr <= 64) by (apply pow2_le_64; [done|lia]). lia. }
    wp_run.
    eapply wp_mono.
    { eapply (DecreaseSize_fixed fuel _ this hd
               (InL p psz pbh true pv (Node sl s ssz (sbh - 1) false sv sr) :: c) D).
      - done.
      - simpl. lia.
      - solve_rep.
      - rep_frame.
      - solve_distinct.
      - rewrite root_plug_cons. cbn [faddr]. rep_frame.
      - done.
      - rewrite Hbl. simpl. cbn [Z.b2z]. rewrite Esl, Esr.
        split_and!; try done; try lia. by apply ctx_valid_weaken.
      - eapply top_black_swap; [exact Htb|done].
      - done.
      - apply Forall_cons. done. }
    intros ? ?. apply fixed_weaken;
      [simpl plug; apply elems_plug_eq; cbn [fill]; list_assoc|solve_elem|frame_solve].
  - simpl in Hsb, Hkb, Hb1. cbn [faddr fsib].
    destruct S as [|sl s ssz sbh sb sv sr].
    { simpl in Hcv. destruct Hcv as (_ & ? & ? & _). lia. }
    simpl in Hsb. subst sb.
    simpl in Hc, Ht, Hcv. destruct Hc as (Hp & (Hs & Hsl & Hsr) & Hc).
    destruct Hcv as (Hpsz & Hpbh & Hsbh & Hpcol & (Hssz & Hslbh & Hsrbh & _ & Hvsl & Hvsr) & Hcv).
    cbn [Z.b2z] in *.
    assert (0 <= Z.b2z pb <= 1) by (destruct pb; simpl; lia).
    assert (Hroot : c = [] -> pb = true).
    { intros ->. apply (top_black_singleton _ Htb). }
    nodup_all. pose_sizes.
    unfold RemoveRepair_finish. simpl_fields. wp_run.
    apply wp_bind. eapply wp_is_red_root; [rep_frame|].
    destruct (is_black sl) eqn:Esl; simpl negb; cbv iota.
    2:{ (* Case 6 *)
      destruct sl as [|sll sla slsz slbh slb slv slr]; [done|].
      simpl in Esl. subst slb.
      simpl in Hsl, Hvsl, Hslbh. destruct_ands. nodup_all. pose_sizes.
      cbn [tsize faddr] in *.
      assert (0 <= pbh <= 70).
      { pose proof (valid_pow _ Hvsr) as Hpw. pose proof (valid_bhf_nonneg _ Hvsr).
        assert (bhf sr <= 64) by (apply pow2_le_64; [done|lia]). lia. }
      simpl_fields. wp_run.
      apply wp_bind; eapply wp_mono;
      [ eapply (ConnectParentNoCheck_spec _ hd c p s);
        [rep_frame|lookup|reflexivity|lookup|solve_distinct|rep_frame]|].
      intros [] h1 (Hn1 & Hc1 & Hhr1 & Hfr1); simpl_with_in Hn1.
      wp_run.
      dec_fixed c (Node (Node sll sla slsz (slbh + 1) true slv slr) s (psz - 1) pbh pb sv
                     (Node sr p (tsize sr + tsize D + 1) (pbh - Z.b2z pb) true pv D)) s. }
    apply wp_bind. eapply wp_is_red_root; [rep_frame|].
    destruct (is_black sr) eqn:Esr; simpl negb; cbv iota.
    2:{ (* Case 5 *)
      destruct sr as [|srl sina sinsz sinbh sinb sinv srr]; [done|].
      simpl in Esr. subst sinb.
      simpl in Hsr, Hvsr, Hsrbh. destruct_ands. nodup_all. pose_sizes.
      cbn [tsize faddr] in *.
      assert (0 <= pbh <= 70).
      { pose proof (valid_pow _ Hvsl) as Hpw. pose proof (valid_bhf_nonneg _ Hvsl).
        assert (bhf sl <= 64) by (apply pow2_le_64; [done|lia]). lia. }
      simpl_fields. wp_run.
      apply wp_bind; eapply wp_mono;
      [ eapply (ConnectParentNoCheck_spec _ hd c p sina);
        [rep_frame|lookup|reflexivity|lookup|solve_distinct|rep_frame]|].
      intros [] h1 (Hn1 & Hc1 & Hhr1 & Hfr1); simpl_with_in Hn1.
      wp_run.
      dec_fixed c (Node (Node sl s (tsize sl + tsize srl + 1) sbh true sv srl) sina
                     (psz - 1) pbh pb sinv
                     (Node srr p (tsize srr + tsize D + 1) (pbh - Z.b2z pb) true pv D)) sina. }
    (* Case 4 *)
    assert (pb = false) as ->.
    { destruct pb; [|done]. specialize (Hkb eq_refl). simpl in Hkb.
      rewrite Esl, Esr in Hkb. done. }
    cbn [Z.b2z tsize faddr] in *.
    assert (0 <= pbh <= 70).
    { pose proof (valid_pow _ Hvsr) as Hpw. pose proof (valid_bhf_nonneg _ Hvsr).
      assert (bhf sr <= 64) by (apply pow2_le_64; [done|lia]). lia. }
    wp_run.
    eapply wp_mono.
    { eapply (DecreaseSize_fixed fuel _ this hd
               (InR (Node sl s ssz (sbh - 1) false sv sr) p psz pbh true pv :: c) D).
      - done.
      - simpl. lia.
      - solve_rep.
      - rep_frame.
      - solve_distinct.
      - rewrite root_plug_cons. cbn [faddr]. rep_frame.
      - done.
      - rewrite Hbl. simpl. cbn [Z.b2z]. rewrite Esl, Esr.
        split_and!; try done; try lia. by apply ctx_valid_weaken.
      - eapply top_black_swap; [exact Htb|done].
      - done.
      - apply Forall_cons. done. }
    intros ? ?. apply fixed_weaken;
      [simpl plug; apply elems_plug_eq; cbn [fill]; list_assoc|solve_elem|frame_solve].
Qed.

End Del2.

Section Del3.

Context {T : Type}.

Local Abbreviation Node_ := (Node_ T).

Local Abbreviation heap := (gmap addr Node_).

Local Abbreviation tree := (tree T).

Local Abbreviation ctx := (ctx T).

Implicit Types (h : heap) (t l r : tree) (c : ctx) (a : addr) (p : ptr).

Lemma loop_exit_weaken h0 h hd E E1 (L L1 : list addr) fuel fuel1 res h' :
  E1 = E -> (forall x, x ∈ L1 -> x ∈ L) -> frame_eq (hd :: L) h0 h ->
  (fuel1 <= fuel)%nat ->
  loop_exit h hd E1 L1 fuel1 res h' -> loop_exit h0 hd E L fuel res h'.
Proof.
  intros <- HL Hfr Hfu. destruct res as [[p' s']|]; simpl.
  - intros (fp' & c' & D' & ? & ? & ? & ? & ? & ? & ? & HL' & Hfr').
    exists fp', c', D'. split_and!; try done.
    + lia.
    + auto.
    + eapply frame_eq_trans; [exact Hfr|]. eapply frame_eq_mono; [exact Hfr'|].
      intros x Hx. apply elem_of_cons in Hx as [->|Hx]; apply elem_of_cons; auto.
  - by apply fixed_weaken.
Qed.

Ltac rr_rec IH f2 c2 D3 :=
  eapply wp_mono;
  [ eapply (IH _ f2 c2 D3);
    [ done
    | lia
    | unfold deficient; split_and!;
      [ solve_rep
      | solve_rep
      | solve_distinct
      | rep_frame
      | simpl; cbn [Z.b2z]; split_and!; try done; lia
      | done
      | simpl; split_and!; try done; try lia
      | eapply top_black_tl; eassumption
      | apply Forall_cons; split; [simpl; lia|done] ] ]
  | intros ? ?; apply loop_exit_weaken;
    [ simpl plug; apply elems_plug_eq; cbn [fill]; list_assoc
    | solve_elem
    | frame_solve
    | lia ] ].

Lemma RemoveRepair_loop_spec fuel this hd : forall h fp c D,
  head_ this = Some hd ->
  (length c + 2 < fuel)%nat ->
  deficient h hd fp c D ->
  wp (RemoveRepair_loop fuel this (Some (faddr fp)) (root (fsib fp))) h
     (loop_exit h hd (elems (plug (fp :: c) D)) (caddrs (fp :: c) ++ addrs D) fuel).
Proof.
  induction fuel as [|fuel IH]; intros h fp c D Hh Hf
    (Hc & Ht & Hnd & Hhr & Hv & Hbl & Hcv & Htb & Hb); [lia|].
  pose proof (valid_bhf_nonneg _ Hv) as HbhD.
  pose proof (valid_tsize_nonneg _ Hv) as HszD.
  rewrite Forall_cons in Hb. destruct Hb as [Hb1 Hb].
  cbn [RemoveRepair_loop]. rewrite Hh.
  destruct fp as [p psz pbh pb pv S | S p psz pbh pb pv].
  - simpl in Hb1. cbn [faddr fsib].
    destruct S as [|sl s ssz sbh sb sv sr].
    { simpl in Hcv. destruct Hcv as (_ & ? & ? & _). lia. }
    simpl in Hc, Ht, Hcv. destruct Hc as (Hp & (Hs & Hsl & Hsr) & Hc).
    destruct Hcv as (Hpsz & Hpbh & Hsbh & Hpcol & (Hssz & Hslbh & Hsrbh & Hscol & Hvsl & Hvsr) & Hcv).
    assert (0 <= Z.b2z pb <= 1) by (destruct pb; simpl; lia).
    assert (0 <= Z.b2z sb <= 1) by (destruct sb; simpl; lia).
    assert (Hroot : c = [] -> pb = true).
    { intros ->. apply (top_black_singleton _ Htb). }
    nodup_all. pose_sizes. cbn [tsize faddr] in *.
    assert (0 <= pbh <= 70).
    { pose proof (valid_pow _ Hvsr) as Hpw. pose proof (valid_bhf_nonneg _ Hvsr).
      assert (bhf sr <= 64) by (apply pow2_le_64; [done|lia]). lia. }
    simpl_fields. wp_run.
    destruct sb; simpl negb; cbv iota.
    2:{ (* Case 2 *)
      assert (pb = true) as ->.
      { destruct pb; [done|]. by destruct Hpcol. }
      destruct Hscol as [Hbsl Hbsr]; [done|].
      cbn [Z.b2z] in *.
      wp_run.
      apply wp_bind; eapply wp_mono;
      [ eapply (ConnectParentNoCheck_spec _ hd c p s);
        [rep_frame|lookup|reflexivity|lookup|solve_distinct|rep_frame]|].
      intros [] h1 (Hn1 & Hc1 & Hhr1 & Hfr1); simpl_with_in Hn1.
      wp_run.
      exists (InL p (tsize D + tsize sl + 2) (pbh - 1) false pv sl),
             (InL s psz pbh true sv sr :: c), D.
      split_and!.
      - done.
      - done.
      - simpl. lia.
      - unfold deficient. split_and!.
        + solve_rep.
        + rep_frame.
        + solve_distinct.
        + rewrite ctop_cons. cbn [faddr]. rep_frame.
        + done.
        + done.
        + simpl. cbn [Z.b2z]. split_and!; try done; lia.
        + change (top_black (InL s psz pbh true sv sr :: c)).
          eapply top_black_swap; [exact Htb|done].
        + repeat (apply Forall_cons; split); [simpl; lia..|done].
      - done.
      - done.
      - simpl plug. apply elems_plug_eq. cbn [fill]. list_assoc.
      - solve_elem.
      - frame_solve. }
    assert (Hexit : (pb = true -> is_black sl && is_black sr = false) ->
      loop_exit h hd
        (elems (plug (InL p psz pbh pb pv (Node sl s ssz sbh true sv sr) :: c) D))
        (caddrs (InL p psz pbh pb pv (Node sl s ssz sbh true sv sr) :: c) ++ addrs D)
        (S fuel) (Some (Some p, Some s)) h).
    { intros Hkb.
      exists (InL p psz pbh pb pv (Node sl s ssz sbh true sv sr)), c, D.
      split_and!; try done.
      - lia.
      - unfold deficient. split_and!.
        + solve_rep.
        + done.
        + solve_distinct.
        + done.
        + done.
        + done.
        + simpl. split_and!; try done.
        + done.
        + by apply Forall_cons. }
    wp_run. destruct pb; cbv iota; [|wp_run; by apply Hexit].
    wp_run. destruct (is_black sl) eqn:Esl; cbv iota;
      [|wp_run; apply Hexit; intros _; rewrite ?Esl, ?Esr; done].
    wp_run. destruct (is_black sr) eqn:Esr; cbv iota;
      [|wp_run; apply Hexit; intros _; rewrite ?Esl, ?Esr; done].
    clear Hexit. cbn [Z.b2z] in *.
    (* Case 3 *)
    wp_run.
    destruct c as [|f2 c2].
    { cbn [parent_of]. rewrite ptr_eqb_refl. wp_run.
      exists (Node D p (psz - 1) (pbh - 1) true pv (Node sl s ssz (sbh - 1) false sv sr)).
      split_and!.
      - solve_rep.
      - split; [|done]. simpl. cbn [Z.b2z]. rewrite Esl, Esr. split_and!; try done; lia.
      - simpl plug. cbn [fill]. list_assoc.
      - change (head_rec
          (<[p:=mkNode (root D) (Some s) (Some hd) (size_t (psz + -1))
                  (uint8_t (pbh + -1)) true (Some pv)]>
             (<[s:=mkNode (root sl) (root sr) (Some p) ssz (uint8_t (sbh + -1))
                     false (Some sv)]> h)) (Some hd) (Some p)).
        rep_frame.
      - frame_solve. }
    destruct f2 as [a2 sz2 bh2 b2 v2 r2 | l2 a2 sz2 bh2 b2 v2];
      simpl in Hc, Hcv, Hf; rewrite Forall_cons in Hb; cbn [fsize] in Hb;
      rewrite ctop_cons in Hhr; cbn [faddr] in Hhr;
      destruct_ands; nodup_all; cbn [parent_of faddr];
      simpl_ptr_eqb; wp_run.
    all: [> rr_rec IH (InL a2 sz2 bh2 b2 v2 r2) c2
              (Node D p (psz - 1) (pbh - 1) true pv (Node sl s ssz (sbh - 1) false sv sr))
          | rr_rec IH (InR l2 a2 sz2 bh2 b2 v2) c2
              (Node D p (psz - 1) (pbh - 1) true pv (Node sl s ssz (sbh - 1) false sv sr)) ].
  - simpl in Hb1. cbn [faddr fsib].
    destruct S as [|sl s ssz sbh sb sv sr].
    { simpl in Hcv. destruct Hcv as (_ & ? & ? & _). lia. }
    simpl in Hc, Ht, Hcv. destruct Hc as (Hp & (Hs & Hsl & Hsr) & Hc).
    destruct Hcv as (Hpsz & Hpbh & Hsbh & Hpcol & (Hssz & Hslbh & Hsrbh & Hscol & Hvsl & Hvsr) & Hcv).
    assert (0 <= Z.b2z pb <= 1) by (destruct pb; simpl; lia).
    assert (0 <= Z.b2z sb <= 1) by (destruct sb; simpl; lia).
    assert (Hroot : c = [] -> pb = true).
    { intros ->. apply (top_black_singleton _ Htb). }
    nodup_all. pose_sizes. cbn [tsize faddr] in *.
    assert (0 <= pbh <= 70).
    { pose proof (valid_pow _ Hvsr) as Hpw. pose proof (valid_bhf_nonneg _ Hvsr).
      assert (bhf sr <= 64) by (apply pow2_le_64; [done|lia]). lia. }
    simpl_fields. wp_run.
    destruct sb; simpl negb; cbv iota.
    2:{ (* Case 2 *)
      assert (pb = true) as ->.
      { destruct pb; [done|]. by destruct Hpcol. }
      destruct Hscol as [Hbsl Hbsr]; [done|].
      cbn [Z.b2z] in *.
      wp_run.
      apply wp_bind; eapply wp_mono;
      [ eapply (ConnectParentNoCheck_spec _ hd c p s);
        [rep_frame|lookup|reflexivity|lookup|solve_distinct|rep_frame]|].
      intros [] h1 (Hn1 & Hc1 & Hhr1 & Hfr1); simpl_with_in Hn1.
      wp_run.
      exists (InR sr p (tsize sr + tsize D + 2) (pbh - 1) false pv),
             (InR sl s psz pbh true sv :: c), D.
      split_and!.
      - done.
      - done.
      - simpl. lia.
      - unfold deficient. split_and!.
        + solve_rep.
        + rep_frame.
        + solve_distinct.
        + rewrite ctop_cons. cbn [faddr]. rep_frame.
        + done.
        + done.
        + simpl. cbn [Z.b2z]. split_and!; try done; lia.
        + change (top_black (InR sl s psz pbh true sv :: c)).
          eapply top_black_swap; [exact Htb|done].
        + repeat (apply Forall_cons; split); [simpl; lia..|done].
      - done.
      - done.
      - simpl plug. apply elems_plug_eq. cbn [fill]. list_assoc.
      - solve_elem.
      - frame_solve. }
    assert (Hexit : (pb = true -> is_black sl && is_black sr = false) ->
      loop_exit h hd
        (elems (plug (InR (Node sl s ssz sbh true sv sr) p psz pbh pb pv :: c) D))
        (caddrs (InR (Node sl s ssz sbh true sv sr) p psz pbh pb pv :: c) ++ addrs D)
        (S fuel) (Some (Some p, Some s)) h).
    { intros Hkb.
      exists (InR (Node sl s ssz sbh true sv sr) p psz pbh pb pv), c, D.
      split_and!; try done.
      - lia.
      - unfold deficient. split_and!.
        + solve_rep.
        + done.
        + solve_distinct.
        + done.
        + done.
        + done.
        + simpl. split_and!; try done.
        + done.
        + by apply Forall_cons. }
    wp_run. destruct pb; cbv iota; [|wp_run; by apply Hexit].
    wp_run. destruct (is_black sl) eqn:Esl; cbv iota;
      [|wp_run; apply Hexit; intros _; rewrite ?Esl, ?Esr; done].
    wp_run. destruct (is_black sr) eqn:Esr; cbv iota;
      [|wp_run; apply Hexit; intros _; rewrite ?Esl, ?Esr; done].
    clear Hexit. cbn [Z.b2z] in *.
    (* Case 3 *)
    wp_run.
    destruct c as [|f2 c2].
    { cbn [parent_of]. rewrite ptr_eqb_refl. wp_run.
      exists (Node (Node sl s ssz (sbh - 1) false sv sr) p (psz - 1) (pbh - 1) true pv D).
      split_and!.
      - solve_rep.
      - split; [|done]. simpl. cbn [Z.b2z]. rewrite Esl, Esr. split_and!; try done; lia.
      - simpl plug. cbn [fill]. list_assoc.
      - change (head_rec
          (<[p:=mkNode (Some s) (root D) (Some hd) (size_t (psz + -1))
                  (uint8_t (pbh + -1)) true (Some pv)]>
             (<[s:=mkNode (root sl) (root sr) (Some p) ssz (uint8_t (sbh + -1))
                     false (Some sv)]> h)) (Some hd) (Some p)).
        rep_frame.
      - frame_solve. }
    destruct f2 as [a2 sz2 bh2 b2 v2 r2 | l2 a2 sz2 bh2 b2 v2];
      simpl in Hc, Hcv, Hf; rewrite Forall_cons in Hb; cbn [fsize] in Hb;
      rewrite ctop_cons in Hhr; cbn [faddr] in Hhr;
      destruct_ands; nodup_all; cbn [parent_of faddr];
      simpl_ptr_eqb; wp_run.
    all: [> rr_rec IH (InL a2 sz2 bh2 b2 v2 r2) c2
              (Node (Node sl s ssz (sbh - 1) false sv sr) p (psz - 1) (pbh - 1) true pv D)
          | rr_rec IH (InR l2 a2 sz2 bh2 b2 v2) c2
              (Node (Node sl s ssz (sbh - 1) false sv sr) p (psz - 1) (pbh - 1) true pv D) ].
Qed.

End Del3.

Section Del4.

Context {T : Type}.

Local Abbreviation Node_ := (Node_ T).

Local Abbreviation heap := (gmap addr Node_).

Local Abbreviation tree := (tree T).

Local Abbreviation ctx := (ctx T).

Implicit Types (h : heap) (t l r : tree) (c : ctx) (a : addr) (p : ptr).

Lemma RemoveRepair_spec fuel h this hd fp c D :
  head_ this = Some hd ->
  (length c + 2 < fuel)%nat ->
  deficient h hd fp c D ->
  wp (RemoveRepair_ fuel this (Some (faddr fp)) (root (fsib fp))) h
     (fun _ => fixed h hd (elems (plug (fp :: c) D)) (caddrs (fp :: c) ++ addrs D)).
Proof.
  intros Hh Hf Hd. unfold RemoveRepair_. rewrite Hh.
  assert (faddr fp <> hd).
  { destruct Hd as (_ & _ & Hnd & _). nodup_all. neq. }
  simpl_ptr_eqb. apply wp_bind. eapply wp_mono.
  { by apply (RemoveRepair_loop_spec fuel this hd h fp c D). }
  intros [[p' s']|] h'; simpl; [|intros ?; by apply wp_ret].
  intros (fp' & c' & D' & -> & -> & Hf' & Hd' & Hsb & Hkb & He & HL & Hfr).
  destruct Hd' as (Hc & Ht & Hnd & Hhr & Hv & Hbl & Hcv & Htb & Hb).
  eapply wp_mono.
  { by apply (RemoveRepair_finish_spec fuel h' this hd fp' c' D'). }
  intros ? h''. by apply fixed_weaken.
Qed.

Lemma black_bhf0 t : valid t -> is_black t = true -> bhf t = 0 -> t = Leaf.
Proof.
  destruct t as [|l a sz bh b v r]; [done|]. simpl. intros (_ & Hl & _ & _ & Hvl & _) -> ->.
  apply valid_bhf_nonneg in Hvl. simpl in Hl. lia.
Qed.

Lemma valid_bhf0 t :
  valid t -> bhf t = 0 -> t = Leaf \/ exists a v, t = Node Leaf a 1 0 false v Leaf.
Proof.
  destruct t as [|l a sz bh b v r]; [by left|]. simpl.
  intros (Hsz & Hl & Hr & Hcol & Hvl & Hvr) ->. right.
  pose proof (valid_bhf_nonneg _ Hvl). pose proof (valid_bhf_nonneg _ Hvr).
  destruct b; simpl in Hl, Hr; [lia|].
  destruct Hcol as [Hbl Hbr]; [done|].
  assert (l = Leaf) as -> by (apply black_bhf0; [done|done|lia]).
  assert (r = Leaf) as -> by (apply black_bhf0; [done|done|lia]).
  simpl in Hsz. subst sz. by exists a, v.
Qed.

Lemma tree_rep_plug_sizes c t :
  valid (plug c t) -> tsize (plug c t) < 2 ^ 64 ->
  Forall (fun f => fsize f < 2 ^ 64) c.
Proof.
  intros Hv Hsz. apply valid_plug_inv in Hv as [Hvt Hcv].
  pose proof (ctx_valid_fsize_le c _ t Hcv (valid_tsize_nonneg _ Hvt)) as Hle.
  eapply Forall_impl; [exact Hle|]. simpl. intros. lia.
Qed.

Lemma top_black_plug c t : is_black (plug c t) = true -> top_black c.
Proof. destruct c as [|f c]; [done|]. by apply is_black_plug_inv. Qed.

Ltac unlink_red C :=
  eapply wp_mono;
  [ eapply (DecreaseSize_fixed _ _ _ _ C Leaf);
    [ done
    | match goal with H : (length _ + 1 < _)%nat |- _ => simpl in H |- *; lia end
    | solve_rep
    | done
    | solve_distinct
    | rewrite root_plug_cons; cbn [faddr]; rep_frame
    | done
    | apply ctx_valid_weaken; eassumption
    | done
    | done
    | done ]
  | let Hfix := fresh in
    intros ? ? Hfix; exists Leaf; split; [done|]; revert Hfix;
    apply fixed_weaken; [done|solve_elem|frame_solve] ].

Ltac unlink_black f c :=
  eapply wp_mono;
  [ eapply (RemoveRepair_spec _ _ _ _ f c Leaf);
    [ done
    | match goal with H : (length _ + 1 < _)%nat |- _ => simpl in H |- *; lia end
    | unfold deficient; split_and!;
      [ solve_rep
      | done
      | solve_distinct
      | rep_frame
      | done
      | done
      | eapply ctx_valid_eq; [eassumption|done..]
      | done
      | done ] ]
  | let Hfix := fresh in
    intros ? ? Hfix; exists Leaf; split; [done|]; revert Hfix;
    apply fixed_weaken; [done|solve_elem|frame_solve] ].

Ltac unlink_child c D' ch :=
  eapply wp_mono;
  [ eapply (DecreaseSize_fixed _ _ _ _ c D');
    [ done
    | lia
    | eassumption
    | solve_rep
    | solve_distinct
    | rewrite (root_plug_ctop c D' ch eq_refl); eassumption
    | simpl; cbn [Z.b2z]; split_and!; done
    | eapply ctx_valid_eq; [eassumption|done..]
    | done
    | done
    | done ]
  | let Hfix := fresh in
    intros ? ? Hfix; exists D'; split; [done|]; revert Hfix;
    apply fixed_weaken; [done|solve_elem|frame_solve] ].

Lemma Remove_unlink_spec fuel h this hd c xl x sz bh b v xr :
  head_ this = Some hd ->
  tree_rep h this (plug c (Node xl x sz bh b v xr)) ->
  rb_tree (plug c (Node xl x sz bh b v xr)) ->
  tsize (plug c (Node xl x sz bh b v xr)) < 2 ^ 64 ->
  (height (plug c (Node xl x sz bh b v xr)) < fuel)%nat ->
  xl = Leaf \/ xr = Leaf ->
  wp (Remove_unlink fuel this (Some x)) h (fun _ h' =>
    exists D, elems D = elems xl ++ elems xr
      /\ fixed h hd (elems (plug c D)) (caddrs c ++ addrs xl ++ addrs xr) h').
Proof.
  intros Hh Htr [Hv Hblk] Hsz Hf Hleaf.
  pose proof (tree_rep_plug _ _ _ _ _ Hh Htr) as (Hhd & Hc & Hx & Hnd).
  pose proof (tree_rep_plug_sizes _ _ Hv Hsz) as Hb.
  pose proof (top_black_plug _ _ Hblk) as Htb.
  assert (Hfuel : (length c + 1 < fuel)%nat).
  { pose proof (length_plug_height c (Node xl x sz bh b v xr)) as Hlen.
    simpl in Hlen. lia. }
  assert (Hhr : head_rec h (Some hd) (Some (ctop c x))).
  { rewrite (root_plug_ctop c (Node xl x sz bh b v xr) x eq_refl) in Hhd. exact Hhd. }
  assert (Hroot : c = [] -> b = true) by (intros ->; exact Hblk).
  clear Hf Hsz Hhd Htr Hblk.
  apply valid_plug_inv in Hv as [Hvx Hcv].
  simpl in Hx, Hvx, Hcv. destruct Hx as (Hx & Hxl & Hxr).
  destruct Hvx as (Hxsz & Hxlb & Hxrb & Hxcol & Hvxl & Hvxr).
  unfold Remove_unlink. wp_run.
  destruct b; simpl negb; cbv iota; cbn [Z.b2z] in *.
  - clear Hroot Hxcol.
    assert (bh = 1) as ->.
    { destruct Hleaf as [-> | ->]; simpl in Hxlb, Hxrb; lia. }
    destruct (valid_bhf0 xl Hvxl ltac:(lia)) as [->|(ch & chv & ->)];
    destruct (valid_bhf0 xr Hvxr ltac:(lia)) as [->|(ch' & chv' & ->)];
      [| | |destruct Hleaf; done].
    + (* a black leaf *)
      simpl in Hxsz. subst sz. clear Hxlb Hxrb Hleaf. simpl_fields. wp_run.
      destruct c as [|f c].
      { simpl in Hhr. cbn [parent_of] in *. nodup_all. wp_run.
        unfold RemoveRepair_. rewrite Hh, ptr_eqb_refl. apply wp_ret.
        exists Leaf. split; [done|]. exists Leaf. split_and!; try done.
        - lookup.
        - frame_solve. }
      pose proof Hcv as Hcv0. rewrite ctop_cons in Hhr.
      destruct f as [pa psz pbh pb pv ps | ps pa psz pbh pb pv];
        simpl in Hc, Hcv; destruct_ands; nodup_all; cbn [parent_of faddr] in *;
        wp_run.
      all: [> unlink_black (InL pa psz pbh pb pv ps) c
            | unlink_black (InR ps pa psz pbh pb pv) c ].
    + (* a black node with a red right child *)
      simpl in Hxsz, Hxr, Hnd. subst sz. clear Hxlb Hxrb Hleaf.
      destruct Hxr as (Hch & _). nodup_all.
      simpl_fields. wp_run.
      apply wp_bind. eapply wp_mono.
      { eapply (ConnectParent_spec _ (Some hd) c x ch');
          [rep_frame|lookup|reflexivity|lookup|solve_distinct|solve_distinct|rep_frame]. }
      intros [] h1 (Hn1 & Hc1 & Hhr1 & Hfr1). simpl_with_in Hn1.
      wp_run.
      unlink_child c (Node Leaf ch' 1 1 true chv' Leaf) ch'.
    + (* a black node with a red left child *)
      simpl in Hxsz, Hxl, Hnd. subst sz. clear Hxlb Hxrb Hleaf.
      destruct Hxl as (Hch & _). nodup_all.
      simpl_fields. wp_run.
      apply wp_bind. eapply wp_mono.
      { eapply (ConnectParent_spec _ (Some hd) c x ch);
          [rep_frame|lookup|reflexivity|lookup|solve_distinct|solve_distinct|rep_frame]. }
      intros [] h1 (Hn1 & Hc1 & Hhr1 & Hfr1). simpl_with_in Hn1.
      wp_run.
      unlink_child c (Node Leaf ch 1 1 true chv Leaf) ch.
  - (* a red node *)
    destruct Hxcol as [Hbxl Hbxr]; [done|].
    assert (xl = Leaf /\ xr = Leaf) as [-> ->].
    { destruct Hleaf as [-> | ->]; simpl in Hxlb, Hxrb; split; try done;
        apply black_bhf0; try done; lia. }
    simpl in Hxsz, Hxlb. assert (bh = 0) as -> by lia. subst sz. clear Hxrb Hxlb.
    destruct c as [|f c]; [by specialize (Hroot eq_refl)|]. clear Hroot.
    pose proof Hcv as Hcv0. pose proof Hc as Hc0. pose proof Hnd as Hnd0.
    rewrite ctop_cons in Hhr.
    destruct f as [pa psz pbh pb pv ps | ps pa psz pbh pb pv];
      simpl in Hc, Hcv; destruct_ands; nodup_all; cbn [parent_of faddr] in *;
      wp_run.
    all: [> unlink_red (InL pa psz pbh pb pv ps :: c)
          | unlink_red (InR ps pa psz pbh pb pv :: c) ].
Qed.

End Del4.

Section Del5.

Context {T : Type}.

Local Abbreviation Node_ := (Node_ T).

Local Abbreviation heap := (gmap addr Node_).

Local Abbreviation tree := (tree T).

Local Abbreviation ctx := (ctx T).

Implicit Types (h : heap) (t l r : tree) (c : ctx) (a : addr) (p : ptr).

Lemma tsize_plug_eq c t t' : tsize t = tsize t' -> tsize (plug c t) = tsize (plug c t').
Proof.
  revert t t'. induction c as [|f c IH]; intros t t' E; [done|].
  simpl. apply IH. by destruct f.
Qed.

Lemma height_plug_eq c t t' :
  height t = height t' -> height (plug c t) = height (plug c t').
Proof.
  revert t t'. induction c as [|f c IH]; intros t t' E; [done|].
  simpl. apply IH. destruct f; simpl; by rewrite E.
Qed.

Lemma is_black_plug_eq c t t' :
  is_black t = is_black t' -> is_black (plug c t) = is_black (plug c t').
Proof.
  revert t t'. induction c as [|f c IH]; intros t t' E; [done|].
  simpl. apply IH. by destruct f.
Qed.

Lemma bhf_plug_eq c t t' : bhf t = bhf t' -> bhf (plug c t) = bhf (plug c t').
Proof.
  revert t t'. induction c as [|f c IH]; intros t t' E; [done|].
  simpl. apply IH. by destruct f.
Qed.

Lemma valid_plug_eq c t t' :
  valid (plug c t) -> valid t' -> is_black t' = is_black t ->
  tsize t' = tsize t -> bhf t' = bhf t -> valid (plug c t').
Proof.
  intros [_ Hcv]%valid_plug_inv Hv' Eb Es Eh. apply valid_plug; [done|].
  by rewrite Eb, Es, Eh.
Qed.

Lemma addrs_plug_eq c t t' : addrs t = addrs t' -> addrs (plug c t) = addrs (plug c t').
Proof.
  revert t t'. induction c as [|f c IH]; intros t t' E; [done|].
  simpl. apply IH. destruct f; simpl; by rewrite E.
Qed.

Lemma fixed_frame h hd E (L L' : list addr) h' :
  (forall x, x ∈ L -> x ∈ L') -> fixed h hd E L h' -> fixed h hd E L' h'.
Proof. intros HL. apply fixed_weaken; [done|done|apply frame_eq_refl]. Qed.

Lemma Remove_simple fuel h this hd c xl x sz bh b v xr :
  head_ this = Some hd ->
  tree_rep h this (plug c (Node xl x sz bh b v xr)) ->
  rb_tree (plug c (Node xl x sz bh b v xr)) ->
  tsize (plug c (Node xl x sz bh b v xr)) < 2 ^ 64 ->
  (height (plug c (Node xl x sz bh b v xr)) < fuel)%nat ->
  xl = Leaf \/ xr = Leaf ->
  wp (Remove_ fuel this (Some x)) h (fun res h' =>
    res = Some x /\ h' !! x = h !! x
    /\ exists E1 E2, elems (plug c (Node xl x sz bh b v xr)) = E1 ++ (x, v) :: E2
      /\ fixed h hd (E1 ++ E2) (caddrs c ++ addrs xl ++ addrs xr) h').
Proof.
  intros Hh Htr Hrb Hsz Hf Hleaf.
  pose proof (tree_rep_plug _ _ _ _ _ Hh Htr) as (Hhd & Hc & Hx & Hnd).
  simpl in Hx. destruct Hx as (Hx & _).
  assert (Hun := Remove_unlink_spec fuel h this hd c xl x sz bh b v xr
                  Hh Htr Hrb Hsz Hf Hleaf).
  unfold Remove_.
  assert (exists al ar, root xl = al /\ root xr = ar
            /\ negb (is_null al) && negb (is_null ar) = false)
    as (al & ar & Eal & Ear & Hcond).
  { exists (root xl), (root xr). split_and!; [done|done|].
    destruct Hleaf as [-> | ->]; simpl; [done|]. by rewrite andb_false_r. }
  rewrite Eal, Ear in Hx.
  apply wp_bind. eapply wp_get; [exact Hx|]. cbn [left].
  apply wp_bind. eapply wp_get; [exact Hx|]. cbn [right].
  rewrite Hcond. wp_run. apply wp_bind. eapply wp_mono; [exact Hun|].
  intros [] h' (D & HD & Hfix). apply wp_ret. split; [done|]. split.
  - destruct Hfix as (_ & _ & _ & _ & _ & Hfr). apply Hfr.
    nodup_all. solve_distinct.
  - destruct (elems_plug c Leaf) as (pre & post & Hp).
    exists (pre ++ elems xl), (elems xr ++ post). split.
    + rewrite Hp. list_assoc.
    + rewrite Hp, HD in Hfix. revert Hfix. apply fixed_weaken; [|done|apply frame_eq_refl].
      list_assoc.
Qed.

Lemma caddrs_app c1 c2 : caddrs (c1 ++ c2) = caddrs c1 ++ caddrs c2.
Proof.
  induction c1 as [|f c1 IH]; [done|]. simpl. rewrite IH. by rewrite !app_assoc.
Qed.

Lemma Remove_two fuel h this hd c xl x sz bh b v xr :
  head_ this = Some hd ->
  tree_rep h this (plug c (Node xl x sz bh b v xr)) ->
  rb_tree (plug c (Node xl x sz bh b v xr)) ->
  tsize (plug c (Node xl x sz bh b v xr)) < 2 ^ 64 ->
  (height (plug c (Node xl x sz bh b v xr)) < fuel)%nat ->
  xl <> Leaf -> xr <> Leaf ->
  wp (Remove_ fuel this (Some x)) h (fun res h' =>
    exists E1 tmp tv E2 n,
      elems (plug c (Node xl x sz bh b v xr)) = E1 ++ (tmp, tv) :: (x, v) :: E2
      /\ res = Some tmp /\ h' !! tmp = Some n /\ value n = Some v
      /\ fixed h hd (E1 ++ (x, tv) :: E2) (addrs (plug c (Node xl x sz bh b v xr))) h').
Proof.
  intros Hh Htr [Hv Hblk] Hsz Hf Hnl Hnr.
  pose proof (tree_rep_plug _ _ _ _ _ Hh Htr) as (Hhd & Hc & Hx & Hnd).
  simpl in Hx. destruct Hx as (Hx & Hxl & Hxr).
  assert (exists al ar, root xl = Some al /\ root xr = Some ar)
    as (al & ar & Eal & Ear).
  { destruct xl, xr; try done. by eexists _, _. }
  assert (Hfl : (height xl <= fuel)%nat).
  { pose proof (length_plug_height c (Node xl x sz bh b v xr)) as Hlen.
    simpl in Hlen. lia. }
  unfold Remove_.
  rewrite Ear in Hx.
  apply wp_bind. eapply wp_get; [exact Hx|]. cbn [left].
  apply wp_bind. eapply wp_get; [exact Hx|]. cbn [right].
  rewrite Eal. simpl_fields.
  apply wp_bind. apply wp_bind. eapply wp_mono.
  { rewrite <- Eal. by eapply (Last_spec fuel h (Some x) xl). }
  intros res h1 (-> & cl & ll & tmp & tsz & tbh & tb & tv & -> & -> & Hrs).
  apply rep_plug in Hxl as [Hcl Htmp]. simpl in Htmp. destruct Htmp as (Htmp & Hll & _).
  destruct Htr as (hd' & Hh' & _ & _ & Hn1 & Hn2).
  assert (hd' = hd) as -> by congruence.
  cbn [addrs] in Hnd. rewrite addrs_plug in Hnd. nodup_all.
  wp_run.
  set (X := Node ll tmp tsz tbh tb tv Leaf) in *.
  set (X' := Node ll tmp tsz tbh tb v Leaf).
  set (C := cl ++ InL x sz bh b tv xr :: c).
  assert (EC : forall Y, plug C Y = plug c (Node (plug cl Y) x sz bh b tv xr)).
  { intros Y. unfold C. by rewrite plug_app. }
  assert (Ea : addrs (plug C X') = addrs (plug c (Node (plug cl X) x sz bh b v xr))).
  { rewrite EC. apply addrs_plug_eq. simpl. f_equal. by apply addrs_plug_eq. }
  assert (Hv' : valid (plug C X')).
  { rewrite EC. eapply valid_plug_eq; [exact Hv| |done|done|done].
    apply valid_plug_inv in Hv as [Hvx _]. simpl in Hvx |- *.
    destruct Hvx as (? & ? & ? & Hcol & Hvl & ?).
    rewrite <- (tsize_plug_eq cl X X') by done.
    split_and!; try done.
    - by rewrite <- (bhf_plug_eq cl X X').
    - intros Eb. destruct (Hcol Eb) as [Hb1 ?]. split; [|done].
      rewrite <- Hb1. by apply is_black_plug_eq.
    - eapply valid_plug_eq; [exact Hvl| |done|done|done].
      apply valid_plug_inv in Hvl as [HvX _]. exact HvX. }
  apply wp_bind. eapply wp_mono.
  { apply (Remove_unlink_spec fuel _ this hd C ll tmp tsz tbh tb v Leaf).
    - done.
    - exists hd. split_and!; [done| | | |].
      + rewrite EC.
        rewrite (root_plug_same c _ (Node (plug cl X) x sz bh b v xr)) by done.
        lookup.
      + rewrite EC. apply rep_plug. split; [rep_frame|].
        cbn [rep]. split_and!; [|apply rep_plug; split; [rep_frame|solve_rep]|rep_frame].
        fold X'. rewrite (root_plug_same cl X' X) by done. rewrite Ear. lookup.
      + fold X'. by rewrite Ea.
      + fold X'. by rewrite Ea.
    - split; [done|]. rewrite EC. rewrite <- Hblk. by apply is_black_plug_eq.
    - fold X'. rewrite EC.
      rewrite (tsize_plug_eq c _ (Node (plug cl X) x sz bh b v xr)) by done. done.
    - fold X'. rewrite EC.
      rewrite (height_plug_eq c _ (Node (plug cl X) x sz bh b v xr)); [done|].
      simpl. by rewrite (height_plug_eq cl X' X).
    - by right. }
  intros [] h' (D & HD & Hfix). apply wp_ret.
  destruct (elems_plug c Leaf) as (pre & post & Hp).
  destruct (elems_right_spine cl Leaf Hrs) as (prel & Hpl).
  exists (pre ++ prel ++ elems ll), tmp, tv, (elems xr ++ post),
    (mkNode (root ll) None (parent_of cl (Some x)) tsz tbh tb (Some v)).
  split_and!.
  - rewrite Hp. cbn [elems]. rewrite Hpl. subst X. list_assoc.
  - done.
  - destruct Hfix as (_ & _ & _ & _ & _ & Hfr). rewrite Hfr; [lookup|].
    unfold C. rewrite caddrs_app. solve_distinct.
  - done.
  - revert Hfix. rewrite EC, Hp. cbn [elems]. rewrite Hpl, HD.
    apply fixed_weaken.
    + list_assoc.
    + unfold C. intros y. rewrite addrs_plug. cbn [addrs]. rewrite addrs_plug.
      rewrite caddrs_app. subst X. revert y. solve_elem.
    + eapply (frame_eq_mono [x; tmp]); [frame_solve|].
      intros y. rewrite elem_of_cons, addrs_plug. cbn [addrs]. rewrite addrs_plug.
      subst X. revert y. solve_elem.
Qed.

End Del5.

Section Spl.

Context {T : Type}.

Local Abbreviation Node_ := (Node_ T).

Local Abbreviation heap := (gmap addr Node_).

Local Abbreviation tree := (tree T).

Local Abbreviation ctx := (ctx T).

Implicit Types (h : heap) (t l r : tree) (c : ctx) (a : addr) (p : ptr).

Lemma count_elems t : length (elems t) = count t.
Proof. by rewrite <- count_addrs, addrs_elems, length_fmap. Qed.

Lemma elems_plug_pre_post c t : elems (plug c t) = cpre c ++ elems t ++ cpost c.
Proof.
  revert t. induction c as [|f c IH]; intros t; simpl; [by rewrite app_nil_r|].
  rewrite IH. destruct f; simpl; list_assoc.
Qed.

Lemma paint_props t :
  elems (paint t) = elems t /\ addrs (paint t) = addrs t
  /\ root (paint t) = root t /\ tsize (paint t) = tsize t
  /\ count (paint t) = count t /\ height (paint t) = height t.
Proof. by destruct t. Qed.

Lemma paint_rb t : valid t -> rb_tree (paint t).
Proof.
  destruct t as [|l a sz bh b v r]; [done|]. simpl.
  intros (? & ? & ? & ? & ? & ?). split; [|done]. simpl.
  split_and!; try done; destruct b; simpl in *; lia.
Qed.

Lemma PaintBlack_spec h par t Q :
  rep h par t -> valid t -> tsize t < 2 ^ 64 -> NoDup (addrs t) ->
  (forall h', rep h' par (paint t) -> frame_eq (addrs t) h h' -> Q tt h') ->
  wp (PaintBlack_ (root t)) h Q.
Proof.
  destruct t as [|l a sz bh b v r]; intros Hr Hv Hsz Hnd HQ.
  { simpl. wp_run. apply HQ; [done|apply frame_eq_refl]. }
  pose proof (valid_pow _ Hv) as Hpw. pose proof (valid_bhf_nonneg _ Hv) as Hnn.
  simpl in Hr, Hsz, Hpw, Hnn. destruct Hr as (Ha & Hl & Hrr).
  assert (bh <= 64) by (apply pow2_le_64; [done|lia]).
  assert (0 <= Z.b2z (negb b) <= 1) by (destruct b; simpl; lia).
  nodup_all. simpl root. wp_run. apply HQ.
  - cbn [paint]. solve_rep.
  - eapply (frame_eq_mono [a]); [frame_solve|]. solve_elem.
Qed.

Lemma merged_addrs tl m v tr t' :
  elems t' = elems tl ++ (m, v) :: elems tr ->
  addrs t' = addrs tl ++ m :: addrs tr /\ count t' = S (count tl + count tr).
Proof.
  intros He. assert (Ea : addrs t' = addrs tl ++ m :: addrs tr).
  { rewrite !addrs_elems, He, fmap_app. done. }
  split; [done|]. rewrite <- !count_addrs, Ea, length_app. simpl. lia.
Qed.

Lemma Split_loop_spec this hd : forall c fuel h nd TL TR pL pR,
  head_ this = Some hd ->
  rep_ctx h (Some hd) c (Some nd) -> rep h pL TL -> rep h pR TR ->
  rb_tree TL -> rb_tree TR ->
  NoDup (hd :: caddrs c ++ addrs TL ++ addrs TR) -> nd ∉ hd :: caddrs c ->
  Forall (fun f => valid (fsib f)) c ->
  (count TL + count TR + length (caddrs c) + length c < fuel)%nat ->
  Z.of_nat (count TL + count TR + length (caddrs c)) < 2 ^ 64 ->
  wp (Split_loop fuel this (Some nd) (parent_of c (Some hd)) (root TL) (root TR)) h
     (split_done h (cpre c ++ elems TL) (elems TR ++ cpost c)
        (caddrs c ++ addrs TL ++ addrs TR)).
Proof.
  induction c as [|f c IH];
    intros fuel h nd TL TR pL pR Hh Hc HL HR HbL HbR Hnd Hn Hvs Hf Hsz;
    (destruct fuel as [|fuel]; [lia|]); cbn [Split_loop]; rewrite Hh.
  { cbn [parent_of]. rewrite ptr_eqb_refl. apply wp_ret.
    exists TL, TR, pL, pR. simpl. rewrite app_nil_r.
    split_and!; try done. }
  rewrite Forall_cons in Hvs. destruct Hvs as [Hvf Hvs].
  pose proof (valid_tsize _ (proj1 HbL)) as HsL.
  pose proof (valid_tsize _ (proj1 HbR)) as HsR.
  pose proof (valid_tsize _ Hvf) as Hsf.
  destruct f as [a sz bh b v r | l a sz bh b v]; simpl in Hc, Hvf, Hsf, Hf, Hsz;
    destruct Hc as (Ha & Hr & Hc); rewrite ?length_app in Hf, Hsz;
    rewrite ?count_addrs in Hf, Hsz; cbn [length] in Hf, Hsz;
    nodup_all; cbn [parent_of faddr]; simpl_ptr_eqb; wp_run.
  - apply wp_bind. eapply (PaintBlack_spec _ (Some a) r); [rep_frame|done|lia|done|].
    intros h1 Hr1 Hfr1. wp_run.
    destruct (paint_props r) as (Pe & Pa & Pr & Ps & Pc & Ph).
    rewrite <- Pr.
    apply wp_bind. eapply wp_mono.
    { eapply (Merge_spec (S fuel) h1 a _ v TR (paint r) pR (Some a));
        [rep_frame|done|lookup|done|done|by apply paint_rb| | | |].
      - rewrite Pa. solve_distinct.
      - rewrite Ps. lia.
      - pose proof (height_le_count TR). lia.
      - pose proof (height_le_count r). rewrite Ph. lia. }
    intros res h2 (t' & -> & _ & (pR' & Hr') & Hb' & He' & Hfr2).
    rewrite Pa in Hfr2. rewrite Pe in He'.
    destruct (merged_addrs TR a v r t' He') as [Ea Ec].
    eapply wp_mono.
    { eapply (IH fuel h2 a TL t' pL pR'); try done.
      - rep_frame.
      - rep_frame.
      - rewrite Ea. solve_distinct.
      - solve_distinct.
      - rewrite Ec. lia.
      - rewrite Ec. lia. }
    intros res h3 (TL' & TR' & pL' & pR'' & -> & ? & ? & ? & ? & EL & ER & Hfr3).
    exists TL', TR', pL', pR''. split_and!; try done.
    + rewrite ER, He'. simpl. list_assoc.
    + rewrite Ea in Hfr3. frame_solve.
  - apply wp_bind. eapply (PaintBlack_spec _ (Some a) l); [rep_frame|done|lia|done|].
    intros h1 Hr1 Hfr1. wp_run.
    destruct (paint_props l) as (Pe & Pa & Pr & Ps & Pc & Ph).
    rewrite <- Pr.
    apply wp_bind. eapply wp_mono.
    { eapply (Merge_spec (S fuel) h1 a _ v (paint l) TL (Some a) pL);
        [done|rep_frame|lookup|done|by apply paint_rb|done| | | |].
      - rewrite Pa. solve_distinct.
      - rewrite Ps. lia.
      - pose proof (height_le_count l). rewrite Ph. lia.
      - pose proof (height_le_count TL). lia. }
    intros res h2 (t' & -> & _ & (pL' & Hr') & Hb' & He' & Hfr2).
    rewrite Pa in Hfr2. rewrite Pe in He'.
    destruct (merged_addrs l a v TL t' He') as [Ea Ec].
    eapply wp_mono.
    { eapply (IH fuel h2 a t' TR pL' pR); try done.
      - rep_frame.
      - rep_frame.
      - rewrite Ea. solve_distinct.
      - solve_distinct.
      - rewrite Ec. lia.
      - rewrite Ec. lia. }
    intros res h3 (TL' & TR' & pL'' & pR'' & -> & ? & ? & ? & ? & EL & ER & Hfr3).
    exists TL', TR', pL'', pR''. split_and!; try done.
    + rewrite EL, He'. simpl. list_assoc.
    + rewrite Ea in Hfr3. frame_solve.
Qed.

Lemma ctx_valid_sibs c b hsz hbh :
  ctx_valid c b hsz hbh -> Forall (fun f => valid (fsib f)) c.
Proof.
  revert b hsz hbh. induction c as [|f c IH]; intros b hsz hbh Hc;
    [apply Forall_nil_2|].
  simpl in Hc. destruct Hc as (_ & _ & _ & _ & Hv & Hc).
  apply Forall_cons. split; [done|]. by eapply IH.
Qed.

Lemma length_caddrs c : (length c <= length (caddrs c))%nat.
Proof.
  induction c as [|f c IH]; [done|]. simpl. rewrite length_app. lia.
Qed.

Lemma count_plug_caddrs c t : count (plug c t) = (length (caddrs c) + count t)%nat.
Proof. by rewrite <- !count_addrs, addrs_plug, length_app. Qed.

Lemma Split_spec fuel h this hd c xl x sz bh b v xr (pivot : bool) :
  head_ this = Some hd ->
  tree_rep h this (plug c (Node xl x sz bh b v xr)) ->
  rb_tree (plug c (Node xl x sz bh b v xr)) ->
  tsize (plug c (Node xl x sz bh b v xr)) < 2 ^ 64 ->
  (2 * count (plug c (Node xl x sz bh b v xr)) < fuel)%nat ->
  wp (Split_ fuel this (Some x) pivot) h
     (split_done h (cpre c ++ elems xl)
        ((if pivot then [(x, v)] else []) ++ elems xr ++ cpost c)
        (addrs (plug c (Node xl x sz bh b v xr)))).
Proof.
  intros Hh Htr [Hv Hblk] Hsz Hf.
  pose proof (tree_rep_plug _ _ _ _ _ Hh Htr) as (Hhd & Hc & Hx & Hnd).
  rewrite (valid_tsize _ Hv), count_plug_caddrs in Hsz.
  rewrite count_plug_caddrs in Hf. pose proof (length_caddrs c) as Hlc.
  apply valid_plug_inv in Hv as [Hvx Hcv]. apply ctx_valid_sibs in Hcv.
  simpl in Hx, Hvx, Hsz, Hf. destruct Hx as (Hx & Hxl & Hxr).
  destruct Hvx as (_ & _ & _ & _ & Hvl & Hvr).
  pose proof (valid_tsize _ Hvl) as Hsl. pose proof (valid_tsize _ Hvr) as Hsr.
  nodup_all.
  unfold Split_. wp_run.
  apply wp_bind. eapply (PaintBlack_spec _ (Some x) xl); [rep_frame|done|lia|done|].
  intros h1 Hl1 Hfr1.
  apply wp_bind. eapply (PaintBlack_spec _ (Some x) xr); [rep_frame|done|lia|done|].
  intros h2 Hr2 Hfr2.
  destruct (paint_props xl) as (Ple & Pla & Plr & Pls & Plc & Plh).
  destruct (paint_props xr) as (Pre & Pra & Prr & Prs & Prc & Prh).
  rewrite <- Plr, <- Prr.
  assert (Hfin : forall h3 TR pR, rep h3 pR TR -> rb_tree TR ->
    elems TR = (if pivot then [(x, v)] else []) ++ elems xr ->
    frame_eq (x :: addrs xr) h2 h3 ->
    wp (Split_loop fuel this (Some x) (parent_of c (Some hd))
          (root (paint xl)) (root TR)) h3
      (split_done h (cpre c ++ elems xl)
         ((if pivot then [(x, v)] else []) ++ elems xr ++ cpost c)
         (addrs (plug c (Node xl x sz bh b v xr))))).
  { intros h3 TR pR HR HbR HeR Hfr3.
    assert (Ea : addrs TR = (if pivot then [x] else []) ++ addrs xr).
    { rewrite !addrs_elems, HeR, fmap_app. by destruct pivot. }
    assert (Ec : (count TR <= 1 + count xr)%nat).
    { rewrite <- !count_addrs, Ea, length_app. destruct pivot; simpl; lia. }
    eapply wp_mono.
    { eapply (Split_loop_spec this hd c fuel h3 x (paint xl) TR (Some x) pR);
        try done.
      - rep_frame.
      - eapply rep_rebase; [exact Hfr3|rewrite Pla; solve_distinct|].
        eapply rep_rebase; [exact Hfr2|rewrite Pla; solve_distinct|exact Hl1].
      - by apply paint_rb.
      - rewrite Pla, Ea. destruct pivot; simpl; solve_distinct.
      - solve_distinct.
      - rewrite Plc. lia.
      - rewrite Plc. lia. }
    intros res h4 (TL' & TR' & pL' & pR' & -> & ? & ? & ? & ? & EL & ER & Hfr4).
    exists TL', TR', pL', pR'. split_and!; try done.
    - by rewrite EL, Ple.
    - rewrite ER, HeR. list_assoc.
    - rewrite Pla, Ea in Hfr4.
      eapply (frame_eq_trans _ _ h1).
      { eapply frame_eq_mono; [exact Hfr1|].
        intros y. rewrite addrs_plug. revert y. solve_elem. }
      eapply (frame_eq_trans _ _ h2).
      { eapply frame_eq_mono; [exact Hfr2|].
        intros y. rewrite addrs_plug. revert y. solve_elem. }
      eapply (frame_eq_trans _ _ h3).
      { eapply frame_eq_mono; [exact Hfr3|].
        intros y. rewrite addrs_plug. revert y. solve_elem. }
      eapply frame_eq_mono; [exact Hfr4|].
      intros y. rewrite addrs_plug. revert y. destruct pivot; solve_elem. }
  destruct pivot.
  - apply wp_bind. eapply wp_mono.
    { eapply (Merge_leaf_l fuel h2 x _ v (paint xr) (Some x));
        [done|lookup|done|by apply paint_rb| | |].
      - rewrite Pra. solve_distinct.
      - rewrite Prs. lia.
      - pose proof (height_le_count xr). rewrite Prh. lia. }
    intros res h3 (t' & -> & _ & (pR' & Hr') & Hb' & He' & Hfr3).
    rewrite Pra in Hfr3. rewrite Pre in He'. simpl in He', Hfr3.
    eapply (Hfin h3 t' pR'); done.
  - wp_run. eapply (Hfin h2 (paint xr) (Some x)); try done.
    by apply paint_rb.
Qed.

End Spl.

Section Pub.

Context {T : Type}.

Local Abbreviation Node_ := (Node_ T).

Local Abbreviation heap := (gmap addr Node_).

Local Abbreviation tree := (tree T).

Local Abbreviation ctx := (ctx T).

Implicit Types (h : heap) (t l r : tree) (c : ctx) (a : addr) (p : ptr).

Lemma fixed_inserted h this hd E (L : list addr) h' :
  head_ this = Some hd -> NoDup (hd :: E.*1) ->
  fixed h hd E L h' -> inserted h this E (hd :: L) h'.
Proof.
  intros Hh Hnd (t' & Hr & Hrb & He & Hhd & Hfr).
  exists t'. split_and!; try done.
  exists hd. rewrite addrs_elems, He. apply NoDup_cons in Hnd as [? ?].
  split_and!; done.
Qed.

Lemma tree_rep_delete h this t hd y :
  head_ this = Some hd -> y ∉ hd :: addrs t ->
  tree_rep h this t -> tree_rep (delete y h) this t.
Proof.
  intros Hh Hy (hd' & Hh' & Hhd & Hr & Hn & Hnd).
  assert (hd' = hd) as -> by congruence.
  apply not_elem_of_cons in Hy as [? ?].
  exists hd. split_and!; try done.
  - by rewrite lookup_delete_ne.
  - by apply rep_delete_notin.
Qed.

Lemma wp_FreeNode_ h y (n : Node_) Q :
  h !! y = Some n -> Q tt (delete y h) -> wp (FreeNode_ (Some y)) h Q.
Proof.
  intros Hy HQ. unfold FreeNode_. apply wp_bind. eapply wp_load; [exact Hy|].
  exists tt, (delete y h). unfold free. by rewrite Hy.
Qed.

Lemma frame_eq_delete h y : frame_eq [y] h (delete y h).
Proof.
  intros x Hx. apply lookup_delete_ne. intros ->. apply Hx.
  by apply list_elem_of_singleton.
Qed.

Lemma inserted_freed h this hd E (L : list addr) h' y :
  head_ this = Some hd -> y ∉ hd :: E.*1 -> y ∈ L ->
  inserted h this E L h' -> inserted h this E L (delete y h').
Proof.
  intros Hh Hy HL (t' & Htr & Hrb & He & Hfr). exists t'.
  split_and!; try done.
  - eapply tree_rep_delete; [done| |done]. by rewrite addrs_elems, He.
  - eapply frame_eq_trans; [exact Hfr|].
    eapply frame_eq_mono; [apply frame_eq_delete|].
    intros x ->%list_elem_of_singleton. done.
Qed.

Lemma inserted_mono h this E (L L' : list addr) h' :
  (forall x, x ∈ L -> x ∈ L') -> inserted h this E L h' -> inserted h this E L' h'.
Proof.
  intros HL (t' & ? & ? & ? & Hfr). exists t'. split_and!; try done.
  by eapply frame_eq_mono.
Qed.

Lemma tree_rep_nodup h this hd t :
  head_ this = Some hd -> tree_rep h this t -> NoDup (hd :: (elems t).*1).
Proof.
  intros Hh (hd' & Hh' & _ & _ & Hn & Hnd).
  assert (hd' = hd) as -> by congruence.
  rewrite <- addrs_elems. by apply NoDup_cons.
Qed.

Lemma erase_simple fuel h this hd c xl x sz bh b v xr :
  head_ this = Some hd ->
  tree_rep h this (plug c (Node xl x sz bh b v xr)) ->
  rb_tree (plug c (Node xl x sz bh b v xr)) ->
  tsize (plug c (Node xl x sz bh b v xr)) < 2 ^ 64 ->
  (height (plug c (Node xl x sz bh b v xr)) < fuel)%nat ->
  xl = Leaf \/ xr = Leaf ->
  wp (erase fuel this (mkIterator (Some x))) h (fun _ h' =>
    h' !! x = None
    /\ exists E1 E2, elems (plug c (Node xl x sz bh b v xr)) = E1 ++ (x, v) :: E2
      /\ inserted h this (E1 ++ E2) (hd :: addrs (plug c (Node xl x sz bh b v xr))) h').
Proof.
  intros Hh Htr Hrb Hsz Hf Hleaf.
  pose proof (tree_rep_plug _ _ _ _ _ Hh Htr) as (_ & _ & (Hx & _) & _).
  pose proof (tree_rep_nodup _ _ _ _ Hh Htr) as Hnd.
  unfold erase. cbn [ptr_]. apply wp_bind. eapply wp_mono.
  { by apply (Remove_simple fuel h this hd c xl x sz bh b v xr). }
  intros res h1 (-> & Hxeq & E1 & E2 & He & Hfix).
  rewrite Hx in Hxeq. eapply wp_FreeNode_; [exact Hxeq|].
  split; [apply lookup_delete_eq|]. exists E1, E2. split; [done|].
  rewrite He, fmap_app, fmap_cons in Hnd. simpl in Hnd. nodup_all.
  eapply (inserted_freed _ _ hd); [done| | |].
  - rewrite fmap_app. solve_distinct.
  - apply elem_of_cons. right. rewrite addrs_elems, He.
    rewrite fmap_app, fmap_cons. simpl. apply elem_of_app. right.
    apply elem_of_cons. by left.
  - eapply inserted_mono; [|apply fixed_inserted; [done| |exact Hfix]].
    + intros y. rewrite addrs_plug. revert y. solve_elem.
    + rewrite fmap_app. solve_distinct.
Qed.

Lemma erase_two fuel h this hd c xl x sz bh b v xr :
  head_ this = Some hd ->
  tree_rep h this (plug c (Node xl x sz bh b v xr)) ->
  rb_tree (plug c (Node xl x sz bh b v xr)) ->
  tsize (plug c (Node xl x sz bh b v xr)) < 2 ^ 64 ->
  (height (plug c (Node xl x sz bh b v xr)) < fuel)%nat ->
  xl <> Leaf -> xr <> Leaf ->
  wp (erase fuel this (mkIterator (Some x))) h (fun _ h' =>
    exists E1 tmp tv E2,
      elems (plug c (Node xl x sz bh b v xr)) = E1 ++ (tmp, tv) :: (x, v) :: E2
      /\ h' !! tmp = None
      /\ inserted h this (E1 ++ (x, tv) :: E2)
           (hd :: addrs (plug c (Node xl x sz bh b v xr))) h').
Proof.
  intros Hh Htr Hrb Hsz Hf Hnl Hnr.
  pose proof (tree_rep_nodup _ _ _ _ Hh Htr) as Hnd.
  unfold erase. cbn [ptr_]. apply wp_bind. eapply wp_mono.
  { by apply (Remove_two fuel h this hd c xl x sz bh b v xr). }
  intros res h1 (E1 & tmp & tv & E2 & n & He & -> & Htmp & Hval & Hfix).
  eapply wp_FreeNode_; [exact Htmp|].
  exists E1, tmp, tv, E2. split; [done|]. split; [apply lookup_delete_eq|].
  rewrite He, fmap_app, !fmap_cons in Hnd. simpl in Hnd. nodup_all.
  eapply (inserted_freed _ _ hd); [done| | |].
  - rewrite fmap_app, fmap_cons. simpl. solve_distinct.
  - apply elem_of_cons. right. rewrite addrs_elems, He.
    rewrite fmap_app, fmap_cons. simpl. apply elem_of_app. right.
    apply elem_of_cons. by left.
  - apply fixed_inserted; [done| |exact Hfix].
    rewrite fmap_app, fmap_cons. simpl. solve_distinct.
Qed.

Lemma push_back_spec fuel h this hd t val :
  head_ this = Some hd -> tree_rep h this t -> rb_tree t ->
  tsize t + 1 < 2 ^ 64 -> (height t < fuel)%nat ->
  wp (push_back fuel this val) h (fun _ h' =>
    exists b, h !! b = None
      /\ inserted h this (elems t ++ [(b, val)]) (b :: hd :: addrs t) h').
Proof.
  intros Hh Htr Hrb Hsz Hf. unfold push_back, GenNode_. rewrite Hh.
  apply wp_bind. apply wp_malloc. intros b Hb.
  pose proof (tree_rep_fresh _ _ _ _ _ Hh Htr Hb) as Hn.
  eapply wp_mono.
  { apply (InsertBefore_end fuel _ this hd t b val); try done.
    - eapply tree_rep_frame; [done|apply frame_eq_insert| |done].
      nodup_all. solve_distinct.
    - apply lookup_insert_eq. }
  intros ? h' Hins. exists b. split; [done|].
  eapply inserted_rebase; [|exact Hins].
  eapply frame_eq_mono; [apply frame_eq_insert|]. solve_elem.
Qed.

Lemma insert_end fuel h this hd t val :
  head_ this = Some hd -> tree_rep h this t -> rb_tree t ->
  tsize t + 1 < 2 ^ 64 -> (height t < fuel)%nat ->
  wp (insert_ fuel this (mkIterator (Some hd)) val) h (fun res h' =>
    exists b, res = mkIterator (Some b) /\ h !! b = None
      /\ inserted h this (elems t ++ [(b, val)]) (b :: hd :: addrs t) h').
Proof.
  intros Hh Htr Hrb Hsz Hf. unfold insert_, GenNode_. cbn [ptr_].
  apply wp_bind. apply wp_malloc. intros b Hb.
  pose proof (tree_rep_fresh _ _ _ _ _ Hh Htr Hb) as Hn.
  apply wp_bind. eapply wp_mono.
  { apply (InsertBefore_end fuel _ this hd t b val); try done.
    - eapply tree_rep_frame; [done|apply frame_eq_insert| |done].
      nodup_all. solve_distinct.
    - apply lookup_insert_eq. }
  intros ? h' Hins. apply wp_ret. exists b. split_and!; [done|done|].
  eapply inserted_rebase; [|exact Hins].
  eapply frame_eq_mono; [apply frame_eq_insert|]. solve_elem.
Qed.

Lemma insert_node fuel h this hd t a val :
  head_ this = Some hd -> tree_rep h this t -> rb_tree t ->
  tsize t + 1 < 2 ^ 64 -> (height t < fuel)%nat -> a ∈ addrs t ->
  wp (insert_ fuel this (mkIterator (Some a)) val) h (fun res h' =>
    exists b E1 v E2, res = mkIterator (Some b) /\ h !! b = None
      /\ elems t = E1 ++ (a, v) :: E2
      /\ inserted h this (E1 ++ (b, val) :: (a, v) :: E2) (b :: hd :: addrs t) h').
Proof.
  intros Hh Htr Hrb Hsz Hf Ha. unfold insert_, GenNode_. cbn [ptr_].
  destruct (in_addrs_plug _ _ Ha) as (c & l & sz & bh & bl & v & r & ->).
  apply wp_bind. apply wp_malloc. intros b Hb.
  pose proof (tree_rep_fresh _ _ _ _ _ Hh Htr Hb) as Hn.
  apply wp_bind. eapply wp_mono.
  { apply (InsertBefore_node fuel _ this hd c l a sz bh bl v r b val); try done.
    - eapply tree_rep_frame; [done|apply frame_eq_insert| |done].
      nodup_all. solve_distinct.
    - apply lookup_insert_eq. }
  intros ? h' (E1 & E2 & He & Hins). apply wp_ret.
  exists b, E1, v, E2. split_and!; [done|done|done|].
  eapply inserted_rebase; [|exact Hins].
  eapply frame_eq_mono; [apply frame_eq_insert|]. solve_elem.
Qed.

Lemma First_head fuel h this hd t :
  head_ this = Some hd -> tree_rep h this t -> (height t < fuel)%nat ->
  wp (First_ fuel (Some hd)) h (fun res h' =>
    h' = h /\ ((t = Leaf /\ res = Some hd)
      \/ exists c x sz bh b v r,
           t = plug c (Node Leaf x sz bh b v r) /\ res = Some x /\ left_spine c)).
Proof.
  intros Hh (hd' & Hh' & Hhd & Hr & _) Hf.
  assert (hd' = hd) as -> by congruence.
  destruct fuel as [|fuel]; [lia|]. simpl First_. wp_run.
  destruct t as [|l a sz bh b v r].
  { simpl. wp_run. split; [done|]. by left. }
  cbn [root is_null]. cbv iota.
  eapply wp_mono.
  { eapply (First_spec fuel h (Some hd) (Node l a sz bh b v r)); [done|done|lia]. }
  intros res h' (-> & c & x & sz' & bh' & b' & v' & r' & E & -> & Hls).
  split; [done|]. right. by exists c, x, sz', bh', b', v', r'.
Qed.

Lemma push_front_spec fuel h this hd t val :
  head_ this = Some hd -> tree_rep h this t -> rb_tree t ->
  tsize t + 1 < 2 ^ 64 -> (height t < fuel)%nat ->
  wp (push_front fuel this val) h (fun _ h' =>
    exists b, h !! b = None
      /\ inserted h this ((b, val) :: elems t) (b :: hd :: addrs t) h').
Proof.
  intros Hh Htr Hrb Hsz Hf. unfold push_front, GenNode_. rewrite Hh.
  apply wp_bind. apply wp_malloc. intros b Hb.
  pose proof (tree_rep_fresh _ _ _ _ _ Hh Htr Hb) as Hn.
  assert (Htr1 : tree_rep (<[b:=new_Node_ (Some val)]> h) this t).
  { eapply tree_rep_frame; [done|apply frame_eq_insert| |done].
    nodup_all. solve_distinct. }
  assert (Hfr : frame_eq (b :: hd :: addrs t) h (<[b:=new_Node_ (Some val)]> h)).
  { eapply frame_eq_mono; [apply frame_eq_insert|]. solve_elem. }
  apply wp_bind. eapply wp_mono; [by apply (First_head fuel _ this hd t)|].
  intros res h1 (-> & [[-> ->]|(c & x & sz & bh & bl & v & r & -> & -> & Hls)]).
  - eapply wp_mono.
    { apply (InsertBefore_end fuel _ this hd Leaf b val); try done.
      apply lookup_insert_eq. }
    intros ? h' Hins. exists b. split; [done|].
    eapply inserted_rebase; [exact Hfr|exact Hins].
  - eapply wp_mono.
    { apply (InsertBefore_node fuel _ this hd c Leaf x sz bh bl v r b val);
        try done. apply lookup_insert_eq. }
    intros ? h' (E1 & E2 & He & Hins). exists b. split; [done|].
    eapply inserted_rebase; [exact Hfr|].
    destruct (elems_left_spine c Leaf Hls) as [post Hp].
    rewrite Hp in He |- *. simpl in He |- *.
    pose proof (tree_rep_nodup _ _ _ _ Hh Htr) as Hnd.
    rewrite Hp in Hnd. simpl in Hnd. apply NoDup_cons in Hnd as [_ Hnd].
    destruct (split_unique [] E1 (elems r ++ post) E2 x v v) as (<- & _ & <-);
      [exact Hnd|exact He|].
    exact Hins.
Qed.

Lemma pop_back_spec fuel h this hd t :
  head_ this = Some hd -> tree_rep h this t -> rb_tree t ->
  tsize t < 2 ^ 64 -> (height t < fuel)%nat -> t <> Leaf ->
  wp (pop_back fuel this) h (fun _ h' =>
    exists E x v, elems t = E ++ [(x, v)] /\ h' !! x = None
      /\ inserted h this E (hd :: addrs t) h').
Proof.
  intros Hh Htr Hrb Hsz Hf Hne.
  pose proof Htr as (hd' & Hh' & Hhd & Hr & _).
  assert (hd' = hd) as -> by congruence.
  pose proof (tree_rep_nodup _ _ _ _ Hh Htr) as Hnd.
  unfold pop_back. rewrite Hh. wp_run.
  apply wp_bind. eapply wp_mono.
  { eapply (Last_spec fuel h (Some hd) t); [done|done|lia]. }
  intros res h1 (-> & c & l & x & sz & bh & b & v & -> & -> & Hrs).
  change (wp (erase fuel this (mkIterator (Some x))) h
    (fun _ h' => exists E x0 v0,
       elems (plug c (Node l x sz bh b v Leaf)) = E ++ [(x0, v0)]
       /\ h' !! x0 = None
       /\ inserted h this E (hd :: addrs (plug c (Node l x sz bh b v Leaf))) h')).
  eapply wp_mono.
  { apply (erase_simple fuel h this hd c l x sz bh b v Leaf); try done. by right. }
  intros ? h' (Hx & E1 & E2 & He & Hins).
  destruct (elems_right_spine c Leaf Hrs) as [pre Hp].
  rewrite Hp in He, Hnd. simpl in He, Hnd. apply NoDup_cons in Hnd as [_ Hnd].
  rewrite app_assoc in He, Hnd.
  destruct (split_unique (pre ++ elems l) E1 [] E2 x v v) as (<- & _ & <-);
    [exact Hnd|exact He|].
  exists (pre ++ elems l), x, v. rewrite app_nil_r in Hins.
  split_and!; try done. rewrite Hp. simpl. by rewrite app_assoc.
Qed.

Lemma pop_front_spec fuel h this hd t :
  head_ this = Some hd -> tree_rep h this t -> rb_tree t ->
  tsize t < 2 ^ 64 -> (height t < fuel)%nat -> t <> Leaf ->
  wp (pop_front fuel this) h (fun _ h' =>
    exists E x v, elems t = (x, v) :: E /\ h' !! x = None
      /\ inserted h this E (hd :: addrs t) h').
Proof.
  intros Hh Htr Hrb Hsz Hf Hne.
  pose proof Htr as (hd' & Hh' & Hhd & Hr & _).
  assert (hd' = hd) as -> by congruence.
  pose proof (tree_rep_nodup _ _ _ _ Hh Htr) as Hnd.
  unfold pop_front. rewrite Hh. wp_run.
  apply wp_bind. eapply wp_mono.
  { eapply (First_spec fuel h (Some hd) t); [done|done|lia]. }
  intros res h1 (-> & c & x & sz & bh & b & v & r & -> & -> & Hls).
  change (wp (erase fuel this (mkIterator (Some x))) h
    (fun _ h' => exists E x0 v0,
       elems (plug c (Node Leaf x sz bh b v r)) = (x0, v0) :: E
       /\ h' !! x0 = None
       /\ inserted h this E (hd :: addrs (plug c (Node Leaf x sz bh b v r))) h')).
  eapply wp_mono.
  { apply (erase_simple fuel h this hd c Leaf x sz bh b v r); try done. by left. }
  intros ? h' (Hx & E1 & E2 & He & Hins).
  destruct (elems_left_spine c Leaf Hls) as [post Hp].
  rewrite Hp in He, Hnd. simpl in He, Hnd. apply NoDup_cons in Hnd as [_ Hnd].
  destruct (split_unique [] E1 (elems r ++ post) E2 x v v) as (<- & _ & <-);
    [exact Hnd|exact He|].
  exists (elems r ++ post), x, v.
  split_and!; done.
Qed.

End Pub.

Section Pub2.

Context {T : Type}.

Local Abbreviation Node_ := (Node_ T).

Local Abbreviation heap := (gmap addr Node_).

Local Abbreviation tree := (tree T).

Local Abbreviation ctx := (ctx T).

Implicit Types (h : heap) (t l r : tree) (c : ctx) (a : addr) (p : ptr).

Lemma wp_get_size_root h par t a Q :
  rep h par t -> root t = Some a -> Q (tsize t) h ->
  wp (get size (Some a)) h Q.
Proof.
  destruct t as [|l x sz bh b v r]; simpl; intros Hr [= ->] HQ.
  destruct Hr as (Ha & _). eapply wp_get; [exact Ha|done].
Qed.

(** The part of [merge] after the pivot has been taken out. *)

Lemma merge_join fuel h0 h this tree hd1 hd2 t1 t2 m (nm : Node_) v
  (L0 : list addr) :
  head_ this = Some hd1 -> head_ tree = Some hd2 ->
  rep h (Some hd1) t1 -> rep h (Some hd2) t2 ->
  h !! hd1 = Some (head_node (root t1)) -> h !! hd2 = Some (head_node (root t2)) ->
  h !! m = Some nm -> value nm = Some v ->
  rb_tree t1 -> rb_tree t2 ->
  NoDup (hd1 :: hd2 :: m :: addrs t1 ++ addrs t2) ->
  tsize t1 + tsize t2 + 1 < 2 ^ 64 ->
  (height t1 < fuel)%nat -> (height t2 < fuel)%nat ->
  frame_eq L0 h0 h ->
  wp (do l <- get left (Some hd1);
      do tl <- get left (Some hd2);
      do root <- Merge_ fuel l (Some m) tl;
      do_ ConnectLeft_ (Some hd1) root;
      do_ set with_left (Some hd2) None;
      ret (this, tree)) h
     (merge_done h0 (elems t1 ++ (m, v) :: elems t2)
        (L0 ++ hd1 :: hd2 :: m :: addrs t1 ++ addrs t2)).
Proof.
  intros Hh1 Hh2 Hr1 Hr2 Hhd1 Hhd2 Hm Hv Hb1 Hb2 Hnd Hsz Hf1 Hf2 Hfr0.
  nodup_all. wp_run.
  apply wp_bind. eapply wp_mono.
  { eapply (Merge_spec fuel h m nm v t1 t2 (Some hd1) (Some hd2)); try done.
    solve_distinct. }
  intros res h1 (t' & -> & Hs & (par & Hr') & Hb' & He' & Hfr1).
  destruct (merged_addrs t1 m v t2 t' He') as [Ea _].
  assert (NoDup (addrs t')) by (rewrite Ea; solve_distinct).
  assert (hd1 ∉ addrs t') by (rewrite Ea; solve_distinct).
  assert (hd2 ∉ addrs t') by (rewrite Ea; solve_distinct).
  wp_run.
  exists t'. cbn [fst snd]. split_and!; try done.
  - exists hd1. split_and!; [done|lookup|rep_frame|done|done].
  - exists hd2. split_and!; [done|lookup|done|solve_distinct|constructor].
  - rewrite Ea in Hfr.
    eapply frame_eq_trans.
    + eapply frame_eq_mono; [exact Hfr0|]. intros y Hy. apply elem_of_app. by left.
    + eapply (frame_eq_mono (hd1 :: hd2 :: m :: addrs t1 ++ addrs t2));
        [frame_solve|].
      intros y Hy. apply elem_of_app. by right.
Qed.

Lemma merge_done_weaken h E E1 (L L1 : list addr) res h' :
  E1 = E -> (forall x, x ∈ L1 -> x ∈ L) ->
  merge_done h E1 L1 res h' -> merge_done h E L res h'.
Proof.
  intros <- HL (t' & ? & ? & ? & ? & Hfr). exists t'. split_and!; try done.
  by eapply frame_eq_mono.
Qed.

Lemma merge_spec fuel h this tree hd1 hd2 t1 t2 :
  head_ this = Some hd1 -> head_ tree = Some hd2 ->
  tree_rep h this t1 -> tree_rep h tree t2 -> rb_tree t1 -> rb_tree t2 ->
  disj (hd1 :: addrs t1) (hd2 :: addrs t2) ->
  tsize t1 + tsize t2 < 2 ^ 64 ->
  (count t1 < fuel)%nat -> (count t2 < fuel)%nat ->
  wp (merge fuel this tree) h
     (merge_done h (elems t1 ++ elems t2) (hd1 :: hd2 :: addrs t1 ++ addrs t2)).
Proof.
  intros Hh1 Hh2 Htr1 Htr2 Hb1 Hb2 Hd Hsz Hf1 Hf2.
  pose proof Htr1 as (hd1' & Hh1' & Hhd1 & Hr1 & Hn1 & Hnd1).
  assert (hd1' = hd1) as -> by congruence.
  pose proof Htr2 as (hd2' & Hh2' & Hhd2 & Hr2 & Hn2 & Hnd2).
  assert (hd2' = hd2) as -> by congruence.
  pose proof (height_le_count t1). pose proof (height_le_count t2).
  pose proof (valid_tsize _ (proj1 Hb1)) as Hs1.
  pose proof (valid_tsize _ (proj1 Hb2)) as Hs2.
  unfold merge, empty. rewrite Hh1, Hh2.
  apply wp_bind. apply wp_bind. eapply wp_get; [exact Hhd2|]. simpl_fields.
  apply wp_ret.
  destruct (root t2) as [r2|] eqn:Er2; simpl_fields.
  2:{ destruct t2; [|done]. apply wp_ret. exists t1. cbn [fst snd].
      simpl. rewrite app_nil_r. split_and!; try done. }
  apply wp_bind. apply wp_bind. eapply wp_get; [exact Hhd1|]. simpl_fields.
  apply wp_ret.
  destruct (root t1) as [r1|] eqn:Er1; simpl_fields.
  2:{ destruct t1; [|done]. apply wp_ret. exists t2. cbn [fst snd].
      split_and!; try done.
      - exists hd2. rewrite Er2. split_and!; done.
      - exists hd1. split_and!; done. }
  apply wp_bind. eapply wp_get; [exact Hhd2|]. simpl_fields.
  apply wp_bind. eapply wp_get_size_root; [exact Hr2|exact Er2|].
  apply wp_bind. eapply wp_get; [exact Hhd1|]. simpl_fields.
  apply wp_bind. eapply wp_get_size_root; [exact Hr1|exact Er1|].
  apply wp_bind.
  destruct (tsize t2 <? tsize t1).
  - apply wp_bind. eapply wp_get; [exact Hhd2|]. simpl_fields.
    apply wp_bind. eapply wp_mono.
    { rewrite <- Er2. eapply (First_spec fuel h (Some hd2) t2); [done| |lia].
      by intros ->. }
    intros res h1 (-> & c & f & sz & bh & b & v & r & -> & -> & Hls).
    pose proof (tree_rep_plug _ _ _ _ _ Hh2 Htr2) as (_ & _ & (Hf & _) & _).
    pose proof (tree_rep_nodup _ _ _ _ Hh2 Htr2) as Hnd.
    eapply wp_mono.
    { apply (Remove_simple fuel h tree hd2 c Leaf f sz bh b v r); try done.
      - lia.
      - lia.
      - by left. }
    intros res h1 (-> & Hfeq & E1 & E2 & He & Hfix).
    destruct (elems_left_spine c Leaf Hls) as [post Hp].
    rewrite Hp in He, Hnd. simpl in He, Hnd.
    pose proof Hnd as Hnd'. apply NoDup_cons in Hnd' as [_ Hnd'].
    destruct (split_unique [] E1 (elems r ++ post) E2 f v v) as (<- & _ & <-);
      [exact Hnd'|exact He|]. clear He Hnd'.
    destruct Hfix as (t2' & Hr2' & Hb2' & He2' & Hhd2' & Hfr).
    simpl in He2'.
    assert (Ea2 : addrs (plug c (Node Leaf f sz bh b v r))
                  = f :: (elems r ++ post).*1).
    { by rewrite addrs_elems, Hp. }
    assert (Ea2' : addrs t2' = (elems r ++ post).*1).
    { by rewrite addrs_elems, He2'. }
    assert (Ec2 : count (plug c (Node Leaf f sz bh b v r)) = S (count t2')).
    { rewrite <- !count_elems, Hp, He2'. done. }
    pose proof (height_le_count t2').
    pose proof (valid_tsize _ (proj1 Hb2')) as Hs2'.
    assert (Hd2 : disj (hd1 :: addrs t1)
                    (hd2 :: caddrs c ++ addrs (Node Leaf f sz bh b v r))).
    { eapply Forall_impl; [exact Hd|]. intros y Hy. cbv beta in Hy |- *.
      by rewrite <- addrs_plug. }
    rewrite Ea2 in Hd.
    assert (Hnd3 : NoDup (caddrs c ++ addrs (Node Leaf f sz bh b v r)))
      by (by rewrite <- addrs_plug).
    set (X := (elems r ++ post).*1) in *.
    nodup_all.
    eapply wp_mono.
    { eapply (merge_join fuel h h1 this tree hd1 hd2 t1 t2' f _ v); try done.
      - rep_frame.
      - rewrite Er1. lookup.
      - rewrite Hfeq. exact Hf.
      - done.
      - rewrite Ea2'. solve_distinct.
      - lia.
      - lia.
      - lia. }
    intros res h2. apply merge_done_weaken.
    + by rewrite Hp, He2'.
    + intros y. rewrite Ea2, Ea2'. cbn [addrs]. fold X.
      elem_norm.
      assert (HX : y ∈ caddrs c \/ y ∈ addrs r -> y ∈ X); [|revert HX; clear; tauto].
      intros Hy. assert (Hy' : y ∈ addrs (plug c (Node Leaf f sz bh b v r))).
      { rewrite addrs_plug. simpl. rewrite elem_of_app, elem_of_cons. tauto. }
      rewrite Ea2 in Hy'. apply elem_of_cons in Hy' as [->|?]; [|done].
      destruct Hy; done.
  - apply wp_bind. eapply wp_get; [exact Hhd1|]. simpl_fields.
    apply wp_bind. eapply wp_mono.
    { rewrite <- Er1. eapply (Last_spec fuel h (Some hd1) t1); [done| |lia].
      by intros ->. }
    intros res h1 (-> & c & l & x & sz & bh & b & v & -> & -> & Hrs).
    pose proof (tree_rep_plug _ _ _ _ _ Hh1 Htr1) as (_ & _ & (Hx & _) & _).
    pose proof (tree_rep_nodup _ _ _ _ Hh1 Htr1) as Hnd.
    eapply wp_mono.
    { apply (Remove_simple fuel h this hd1 c l x sz bh b v Leaf); try done.
      - lia.
      - lia.
      - by right. }
    intros res h1 (-> & Hxeq & E1 & E2 & He & Hfix).
    destruct (elems_right_spine c Leaf Hrs) as [pre Hp].
    rewrite Hp in He, Hnd. simpl in He, Hnd. rewrite app_assoc in He, Hnd.
    pose proof Hnd as Hnd'. apply NoDup_cons in Hnd' as [_ Hnd'].
    destruct (split_unique (pre ++ elems l) E1 [] E2 x v v) as (<- & _ & <-);
      [exact Hnd'|exact He|]. clear He Hnd'.
    destruct Hfix as (t1' & Hr1' & Hb1' & He1' & Hhd1' & Hfr).
    rewrite app_nil_r in He1'.
    assert (Ea1 : addrs (plug c (Node l x sz bh b v Leaf))
                  = (pre ++ elems l).*1 ++ [x]).
    { rewrite addrs_elems, Hp. simpl. by rewrite app_assoc, fmap_app. }
    assert (Ea1' : addrs t1' = (pre ++ elems l).*1).
    { by rewrite addrs_elems, He1'. }
    assert (Ec1 : count (plug c (Node l x sz bh b v Leaf)) = S (count t1')).
    { rewrite <- !count_elems, Hp, He1'. simpl. rewrite !length_app. simpl. lia. }
    pose proof (height_le_count t1').
    pose proof (valid_tsize _ (proj1 Hb1')) as Hs1'.
    assert (Hd2 : disj (hd1 :: caddrs c ++ addrs (Node l x sz bh b v Leaf))
                    (hd2 :: addrs t2)).
    { apply disj_sym. apply disj_sym in Hd.
      eapply Forall_impl; [exact Hd|]. intros y Hy. cbv beta in Hy |- *.
      intros Hin. apply Hy. apply elem_of_cons in Hin as [->|Hin];
        apply elem_of_cons; [by left|right]. by rewrite addrs_plug. }
    rewrite Ea1 in Hd. rewrite fmap_app in Hnd. simpl in Hnd.
    assert (Hnd3 : NoDup (caddrs c ++ addrs (Node l x sz bh b v Leaf)))
      by (by rewrite <- addrs_plug).
    set (X := (pre ++ elems l).*1) in *.
    nodup_all.
    eapply wp_mono.
    { eapply (merge_join fuel h h1 this tree hd1 hd2 t1' t2 x _ v); try done.
      - rep_frame.
      - rewrite Er2. lookup.
      - rewrite Hxeq. exact Hx.
      - done.
      - rewrite Ea1'. solve_distinct.
      - lia.
      - lia.
      - lia. }
    intros res h2. apply merge_done_weaken.
    + rewrite Hp, He1'. simpl. list_assoc.
    + intros y. rewrite Ea1, Ea1'. cbn [addrs]. fold X.
      elem_norm.
      assert (HX : y ∈ caddrs c \/ y ∈ addrs l -> y ∈ X); [|revert HX; clear; tauto].
      intros Hy. assert (Hy' : y ∈ addrs (plug c (Node l x sz bh b v Leaf))).
      { rewrite addrs_plug. simpl. rewrite !elem_of_app. tauto. }
      rewrite Ea1 in Hy'. apply elem_of_app in Hy' as [?|Hy']; [done|].
      apply list_elem_of_singleton in Hy' as ->. destruct Hy; done.
Qed.

Lemma split_end fuel h this hd t :
  head_ this = Some hd -> tree_rep h this t ->
  wp (split fuel this (end_ this)) h (fun ret h' =>
    exists hd2, ret = mkRBTree (Some hd2) /\ h !! hd2 = None
      /\ h' = <[hd2 := head_node None]> h
      /\ tree_rep h' this t /\ tree_rep h' ret Leaf).
Proof.
  intros Hh Htr. unfold split. rewrite ptr_eqb_refl.
  unfold RBTree_new, Init_. apply wp_bind. apply wp_malloc. intros hd2 Hb.
  apply wp_ret. exists hd2. split_and!; try done.
  - pose proof (tree_rep_fresh _ _ _ _ _ Hh Htr Hb) as Hn.
    eapply tree_rep_frame; [done|apply frame_eq_insert| |done].
    nodup_all. solve_distinct.
  - exists hd2. split_and!; try done.
    + apply lookup_insert_eq.
    + apply not_elem_of_nil.
    + constructor.
Qed.

Lemma split_node fuel h this hd t x :
  head_ this = Some hd -> tree_rep h this t -> rb_tree t ->
  tsize t < 2 ^ 64 -> (2 * count t < fuel)%nat -> x ∈ addrs t ->
  wp (split fuel this (mkIterator (Some x))) h (fun ret h' =>
    exists hd2 E1 v E2 t1 t2,
      ret = mkRBTree (Some hd2) /\ h !! hd2 = None
      /\ elems t = E1 ++ (x, v) :: E2
      /\ tree_rep h' this t1 /\ rb_tree t1 /\ elems t1 = E1
      /\ tree_rep h' ret t2 /\ rb_tree t2 /\ elems t2 = (x, v) :: E2
      /\ frame_eq (hd2 :: hd :: addrs t) h h').
Proof.
  intros Hh Htr Hrb Hsz Hf Hx.
  pose proof (tree_rep_nodup _ _ _ _ Hh Htr) as Hnd.
  pose proof Htr as (hd' & Hh' & Hhd & _ & Hn & _).
  assert (hd' = hd) as -> by congruence.
  assert (x <> hd) by (by intros ->).
  unfold split, end_. cbn [ptr_]. rewrite Hh. simpl_ptr_eqb.
  unfold RBTree_new, Init_. apply wp_bind. apply wp_bind.
  apply wp_malloc. intros hd2 Hb. apply wp_ret.
  pose proof (tree_rep_fresh _ _ _ _ _ Hh Htr Hb) as Hn2.
  assert (Htr1 : tree_rep (<[hd2:=new_Node_ None]> h) this t).
  { eapply tree_rep_frame; [done|apply frame_eq_insert| |done].
    nodup_all. solve_distinct. }
  destruct (in_addrs_plug _ _ Hx) as (c & xl & sz & bh & b & v & xr & ->).
  cbn [head_]. apply wp_bind. eapply wp_mono.
  { by apply (Split_spec fuel _ this hd c xl x sz bh b v xr true). }
  intros res h2 (TL & TR & pL & pR & -> & HL & HR & HbL & HbR & EL & ER & Hfr2).
  cbn [fst snd].
  rewrite elems_plug_pre_post in Hnd. cbn [elems] in Hnd. simpl in ER.
  assert (EaL : addrs TL = (cpre c ++ elems xl).*1) by (by rewrite addrs_elems, EL).
  assert (EaR : addrs TR = x :: (elems xr ++ cpost c).*1)
    by (by rewrite addrs_elems, ER).
  assert (Eat : forall y, y ∈ addrs (plug c (Node xl x sz bh b v xr))
            <-> y ∈ addrs TL \/ y ∈ addrs TR).
  { intros y. rewrite !addrs_elems, elems_plug_pre_post, EL, ER.
    rewrite <- elem_of_app, <- fmap_app. cbn [elems].
    by replace (cpre c ++ (elems xl ++ (x, v) :: elems xr) ++ cpost c)
      with ((cpre c ++ elems xl) ++ (x, v) :: elems xr ++ cpost c) by list_assoc. }
  repeat (rewrite fmap_app in Hnd || rewrite fmap_cons in Hnd). cbn [fst] in Hnd.
  rewrite fmap_app in EaL, EaR.
  nodup_all.
  assert (hd2 <> hd) by neq.
  assert (Hhd2n : hd2 ∉ addrs (plug c (Node xl x sz bh b v xr))) by done.
  assert (hd2 ∉ addrs TL /\ hd2 ∉ addrs TR) as [? ?].
  { split; intros Hin; apply Hhd2n, Eat; tauto. }
  assert (NoDup (addrs TL)) by (rewrite EaL; solve_distinct).
  assert (NoDup (addrs TR)) by (rewrite EaR; solve_distinct).
  assert (hd ∉ addrs TL) by (rewrite EaL; solve_distinct).
  assert (hd ∉ addrs TR) by (rewrite EaR; solve_distinct).
  assert (disj (addrs TL) (addrs TR)) by (rewrite EaL, EaR; solve_distinct).
  assert (Hhd2' : h2 !! hd2 = Some (new_Node_ None)).
  { rewrite Hfr2 by done. apply lookup_insert_eq. }
  assert (Hhd' : h2 !! hd = Some (head_node (root (plug c (Node xl x sz bh b v xr))))).
  { rewrite Hfr2 by done. rewrite lookup_insert_ne by done. done. }
  unfold new_Node_ in Hhd2'.
  wp_run.
  exists hd2, (cpre c ++ elems xl), v, (elems xr ++ cpost c), TL, TR.
  split_and!; try done.
  - rewrite elems_plug_pre_post. list_assoc.
  - exists hd. split_and!; [done|lookup|rep_frame|done|done].
  - exists hd2. split_and!; [done|lookup|rep_frame|done|done].
  - intros y Hy. apply not_elem_of_cons in Hy as [? Hy].
    apply not_elem_of_cons in Hy as [? Hy].
    assert (y ∉ addrs TL /\ y ∉ addrs TR) as [? ?].
    { split; intros Hin; apply Hy, Eat; tauto. }
    rewrite Hfr0 by done. rewrite lookup_insert_ne by neq.
    rewrite Hfr by done. rewrite lookup_insert_ne by neq.
    rewrite Hfr2 by done. by rewrite lookup_insert_ne.
Qed.

End Pub2.

Section Nav.

Context {T : Type}.

Local Abbreviation Node_ := (Node_ T).

Local Abbreviation heap := (gmap addr Node_).

Local Abbreviation tree := (tree T).

Local Abbreviation ctx := (ctx T).

Implicit Types (h : heap) (t l r : tree) (c : ctx) (a : addr) (p : ptr).

Lemma cpre_app c1 c2 : cpre (c1 ++ c2) = cpre c2 ++ cpre c1.
Proof.
  induction c1 as [|f c1 IH]; simpl; [by rewrite app_nil_r|].
  destruct f; [done|]. rewrite IH. by rewrite !app_assoc.
Qed.

Lemma cpost_app c1 c2 : cpost (c1 ++ c2) = cpost c1 ++ cpost c2.
Proof.
  induction c1 as [|f c1 IH]; simpl; [done|].
  destruct f; [|done]. rewrite IH. list_assoc.
Qed.

Lemma Select_spec fuel h par t x :
  rep h par t -> valid t -> 0 <= x < tsize t -> tsize t < 2 ^ 64 ->
  (height t <= fuel)%nat ->
  wp (Select_ fuel (root t) x) h (fun res h' =>
    h' = h /\ exists c l a sz bh b v r,
      t = plug c (Node l a sz bh b v r) /\ res = Some a
      /\ x = Z.of_nat (length (cpre c) + count l)).
Proof.
  revert h par t x. induction fuel as [|fuel IH]; intros h par t x Hr Hv Hx Hsz Hf.
  { destruct t; simpl in *; lia. }
  destruct t as [|l a sz bh b v r]; [simpl in Hx; lia|].
  simpl in Hr, Hv, Hx, Hsz, Hf. destruct Hr as (Ha & Hl & Hrr).
  destruct Hv as (Hs & _ & _ & _ & Hvl & Hvr).
  pose proof (valid_tsize _ Hvl) as Hcl. pose proof (valid_tsize _ Hvr) as Hcr.
  simpl Select_. simpl root. wp_run.
  destruct (Z.eqb_spec (tsize l) x) as [E|NE].
  { wp_run. split; [done|]. exists [], l, a, sz, bh, b, v, r.
    split_and!; try done. simpl. lia. }
  destruct (Z.gtb_spec (tsize l) x) as [G|G].
  - eapply wp_mono; [apply (IH h (Some a) l x); try done; lia|].
    intros res h' (-> & c & l' & a' & sz' & bh' & b' & v' & r' & -> & -> & ->).
    split; [done|].
    exists (c ++ [InL a sz bh b v r]), l', a', sz', bh', b', v', r'.
    rewrite plug_app, cpre_app. split_and!; try done.
  - wp_run. rewrite (size_t_small' (tsize l + 1)) by lia.
    rewrite (size_t_small' (x - (tsize l + 1))) by lia.
    eapply wp_mono; [apply (IH h (Some a) r (x - (tsize l + 1))); try done; lia|].
    intros res h' (-> & c & l' & a' & sz' & bh' & b' & v' & r' & -> & -> & E).
    split; [done|].
    exists (c ++ [InR l a sz bh b v]), l', a', sz', bh', b', v', r'.
    rewrite plug_app, cpre_app. split_and!; try done.
    simpl. rewrite !length_app, count_elems. simpl. lia.
Qed.

Lemma Order_loop_spec h hd rt : forall c fuel nd (n : Node_) ans,
  rep_ctx h (Some hd) c (Some nd) -> h !! hd = Some (head_node rt) ->
  h !! nd = Some n -> parent n = parent_of c (Some hd) ->
  nd ∉ hd :: caddrs c -> hd ∉ caddrs c -> NoDup (caddrs c) ->
  Forall (fun f => valid (fsib f)) c ->
  0 <= ans -> ans + Z.of_nat (length (cpre c)) < 2 ^ 64 ->
  (length c + 2 <= fuel)%nat ->
  wp (Order_loop fuel (Some nd) ans) h (fun res h' =>
    h' = h /\ res = ans + Z.of_nat (length (cpre c))).
Proof.
  induction c as [|f c IH];
    intros fuel nd n ans Hc Hhd Hnd Hp Hn Hh Hdup Hvs Ha Hb Hf;
    (destruct fuel as [|fuel]; [simpl in Hf; lia|]);
    simpl Order_loop; apply wp_bind; (eapply wp_get; [exact Hnd|]); rewrite Hp.
  { destruct fuel as [|fuel]; [simpl in Hf; lia|].
    cbn [parent_of]. nodup_all. simpl_fields. wp_run. simpl Order_loop. wp_run.
    split; [done|]. simpl. lia. }
  rewrite Forall_cons in Hvs. destruct Hvs as [Hvf Hvs].
  pose proof (valid_tsize _ Hvf) as Hsf.
  destruct f as [a sz bh b v r | l a sz bh b v];
    simpl in Hc, Hvf, Hsf, Hf; cbn [cpre] in Hb; destruct Hc as (Ha' & Hr & Hc);
    nodup_all; cbn [parent_of faddr]; simpl_fields; wp_run.
  - eapply wp_mono.
    { eapply (IH fuel a _ ans); [done|done|exact Ha'|done|solve_distinct|done|done|done|done|lia|lia]. }
    intros res h' (-> & ->). done.
  - rewrite length_app, length_app, count_elems in Hb. cbn [length] in Hb.
    rewrite (size_t_small' (tsize l + 1)) by lia.
    rewrite (size_t_small' (ans + (tsize l + 1))) by lia.
    eapply wp_mono.
    { eapply (IH fuel a _ (ans + (tsize l + 1)));
        [done|done|exact Ha'|done|solve_distinct|done|done|done|lia|lia|lia]. }
    intros res h' (-> & ->). split; [done|].
    cbn [cpre]. rewrite !length_app, count_elems. cbn [length]. lia.
Qed.

Lemma count_plug_pre_post c t :
  count (plug c t) = (length (cpre c) + count t + length (cpost c))%nat.
Proof.
  rewrite <- !count_elems, elems_plug_pre_post, !length_app. lia.
Qed.

Lemma at_pos_le t hd n i : at_pos t hd n i -> (i <= count t)%nat.
Proof.
  intros [|c l a sz bh b v r ->]; [done|].
  rewrite count_plug_pre_post. simpl. lia.
Qed.

Lemma Order_spec fuel h this hd t n i :
  head_ this = Some hd -> tree_rep h this t -> valid t -> tsize t < 2 ^ 64 ->
  (height t + 2 <= fuel)%nat -> at_pos t hd n i ->
  wp (Order_ fuel (Some n)) h (fun res h' => h' = h /\ res = Z.of_nat i).
Proof.
  intros Hh Htr Hv Hsz Hf Hat.
  pose proof (valid_tsize _ Hv) as Hs.
  destruct Hat as [|c l a sz bh b v r ->].
  - destruct Htr as (hd' & Hh' & Hhd & Hr & _).
    assert (hd' = hd) as -> by congruence.
    unfold Order_. wp_run. destruct fuel as [|fuel]; [lia|]. simpl Order_loop.
    wp_run. split; [done|]. lia.
  - pose proof (tree_rep_plug _ _ _ _ _ Hh Htr) as (Hhd & Hc & Hx & Hnd).
    rewrite count_plug_pre_post in Hs.
    pose proof (length_plug_height c (Node l a sz bh b v r)) as Hlen.
    apply valid_plug_inv in Hv as [Hvx Hcv]. apply ctx_valid_sibs in Hcv.
    simpl in Hx, Hvx, Hs, Hlen. destruct Hx as (Hx & Hl & Hr).
    destruct Hvx as (_ & _ & _ & _ & Hvl & Hvr).
    pose proof (valid_tsize _ Hvl) as Hsl.
    unfold Order_. wp_run. nodup_all.
    eapply wp_mono.
    { eapply (Order_loop_spec h hd _ c fuel a _ (tsize l));
        [done|exact Hhd|exact Hx|done|solve_distinct|done|done|done|lia|lia|lia]. }
    intros res h' (-> & ->). split; [done|]. lia.
Qed.

Lemma span_InR c :
  exists c1 c2, c = c1 ++ c2 /\ forallb is_InR c1 = true
    /\ match c2 with f :: _ => is_InR f = false | [] => True end.
Proof.
  induction c as [|f c (c1 & c2 & -> & H1 & H2)]; [by exists [], []|].
  destruct (is_InR f) eqn:E.
  - exists (f :: c1), c2. simpl. by rewrite E, H1.
  - by exists [], (f :: c1 ++ c2).
Qed.

Lemma span_InL c :
  exists c1 c2, c = c1 ++ c2 /\ forallb is_InL c1 = true
    /\ match c2 with f :: _ => is_InL f = false | [] => True end.
Proof.
  induction c as [|f c (c1 & c2 & -> & H1 & H2)]; [by exists [], []|].
  destruct (is_InL f) eqn:E.
  - exists (f :: c1), c2. simpl. by rewrite E, H1.
  - by exists [], (f :: c1 ++ c2).
Qed.

Lemma cpost_InR c : forallb is_InR c = true -> cpost c = [].
Proof. induction c as [|[] c IH]; simpl; auto; done. Qed.

Lemma cpre_InL c : forallb is_InL c = true -> cpre c = [].
Proof. induction c as [|[] c IH]; simpl; auto; done. Qed.

Lemma climb_right_spec h hd rt : forall c1 c2 fuel nd (n : Node_),
  rep_ctx h (Some hd) (c1 ++ c2) (Some nd) -> h !! hd = Some (head_node rt) ->
  h !! nd = Some n -> parent n = parent_of (c1 ++ c2) (Some hd) ->
  nd ∉ hd :: caddrs (c1 ++ c2) -> hd ∉ caddrs (c1 ++ c2) ->
  NoDup (caddrs (c1 ++ c2)) ->
  forallb is_InR c1 = true ->
  match c2 with f :: _ => is_InR f = false | [] => True end ->
  (length c1 + 1 <= fuel)%nat ->
  wp (climb_right fuel (Some nd)) h (fun res h' =>
    h' = h /\ exists m (n' : Node_), res = Some m /\ h !! m = Some n'
      /\ parent n' = parent_of c2 (Some hd)).
Proof.
  induction c1 as [|f c1 IH];
    intros c2 fuel nd n Hc Hhd Hnd Hp Hn Hh Hdup H1 H2 Hf;
    (destruct fuel as [|fuel]; [simpl in Hf; lia|]);
    simpl climb_right; apply wp_bind; (eapply wp_get; [exact Hnd|]); rewrite Hp.
  - simpl app in *. destruct c2 as [|[a sz bh b v r|] c2]; [| |done].
    + cbn [parent_of]. nodup_all. simpl_fields. wp_run.
      split; [done|]. by exists nd, n.
    + simpl in Hc. destruct Hc as (Ha & Hr & Hc). nodup_all.
      cbn [parent_of faddr]. simpl_fields. wp_run.
      split; [done|]. by exists nd, n.
  - destruct f as [|l a sz bh b v]; [done|]. simpl in H1, Hf.
    change ((InR l a sz bh b v :: c1) ++ c2) with (InR l a sz bh b v :: c1 ++ c2) in *.
    simpl in Hc. destruct Hc as (Ha & Hr & Hc). nodup_all.
    cbn [parent_of faddr]. simpl_fields. wp_run.
    eapply wp_mono.
    { eapply (IH c2 fuel a _); [done|done|exact Ha|done|solve_distinct|done|done|done|done|lia]. }
    intros res h' (-> & m & n' & -> & Hm & Hpm). split; [done|]. by exists m, n'.
Qed.

Lemma climb_left_spec h hd rt : forall c1 c2 fuel nd (n : Node_),
  rep_ctx h (Some hd) (c1 ++ c2) (Some nd) -> h !! hd = Some (head_node rt) ->
  h !! nd = Some n -> parent n = parent_of (c1 ++ c2) (Some hd) ->
  nd ∉ hd :: caddrs (c1 ++ c2) -> hd ∉ caddrs (c1 ++ c2) ->
  NoDup (caddrs (c1 ++ c2)) ->
  forallb is_InL c1 = true ->
  match c2 with f :: _ => is_InL f = false | [] => False end ->
  (length c1 + 1 <= fuel)%nat ->
  wp (climb_left fuel (Some nd)) h (fun res h' =>
    h' = h /\ exists m (n' : Node_), res = Some m /\ h !! m = Some n'
      /\ parent n' = parent_of c2 (Some hd)).
Proof.
  induction c1 as [|f c1 IH];
    intros c2 fuel nd n Hc Hhd Hnd Hp Hn Hh Hdup H1 H2 Hf;
    (destruct fuel as [|fuel]; [simpl in Hf; lia|]);
    simpl climb_left; apply wp_bind; (eapply wp_get; [exact Hnd|]); rewrite Hp.
  - simpl app in *. destruct c2 as [|[|l a sz bh b v] c2]; [done|done|].
    simpl in Hc. destruct Hc as (Ha & Hr & Hc). nodup_all.
    cbn [parent_of faddr]. simpl_fields. wp_run.
    split; [done|]. by exists nd, n.
  - destruct f as [a sz bh b v r|]; [|done]. simpl in H1, Hf.
    change ((InL a sz bh b v r :: c1) ++ c2) with (InL a sz bh b v r :: c1 ++ c2) in *.
    simpl in Hc. destruct Hc as (Ha & Hr & Hc). nodup_all.
    cbn [parent_of faddr]. simpl_fields. wp_run.
    eapply wp_mono.
    { eapply (IH c2 fuel a _); [done|done|exact Ha|done|solve_distinct|done|done|done|done|lia]. }
    intros res h' (-> & m & n' & -> & Hm & Hpm). split; [done|]. by exists m, n'.
Qed.

Lemma Advance_forth_spec h this hd t :
  head_ this = Some hd -> tree_rep h this t -> valid t -> tsize t < 2 ^ 64 ->
  forall fuel c l nd sz bh b v r g,
  t = plug c (Node l nd sz bh b v r) -> 0 < g ->
  Z.of_nat (length (cpre c) + count l) + g <= Z.of_nat (count t) ->
  (length c + 2 <= fuel)%nat ->
  wp (Advance_forth fuel (Some nd) g) h (fun res h' =>
    h' = h /\ match res with
    | inl (Some m) => exists j, at_pos t hd m j
        /\ Z.of_nat j = Z.of_nat (length (cpre c) + count l) + g
    | inr (Some m, g') => exists c' l' sz' bh' b' v' r',
        t = plug c' (Node l' m sz' bh' b' v' r') /\ 0 < g' <= tsize r'
        /\ Z.of_nat (length (cpre c') + count l') + g'
           = Z.of_nat (length (cpre c) + count l) + g
    | _ => False
    end).
Proof.
  intros Hh Htr Hv Hsz. induction fuel as [|fuel IH];
    intros c l nd sz bh b v r g Ht Hg Hb Hf; [lia|].
  pose proof Htr as Htr'. rewrite Ht in Htr'.
  pose proof (tree_rep_plug _ _ _ _ _ Hh Htr') as (Hhd & Hc & Hx & Hnd).
  pose proof Hv as Hv'. rewrite Ht in Hv'.
  apply valid_plug_inv in Hv' as [Hvx _].
  simpl in Hx, Hvx. destruct Hx as (Hx & Hl & Hr).
  destruct Hvx as (_ & _ & _ & _ & Hvl & Hvr).
  pose proof (valid_tsize _ Hvr) as Hsr. pose proof (valid_tsize _ Hv) as Hst.
  simpl Advance_forth. wp_run.
  destruct (Z.ltb_spec (tsize r) g) as [Hlt|Hge]; cycle 1.
  { wp_run. split; [done|]. exists c, l, sz, bh, b, v, r. split_and!; try done; lia. }
  rewrite (size_t_small' (tsize r + 1)) by lia.
  rewrite (size_t_small' (g - (tsize r + 1))) by lia.
  destruct (span_InR c) as (c1 & c2 & Ec & H1 & H2).
  assert (count t = (length (cpre c2) + length (cpre c1) + count l + 1 + count r
                     + length (cpost c2))%nat) as Hcnt.
  { rewrite Ht, Ec, count_plug_pre_post, cpre_app, cpost_app, (cpost_InR c1 H1).
    rewrite !length_app. simpl. lia. }
  assert (length (cpre c) = (length (cpre c2) + length (cpre c1))%nat) as Hpre.
  { by rewrite Ec, cpre_app, length_app. }
  assert (length c = (length c1 + length c2)%nat) as Hlen by (by rewrite Ec, length_app).
  rewrite Ec in Hc, Hnd, Hx.
  apply wp_bind. eapply wp_mono.
  { nodup_all.
    eapply (climb_right_spec h hd _ c1 c2 (S fuel) nd _);
      [exact Hc|exact Hhd|exact Hx|done|solve_distinct|done|done|done|done|lia]. }
  intros res h' (-> & m & n' & -> & Hm & Hpm).
  apply wp_bind. eapply wp_get; [exact Hm|]. rewrite Hpm.
  destruct c2 as [|[a sz2 bh2 b2 v2 r2|] c3]; [| |done]; cbn [parent_of faddr].
  - simpl in Hcnt, Hpre. assert (g - (tsize r + 1) = 0) as -> by lia.
    change (0 =? 0) with true. cbv iota. wp_run.
    split; [done|]. exists (count t). split; [constructor|]. lia.
  - assert (t = plug c3 (Node (plug c1 (Node l nd sz bh b v r)) a sz2 bh2 b2 v2 r2)) as Ht2.
    { by rewrite Ht, Ec, plug_app. }
    cbn [cpre cpost length] in Hcnt, Hpre. simpl in Hlen.
    destruct (Z.eqb_spec (g - (tsize r + 1)) 0) as [E0|N0].
    + wp_run. split; [done|]. eexists. split; [by eapply at_node|].
      rewrite count_plug_pre_post, (cpost_InR c1 H1). simpl. lia.
    + eapply wp_mono.
      { eapply (IH c3 _ a _ _ _ _ _ (g - (tsize r + 1)) Ht2); [lia| |lia].
        rewrite count_plug_pre_post, (cpost_InR c1 H1). simpl. lia. }
      intros [[m'|]|[[m'|] g']] h' [-> Hres]; try done; split; try done.
      * destruct Hres as (j & Hj & Ej). exists j. split; [done|].
        rewrite Ej, count_plug_pre_post, (cpost_InR c1 H1). simpl. lia.
      * destruct Hres as (c' & l' & sz' & bh' & b' & v' & r' & Ht' & Hg' & Ej).
        exists c', l', sz', bh', b', v', r'. split; [done|]. split; [done|].
        rewrite Ej, count_plug_pre_post, (cpost_InR c1 H1). simpl. lia.
Qed.

Lemma Advance_back_spec h this hd t :
  head_ this = Some hd -> tree_rep h this t -> valid t -> tsize t < 2 ^ 64 ->
  forall fuel c l nd sz bh b v r g,
  t = plug c (Node l nd sz bh b v r) -> 0 < g ->
  g <= Z.of_nat (length (cpre c) + count l) ->
  (length c + 2 <= fuel)%nat ->
  wp (Advance_back fuel (Some nd) g) h (fun res h' =>
    h' = h /\ match res with
    | inl (Some m) => exists j, at_pos t hd m j
        /\ Z.of_nat j = Z.of_nat (length (cpre c) + count l) - g
    | inr (Some m, g') => exists c' l' sz' bh' b' v' r',
        t = plug c' (Node l' m sz' bh' b' v' r') /\ 0 < g' <= tsize l'
        /\ Z.of_nat (length (cpre c') + count l') - g'
           = Z.of_nat (length (cpre c) + count l) - g
    | _ => False
    end).
Proof.
  intros Hh Htr Hv Hsz. induction fuel as [|fuel IH];
    intros c l nd sz bh b v r g Ht Hg Hb Hf; [lia|].
  pose proof Htr as Htr'. rewrite Ht in Htr'.
  pose proof (tree_rep_plug _ _ _ _ _ Hh Htr') as (Hhd & Hc & Hx & Hnd).
  pose proof Hv as Hv'. rewrite Ht in Hv'.
  apply valid_plug_inv in Hv' as [Hvx _].
  simpl in Hx, Hvx. destruct Hx as (Hx & Hl & Hr).
  destruct Hvx as (_ & _ & _ & _ & Hvl & Hvr).
  pose proof (valid_tsize _ Hvl) as Hsl. pose proof (valid_tsize _ Hv) as Hst.
  simpl Advance_back. wp_run.
  destruct (Z.ltb_spec (tsize l) g) as [Hlt|Hge]; cycle 1.
  { wp_run. split; [done|]. exists c, l, sz, bh, b, v, r. split_and!; try done; lia. }
  assert (Z.of_nat (count t) < 2 ^ 64) as Hct by lia.
  assert (length (cpre c) + count l <= count t)%nat as Hle.
  { rewrite Ht, count_plug_pre_post. simpl. lia. }
  rewrite (size_t_small' (tsize l + 1)) by lia.
  rewrite (size_t_small' (g - (tsize l + 1))) by lia.
  destruct (span_InL c) as (c1 & c2 & Ec & H1 & H2).
  assert (length (cpre c) = length (cpre c2)) as Hpre.
  { rewrite Ec, cpre_app, length_app, (cpre_InL c1 H1). simpl. lia. }
  assert (length c = (length c1 + length c2)%nat) as Hlen by (by rewrite Ec, length_app).
  rewrite Ec in Hc, Hnd, Hx.
  destruct c2 as [|[|l2 a sz2 bh2 b2 v2] c3]; [simpl in Hpre; lia|done|].
  apply wp_bind. eapply wp_mono.
  { nodup_all.
    eapply (climb_left_spec h hd _ c1 _ (S fuel) nd _);
      [exact Hc|exact Hhd|exact Hx|done|solve_distinct|done|done|done|done|lia]. }
  intros res h' (-> & m & n' & -> & Hm & Hpm).
  apply wp_bind. eapply wp_get; [exact Hm|]. rewrite Hpm. cbn [parent_of faddr].
  assert (t = plug c3 (Node l2 a sz2 bh2 b2 v2 (plug c1 (Node l nd sz bh b v r)))) as Ht2.
  { by rewrite Ht, Ec, plug_app. }
  cbn [cpre] in Hpre. rewrite !length_app, count_elems in Hpre.
  cbn [length] in Hpre. simpl in Hlen.
  destruct (Z.eqb_spec (g - (tsize l + 1)) 0) as [E0|N0].
  + wp_run. split; [done|]. eexists. split; [by eapply at_node|]. lia.
  + eapply wp_mono.
    { eapply (IH c3 _ a _ _ _ _ _ (g - (tsize l + 1)) Ht2); lia. }
    intros [[m'|]|[[m'|] g']] h' [-> Hres]; try done; split; try done.
    * destruct Hres as (j & Hj & Ej). exists j. split; [done|]. lia.
    * destruct Hres as (c' & l' & sz' & bh' & b' & v' & r' & Ht' & Hg' & Ej).
      exists c', l', sz', bh', b', v', r'. split; [done|]. split; [done|]. lia.
Qed.

Lemma at_pos_select c' l' m sz' bh' b' v' r' cs l a sz bh b v r (left_side : bool) :
  (if left_side then l' else r') = plug cs (Node l a sz bh b v r) ->
  exists c2, plug c' (Node l' m sz' bh' b' v' r') = plug c2 (Node l a sz bh b v r)
    /\ length (cpre c2) = (if left_side then length (cpre c') + length (cpre cs)
         else length (cpre c') + count l' + 1 + length (cpre cs))%nat.
Proof.
  intros E. destruct left_side; subst.
  - exists (cs ++ InL m sz' bh' b' v' r' :: c'). rewrite plug_app, cpre_app, length_app.
    split; [done|]. simpl. lia.
  - exists (cs ++ InR l' m sz' bh' b' v' :: c'). rewrite plug_app, cpre_app.
    split; [done|]. cbn [cpre]. rewrite !length_app, count_elems. simpl. lia.
Qed.

Lemma Advance_spec fuel h this hd t n i k :
  head_ this = Some hd -> tree_rep h this t -> valid t -> tsize t < 2 ^ 64 ->
  (height t + 2 <= fuel)%nat -> at_pos t hd n i ->
  0 <= Z.of_nat i + k <= Z.of_nat (count t) ->
  wp (Advance_ fuel (Some n) k) h (fun res h' =>
    h' = h /\ exists m j, res = Some m /\ at_pos t hd m j
      /\ Z.of_nat j = Z.of_nat i + k).
Proof.
  intros Hh Htr Hv Hsz Hf Hat Hk.
  pose proof (valid_tsize _ Hv) as Hst. pose proof (at_pos_le _ _ _ _ Hat) as Hi.
  unfold Advance_.
  destruct (Z.eqb_spec k 0) as [->|Hk0].
  { wp_run. split; [done|]. exists n, i. split_and!; try done. lia. }
  destruct (Z.ltb_spec k 0) as [Hneg|Hpos].
  - rewrite (size_t_small' (- k)) by lia.
    destruct Hat as [|c l a sz bh b v r Ht].
    + destruct Htr as (hd' & Hh' & Hhd & Hr & _).
      assert (hd' = hd) as -> by congruence.
      destruct fuel as [|fuel]; [lia|]. simpl Advance_back. wp_run.
      destruct (Z.ltb_spec (tsize t) (- k)) as [?|_]; [lia|]. wp_run.
      rewrite (size_t_small' (tsize t - - k)) by lia.
      eapply wp_mono.
      { eapply (Select_spec (S fuel) h _ t); [exact Hr|done|lia|done|lia]. }
      intros res h' (-> & c & l & a & sz & bh & b & v & r & Ht & -> & E).
      split; [done|]. eexists a, _. split; [done|]. split; [by eapply at_node|]. lia.
    + pose proof (length_plug_height c (Node l a sz bh b v r)) as Hlen.
      rewrite <- Ht in Hlen. simpl in Hlen.
      apply wp_bind. eapply wp_mono.
      { eapply (Advance_back_spec h this hd t Hh Htr Hv Hsz fuel c l a _ _ _ _ _ (- k) Ht); lia. }
      intros [[m|]|[[m|] g']] h' [-> Hres]; try done.
      { destruct Hres as (j & Hj & Ej). wp_run. split; [done|]. exists m, j.
        split_and!; try done. lia. }
      destruct Hres as (c' & l' & sz' & bh' & b' & v' & r' & Ht' & Hg' & Ej).
      pose proof Htr as Htr'. rewrite Ht' in Htr'.
      pose proof (tree_rep_plug _ _ _ _ _ Hh Htr') as (Hhd & Hc & Hx & Hnd).
      pose proof Hv as Hv'. rewrite Ht' in Hv'.
      apply valid_plug_inv in Hv' as [Hvx _].
      simpl in Hx, Hvx. destruct Hx as (Hx & Hl & Hr).
      destruct Hvx as (_ & _ & _ & _ & Hvl & Hvr).
      pose proof (valid_tsize _ Hvl) as Hsl.
      pose proof (length_plug_height c' (Node l' m sz' bh' b' v' r')) as Hlen'.
      rewrite <- Ht' in Hlen'. simpl in Hlen'.
      assert (count l' <= count t)%nat as Hcl.
      { rewrite Ht', count_plug_pre_post. simpl. lia. }
      wp_run. rewrite (size_t_small' (tsize l' - g')) by lia.
      eapply wp_mono.
      { eapply (Select_spec fuel h _ l'); [exact Hl|done|lia|lia|lia]. }
      intros res h' (-> & cs & l2 & a2 & sz2 & bh2 & b2 & v2 & r2 & El & -> & E).
      split; [done|].
      destruct (at_pos_select c' l' m sz' bh' b' v' r' cs l2 a2 sz2 bh2 b2 v2 r2 true El)
        as (c2 & Ec2 & Hc2).
      eexists a2, _. split; [done|]. split; [eapply at_node; by rewrite Ht', Ec2|]. lia.
  - destruct Hat as [|c l a sz bh b v r Ht]; [lia|].
    rewrite (size_t_small' k) by lia.
    pose proof (length_plug_height c (Node l a sz bh b v r)) as Hlen.
    rewrite <- Ht in Hlen. simpl in Hlen.
    apply wp_bind. eapply wp_mono.
    { eapply (Advance_forth_spec h this hd t Hh Htr Hv Hsz fuel c l a _ _ _ _ _ k Ht); lia. }
    intros [[m|]|[[m|] g']] h' [-> Hres]; try done.
    { destruct Hres as (j & Hj & Ej). wp_run. split; [done|]. by exists m, j. }
    destruct Hres as (c' & l' & sz' & bh' & b' & v' & r' & Ht' & Hg' & Ej).
    pose proof Htr as Htr'. rewrite Ht' in Htr'.
    pose proof (tree_rep_plug _ _ _ _ _ Hh Htr') as (Hhd & Hc & Hx & Hnd).
    pose proof Hv as Hv'. rewrite Ht' in Hv'.
    apply valid_plug_inv in Hv' as [Hvx _].
    simpl in Hx, Hvx. destruct Hx as (Hx & Hl & Hr).
    destruct Hvx as (_ & _ & _ & _ & Hvl & Hvr).
    pose proof (valid_tsize _ Hvr) as Hsr.
    pose proof (length_plug_height c' (Node l' m sz' bh' b' v' r')) as Hlen'.
    rewrite <- Ht' in Hlen'. simpl in Hlen'.
    assert (count r' <= count t)%nat as Hcl.
    { rewrite Ht', count_plug_pre_post. simpl. lia. }
    wp_run. rewrite (size_t_small' (g' - 1)) by lia.
    eapply wp_mono.
    { eapply (Select_spec fuel h _ r'); [exact Hr|done|lia|lia|lia]. }
    intros res h' (-> & cs & l2 & a2 & sz2 & bh2 & b2 & v2 & r2 & El & -> & E).
    split; [done|].
    destruct (at_pos_select c' l' m sz' bh' b' v' r' cs l2 a2 sz2 bh2 b2 v2 r2 false El)
      as (c2 & Ec2 & Hc2).
    eexists a2, _. split; [done|]. split; [eapply at_node; by rewrite Ht', Ec2|]. lia.
Qed.

Lemma in_addrs_at_pos t hd a : a ∈ addrs t -> exists i, at_pos t hd a i /\ (i < count t)%nat.
Proof.
  intros (c & l & sz & bh & b & v & r & ->)%in_addrs_plug.
  eexists. split; [by eapply at_node|]. rewrite count_plug_pre_post. simpl. lia.
Qed.

Lemma Difference_spec fuel h this hd t n i m j :
  head_ this = Some hd -> tree_rep h this t -> valid t -> tsize t <= max_size ->
  (height t + 2 <= fuel)%nat -> at_pos t hd n i -> at_pos t hd m j ->
  wp (Difference_ fuel (Some n) (Some m)) h (fun res h' =>
    h' = h /\ res = Z.of_nat i - Z.of_nat j).
Proof.
  intros Hh Htr Hv Hsz Hf Hn Hm.
  pose proof (valid_tsize _ Hv) as Hst.
  pose proof (at_pos_le _ _ _ _ Hn) as Hi. pose proof (at_pos_le _ _ _ _ Hm) as Hj.
  assert (tsize t < 2 ^ 64) as Hsz' by (unfold max_size in Hsz; lia).
  unfold Difference_. apply wp_bind. eapply wp_mono.
  { eapply (Order_spec fuel h this hd t n i); done. }
  intros oa h' (-> & ->). apply wp_bind. eapply wp_mono.
  { eapply (Order_spec fuel h this hd t m j); done. }
  intros ob h' (-> & ->). apply wp_ret. split; [done|].
  unfold max_size in Hsz.
  rewrite (ptrdiff_t_small (Z.of_nat i)), (ptrdiff_t_small (Z.of_nat j))
    by (unfold max_size; lia).
  apply ptrdiff_t_small. unfold max_size. lia.
Qed.

Lemma select_order fuel h this hd t x :
  head_ this = Some hd -> tree_rep h this t -> valid t -> tsize t < 2 ^ 64 ->
  (height t + 2 <= fuel)%nat -> 0 <= x < tsize t ->
  wp (do nd <- Select_ fuel (root t) x; Order_ fuel nd) h (fun res h' =>
    h' = h /\ res = x).
Proof.
  intros Hh Htr Hv Hsz Hf Hx. apply wp_bind. eapply wp_mono.
  { destruct Htr as (hd' & _ & _ & Hr & _).
    eapply (Select_spec fuel h _ t); [exact Hr|done|done|done|lia]. }
  intros res h' (-> & c & l & a & sz & bh & b & v & r & Ht & -> & ->).
  eapply wp_mono.
  { eapply (Order_spec fuel h this hd t a); [done..|]. by eapply at_node. }
  intros res h' (-> & ->). done.
Qed.

Lemma advance_difference fuel h this hd t n i k :
  head_ this = Some hd -> tree_rep h this t -> valid t -> tsize t <= max_size ->
  (height t + 2 <= fuel)%nat -> at_pos t hd n i ->
  0 <= Z.of_nat i + k <= Z.of_nat (count t) ->
  wp (do m <- Advance_ fuel (Some n) k; Difference_ fuel m (Some n)) h
    (fun res h' => h' = h /\ res = k).
Proof.
  intros Hh Htr Hv Hsz Hf Hn Hk.
  assert (tsize t < 2 ^ 64) as Hsz' by (unfold max_size in Hsz; lia).
  apply wp_bind. eapply wp_mono.
  { by eapply (Advance_spec fuel h this hd t n i k). }
  intros res h' (-> & m & j & -> & Hm & Ej).
  eapply wp_mono.
  { by eapply (Difference_spec fuel h this hd t m j n i). }
  intros res h' (-> & ->). split; [done|]. lia.
Qed.

End Nav.

Section Prt.

Context {T : Type}.

Local Abbreviation Node_ := (Node_ T).

Local Abbreviation heap := (gmap addr Node_).

Local Abbreviation tree := (tree T).

Local Abbreviation ctx := (ctx T).

Implicit Types (h : heap) (t l r : tree) (c : ctx) (a : addr) (p : ptr).

Lemma mono_split_true (func : T -> bool) (L R P F : list T) v :
  L ++ v :: R = P ++ F -> Forall (fun x => func x = false) F -> func v = true ->
  exists P', P = L ++ v :: P' /\ R = P' ++ F.
Proof.
  intros E HF Hv. apply app_eq_inv in E as [(k & -> & ->)|(k & -> & E)].
  - apply Forall_app in HF as [_ HF]. apply Forall_cons in HF as [HF _]. congruence.
  - destruct k as [|v' k]; simpl in E.
    + subst F. apply Forall_cons in HF as [HF _]. congruence.
    + injection E as -> ->. by exists k.
Qed.

Lemma mono_split_false (func : T -> bool) (L R P F : list T) v :
  L ++ v :: R = P ++ F -> Forall (fun x => func x = true) P -> func v = false ->
  exists F1, L = P ++ F1 /\ F = F1 ++ v :: R.
Proof.
  intros E HP Hv. apply app_eq_inv in E as [(k & -> & ->)|(k & -> & E)].
  - by exists k.
  - destruct k as [|v' k]; simpl in E.
    + subst F. exists []. by rewrite !app_nil_r.
    + injection E as -> ->. apply Forall_app in HP as [_ HP].
      apply Forall_cons in HP as [HP _]. congruence.
Qed.

Lemma PartitionBound_loop_spec (func : T -> bool) h : forall t fuel par P F last,
  rep h par t -> values t = P ++ F ->
  Forall (fun x => func x = true) P -> Forall (fun x => func x = false) F ->
  (height t < fuel)%nat ->
  wp (PartitionBound_loop fuel func (root t) last) h (fun res h' =>
    h' = h /\ bound_at (elems t) P F last res).
Proof.
  induction t as [|l IHl a sz bh b v r IHr]; intros fuel par P F last Hr Hv HP HF Hf;
    (destruct fuel as [|fuel]; [lia|]); simpl PartitionBound_loop.
  { apply wp_ret. split; [done|]. simpl in Hv. symmetry in Hv.
    apply app_eq_nil in Hv as [-> ->]. done. }
  simpl in Hr, Hv, Hf. destruct Hr as (Ha & Hl & Hrr). wp_run.
  destruct (func v) eqn:Ev.
  - wp_run. destruct (mono_split_true func _ _ _ _ _ Hv HF Ev) as (P' & -> & Er).
    apply Forall_app in HP as [HP1 HP2]. apply Forall_cons in HP2 as [_ HP2].
    eapply wp_mono; [eapply (IHr fuel _ P' F last); [done|done|done|done|lia]|].
    intros res h' (-> & Hb). split; [done|]. unfold bound_at in *.
    destruct F as [|w F']; [done|].
    destruct Hb as (x & E1 & E2 & -> & He & HE1 & HE2).
    exists x, (elems l ++ (a, v) :: E1), E2. split_and!; try done.
    + cbn [elems]. rewrite He. list_assoc.
    + rewrite fmap_app, fmap_cons, <- (values_elems l), HE1. done.
  - wp_run. destruct (mono_split_false func _ _ _ _ _ Hv HP Ev) as (F1 & El & ->).
    apply Forall_app in HF as [HF1 HF2].
    eapply wp_mono; [eapply (IHl fuel _ P F1 (Some a)); [done|done|done|done|lia]|].
    intros res h' (-> & Hb). split; [done|]. unfold bound_at in *.
    destruct F1 as [|w F1'].
    + subst res. rewrite app_nil_r in El. simpl.
      exists a, (elems l), (elems r). split_and!; try done.
      * by rewrite <- (values_elems l).
      * by rewrite <- (values_elems r).
    + destruct Hb as (x & E1 & E2 & -> & He & HE1 & HE2). simpl.
      exists x, E1, (E2 ++ (a, v) :: elems r). split_and!; try done.
      * rewrite He. list_assoc.
      * rewrite fmap_app, fmap_cons, <- (values_elems r), HE2. done.
Qed.

Lemma partition_bound_spec (func : T -> bool) fuel h this hd t P F :
  head_ this = Some hd -> tree_rep h this t -> values t = P ++ F ->
  Forall (fun x => func x = true) P -> Forall (fun x => func x = false) F ->
  (height t < fuel)%nat ->
  wp (partition_bound fuel this func) h (fun it h' =>
    h' = h /\ bound_at (elems t) P F (ptr_ (end_ this)) (ptr_ it)).
Proof.
  intros Hh (hd' & Hh' & Hhd & Hr & _) Hv HP HF Hf.
  assert (hd' = hd) as -> by congruence.
  unfold partition_bound, PartitionBound_. rewrite Hh. wp_run.
  eapply wp_mono.
  { eapply (PartitionBound_loop_spec func h t fuel _ P F); done. }
  intros res h' (-> & Hb). wp_run. split; [done|]. simpl. by rewrite Hh.
Qed.

End Prt.

Section Clr.

Context {T : Type}.

Local Abbreviation Node_ := (Node_ T).

Local Abbreviation heap := (gmap addr Node_).

Local Abbreviation tree := (tree T).

Local Abbreviation ctx := (ctx T).

Implicit Types (h : heap) (t l r : tree) (c : ctx) (a : addr) (p : ptr).

Lemma ClearTree_leaf (nd : addr) a par fuel h (n : Node_) (Q : unit -> heap -> Prop) :
  h !! a = Some n -> left n = None -> right n = None -> parent n = par ->
  a <> nd ->
  wp (ClearTree_loop fuel (Some nd) par) (delete a h) Q ->
  wp (ClearTree_loop (S fuel) (Some nd) (Some a)) h Q.
Proof.
  intros Ha Hl Hr Hp Hne HQ. cbn [ClearTree_loop].
  apply wp_bind. eapply wp_get; [exact Ha|]. rewrite Hl. cbn [is_null negb].
  apply wp_bind. eapply wp_get; [exact Ha|]. rewrite Hr. cbn [is_null negb].
  rewrite (proj2 (ptr_eqb_neq (Some a) (Some nd))) by congruence.
  apply wp_bind. eapply wp_get; [exact Ha|]. rewrite Hp.
  apply wp_bind. eapply wp_FreeNode_; [exact Ha|]. done.
Qed.

(** The loop, started at the root of a subtree whose parent no longer points
    to it, frees the subtree and arrives at the parent. *)

Lemma ClearTree_sub (nd : addr) (Q : unit -> heap -> Prop) : forall n t h par fuel,
  (count t <= n)%nat -> t <> Leaf -> rep h par t -> NoDup (addrs t) ->
  nd ∉ addrs t ->
  (forall h', freed (addrs t) h h' -> wp (ClearTree_loop fuel (Some nd) par) h' Q) ->
  wp (ClearTree_loop (2 * count t - 1 + fuel) (Some nd) (root t)) h Q.
Proof.
  induction n as [|n IH]; intros t h par fuel Hn Ht Hr Hdup Hnd HQ;
    (destruct t as [|l a sz bh b v r]; [done|]); [simpl in Hn; lia|].
  simpl in Hr, Hdup, Hnd, Hn. destruct Hr as (Ha & Hl & Hrr). nodup_all.
  destruct l as [|l1 la lsz lbh lb lv l2].
  - destruct r as [|r1 ra rsz rbh rb rv r2].
    + change (2 * count (Node Leaf a sz bh b v Leaf) - 1 + fuel)%nat with (S fuel).
      eapply ClearTree_leaf; [exact Ha|done..|]. apply HQ. split.
      * intros x ->%list_elem_of_singleton. apply lookup_delete_eq.
      * intros x Hx. apply lookup_delete_ne. intros ->. apply Hx. simpl. apply elem_of_cons. by left.
    + set (r := Node r1 ra rsz rbh rb rv r2) in *.
      replace (2 * count (Node Leaf a sz bh b v r) - 1 + fuel)%nat
        with (S (2 * count r - 1 + (1 + fuel)))%nat by (simpl; lia).
      cbn [ClearTree_loop root]. wp_run.
      change (negb (is_null (root r))) with true. cbv iota. wp_run.
      eapply (IH r _ (Some a) (1 + fuel)%nat); [simpl in Hn |- *; lia|done| | | |].
      * eapply rep_agree; [|exact Hrr]. intros x Hx. apply lookup_insert_ne. by intros ->.
      * done.
      * done.
      * intros h' [Hf1 Hf2].
        assert (h' !! a = Some (mkNode None None par sz bh b (Some v))) as Ha'.
        { rewrite Hf2 by done. apply lookup_insert_eq. }
        eapply ClearTree_leaf; [exact Ha'|done..|]. apply HQ. split.
        -- intros x. simpl. rewrite elem_of_cons. intros [->|Hx].
           ++ apply lookup_delete_eq.
           ++ rewrite lookup_delete_ne by (by intros ->). by apply Hf1.
        -- intros x. simpl. rewrite not_elem_of_cons. intros [Hxa Hx].
           rewrite lookup_delete_ne by done. rewrite Hf2 by done.
           by apply lookup_insert_ne.
  - set (l := Node l1 la lsz lbh lb lv l2) in *.
    replace (2 * count (Node l a sz bh b v r) - 1 + fuel)%nat
      with (S (2 * count l - 1 + (2 * count (Node Leaf a sz bh b v r) - 1 + fuel)))%nat
      by (simpl; lia).
    cbn [ClearTree_loop root]. wp_run.
    change (negb (is_null (root l))) with true. cbv iota. wp_run.
    eapply (IH l _ (Some a)); [simpl in Hn |- *; lia|done| | | |].
    * eapply rep_agree; [|exact Hl]. intros x Hx. apply lookup_insert_ne. by intros ->.
    * done.
    * done.
    * intros h1 [Hf1 Hf2].
      eapply (IH (Node Leaf a sz bh b v r) h1 par fuel); [simpl in Hn |- *; lia|done| | | |].
      -- simpl. split_and!; [|done|].
         ++ rewrite Hf2 by done. apply lookup_insert_eq.
         ++ eapply rep_agree; [|exact Hrr]. intros x Hx. rewrite Hf2.
            ** apply lookup_insert_ne. by intros ->.
            ** intros Hxl. eapply disj_elem in Hxl; [|eassumption]. done.
      -- simpl. apply NoDup_cons. done.
      -- simpl. solve_distinct.
      -- intros h2 [Hg1 Hg2]. apply HQ. cbn [addrs] in *. split.
         ++ intros x. rewrite elem_of_app. intros [Hx|Hx].
            ** rewrite Hg2; [by apply Hf1|]. simpl. intros Hx'.
               apply elem_of_cons in Hx' as [->|Hx']; [done|].
               eapply disj_elem in Hx; [|eassumption]. done.
            ** by apply Hg1.
         ++ intros x. rewrite elem_of_app, elem_of_cons. intros Hx.
            rewrite Hg2 by (simpl; rewrite elem_of_cons; tauto).
            rewrite Hf2 by tauto. apply lookup_insert_ne. intros ->. tauto.
Qed.

Lemma ClearTree_spec fuel h this hd t :
  head_ this = Some hd -> tree_rep h this t -> (2 * count t + 2 <= fuel)%nat ->
  wp (ClearTree_ fuel this) h (fun _ h' =>
    tree_rep h' this Leaf /\ freed (addrs t) (<[hd := head_node None]> h) h').
Proof.
  intros Hh (hd' & Hh' & Hhd & Hr & Hn & Hdup) Hf.
  assert (hd' = hd) as -> by congruence.
  unfold ClearTree_. rewrite Hh.
  destruct t as [|l a sz bh b v r].
  - destruct fuel as [|fuel]; [simpl in Hf; lia|]. cbn [ClearTree_loop].
    simpl in Hhd. wp_run. split.
    + exists hd. split_and!; done.
    + split; [by intros x ?%elem_of_nil|]. intros x _.
      destruct (decide (x = hd)) as [->|Hne].
      * by rewrite lookup_insert_eq.
      * by rewrite lookup_insert_ne.
  - set (t := Node l a sz bh b v r) in *.
    destruct fuel as [|fuel]; [simpl in Hf; lia|]. cbn [ClearTree_loop].
    wp_run. change (negb (is_null (root t))) with true. cbv iota. wp_run.
    assert (exists f, fuel = (2 * count t - 1 + S f)%nat) as [f ->].
    { exists (fuel - 2 * count t)%nat. simpl in Hf |- *. lia. }
    eapply (ClearTree_sub hd _ (count t) t _ (Some hd) (S f)); [done|done| |done|done|].
    + eapply rep_agree; [|exact Hr]. intros x Hx. apply lookup_insert_ne. by intros ->.
    + intros h' [Hf1 Hf2].
      assert (h' !! hd = Some (head_node None)) as Hhd'.
      { rewrite Hf2 by done. apply lookup_insert_eq. }
      cbn [ClearTree_loop].
      apply wp_bind. eapply wp_get; [exact Hhd'|]. cbn [head_node left is_null negb].
      apply wp_bind. eapply wp_get; [exact Hhd'|]. cbn [head_node right is_null negb].
      rewrite (proj2 (ptr_eqb_eq _ _)) by done. apply wp_ret.
      split; [|done].
      exists hd. split_and!; try done.
      * by intros ?%elem_of_nil.
      * apply NoDup_nil_2.
Qed.

(** Copying from a tree without elements into a tree without elements. *)

Lemma CopyTree_empty fuel h hd :
  h !! hd = Some (head_node None) -> (0 < fuel)%nat ->
  wp (CopyTree_ fuel (Some hd) (Some hd)) h (fun _ h' => h' = h).
Proof.
  intros Hhd Hf. destruct fuel as [|fuel]; [lia|].
  unfold CopyTree_. cbn [CopyTree_loop].
  apply wp_bind. eapply wp_get; [exact Hhd|].
  apply wp_bind. eapply wp_get; [exact Hhd|]. cbn [head_node left is_null negb andb].
  apply wp_bind. eapply wp_get; [exact Hhd|].
  apply wp_bind. eapply wp_get; [exact Hhd|]. cbn [head_node right is_null negb andb].
  rewrite (proj2 (ptr_eqb_eq _ _)) by done. by apply wp_ret.
Qed.

Lemma copy_assign_self fuel h this hd t :
  head_ this = Some hd -> tree_rep h this t -> (2 * count t + 2 <= fuel)%nat ->
  wp (copy_assign fuel this this) h (fun _ h' =>
    tree_rep h' this Leaf /\ freed (addrs t) (<[hd := head_node None]> h) h').
Proof.
  intros Hh Htr Hf. unfold copy_assign. apply wp_bind. eapply wp_mono.
  { by eapply ClearTree_spec. }
  intros [] h' [Hl Hfr]. rewrite Hh. eapply wp_mono.
  { apply CopyTree_empty; [|lia]. destruct Hl as (hd' & Hh' & Hhd & _).
    assert (hd' = hd) as -> by congruence. exact Hhd. }
  intros [] h'' ->. done.
Qed.

End Clr.

Section Wld.

Context {T : Type}.

Local Abbreviation Node_ := (Node_ T).

Local Abbreviation heap := (gmap addr Node_).

Local Abbreviation tree := (tree T).

Local Abbreviation ctx := (ctx T).

Implicit Types (h : heap) (t l r : tree) (c : ctx) (a : addr) (p : ptr).

Lemma rep_unique h : forall t t' par par',
  rep h par t -> rep h par' t' -> root t = root t' -> t = t'.
Proof.
  induction t as [|l IHl a sz bh b v r IHr]; intros [|l' a' sz' bh' b' v' r'] par par';
    simpl; try done.
  intros (Ha & Hl & Hr) (Ha' & Hl' & Hr') [= <-].
  rewrite Ha in Ha'. injection Ha' as El Er _ <- <- <- <-.
  by rewrite (IHl l' _ _ Hl Hl' El), (IHr r' _ _ Hr Hr' Er).
Qed.

Lemma tree_rep_unique h this t t' : tree_rep h this t -> tree_rep h this t' -> t = t'.
Proof.
  intros (hd & Hh & Hhd & Hr & _) (hd' & Hh' & Hhd' & Hr' & _).
  assert (hd' = hd) as -> by congruence.
  rewrite Hhd in Hhd'. injection Hhd' as E. by eapply rep_unique.
Qed.

Lemma good_fp_alloc h o t x : good h o t -> x ∈ footprint o t -> is_Some (h !! x).
Proof. intros (Htr & _) Hx. by eapply tree_rep_alloc. Qed.

Lemma good_frame (L : list addr) h h' o t :
  frame_eq L h h' -> disj (footprint o t) L -> good h o t -> good h' o t.
Proof.
  intros Hfr Hd (Htr & Hrb & Hsz). split; [|done].
  pose proof Htr as (hd & Hh & _).
  eapply tree_rep_frame; [exact Hh|exact Hfr| |done].
  unfold footprint in Hd. by rewrite Hh in Hd.
Qed.

(** One step of the world: the objects with index in [I] and the objects
    added at the end are the only ones the step has touched. *)

Lemma winv_step (I : list nat) (L : list addr) h h' objs ts objs' ts' :
  winv h objs ts ->
  frame_eq L h h' ->
  (forall x, x ∈ L -> h !! x = None
     \/ exists i o t, i ∈ I /\ objs !! i = Some o /\ ts !! i = Some t /\ x ∈ footprint o t) ->
  length objs' = length ts' ->
  (forall i, i ∉ I -> (i < length objs)%nat ->
     objs' !! i = objs !! i /\ ts' !! i = ts !! i) ->
  (forall i o t, i ∈ I \/ (length objs <= i)%nat ->
     objs' !! i = Some o -> ts' !! i = Some t ->
     good h' o t /\ forall x, x ∈ footprint o t -> x ∈ L) ->
  (forall i j o1 t1 o2 t2, i <> j ->
     i ∈ I \/ (length objs <= i)%nat -> j ∈ I \/ (length objs <= j)%nat ->
     objs' !! i = Some o1 -> ts' !! i = Some t1 ->
     objs' !! j = Some o2 -> ts' !! j = Some t2 ->
     disj (footprint o1 t1) (footprint o2 t2)) ->
  winv h' objs' ts'.
Proof.
  intros (Hlen & Hgood & Hdisj) Hfr HL Hlen' Hsame Hnew Hnd.
  assert (Hcase : forall i, (i ∈ I \/ (length objs <= i)%nat)
                    \/ (i ∉ I /\ (i < length objs)%nat)).
  { intros i. destruct (decide (i ∈ I)); [by left; left|].
    destruct (le_lt_dec (length objs) i); [by left; right|by right]. }
  assert (Hold : forall i o t, i ∉ I -> (i < length objs)%nat ->
            objs' !! i = Some o -> ts' !! i = Some t ->
            objs !! i = Some o /\ ts !! i = Some t /\ disj (footprint o t) L).
  { intros i o t Hi Hlt Ho Ht. destruct (Hsame i Hi Hlt) as [E1 E2].
    rewrite E1 in Ho. rewrite E2 in Ht. split_and!; try done.
    apply Forall_forall. intros x Hx HxL.
    destruct (HL x HxL) as [Hnone|(j & o2 & t2 & Hj & Ho2 & Ht2 & Hx2)].
    - destruct (good_fp_alloc h o t x (Hgood _ _ _ Ho Ht) Hx) as [? ?]. congruence.
    - assert (i <> j) as Hij by (intros ->; done).
      pose proof (Hdisj i j o t o2 t2 Hij Ho Ht Ho2 Ht2) as Hd.
      by eapply disj_elem in Hd. }
  split_and!; [done| |].
  - intros i o t Ho Ht. destruct (Hcase i) as [Hi|[Hi Hlt]].
    + by apply (Hnew i o t Hi).
    + destruct (Hold i o t Hi Hlt Ho Ht) as (Ho' & Ht' & Hd).
      eapply good_frame; [exact Hfr|exact Hd|]. by eapply Hgood.
  - intros i j o1 t1 o2 t2 Hij Ho1 Ht1 Ho2 Ht2.
    destruct (Hcase i) as [Hi|[Hi Hlti]], (Hcase j) as [Hj|[Hj Hltj]].
    + by eapply (Hnd i j).
    + destruct (Hold j o2 t2 Hj Hltj Ho2 Ht2) as (_ & _ & Hd).
      destruct (Hnew i o1 t1 Hi Ho1 Ht1) as [_ Hsub].
      apply Forall_forall. intros x Hx Hx2. eapply disj_elem in Hd; [|exact Hx2].
      apply Hd. by apply Hsub.
    + destruct (Hold i o1 t1 Hi Hlti Ho1 Ht1) as (_ & _ & Hd).
      destruct (Hnew j o2 t2 Hj Ho2 Ht2) as [_ Hsub].
      apply Forall_forall. intros x Hx Hx2. eapply disj_elem in Hd; [|exact Hx].
      apply Hd. by apply Hsub.
    + destruct (Hold i o1 t1 Hi Hlti Ho1 Ht1) as (Ho1' & Ht1' & _).
      destruct (Hold j o2 t2 Hj Hltj Ho2 Ht2) as (Ho2' & Ht2' & _).
      by eapply (Hdisj i j).
Qed.

Lemma wp_det {A} (m : M T A) h (Q : A -> heap -> Prop) x h' :
  wp m h Q -> m h = Some (x, h') -> Q x h'.
Proof. intros (y & h'' & E & HQ) E'. rewrite E in E'. by injection E' as -> ->. Qed.

(** One object changes, the list of objects stays. *)

Lemma winv_update (L : list addr) h h' objs ts i o t t' :
  winv h objs ts -> objs !! i = Some o -> ts !! i = Some t ->
  frame_eq L h h' ->
  (forall x, x ∈ L -> h !! x = None \/ x ∈ footprint o t) ->
  good h' o t' -> (forall x, x ∈ footprint o t' -> x ∈ L) ->
  winv h' objs (<[i := t']> ts).
Proof.
  intros Hw Ho Ht Hfr HL Hg Hsub.
  pose proof Hw as (Hlen & _).
  assert (i < length ts)%nat as Hi by (by eapply lookup_lt_Some).
  eapply (winv_step [i] L); [exact Hw|exact Hfr| | | | |].
  - intros x Hx. destruct (HL x Hx) as [?|?]; [by left|right].
    exists i, o, t. split_and!; try done. by apply list_elem_of_singleton.
  - by rewrite length_insert.
  - intros j Hj _. split; [done|]. apply list_lookup_insert_ne.
    intros <-. apply Hj. by apply list_elem_of_singleton.
  - intros j o2 t2 [->%list_elem_of_singleton|Hj] Ho2 Ht2.
    + rewrite list_lookup_insert_eq in Ht2 by done. injection Ht2 as <-.
      rewrite Ho in Ho2. injection Ho2 as <-. done.
    + apply lookup_lt_Some in Ho2. lia.
  - intros j k o1 t1 o2 t2 Hjk [->%list_elem_of_singleton|Hj] [->%list_elem_of_singleton|Hk]
      Ho1 Ht1 Ho2 Ht2; try done.
    + apply lookup_lt_Some in Ho2. lia.
    + apply lookup_lt_Some in Ho1. lia.
    + apply lookup_lt_Some in Ho1. lia.
Qed.

(** What [inserted] gives for the world. *)

Lemma winv_inserted (L : list addr) h h' objs ts i this t E :
  winv h objs ts -> objs !! i = Some this -> ts !! i = Some t ->
  inserted h this E L h' ->
  (forall x, x ∈ L -> h !! x = None \/ x ∈ footprint this t) ->
  (forall x, x ∈ ptr_list (head_ this) ++ E.*1 -> x ∈ L) ->
  Z.of_nat (length E) <= max_size ->
  exists ts', winv h' objs ts'.
Proof.
  intros Hw Ho Ht (t' & Htr & Hrb & He & Hfr) HL Hsub Hsz.
  exists (<[i := t']> ts). eapply (winv_update L); try done.
  - split_and!; try done. by rewrite <- count_elems, He.
  - intros x. unfold footprint. rewrite addrs_elems, He. apply Hsub.
Qed.

Lemma winv_tree h objs ts i o t :
  winv h objs ts -> objs !! i = Some o -> tree_rep h o t ->
  ts !! i = Some t /\ rb_tree t /\ Z.of_nat (count t) <= max_size
  /\ tsize t = Z.of_nat (count t) /\ exists hd, head_ o = Some hd.
Proof.
  intros (Hlen & Hgood & _) Ho Htr.
  destruct (lookup_lt_is_Some_2 ts i) as [t0 Ht0].
  { rewrite <- Hlen. by eapply lookup_lt_Some. }
  destruct (Hgood i o t0 Ho Ht0) as (Htr0 & Hrb & Hsz).
  assert (t0 = t) as -> by (by eapply tree_rep_unique).
  split_and!; try done; [by apply valid_tsize, Hrb|].
  destruct Htr as (hd & Hh & _). by exists hd.
Qed.

Lemma winv_ins h h' objs ts i this hd t b E :
  winv h objs ts -> objs !! i = Some this -> tree_rep h this t ->
  head_ this = Some hd -> h !! b = None ->
  inserted h this E (b :: hd :: addrs t) h' ->
  (forall x, x ∈ E.*1 -> x = b \/ x ∈ addrs t) ->
  length E = S (count t) -> Z.of_nat (count t) < max_size ->
  exists ts', winv h' objs ts'.
Proof.
  intros Hw Ho Htr Hh Hb Hins HE Hlen Hsz.
  destruct (winv_tree _ _ _ _ _ _ Hw Ho Htr) as (Ht & _).
  eapply (winv_inserted (b :: hd :: addrs t)); try done.
  - intros x [->|Hx]%elem_of_cons; [by left|right]. unfold footprint. by rewrite Hh.
  - intros x. rewrite Hh. simpl. rewrite !elem_of_cons.
    intros [->|[->|Hx]%HE]; auto.
  - lia.
Qed.

Lemma winv_del h h' objs ts i this hd t E :
  winv h objs ts -> objs !! i = Some this -> tree_rep h this t ->
  head_ this = Some hd ->
  inserted h this E (hd :: addrs t) h' ->
  (forall x, x ∈ E.*1 -> x ∈ addrs t) ->
  (length E <= count t)%nat ->
  exists ts', winv h' objs ts'.
Proof.
  intros Hw Ho Htr Hh Hins HE Hlen.
  destruct (winv_tree _ _ _ _ _ _ Hw Ho Htr) as (Ht & _ & Hsz & _).
  eapply (winv_inserted (hd :: addrs t)); try done.
  - intros x Hx. right. unfold footprint. by rewrite Hh.
  - intros x. rewrite Hh. simpl. rewrite !elem_of_cons.
    intros [->|Hx%HE]; auto.
  - lia.
Qed.

Lemma winv_new h objs ts o h' :
  winv h objs ts -> RBTree_new h = Some (o, h') -> winv h' (objs ++ [o]) (ts ++ [Leaf]).
Proof.
  intros Hw Hnew. pose proof Hw as (Hlen & _).
  assert (wp RBTree_new h (fun o h' => exists a, o = mkRBTree (Some a)
            /\ h !! a = None /\ h' = <[a := head_node None]> h)) as Hwp.
  { unfold RBTree_new, Init_. apply wp_bind. apply wp_malloc. intros a Ha.
    apply wp_ret. by exists a. }
  destruct (wp_det _ _ _ _ _ Hwp Hnew) as (a & -> & Ha & ->).
  eapply (winv_step [] [a]); [exact Hw|apply frame_eq_insert| | | | |].
  - intros x ->%list_elem_of_singleton. by left.
  - rewrite !length_app. simpl. lia.
  - intros j _ Hj. rewrite !lookup_app_l by lia. done.
  - intros j o t [[]%elem_of_nil|Hj] Ho Ht.
    assert (j = length objs) as ->.
    { apply lookup_lt_Some in Ho. rewrite length_app in Ho. simpl in Ho. lia. }
    rewrite list_lookup_middle in Ho by done.
    rewrite list_lookup_middle in Ht by lia.
    injection Ho as <-. injection Ht as <-. split.
    + split_and!.
      * exists a. split_and!; try done.
        -- apply lookup_insert_eq.
        -- by intros ?%elem_of_nil.
        -- apply NoDup_nil_2.
      * done.
      * unfold max_size. simpl. lia.
    + unfold footprint. simpl. done.
  - intros j k o1 t1 o2 t2 Hjk [[]%elem_of_nil|Hj] [[]%elem_of_nil|Hk] Ho1 _ Ho2 _.
    apply lookup_lt_Some in Ho1, Ho2. rewrite length_app in Ho1, Ho2.
    simpl in Ho1, Ho2. lia.
Qed.

Lemma bind_Some {A B} (m : M T A) (k : A -> M T B) h (res : B * heap) :
  bind m k h = Some res -> exists x h1, m h = Some (x, h1) /\ k x h1 = Some res.
Proof.
  unfold bind. destruct (m h) as [[x h1]|]; [|done]. intros. by exists x, h1.
Qed.

(** [merge] leaves the two objects as they are or exchanges their heads. *)

Lemma merge_heads fuel this tree h res h' :
  merge fuel this tree h = Some (res, h') ->
  res = (this, tree) \/ res = (mkRBTree (head_ tree), mkRBTree (head_ this)).
Proof.
  unfold merge. intros H.
  apply bind_Some in H as (te & h1 & _ & H). destruct te.
  { left. unfold ret in H. congruence. }
  apply bind_Some in H as (e & h2 & _ & H). destruct e.
  { right. unfold ret in H. congruence. }
  do 10 (apply bind_Some in H as (? & ? & _ & H)).
  left. unfold ret in H. congruence.
Qed.

Lemma winv_merge h h' objs ts i j this tree t1 t2 fuel res :
  winv h objs ts -> i <> j ->
  objs !! i = Some this -> objs !! j = Some tree ->
  tree_rep h this t1 -> tree_rep h tree t2 ->
  Z.of_nat (count t1 + count t2) <= max_size ->
  (count t1 < fuel)%nat -> (count t2 < fuel)%nat ->
  merge fuel this tree h = Some (res, h') ->
  exists ts', winv h' (<[i := fst res]> (<[j := snd res]> objs)) ts'.
Proof.
  intros Hw Hij Ho1 Ho2 Htr1 Htr2 Hsz Hf1 Hf2 Hm.
  destruct (winv_tree _ _ _ _ _ _ Hw Ho1 Htr1) as (Ht1 & Hrb1 & _ & Hs1 & hd1 & Hh1).
  destruct (winv_tree _ _ _ _ _ _ Hw Ho2 Htr2) as (Ht2 & Hrb2 & _ & Hs2 & hd2 & Hh2).
  pose proof Hw as (Hlen & _ & Hdisj).
  pose proof (Hdisj i j _ _ _ _ Hij Ho1 Ht1 Ho2 Ht2) as Hd.
  unfold footprint in Hd. rewrite Hh1, Hh2 in Hd. simpl in Hd.
  assert (Hwp := merge_spec fuel h this tree hd1 hd2 t1 t2 Hh1 Hh2 Htr1 Htr2 Hrb1 Hrb2 Hd).
  unfold max_size in Hsz.
  destruct (wp_det _ _ _ _ _ (Hwp ltac:(lia) Hf1 Hf2) Hm)
    as (t' & Htr' & Hrb' & He' & Htrl & Hfr).
  assert (Ha' : addrs t' = addrs t1 ++ addrs t2).
  { by rewrite addrs_elems, He', fmap_app, <- !addrs_elems. }
  assert (Hc' : count t' = (count t1 + count t2)%nat).
  { by rewrite <- !count_addrs, Ha', length_app. }
  assert (hd1 ∉ addrs t1) as Hn1 by (destruct Htr1 as (? & ? & _ & _ & ? & _); congruence).
  assert (hd2 ∉ addrs t2) as Hn2 by (destruct Htr2 as (? & ? & _ & _ & ? & _); congruence).
  assert (NoDup (hd1 :: hd2 :: addrs t1 ++ addrs t2) /\ True) as [Hnd _].
  { split; [|done]. destruct Htr1 as (? & ? & _ & _ & ? & ?).
    destruct Htr2 as (? & ? & _ & _ & ? & ?). nodup_all. solve_distinct. }
  assert (Hheads : (head_ (fst res) = Some hd1 /\ head_ (snd res) = Some hd2)
                   \/ (head_ (fst res) = Some hd2 /\ head_ (snd res) = Some hd1)).
  { destruct (merge_heads _ _ _ _ _ _ Hm) as [->| ->]; simpl; auto. }
  assert (i < length objs)%nat as Hi by (by eapply lookup_lt_Some).
  assert (j < length objs)%nat as Hj by (by eapply lookup_lt_Some).
  set (L := hd1 :: hd2 :: addrs t1 ++ addrs t2) in *.
  assert (Hfst : forall x, x ∈ footprint (fst res) t' -> x ∈ L).
  { intros x. unfold footprint, L. rewrite Ha'.
    destruct Hheads as [[-> _]|[-> _]]; simpl; rewrite !elem_of_cons; tauto. }
  assert (Hsnd : forall x, x ∈ footprint (snd res) (@Leaf T) -> x ∈ L).
  { intros x. unfold footprint, L.
    destruct Hheads as [[_ ->]|[_ ->]]; simpl; rewrite !elem_of_cons, elem_of_nil; tauto. }
  assert (Hds : disj (footprint (fst res) t') (footprint (snd res) (@Leaf T))).
  { unfold footprint. rewrite Ha'. nodup_all.
    destruct Hheads as [[-> ->]|[-> ->]]; simpl; solve_distinct. }
  exists (<[i := t']> (<[j := Leaf]> ts)).
  eapply (winv_step [i; j] L); [exact Hw|exact Hfr| | | | |].
  - intros x Hx. right. unfold L in Hx.
    rewrite !elem_of_cons, elem_of_app in Hx.
    destruct Hx as [->|[->|[Hx|Hx]]].
    + exists i, this, t1. unfold footprint. rewrite Hh1. simpl. rewrite !elem_of_cons. tauto.
    + exists j, tree, t2. unfold footprint. rewrite Hh2. simpl. rewrite !elem_of_cons. tauto.
    + exists i, this, t1. unfold footprint. rewrite Hh1. simpl. rewrite !elem_of_cons. tauto.
    + exists j, tree, t2. unfold footprint. rewrite Hh2. simpl. rewrite !elem_of_cons. tauto.
  - by rewrite !length_insert.
  - intros k Hk _. rewrite !elem_of_cons, elem_of_nil in Hk.
    rewrite !list_lookup_insert_ne by (intros <-; tauto). done.
  - intros k o t [Hk|Hk] Ho Ht.
    + rewrite !elem_of_cons, elem_of_nil in Hk. destruct Hk as [->|[->|[]]].
      * rewrite list_lookup_insert_eq in Ho by (by rewrite length_insert).
        rewrite list_lookup_insert_eq in Ht by (rewrite length_insert; lia).
        injection Ho as <-. injection Ht as <-. split; [|done].
        split_and!; try done. unfold max_size. lia.
      * rewrite list_lookup_insert_ne in Ho by done.
        rewrite list_lookup_insert_ne in Ht by done.
        rewrite list_lookup_insert_eq in Ho by done.
        rewrite list_lookup_insert_eq in Ht by lia.
        injection Ho as <-. injection Ht as <-. split; [|done].
        split_and!; done.
    + apply lookup_lt_Some in Ho. rewrite !length_insert in Ho. lia.
  - assert (Hlk : forall k o t, k ∈ [i; j] \/ (length objs <= k)%nat ->
        <[i := fst res]> (<[j := snd res]> objs) !! k = Some o ->
        <[i := t']> (<[j := Leaf]> ts) !! k = Some t ->
        (k = i /\ o = fst res /\ t = t') \/ (k = j /\ o = snd res /\ t = Leaf)).
    { intros k o t [Hk|Hk] Ho Ht.
      - rewrite !elem_of_cons, elem_of_nil in Hk. destruct Hk as [->|[->|[]]].
        + rewrite list_lookup_insert_eq in Ho by (by rewrite length_insert).
          rewrite list_lookup_insert_eq in Ht by (rewrite length_insert; lia).
          left. split_and!; congruence.
        + rewrite list_lookup_insert_ne in Ho by done.
          rewrite list_lookup_insert_ne in Ht by done.
          rewrite list_lookup_insert_eq in Ho by done.
          rewrite list_lookup_insert_eq in Ht by lia.
          right. split_and!; congruence.
      - apply lookup_lt_Some in Ho. rewrite !length_insert in Ho. lia. }
    intros k1 k2 o1 u1 o2 u2 Hne Hk1 Hk2 Ho1' Hu1 Ho2' Hu2.
    destruct (Hlk _ _ _ Hk1 Ho1' Hu1) as [(-> & -> & ->)|(-> & -> & ->)],
      (Hlk _ _ _ Hk2 Ho2' Hu2) as [(-> & -> & ->)|(-> & -> & ->)]; try done.
    by apply disj_sym.
Qed.

Lemma winv_split h h' objs ts i this t it fuel ret :
  winv h objs ts -> objs !! i = Some this -> tree_rep h this t ->
  cursor_of this t it -> (2 * count t < fuel)%nat ->
  split fuel this it h = Some (ret, h') ->
  exists ts', winv h' (objs ++ [ret]) ts'.
Proof.
  intros Hw Ho Htr Hit Hf Hs.
  destruct (winv_tree _ _ _ _ _ _ Hw Ho Htr) as (Ht & Hrb & Hsz & Hst & hd & Hh).
  destruct Hit as [->|(x & Hx & Hin)].
  { exists (ts ++ [Leaf]). eapply winv_new; [exact Hw|].
    unfold split in Hs. by rewrite (proj2 (ptr_eqb_eq _ _)) in Hs. }
  destruct it as [p]. simpl in Hx. subst p.
  pose proof Hw as (Hlen & _).
  unfold max_size in Hsz.
  assert (Hwp := split_node fuel h this hd t x Hh Htr Hrb ltac:(lia) Hf Hin).
  destruct (wp_det _ _ _ _ _ Hwp Hs)
    as (hd2 & E1 & v & E2 & t1 & t2 & -> & Hfresh & He & Htr1 & Hrb1 & He1
        & Htr2 & Hrb2 & He2 & Hfr).
  assert (Ha : addrs t = E1.*1 ++ x :: E2.*1).
  { by rewrite addrs_elems, He, fmap_app. }
  assert (Hc : count t = (length E1 + S (length E2))%nat).
  { by rewrite <- count_elems, He, length_app. }
  assert (Ha1 : addrs t1 = E1.*1) by (by rewrite addrs_elems, He1).
  assert (Ha2 : addrs t2 = x :: E2.*1) by (by rewrite addrs_elems, He2).
  assert (Hc1 : count t1 = length E1) by (by rewrite <- count_elems, He1).
  assert (Hc2 : count t2 = S (length E2)) by (by rewrite <- count_elems, He2).
  assert (Hnd : NoDup (hd2 :: hd :: addrs t)).
  { pose proof (tree_rep_fresh _ _ _ _ _ Hh Htr Hfresh) as Hn.
    destruct Htr as (? & ? & _ & _ & ? & ?).
    assert (hd ∉ addrs t) by congruence.
    apply NoDup_cons. split; [done|]. by apply NoDup_cons. }
  assert (i < length objs)%nat as Hi by (by eapply lookup_lt_Some).
  set (L := hd2 :: hd :: addrs t) in *.
  assert (Hlk : forall k o u, k ∈ [i] \/ (length objs <= k)%nat ->
      (objs ++ [mkRBTree (Some hd2)]) !! k = Some o ->
      (<[i := t1]> ts ++ [t2]) !! k = Some u ->
      (k = i /\ o = this /\ u = t1)
      \/ (k = length objs /\ o = mkRBTree (Some hd2) /\ u = t2)).
  { intros k o u [->%list_elem_of_singleton|Hk] Ho' Hu.
    - rewrite lookup_app_l in Ho' by done.
      rewrite lookup_app_l in Hu by (rewrite length_insert; lia).
      rewrite list_lookup_insert_eq in Hu by lia. left. split_and!; congruence.
    - assert (k = length objs) as ->.
      { apply lookup_lt_Some in Ho'. rewrite length_app in Ho'. simpl in Ho'. lia. }
      rewrite list_lookup_middle in Ho' by done.
      rewrite list_lookup_middle in Hu by (by rewrite length_insert).
      right. split_and!; congruence. }
  exists (<[i := t1]> ts ++ [t2]).
  eapply (winv_step [i] L); [exact Hw|exact Hfr| | | | |].
  - intros y Hy. unfold L in Hy. apply elem_of_cons in Hy as [->|Hy]; [by left|right].
    exists i, this, t. split_and!; try done; [by apply list_elem_of_singleton|].
    unfold footprint. by rewrite Hh.
  - rewrite !length_app, length_insert. simpl. lia.
  - intros k Hk Hlt. rewrite !lookup_app_l by (rewrite ?length_insert; lia).
    split; [done|]. apply list_lookup_insert_ne. intros <-. apply Hk.
    by apply list_elem_of_singleton.
  - intros k o u Hk Ho' Hu.
    destruct (Hlk _ _ _ Hk Ho' Hu) as [(-> & -> & ->)|(-> & -> & ->)].
    + split; [split_and!; try done; unfold max_size; lia|].
      intros y. unfold footprint, L. rewrite Hh, Ha1, Ha. simpl.
      rewrite !elem_of_cons, elem_of_app. tauto.
    + split; [split_and!; try done; unfold max_size; lia|].
      intros y. unfold footprint, L. rewrite Ha2, Ha. simpl.
      rewrite !elem_of_cons, elem_of_app, elem_of_cons. tauto.
  - intros k1 k2 o1 u1 o2 u2 Hne Hk1 Hk2 Ho1 Hu1 Ho2 Hu2.
    assert (Hd : disj (footprint this t1) (footprint (mkRBTree (Some hd2)) t2)).
    { unfold footprint, L in *. rewrite Hh, Ha1, Ha2. rewrite Ha in Hnd. simpl.
      nodup_all. solve_distinct. }
    destruct (Hlk _ _ _ Hk1 Ho1 Hu1) as [(-> & -> & ->)|(-> & -> & ->)],
      (Hlk _ _ _ Hk2 Ho2 Hu2) as [(-> & -> & ->)|(-> & -> & ->)]; try done.
    by apply disj_sym.
Qed.

Ltac elems_sub He :=
  let x := fresh "x" in
  intros x; rewrite ?addrs_elems, ?He, ?fmap_app, ?fmap_cons; simpl;
  rewrite ?elem_of_app, ?elem_of_cons, ?elem_of_app, ?elem_of_cons, ?elem_of_nil;
  tauto.

Ltac elems_len He :=
  rewrite <- ?count_elems, ?He, ?length_app; simpl; rewrite ?length_app; simpl; lia.

Lemma reachable_winv (w : world T) : reachable w -> exists ts, winv (w_heap w) (w_objs w) ts.
Proof.
  induction 1 as [|w o h' _ [ts Hw] Hnew
    |w i this t fuel v h' _ [ts Hw] Ho Htr Hsz Hf Hop
    |w i this t fuel v h' _ [ts Hw] Ho Htr Hsz Hf Hop
    |w i this t it fuel v res h' _ [ts Hw] Ho Htr Hit Hsz Hf Hop
    |w i this t it fuel h' _ [ts Hw] Ho Htr Hit Hf Hop
    |w i this t fuel h' _ [ts Hw] Ho Htr Hne Hf Hop
    |w i this t fuel h' _ [ts Hw] Ho Htr Hne Hf Hop
    |w i j this tree t1 t2 fuel res h' _ [ts Hw] Hij Ho1 Ho2 Htr1 Htr2 Hsz Hf1 Hf2 Hop
    |w i this t it fuel ret h' _ [ts Hw] Ho Htr Hit Hf Hop]; simpl in *.
  - exists []. split_and!; [done| |].
    + intros i o t Ho. by rewrite lookup_nil in Ho.
    + intros i j o1 t1 o2 t2 _ Ho. by rewrite lookup_nil in Ho.
  - exists (ts ++ [Leaf]). by eapply winv_new.
  - destruct (winv_tree _ _ _ _ _ _ Hw Ho Htr) as (Ht & Hrb & _ & Hst & hd & Hh).
    pose proof (height_le_count t). unfold max_size in Hsz.
    assert (Hwp := push_back_spec fuel _ this hd t v Hh Htr Hrb ltac:(lia) ltac:(lia)).
    destruct (wp_det _ _ _ _ _ Hwp Hop) as (b & Hb & Hins).
    eapply (winv_ins _ _ _ _ i this hd t b);
        [exact Hw|exact Ho|exact Htr|exact Hh|exact Hb|exact Hins
        |elems_sub Ht|elems_len Ht|unfold max_size; lia].
  - destruct (winv_tree _ _ _ _ _ _ Hw Ho Htr) as (Ht & Hrb & _ & Hst & hd & Hh).
    pose proof (height_le_count t). unfold max_size in Hsz.
    assert (Hwp := push_front_spec fuel _ this hd t v Hh Htr Hrb ltac:(lia) ltac:(lia)).
    destruct (wp_det _ _ _ _ _ Hwp Hop) as (b & Hb & Hins).
    eapply (winv_ins _ _ _ _ i this hd t b);
        [exact Hw|exact Ho|exact Htr|exact Hh|exact Hb|exact Hins
        |elems_sub Ht|elems_len Ht|unfold max_size; lia].
  - destruct (winv_tree _ _ _ _ _ _ Hw Ho Htr) as (Ht & Hrb & _ & Hst & hd & Hh).
    pose proof (height_le_count t). unfold max_size in Hsz.
    destruct Hit as [->|(a & Ha & Hin)].
    + unfold end_ in Hop. rewrite Hh in Hop.
      assert (Hwp := insert_end fuel _ this hd t v Hh Htr Hrb ltac:(lia) ltac:(lia)).
      destruct (wp_det _ _ _ _ _ Hwp Hop) as (b & _ & Hb & Hins).
      eapply (winv_ins _ _ _ _ i this hd t b);
        [exact Hw|exact Ho|exact Htr|exact Hh|exact Hb|exact Hins
        |elems_sub Ht|elems_len Ht|unfold max_size; lia].
    + destruct it as [p]. simpl in Ha. subst p.
      assert (Hwp := insert_node fuel _ this hd t a v Hh Htr Hrb ltac:(lia) ltac:(lia) Hin).
      destruct (wp_det _ _ _ _ _ Hwp Hop) as (b & E1 & v0 & E2 & _ & Hb & He & Hins).
      eapply (winv_ins _ _ _ _ i this hd t b);
        [exact Hw|exact Ho|exact Htr|exact Hh|exact Hb|exact Hins
        |elems_sub He|elems_len He|unfold max_size; lia].
  - destruct (winv_tree _ _ _ _ _ _ Hw Ho Htr) as (Ht & Hrb & Hsz & Hst & hd & Hh).
    pose proof (height_le_count t). unfold max_size in Hsz.
    destruct Hit as (a & Ha & Hin). destruct it as [p]. simpl in Ha. subst p.
    destruct (in_addrs_plug _ _ Hin) as (c & xl & sz & bh & b & v & xr & Et).
    assert (xl = Leaf \/ xr = Leaf \/ (xl <> Leaf /\ xr <> Leaf)) as Hcase.
    { destruct xl; [by left|]. destruct xr; [by right; left|]. by right; right. }
    rewrite Et in Htr, Hrb, Hst, H, Hsz, Hf.
    assert (Hb1 : tsize (plug c (Node xl a sz bh b v xr)) < 2 ^ 64) by lia.
    assert (Hb2 : (height (plug c (Node xl a sz bh b v xr)) < fuel)%nat) by lia.
    assert (Hor : (xl = Leaf \/ xr = Leaf) \/ (xl <> Leaf /\ xr <> Leaf)) by tauto.
    destruct Hor as [Hs|[Hl Hr]].
    + assert (Hwp := erase_simple fuel _ this hd c xl a sz bh b v xr Hh Htr Hrb Hb1 Hb2 Hs).
      destruct (wp_det _ _ _ _ _ Hwp Hop) as (_ & E1 & E2 & He & Hins).
      rewrite <- Et in *.
      eapply (winv_del _ _ _ _ i this hd t);
        [exact Hw|exact Ho|exact Htr|exact Hh|exact Hins|elems_sub He|elems_len He].
    + assert (Hwp := erase_two fuel _ this hd c xl a sz bh b v xr Hh Htr Hrb Hb1 Hb2 Hl Hr).
      destruct (wp_det _ _ _ _ _ Hwp Hop) as (E1 & tmp & tv & E2 & He & _ & Hins).
      rewrite <- Et in *.
      eapply (winv_del _ _ _ _ i this hd t);
        [exact Hw|exact Ho|exact Htr|exact Hh|exact Hins|elems_sub He|elems_len He].
  - destruct (winv_tree _ _ _ _ _ _ Hw Ho Htr) as (Ht & Hrb & Hsz & Hst & hd & Hh).
    pose proof (height_le_count t). unfold max_size in Hsz.
    assert (Hwp := pop_back_spec fuel _ this hd t Hh Htr Hrb ltac:(lia) ltac:(lia) Hne).
    destruct (wp_det _ _ _ _ _ Hwp Hop) as (E & x & v & He & _ & Hins).
    eapply (winv_del _ _ _ _ i this hd t);
        [exact Hw|exact Ho|exact Htr|exact Hh|exact Hins|elems_sub He|elems_len He].
  - destruct (winv_tree _ _ _ _ _ _ Hw Ho Htr) as (Ht & Hrb & Hsz & Hst & hd & Hh).
    pose proof (height_le_count t). unfold max_size in Hsz.
    assert (Hwp := pop_front_spec fuel _ this hd t Hh Htr Hrb ltac:(lia) ltac:(lia) Hne).
    destruct (wp_det _ _ _ _ _ Hwp Hop) as (E & x & v & He & _ & Hins).
    eapply (winv_del _ _ _ _ i this hd t);
        [exact Hw|exact Ho|exact Htr|exact Hh|exact Hins|elems_sub He|elems_len He].
  - by eapply winv_merge.
  - by eapply winv_split.
Qed.

End Wld.

Section Fin.

Context {T : Type}.

Local Abbreviation Node_ := (Node_ T).

Local Abbreviation heap := (gmap addr Node_).

Local Abbreviation tree := (tree T).

Local Abbreviation ctx := (ctx T).

Implicit Types (h : heap) (t l r : tree) (c : ctx) (a : addr) (p : ptr).

Lemma rep_root_parent h par t x (n : Node_) :
  rep h par t -> root t = Some x -> h !! x = Some n -> parent n = par.
Proof.
  destruct t as [|l a sz bh b v r]; simpl; [done|].
  intros (Ha & _) [= ->] Hx. rewrite Ha in Hx. by injection Hx as <-.
Qed.

Lemma tree_node_inv h this hd t c l a sz bh b v r :
  head_ this = Some hd -> tree_rep h this t -> valid t ->
  t = plug c (Node l a sz bh b v r) -> node_inv h hd c l a sz bh b v r.
Proof.
  intros Hh Htr Hv ->.
  destruct (tree_rep_plug _ _ _ _ _ Hh Htr) as (_ & _ & Hx & _).
  apply valid_plug_inv in Hv as [Hvx _].
  pose proof Hvx as (Hs & Hbl & Hbr & Hred & Hvl & Hvr).
  simpl in Hx. destruct Hx as (Hx & Hl & Hr).
  split_and!; try done.
  - intros n Hn. exact (valid_path_blacks _ _ Hvx Hn).
  - congruence.
  - intros x n [Hx'|Hx'] Hxn.
    + exact (rep_root_parent h _ l x n Hl Hx' Hxn).
    + exact (rep_root_parent h _ r x n Hr Hx' Hxn).
Qed.

(** C1: in every world reachable from nothing by constructing trees,
    inserting (push_back, push_front, insert), erasing (pop_back, pop_front,
    erase), merging and splitting, every live tree object owns a tree whose
    root is black and in which every node has its size field equal to the
    sizes of its children plus one, no red node has a red child, the
    black_height field of a node is the number of black nodes on every path
    from it to an absent child and agrees on both children, and the parent
    field of each child points back to the node. *)

Theorem reachable_rb_invariants (w : world T) (i : nat) (this : RBTree) :
  reachable w -> w_objs w !! i = Some this ->
  exists hd t, head_ this = Some hd /\ tree_rep (w_heap w) this t
    /\ is_black t = true
    /\ forall c l a sz bh b v r, t = plug c (Node l a sz bh b v r) ->
         node_inv (w_heap w) hd c l a sz bh b v r.
Proof.
  intros [ts Hw]%reachable_winv Ho.
  pose proof Hw as (Hlen & Hgood & _).
  destruct (lookup_lt_is_Some_2 ts i) as [t Ht].
  { rewrite <- Hlen. by eapply lookup_lt_Some. }
  destruct (Hgood i this t Ho Ht) as (Htr & [Hv Hb] & _).
  pose proof Htr as (hd & Hh & _).
  exists hd, t. split_and!; try done.
  intros c l a sz bh b v r Et. by eapply tree_node_inv.
Qed.

Lemma rep_elems_lookup h par t a v :
  rep h par t -> (a, v) ∈ elems t ->
  exists n : Node_, h !! a = Some n /\ value n = Some v.
Proof.
  revert par. induction t as [|l IHl x sz bh b w r IHr]; intros par; simpl.
  { by intros _ ?%elem_of_nil. }
  intros (Hx & Hl & Hr). rewrite elem_of_app, elem_of_cons.
  intros [Hin|[[= -> ->]|Hin]]; [by eapply IHl| |by eapply IHr].
  eexists. split; [exact Hx|done].
Qed.

Lemma merge_values t1 t2 t' :
  elems t' = elems t1 ++ elems t2 -> values t' = values t1 ++ values t2.
Proof. intros He. by rewrite !values_elems, He, fmap_app. Qed.

Lemma merge_parts fuel h this tree t1 t2 :
  tree_rep h this t1 -> tree_rep h tree t2 -> rb_tree t1 -> rb_tree t2 ->
  disj (footprint this t1) (footprint tree t2) ->
  Z.of_nat (count t1 + count t2) <= max_size ->
  (count t1 < fuel)%nat -> (count t2 < fuel)%nat ->
  wp (merge fuel this tree) h (fun res h' =>
    exists t', tree_rep h' (fst res) t' /\ rb_tree t'
      /\ elems t' = elems t1 ++ elems t2
      /\ tree_rep h' (snd res) Leaf).
Proof.
  intros Htr1 Htr2 Hrb1 Hrb2 Hd Hsz Hf1 Hf2.
  pose proof Htr1 as (hd1 & Hh1 & _). pose proof Htr2 as (hd2 & Hh2 & _).
  unfold footprint in Hd. rewrite Hh1, Hh2 in Hd. simpl in Hd.
  pose proof (valid_tsize _ (proj1 Hrb1)). pose proof (valid_tsize _ (proj1 Hrb2)).
  unfold max_size in Hsz.
  eapply wp_mono.
  { eapply (merge_spec fuel h this tree hd1 hd2 t1 t2); try done. lia. }
  intros res h' (t' & Htr' & Hrb' & He' & Hl & _).
  exists t'. split_and!; done.
Qed.

(** C2: [merge] makes the sequence of the receiver its previous sequence
    followed by the previous sequence of the argument, node for node, and
    leaves the argument without elements; this covers both branches, the
    pivot taken from the front of the argument or from the back of the
    receiver. *)

Theorem merge_concatenates fuel h this tree t1 t2 :
  tree_rep h this t1 -> tree_rep h tree t2 -> rb_tree t1 -> rb_tree t2 ->
  disj (footprint this t1) (footprint tree t2) ->
  Z.of_nat (count t1 + count t2) <= max_size ->
  (count t1 < fuel)%nat -> (count t2 < fuel)%nat ->
  wp (merge fuel this tree) h (fun res h' =>
    exists t', tree_rep h' (fst res) t' /\ rb_tree t'
      /\ elems t' = elems t1 ++ elems t2
      /\ values t' = values t1 ++ values t2
      /\ tree_rep h' (snd res) Leaf).
Proof.
  intros Htr1 Htr2 Hrb1 Hrb2 Hd Hsz Hf1 Hf2.
  eapply wp_mono; [by eapply merge_parts|].
  intros res h' (t' & Htr' & Hrb' & He' & Hl).
  exists t'. split_and!; try done. by apply merge_values.
Qed.

(** What [split] returns, together with the disjointness of the two
    results. *)

Lemma split_parts fuel h this t it :
  tree_rep h this t -> rb_tree t -> Z.of_nat (count t) <= max_size ->
  (2 * count t < fuel)%nat -> cursor_of this t it ->
  wp (split fuel this it) h (fun ret h' =>
    exists E1 E2 t1 t2, elems t = E1 ++ E2
      /\ (forall a, ptr_ it = Some a -> a ∈ addrs t ->
            exists v E2', E2 = (a, v) :: E2')
      /\ (it = end_ this -> E2 = [] /\ t1 = t)
      /\ tree_rep h' this t1 /\ rb_tree t1 /\ elems t1 = E1
      /\ tree_rep h' ret t2 /\ rb_tree t2 /\ elems t2 = E2
      /\ disj (footprint this t1) (footprint ret t2)).
Proof.
  intros Htr Hrb Hsz Hf Hit.
  pose proof Htr as (hd & Hh & Hhd & _ & Hnhd & Hnd).
  pose proof (valid_tsize _ (proj1 Hrb)) as Hst. unfold max_size in Hsz.
  destruct Hit as [->|(x & Hx & Hin)].
  - eapply wp_mono; [by eapply split_end|].
    intros ret h' (hd2 & -> & Hfresh & -> & Htr1 & Htr2).
    exists (elems t), [], t, Leaf. rewrite app_nil_r. split_and!; try done.
    + intros a Ha Hin. unfold end_ in Ha. simpl in Ha. congruence.
    + pose proof (tree_rep_fresh _ _ _ _ _ Hh Htr Hfresh) as Hn.
      unfold footprint. rewrite Hh. simpl. apply Forall_forall.
      intros y Hy ->%list_elem_of_singleton. done.
  - destruct it as [p]. simpl in Hx. subst p.
    eapply wp_mono; [eapply (split_node fuel h this hd t x); try done; lia|].
    intros ret h' (hd2 & E1 & v & E2 & t1 & t2 & -> & Hfresh & He & Htr1 & Hrb1 & He1
        & Htr2 & Hrb2 & He2 & Hfr).
    exists E1, ((x, v) :: E2), t1, t2. split_and!; try done.
    + intros a [= <-] _. by exists v, E2.
    + unfold end_. rewrite Hh. intros [= ->]. done.
    + pose proof (tree_rep_fresh _ _ _ _ _ Hh Htr Hfresh) as Hn.
      unfold footprint. rewrite Hh. simpl. rewrite !addrs_elems, He1, He2.
      rewrite addrs_elems, He, fmap_app in Hn, Hnhd, Hnd. simpl in *.
      nodup_all. solve_distinct.
Qed.

(** C3: [split] at a cursor of the tree, the end included, returns a tree
    holding the elements from the cursor on and leaves the receiver with the
    elements before it; at the end cursor the returned tree has no element
    and the receiver keeps its tree. *)

Theorem split_at_cursor fuel h this t it :
  tree_rep h this t -> rb_tree t -> Z.of_nat (count t) <= max_size ->
  (2 * count t < fuel)%nat -> cursor_of this t it ->
  wp (split fuel this it) h (fun ret h' =>
    exists E1 E2 t1 t2, elems t = E1 ++ E2
      /\ (forall a, ptr_ it = Some a -> a ∈ addrs t ->
            exists v E2', E2 = (a, v) :: E2')
      /\ (it = end_ this -> E2 = [] /\ t1 = t)
      /\ tree_rep h' this t1 /\ rb_tree t1 /\ elems t1 = E1
      /\ values t1 = E1.*2
      /\ tree_rep h' ret t2 /\ rb_tree t2 /\ elems t2 = E2
      /\ values t2 = E2.*2).
Proof.
  intros Htr Hrb Hsz Hf Hit.
  eapply wp_mono; [by eapply split_parts|].
  intros ret h' (E1 & E2 & t1 & t2 & He & Hc & He' & Htr1 & Hrb1 & He1
      & Htr2 & Hrb2 & He2 & _).
  exists E1, E2, t1, t2. split_and!; try done.
  - by rewrite values_elems, He1.
  - by rewrite values_elems, He2.
Qed.

(** C4: splitting at a cursor of the tree and merging the returned tree
    back into the receiver gives the sequence the tree had before, element
    for element. *)

Theorem split_then_merge fuel h this t it :
  tree_rep h this t -> rb_tree t -> Z.of_nat (count t) <= max_size ->
  (2 * count t < fuel)%nat -> cursor_of this t it ->
  wp (do ret <- split fuel this it; merge fuel this ret) h (fun res h' =>
    exists t', tree_rep h' (fst res) t' /\ rb_tree t'
      /\ elems t' = elems t /\ values t' = values t
      /\ tree_rep h' (snd res) Leaf).
Proof.
  intros Htr Hrb Hsz Hf Hit. apply wp_bind.
  eapply wp_mono; [by eapply split_parts|].
  intros ret h' (E1 & E2 & t1 & t2 & He & _ & _ & Htr1 & Hrb1 & He1
      & Htr2 & Hrb2 & He2 & Hd).
  assert (count t = (count t1 + count t2)%nat) as Hc.
  { by rewrite <- !count_elems, He, He1, He2, length_app. }
  eapply wp_mono.
  { eapply (merge_parts fuel h' this ret t1 t2); try done; lia. }
  intros res h'' (t' & Htr' & Hrb' & He' & Hl).
  assert (elems t' = elems t) as Het by (by rewrite He', He1, He2).
  exists t'. split_and!; try done.
  by rewrite !values_elems, Het.
Qed.

(** C5: in a tree with the size invariant, [Select_] from the root at a
    rank below the size followed by [Order_] gives the rank back; and for a
    node [n] of order [o] and an offset [k] with [0 <= o + k <= size],
    [Advance_] by [k] followed by [Difference_] with [n] gives [k]. *)

Theorem select_order_advance_difference fuel h this t :
  tree_rep h this t -> valid t -> Z.of_nat (count t) <= max_size ->
  (height t + 2 <= fuel)%nat ->
  (forall x, 0 <= x < tsize t ->
     wp (do nd <- Select_ fuel (root t) x; Order_ fuel nd) h
       (fun res h' => h' = h /\ res = x))
  /\ (forall n, n ∈ addrs t ->
        exists o, wp (Order_ fuel (Some n)) h (fun res h' => h' = h /\ res = o)
          /\ forall k, 0 <= o + k <= tsize t ->
               wp (do m <- Advance_ fuel (Some n) k; Difference_ fuel m (Some n)) h
                 (fun res h' => h' = h /\ res = k)).
Proof.
  intros Htr Hv Hsz Hf. pose proof Htr as (hd & Hh & _).
  pose proof (valid_tsize _ Hv) as Hst.
  assert (tsize t < 2 ^ 64) as Hsz' by (unfold max_size in Hsz; lia).
  assert (tsize t <= max_size) as Hsz'' by lia.
  split.
  - intros x Hx. by eapply select_order.
  - intros n Hn. destruct (in_addrs_at_pos t hd n Hn) as (i & Hat & Hi).
    exists (Z.of_nat i). split; [by eapply Order_spec|].
    intros k Hk. eapply advance_difference; try done. lia.
Qed.

(** C6: for a predicate that is true on a prefix [P] of the values and false
    on the rest [F], [partition_bound] returns the cursor of the node that
    holds the first value of [F], and the end cursor when [F] is empty. *)

Theorem partition_bound_first_false (func : T -> bool) fuel h this t P F :
  tree_rep h this t -> values t = P ++ F ->
  Forall (fun x => func x = true) P -> Forall (fun x => func x = false) F ->
  (height t < fuel)%nat ->
  wp (partition_bound fuel this func) h (fun it h' =>
    h' = h /\ bound_at (elems t) P F (ptr_ (end_ this)) (ptr_ it)
    /\ (F = [] -> it = end_ this)).
Proof.
  intros Htr Hv HP HF Hf. pose proof Htr as (hd & Hh & _).
  eapply wp_mono; [by eapply partition_bound_spec|].
  intros [p] h' (-> & Hb). split_and!; try done.
  intros ->. simpl in Hb. unfold end_ in *. simpl in *. by rewrite Hb.
Qed.

(** C7: [erase] at a node [x] with two children frees the node [tmp] of the
    element just before it, not [x]; afterwards [x] is still in the tree and
    holds the value [tmp] held, and the sequence is the previous one without
    the element at the position of [x]. *)

Theorem erase_two_children fuel h this c xl x sz bh b v xr :
  tree_rep h this (plug c (Node xl x sz bh b v xr)) ->
  rb_tree (plug c (Node xl x sz bh b v xr)) ->
  Z.of_nat (count (plug c (Node xl x sz bh b v xr))) <= max_size ->
  (height (plug c (Node xl x sz bh b v xr)) < fuel)%nat ->
  xl <> Leaf -> xr <> Leaf ->
  wp (erase fuel this (mkIterator (Some x))) h (fun _ h' =>
    exists E1 tmp tv E2 t' (n : Node_),
      elems (plug c (Node xl x sz bh b v xr)) = E1 ++ (tmp, tv) :: (x, v) :: E2
      /\ h' !! tmp = None
      /\ tree_rep h' this t' /\ rb_tree t'
      /\ elems t' = E1 ++ (x, tv) :: E2
      /\ h' !! x = Some n /\ value n = Some tv
      /\ values (plug c (Node xl x sz bh b v xr)) = E1.*2 ++ tv :: v :: E2.*2
      /\ values t' = E1.*2 ++ tv :: E2.*2).
Proof.
  intros Htr Hrb Hsz Hf Hl Hr. pose proof Htr as (hd & Hh & _).
  pose proof (valid_tsize _ (proj1 Hrb)) as Hst. unfold max_size in Hsz.
  eapply wp_mono.
  { eapply (erase_two fuel h this hd c xl x sz bh b v xr); try done. lia. }
  intros _ h' (E1 & tmp & tv & E2 & He & Htmp & t' & Htr' & Hrb' & He' & _).
  destruct Htr' as (hd' & Hh' & Hhd' & Hrep' & Hrest).
  destruct (rep_elems_lookup h' _ t' x tv Hrep') as (n & Hn & Hvn).
  { rewrite He'. rewrite elem_of_app, elem_of_cons. auto. }
  exists E1, tmp, tv, E2, t', n. split_and!; try done.
  - by exists hd'.
  - by rewrite values_elems, He, fmap_app.
  - by rewrite values_elems, He', fmap_app.
Qed.

(** C8, as the code has it: move construction hands the nodes of the source
    to the new tree and leaves the source without elements; move assignment
    exchanges the head nodes, so the destination gets the nodes of the
    source and the source gets the nodes the destination had. *)

Theorem move_transfers h this tree t1 t2 :
  tree_rep h this t1 -> tree_rep h tree t2 ->
  wp (RBTree_move tree) h (fun res h' =>
    tree_rep h' (fst res) t2 /\ tree_rep h' (snd res) Leaf)
  /\ wp (move_assign this tree) h (fun res h' =>
       h' = h /\ tree_rep h' (fst res) t2 /\ tree_rep h' (snd res) t1).
Proof.
  intros Htr1 Htr2. split.
  - unfold RBTree_move, Init_. apply wp_bind. apply wp_bind. apply wp_malloc.
    intros a Ha. apply wp_ret. apply wp_ret. simpl.
    pose proof Htr2 as (hd2 & Hh2 & Hhd2 & Hr2 & Hn2 & Hnd2).
    pose proof (tree_rep_fresh _ _ _ _ _ Hh2 Htr2 Ha) as Hn. split.
    + exists hd2. split_and!; try done.
      * rewrite lookup_insert_ne; [done|]. intros ->.
        apply Hn. apply elem_of_cons. by left.
      * eapply rep_agree; [|exact Hr2]. intros x Hx.
        apply lookup_insert_ne. intros ->. apply Hn. apply elem_of_cons. by right.
    + exists a. split_and!; try done.
      * apply lookup_insert_eq.
      * by intros ?%elem_of_nil.
      * apply NoDup_nil_2.
  - unfold move_assign. apply wp_ret. simpl. split_and!; done.
Qed.

(** C9: on both kinds of cursor the conversion to [bool] is [is_null]: it
    is true exactly when the cursor holds no node, and false for a cursor
    that holds one. *)

Theorem operator_bool_is_null (it : Iterator_) (cit : ConstIterator_) :
  Iterator_operator_bool it = Iterator_is_null it
  /\ ConstIterator_operator_bool cit = ConstIterator_is_null cit
  /\ (Iterator_operator_bool it = true <-> ptr_ it = None)
  /\ (ConstIterator_operator_bool cit = true <-> cptr_ cit = None)
  /\ (forall a, ptr_ it = Some a -> Iterator_operator_bool it = false)
  /\ (forall a, cptr_ cit = Some a -> ConstIterator_operator_bool cit = false).
Proof.
  destruct it as [[x|]], cit as [[y|]]; cbv; split_and!; try done;
    split; done.
Qed.

(** C10: assigning a tree to itself by copy leaves it without elements,
    whatever it held: its nodes are freed, and nothing is copied back. *)

Theorem copy_assign_self_empties fuel h this t :
  tree_rep h this t -> (2 * count t + 2 <= fuel)%nat ->
  wp (copy_assign fuel this this) h (fun _ h' =>
    tree_rep h' this Leaf
    /\ (forall x, x ∈ addrs t -> h' !! x = None)
    /\ wp (size_ this) h' (fun n _ => n = 0)).
Proof.
  intros Htr Hf. pose proof Htr as (hd & Hh & _).
  eapply wp_mono; [by eapply copy_assign_self|].
  intros _ h' (Hl & Hfr1 & Hfr2). split_and!; try done.
  destruct Hl as (hd' & Hh' & Hhd' & _). unfold size_. rewrite Hh'.
  apply wp_bind. eapply wp_get; [exact Hhd'|]. simpl. by apply wp_ret.
Qed.

End Fin.

Section Cpy.

Context {T : Type}.

Local Abbreviation Node_ := (Node_ T).

Local Abbreviation heap := (gmap addr Node_).

Local Abbreviation tree := (tree T).

Local Abbreviation ctx := (ctx T).

Implicit Types (h : heap) (t l r : tree) (c : ctx) (a : addr) (p : ptr).

(** ** Copies *)


Lemma copy_of_count t : forall t', copy_of t t' -> count t' = count t.
Proof.
  induction t as [|l IHl a sz bh b v r IHr]; intros [|l' a' sz' bh' b' v' r'];
    simpl; try done.
  intros (_ & _ & _ & _ & Hl & Hr). by rewrite (IHl _ Hl), (IHr _ Hr).
Qed.







(** The loop, started at a source node and at its copy, whose children are
    not yet copied, copies the subtree and arrives at the two parents. *)


(** [CopyTree_] from the head node of a tree into a head node without
    elements. *)


(** The copy constructor. *)


(** Copy assignment between two objects. *)


End Cpy.

(** * Further properties of the public operations *)

Section Xtr.
Context {T : Type}.
Local Abbreviation Node_ := (Node_ T).
Local Abbreviation heap := (gmap addr Node_).
Local Abbreviation tree := (tree T).
Local Abbreviation ctx := (ctx T).
Implicit Types (h : heap) (t l r : tree) (c : ctx) (a : addr) (p : ptr).

Lemma rb_bounds t :
  rb_tree t -> Z.of_nat (count t) <= max_size ->
  tsize t = Z.of_nat (count t) /\ tsize t < 2 ^ 64 /\ (height t <= count t)%nat.
Proof.
  intros [Hv _] Hsz. pose proof (valid_tsize _ Hv). pose proof (height_le_count t).
  unfold max_size in Hsz. split_and!; try done. lia.
Qed.

Lemma inserted_values h this E (L : list addr) h' :
  inserted h this E L h' ->
  exists t', tree_rep h' this t' /\ rb_tree t' /\ elems t' = E
    /\ values t' = E.*2 /\ count t' = length E.
Proof.
  intros (t' & Htr & Hrb & He & _). exists t'. split_and!; try done.
  - by rewrite values_elems, He.
  - by rewrite <- count_elems, He.
Qed.

(** X1: [push_back] keeps the invariants and appends the value: one node is
    allocated for it, and every node that was in the tree keeps its value
    and its place in the sequence. *)
Theorem push_back_appends fuel h this t val :
  tree_rep h this t -> rb_tree t -> Z.of_nat (count t) < max_size ->
  (count t < fuel)%nat ->
  wp (push_back fuel this val) h (fun _ h' =>
    exists b t', h !! b = None /\ tree_rep h' this t' /\ rb_tree t'
      /\ elems t' = elems t ++ [(b, val)]
      /\ values t' = values t ++ [val]).
Proof.
  intros Htr Hrb Hsz Hf. pose proof Htr as (hd & Hh & _).
  destruct (rb_bounds t Hrb ltac:(lia)) as (Hst & _ & Hht). unfold max_size in Hsz.
  eapply wp_mono.
  { eapply (push_back_spec fuel h this hd t val); try done; lia. }
  intros _ h' (b & Hb & Hins).
  destruct (inserted_values _ _ _ _ _ Hins) as (t' & Htr' & Hrb' & He' & Hv' & _).
  exists b, t'. split_and!; try done.
  by rewrite Hv', fmap_app, <- values_elems.
Qed.

(** X2: [push_front] keeps the invariants and puts the value in front of
    the sequence, in a node allocated for it. *)
Theorem push_front_prepends fuel h this t val :
  tree_rep h this t -> rb_tree t -> Z.of_nat (count t) < max_size ->
  (count t < fuel)%nat ->
  wp (push_front fuel this val) h (fun _ h' =>
    exists b t', h !! b = None /\ tree_rep h' this t' /\ rb_tree t'
      /\ elems t' = (b, val) :: elems t
      /\ values t' = val :: values t).
Proof.
  intros Htr Hrb Hsz Hf. pose proof Htr as (hd & Hh & _).
  destruct (rb_bounds t Hrb ltac:(lia)) as (Hst & _ & Hht). unfold max_size in Hsz.
  eapply wp_mono.
  { eapply (push_front_spec fuel h this hd t val); try done; lia. }
  intros _ h' (b & Hb & Hins).
  destruct (inserted_values _ _ _ _ _ Hins) as (t' & Htr' & Hrb' & He' & Hv' & _).
  exists b, t'. split_and!; try done.
  by rewrite Hv', fmap_cons, <- values_elems.
Qed.

Lemma insert_before_cursor_aux fuel h this t it val :
  tree_rep h this t -> rb_tree t -> Z.of_nat (count t) < max_size ->
  (count t < fuel)%nat -> cursor_of this t it ->
  wp (insert_ fuel this it val) h (fun res h' =>
    exists b E1 E2 t', res = mkIterator (Some b) /\ h !! b = None
      /\ elems t = E1 ++ E2
      /\ tree_rep h' this t' /\ rb_tree t'
      /\ elems t' = E1 ++ (b, val) :: E2).
Proof.
  intros Htr Hrb Hsz Hf Hit. pose proof Htr as (hd & Hh & _ & _ & Hnhd & _).
  destruct (rb_bounds t Hrb ltac:(lia)) as (Hst & _ & Hht). unfold max_size in Hsz.
  destruct Hit as [->|(x & Hx & Hin)].
  - unfold end_. rewrite Hh. eapply wp_mono.
    { eapply (insert_end fuel h this hd t val); try done; lia. }
    intros res h' (b & -> & Hb & Hins).
    destruct (inserted_values _ _ _ _ _ Hins) as (t' & Htr' & Hrb' & He' & Hv' & _).
    exists b, (elems t), [], t'. rewrite app_nil_r. split_and!; done.
  - destruct it as [p]. simpl in Hx. subst p. eapply wp_mono.
    { eapply (insert_node fuel h this hd t x val); try done; lia. }
    intros res h' (b & E1 & v & E2 & -> & Hb & He & Hins).
    destruct (inserted_values _ _ _ _ _ Hins) as (t' & Htr' & Hrb' & He' & Hv' & _).
    exists b, E1, ((x, v) :: E2), t'. split_and!; done.
Qed.

Lemma insert_before_cursor_full fuel h this t it val :
  tree_rep h this t -> rb_tree t -> Z.of_nat (count t) < max_size ->
  (count t < fuel)%nat -> cursor_of this t it ->
  wp (insert_ fuel this it val) h (fun res h' =>
    exists b E1 E2 t', res = mkIterator (Some b) /\ h !! b = None
      /\ elems t = E1 ++ E2
      /\ (forall a, ptr_ it = Some a -> a ∈ addrs t ->
            exists v E2', E2 = (a, v) :: E2')
      /\ (it = end_ this -> E2 = [])
      /\ tree_rep h' this t' /\ rb_tree t'
      /\ elems t' = E1 ++ (b, val) :: E2
      /\ values t' = E1.*2 ++ val :: E2.*2).
Proof.
  intros Htr Hrb Hsz Hf Hit. pose proof Htr as (hd & Hh & _ & _ & Hnhd & _).
  destruct (rb_bounds t Hrb ltac:(lia)) as (Hst & _ & Hht). unfold max_size in Hsz.
  destruct Hit as [->|(x & Hx & Hin)].
  - unfold end_. rewrite Hh. eapply wp_mono.
    { eapply (insert_end fuel h this hd t val); try done; lia. }
    intros res h' (b & -> & Hb & Hins).
    destruct (inserted_values _ _ _ _ _ Hins) as (t' & Htr' & Hrb' & He' & Hv' & _).
    exists b, (elems t), [], t'. rewrite app_nil_r. split_and!; try done.
    + intros a [= <-] Hin. done.
    + by rewrite Hv', fmap_app.
  - destruct it as [p]. simpl in Hx. subst p. eapply wp_mono.
    { eapply (insert_node fuel h this hd t x val); try done; lia. }
    intros res h' (b & E1 & v & E2 & -> & Hb & He & Hins).
    destruct (inserted_values _ _ _ _ _ Hins) as (t' & Htr' & Hrb' & He' & Hv' & _).
    exists b, E1, ((x, v) :: E2), t'. split_and!; try done.
    + intros a [= <-] _. by exists v, E2.
    + unfold end_. rewrite Hh. intros [= ->]. done.
    + by rewrite Hv', fmap_app.
Qed.

(** X3: [insert] at a cursor of the tree puts the value just before the
    element of the cursor, at the end for the end cursor, and returns the
    cursor of the node allocated for it; the other nodes keep their values
    and their order. *)
Theorem insert_before_cursor fuel h this t it val :
  tree_rep h this t -> rb_tree t -> Z.of_nat (count t) < max_size ->
  (count t < fuel)%nat -> cursor_of this t it ->
  wp (insert_ fuel this it val) h (fun res h' =>
    exists b E1 E2 t', res = mkIterator (Some b) /\ h !! b = None
      /\ elems t = E1 ++ E2
      /\ (forall a, ptr_ it = Some a -> a ∈ addrs t ->
            exists v E2', E2 = (a, v) :: E2')
      /\ (it = end_ this -> E2 = [])
      /\ tree_rep h' this t' /\ rb_tree t'
      /\ elems t' = E1 ++ (b, val) :: E2
      /\ values t' = E1.*2 ++ val :: E2.*2).
Proof. apply insert_before_cursor_full. Qed.

Lemma nodup_split_fst (E1 E2 : list (addr * T)) x v :
  NoDup ((E1 ++ (x, v) :: E2).*1) -> x ∉ E1.*1 /\ x ∉ E2.*1.
Proof.
  rewrite fmap_app, fmap_cons. simpl. intros Hnd.
  apply NoDup_app in Hnd as (_ & Hd & Hnd2). apply NoDup_cons in Hnd2 as [Hx2 _].
  split; [|done]. intros Hx. apply (Hd x Hx). apply elem_of_cons. by left.
Qed.

(** X4: [erase] at a node of the tree removes from the sequence exactly the
    element at the position of that node and keeps the invariants; one node
    of the tree is freed, and the tree holds the others. *)
Theorem erase_removes_element fuel h this t x :
  tree_rep h this t -> rb_tree t -> Z.of_nat (count t) <= max_size ->
  (count t < fuel)%nat -> x ∈ addrs t ->
  wp (erase fuel this (mkIterator (Some x))) h (fun _ h' =>
    exists A1 A2 V1 v V2 y t',
      addrs t = A1 ++ x :: A2 /\ values t = V1 ++ v :: V2
      /\ length A1 = length V1
      /\ tree_rep h' this t' /\ rb_tree t' /\ values t' = V1 ++ V2
      /\ y ∈ addrs t /\ h' !! y = None
      /\ (forall z, z ∈ addrs t' <-> z ∈ addrs t /\ z <> y)).
Proof.
  intros Htr Hrb Hsz Hf Hin. pose proof Htr as (hd & Hh & _).
  destruct (rb_bounds t Hrb Hsz) as (Hst & Hlt & Hht).
  pose proof (tree_rep_nodup _ _ _ _ Hh Htr) as Hnd.
  apply NoDup_cons in Hnd as [_ Hnd].
  destruct (in_addrs_plug _ _ Hin) as (c & xl & sz & bh & b & v & xr & Et).
  assert ((xl = Leaf \/ xr = Leaf) \/ (xl <> Leaf /\ xr <> Leaf)) as Hcase.
  { destruct xl; [by left; left|]. destruct xr; [by left; right|]. by right. }
  assert (Hb2 : (height t < fuel)%nat) by lia.
  rewrite Et in Htr, Hrb, Hlt, Hb2.
  destruct Hcase as [Hs|[Hl Hr]].
  - eapply wp_mono.
    { eapply (erase_simple fuel h this hd c xl x sz bh b v xr); done. }
    intros _ h' (Hfree & E1 & E2 & He & Hins). rewrite <- Et in He. clear Et.
    destruct (inserted_values _ _ _ _ _ Hins) as (t' & Htr' & Hrb' & He' & Hv' & _).
    rewrite He in Hnd. destruct (nodup_split_fst _ _ _ _ Hnd) as [Hx1 Hx2].
    exists (E1.*1), (E2.*1), (E1.*2), v, (E2.*2), x, t'.
    split_and!; try done.
    + by rewrite addrs_elems, He, fmap_app.
    + by rewrite values_elems, He, fmap_app.
    + by rewrite !length_fmap.
    + by rewrite Hv', fmap_app.
    + intros z. rewrite !addrs_elems, He', He, !fmap_app, fmap_cons. simpl.
      rewrite !elem_of_app, elem_of_cons. split.
      * intros [Hz|Hz]; (split; [tauto|intros ->; done]).
      * tauto.
  - eapply wp_mono.
    { eapply (erase_two fuel h this hd c xl x sz bh b v xr); done. }
    intros _ h' (E1 & tmp & tv & E2 & He & Hfree & Hins). rewrite <- Et in He, Hins.
    clear Et.
    destruct (inserted_values _ _ _ _ _ Hins) as (t' & Htr' & Hrb' & He' & Hv' & _).
    rewrite He in Hnd. destruct (nodup_split_fst _ _ _ _ Hnd) as [Hx1 Hx2].
    simpl in Hx2. apply not_elem_of_cons in Hx2 as [Hne Hx2].
    exists (E1.*1 ++ [tmp]), (E2.*1), (E1.*2 ++ [tv]), v, (E2.*2), tmp, t'.
    split_and!; try done.
    + rewrite addrs_elems, He, fmap_app. simpl. by rewrite <- app_assoc.
    + rewrite values_elems, He, fmap_app. simpl. by rewrite <- app_assoc.
    + by rewrite !length_app, !length_fmap.
    + rewrite Hv', fmap_app. simpl. by rewrite <- app_assoc.
    + rewrite addrs_elems, He, fmap_app. simpl. rewrite elem_of_app, elem_of_cons. auto.
    + intros z. rewrite !addrs_elems, He', He, !fmap_app, !fmap_cons. simpl.
      rewrite !elem_of_app, !elem_of_cons. split.
      * intros [Hz|[->|Hz]]; (split; [tauto|]); [intros ->; done|congruence|intros ->; done].
      * tauto.
Qed.

(** X5: on a tree with elements [pop_back] removes the last element of the
    sequence and frees its node. *)
Theorem pop_back_removes_last fuel h this t :
  tree_rep h this t -> rb_tree t -> Z.of_nat (count t) <= max_size ->
  (count t < fuel)%nat -> t <> Leaf ->
  wp (pop_back fuel this) h (fun _ h' =>
    exists V x v t', values t = V ++ [v] /\ addrs t = (elems t').*1 ++ [x]
      /\ h' !! x = None
      /\ tree_rep h' this t' /\ rb_tree t' /\ values t' = V).
Proof.
  intros Htr Hrb Hsz Hf Hne. pose proof Htr as (hd & Hh & _).
  destruct (rb_bounds t Hrb Hsz) as (Hst & Hlt & Hht).
  eapply wp_mono.
  { eapply (pop_back_spec fuel h this hd t); try done. lia. }
  intros _ h' (E & x & v & He & Hfree & Hins).
  destruct (inserted_values _ _ _ _ _ Hins) as (t' & Htr' & Hrb' & He' & Hv' & _).
  exists (E.*2), x, v, t'. split_and!; try done.
  - by rewrite values_elems, He, fmap_app.
  - by rewrite addrs_elems, He, He', fmap_app.
Qed.

(** X6: on a tree with elements [pop_front] removes the first element of the
    sequence and frees its node. *)
Theorem pop_front_removes_first fuel h this t :
  tree_rep h this t -> rb_tree t -> Z.of_nat (count t) <= max_size ->
  (count t < fuel)%nat -> t <> Leaf ->
  wp (pop_front fuel this) h (fun _ h' =>
    exists V x v t', values t = v :: V /\ addrs t = x :: (elems t').*1
      /\ h' !! x = None
      /\ tree_rep h' this t' /\ rb_tree t' /\ values t' = V).
Proof.
  intros Htr Hrb Hsz Hf Hne. pose proof Htr as (hd & Hh & _).
  destruct (rb_bounds t Hrb Hsz) as (Hst & Hlt & Hht).
  eapply wp_mono.
  { eapply (pop_front_spec fuel h this hd t); try done. lia. }
  intros _ h' (E & x & v & He & Hfree & Hins).
  destruct (inserted_values _ _ _ _ _ Hins) as (t' & Htr' & Hrb' & He' & Hv' & _).
  exists (E.*2), x, v, t'. split_and!; try done.
  - by rewrite values_elems, He.
  - by rewrite addrs_elems, He, He'.
Qed.

(** X7: on a tree without elements [pop_back], [pop_front], [front] and
    [back] follow the null root pointer: none of them has a result, whatever
    the bound on the loops. *)
Theorem empty_tree_no_result fuel h this :
  tree_rep h this Leaf ->
  pop_back fuel this h = None /\ pop_front fuel this h = None
  /\ front fuel this h = None /\ back fuel this h = None.
Proof.
  intros (hd & Hh & Hhd & _). simpl in Hhd.
  assert (Hg : get left (Some hd) h = Some (None, h)).
  { unfold get, bind, load, ret. by rewrite Hhd. }
  assert (HL : Last_ fuel None h = None) by (by destruct fuel).
  assert (HF : First_ fuel None h = None) by (by destruct fuel).
  unfold pop_back, pop_front, front, back, bind. rewrite Hh, Hg, HL, HF. done.
Qed.

(** X8: [size] returns the number of elements and [empty] tells whether
    there is none; neither changes the store. *)
Theorem size_and_empty h this t :
  tree_rep h this t -> valid t -> Z.of_nat (count t) <= max_size ->
  wp (size_ this) h (fun n h' => h' = h /\ n = Z.of_nat (length (values t)))
  /\ wp (empty this) h (fun b h' => h' = h /\ (b = true <-> values t = [])).
Proof.
  intros (hd & Hh & Hhd & Hr & _) Hv Hsz.
  pose proof (valid_tsize _ Hv) as Hst.
  assert (length (values t) = count t) as Hlen.
  { by rewrite values_elems, length_fmap, count_elems. }
  unfold size_, empty. rewrite Hh. split.
  - wp_run. destruct t as [|l a sz bh b v r]; simpl in *.
    + wp_run. done.
    + destruct Hr as (Ha & _). wp_run. split; [done|]. lia.
  - wp_run. split; [done|]. destruct t; simpl; [done|].
    split; [done|]. intros E. by destruct (values t1).
Qed.

(** ** Cursors and positions *)

Lemma elems_lookup_plug t : forall i a v,
  elems t !! i = Some (a, v) ->
  exists c l sz bh b r, t = plug c (Node l a sz bh b v r)
    /\ i = (length (cpre c) + count l)%nat.
Proof.
  induction t as [|l IHl x sz bh b w r IHr]; intros i a v; simpl.
  { by rewrite lookup_nil. }
  intros Hi. destruct (lt_eq_lt_dec i (length (elems l))) as [[Hlt|Heq]|Hgt].
  - rewrite lookup_app_l in Hi by done.
    destruct (IHl i a v Hi) as (c & l' & sz' & bh' & b' & r' & -> & ->).
    exists (c ++ [InL x sz bh b w r]), l', sz', bh', b', r'.
    rewrite plug_app, cpre_app. simpl. done.
  - rewrite lookup_app_r in Hi by lia. rewrite Heq, Nat.sub_diag in Hi.
    simpl in Hi. injection Hi as -> ->.
    exists [], l, sz, bh, b, r. simpl. by rewrite Heq, count_elems.
  - rewrite lookup_app_r in Hi by lia.
    destruct (i - length (elems l))%nat as [|k] eqn:Ek; [lia|]. simpl in Hi.
    destruct (IHr k a v Hi) as (c & l' & sz' & bh' & b' & r' & -> & ->).
    exists (c ++ [InR l x sz bh b w]), l', sz', bh', b', r'.
    rewrite plug_app, cpre_app. simpl. split; [done|].
    rewrite !length_app, count_elems in *. simpl. lia.
Qed.

Lemma cursor_at_pos t hd a i : cursor_at t hd a i -> at_pos t hd a i.
Proof.
  intros [[-> ->]|[v Hi]]; [constructor|].
  destruct (elems_lookup_plug t i a v Hi) as (c & l & sz & bh & b & r & Et & ->).
  by eapply at_node.
Qed.

Lemma at_pos_cursor t hd a i : at_pos t hd a i -> cursor_at t hd a i.
Proof.
  intros [|c l x sz bh b v r ->]; [by left|]. right. exists v.
  rewrite elems_plug_pre_post. simpl.
  rewrite lookup_app_r by lia. rewrite <- app_assoc.
  rewrite lookup_app_r by (rewrite count_elems; lia).
  replace (_ - _ - _)%nat with 0%nat by (rewrite count_elems; lia). done.
Qed.

Lemma cursor_at_le t hd a i : cursor_at t hd a i -> (i <= count t)%nat.
Proof. intros H%cursor_at_pos. by eapply at_pos_le. Qed.

(** X9: [Order_] of a cursor of the tree is its index in the sequence, the
    number of elements for the end cursor. *)
Theorem order_is_index fuel h this hd t a i :
  head_ this = Some hd -> tree_rep h this t -> valid t ->
  Z.of_nat (count t) <= max_size -> (height t + 2 <= fuel)%nat ->
  cursor_at t hd a i ->
  wp (Order_ fuel (Some a)) h (fun res h' => h' = h /\ res = Z.of_nat i).
Proof.
  intros Hh Htr Hv Hsz Hf Hat. pose proof (valid_tsize _ Hv) as Hst.
  unfold max_size in Hsz.
  eapply (Order_spec fuel h this hd t a i); try done; [lia|].
  by apply cursor_at_pos.
Qed.

(** X10: [Advance_] from the cursor of index [i] by an offset [k] with
    [0 <= i + k <= size] returns the cursor of index [i + k], without
    changing the store. *)
Theorem advance_moves_index fuel h this hd t a i k :
  head_ this = Some hd -> tree_rep h this t -> valid t ->
  Z.of_nat (count t) <= max_size -> (height t + 2 <= fuel)%nat ->
  cursor_at t hd a i -> 0 <= Z.of_nat i + k <= Z.of_nat (count t) ->
  wp (Advance_ fuel (Some a) k) h (fun res h' =>
    h' = h /\ exists m, res = Some m /\ cursor_at t hd m (Z.to_nat (Z.of_nat i + k))).
Proof.
  intros Hh Htr Hv Hsz Hf Hat Hk. pose proof (valid_tsize _ Hv) as Hst.
  unfold max_size in Hsz.
  eapply wp_mono.
  { eapply (Advance_spec fuel h this hd t a i k); try done; [lia|].
    by apply cursor_at_pos. }
  intros res h' (-> & m & j & -> & Hm & Ej). split; [done|].
  exists m. split; [done|]. apply at_pos_cursor.
  replace (Z.to_nat (Z.of_nat i + k)) with j by lia. done.
Qed.

Lemma left_spine_cpre c : left_spine c -> cpre c = [].
Proof.
  induction c as [|f c IH]; [done|]. intros [Hf Hc]%Forall_cons.
  destruct f; [|done]. simpl. by apply IH.
Qed.
Lemma right_spine_cpost c : right_spine c -> cpost c = [].
Proof.
  induction c as [|f c IH]; [done|]. intros [Hf Hc]%Forall_cons.
  destruct f; [done|]. simpl. by apply IH.
Qed.

Lemma plug_node_lookup h this c l a sz bh b v r :
  tree_rep h this (plug c (Node l a sz bh b v r)) ->
  (exists n : Node_, h !! a = Some n /\ value n = Some v)
  /\ values (plug c (Node l a sz bh b v r)) !! (length (cpre c) + count l)%nat = Some v.
Proof.
  intros Htr. pose proof Htr as (hd & Hh & _).
  destruct (tree_rep_plug _ _ _ _ _ Hh Htr) as (_ & _ & Hx & _).
  simpl in Hx. destruct Hx as (Hx & _). split; [by eexists|].
  pose proof (at_pos_cursor _ hd a _ (at_node _ hd c l a sz bh b v r eq_refl)) as Hc.
  unfold cursor_at in Hc. destruct Hc as [[-> _]|[v' Hv']].
  - destruct Htr as (hd' & Hh' & _ & _ & Hn & _).
    assert (hd' = hd) as -> by congruence. exfalso. apply Hn.
    rewrite addrs_plug. simpl. rewrite !elem_of_app, elem_of_cons. auto.
  - rewrite values_elems, list_lookup_fmap, Hv'. simpl.
    rewrite elems_plug_pre_post in Hv'. simpl in Hv'.
    rewrite lookup_app_r in Hv' by lia. rewrite <- app_assoc in Hv'.
    rewrite lookup_app_r in Hv' by (rewrite count_elems; lia).
    replace (_ - _ - _)%nat with 0%nat in Hv' by (rewrite count_elems; lia).
    simpl in Hv'. congruence.
Qed.

Lemma at_values fuel h this t x :
  tree_rep h this t -> valid t -> Z.of_nat (count t) <= max_size ->
  (height t <= fuel)%nat -> 0 <= x < Z.of_nat (count t) ->
  wp (at_ fuel this x) h (fun v h' => h' = h /\ values t !! Z.to_nat x = Some v).
Proof.
  intros Htr Hv Hsz Hf Hx. pose proof Htr as (hd & Hh & Hhd & Hr & _).
  pose proof (valid_tsize _ Hv) as Hst. unfold max_size in Hsz.
  unfold at_. rewrite Hh. wp_run.
  apply wp_bind. eapply wp_mono.
  { eapply (Select_spec fuel h _ t x); [exact Hr|done|lia|lia|done]. }
  intros res h' (-> & c & l & a & sz & bh & b & v & r & Et & -> & Ex).
  rewrite Et in Htr.
  destruct (plug_node_lookup _ _ _ _ _ _ _ _ _ _ Htr) as ((n & Hn & Hvn) & Hlk).
  unfold get_value. apply wp_bind. eapply wp_get; [exact Hn|]. rewrite Hvn.
  apply wp_ret. split; [done|]. rewrite Et, Ex, Nat2Z.id. done.
Qed.

(** X11: [operator[]] of the tree at an index below the size returns the
    value at that index of the sequence, and leaves the store as it is. *)
Theorem index_returns_value fuel h this t x :
  tree_rep h this t -> valid t -> Z.of_nat (count t) <= max_size ->
  (height t <= fuel)%nat -> 0 <= x < Z.of_nat (count t) ->
  wp (at_ fuel this x) h (fun v h' => h' = h /\ values t !! Z.to_nat x = Some v).
Proof. apply at_values. Qed.

Lemma Select_out_of_range fuel h par t : forall x,
  rep h par t -> valid t -> tsize t <= x < 2 ^ 64 ->
  Select_ fuel (root t) x h = None.
Proof.
  revert par t. induction fuel as [|fuel IH]; intros par t x Hr Hv Hx; [done|].
  destruct t as [|l a sz bh b v r]; [done|].
  simpl in Hr, Hv, Hx. destruct Hr as (Ha & Hl & Hrr).
  destruct Hv as (-> & _ & _ & _ & Hvl & Hvr).
  pose proof (valid_tsize_nonneg _ Hvl). pose proof (valid_tsize_nonneg _ Hvr).
  simpl Select_. simpl root.
  set (na := mkNode (root l) (root r) par (tsize l + tsize r + 1) bh b (Some v)) in Ha.
  assert (Hg : forall A (f : Node_ -> A), get f (Some a) h = Some (f na, h)).
  { intros A f. unfold get, bind, load, ret. by rewrite Ha. }
  unfold bind at 1. rewrite Hg. unfold na at 1 2. cbn [left].
  assert (Hs : Size_ (root l) h = Some (tsize l, h)).
  { destruct l as [|ll la lsz lbh lb lv lr]; [done|]. simpl in Hl.
    destruct Hl as (Hla & _). unfold Size_. simpl.
    unfold get, bind, load, ret. by rewrite Hla. }
  unfold bind at 1. rewrite Hs.
  destruct (Z.eqb_spec (tsize l) x) as [?|_]; [lia|].
  destruct (Z.gtb_spec (tsize l) x) as [?|_]; [lia|].
  unfold bind at 1. rewrite Hg. unfold na. cbn [right].
  rewrite (size_t_small' (tsize l + 1)) by lia.
  rewrite (size_t_small' (x - (tsize l + 1))) by lia.
  eapply (IH _ r); [exact Hrr|done|lia].
Qed.

(** X12: [operator[]] of the tree at an index that is not below the size
    runs off the tree through a null pointer: it has no result. *)
Theorem index_out_of_range_no_result fuel h this t x :
  tree_rep h this t -> valid t -> Z.of_nat (count t) <= x < 2 ^ 64 ->
  at_ fuel this x h = None.
Proof.
  intros (hd & Hh & Hhd & Hr & _) Hv Hx. pose proof (valid_tsize _ Hv) as Hst.
  unfold at_. rewrite Hh. unfold bind at 1.
  assert (get left (Some hd) h = Some (root t, h)) as ->.
  { unfold get, bind, load, ret. by rewrite Hhd. }
  unfold bind. rewrite (Select_out_of_range fuel h (Some hd) t x); [done..|lia].
Qed.

(** X13: on a tree with elements [front] returns the first value of the
    sequence and [back] the last. *)
Theorem front_and_back fuel h this t :
  tree_rep h this t -> t <> Leaf -> (height t <= fuel)%nat ->
  wp (front fuel this) h (fun v h' => h' = h /\ exists V, values t = v :: V)
  /\ wp (back fuel this) h (fun v h' => h' = h /\ exists V, values t = V ++ [v]).
Proof.
  intros Htr Hne Hf. pose proof Htr as (hd & Hh & Hhd & Hr & _).
  unfold front, back. rewrite Hh. split.
  - wp_run. apply wp_bind. eapply wp_mono.
    { eapply (First_spec fuel h (Some hd) t); done. }
    intros res h' (-> & c & x & sz & bh & b & v & r & Et & -> & Hs).
    rewrite Et in Htr.
    destruct (plug_node_lookup _ _ _ _ _ _ _ _ _ _ Htr) as ((n & Hn & Hvn) & _).
    unfold get_value. apply wp_bind. eapply wp_get; [exact Hn|]. rewrite Hvn.
    apply wp_ret. split; [done|].
    destruct (elems_left_spine c Leaf Hs) as [post Hp].
    rewrite Et, values_elems, Hp. simpl. by eexists.
  - wp_run. apply wp_bind. eapply wp_mono.
    { eapply (Last_spec fuel h (Some hd) t); done. }
    intros res h' (-> & c & l & x & sz & bh & b & v & Et & -> & Hs).
    rewrite Et in Htr.
    destruct (plug_node_lookup _ _ _ _ _ _ _ _ _ _ Htr) as ((n & Hn & Hvn) & _).
    unfold get_value. apply wp_bind. eapply wp_get; [exact Hn|]. rewrite Hvn.
    apply wp_ret. split; [done|].
    destruct (elems_right_spine c Leaf Hs) as [pre Hp].
    rewrite Et, values_elems, Hp. simpl.
    exists ((pre ++ elems l).*2). by rewrite app_assoc, fmap_app.
Qed.

Lemma plug_not_leaf c t : t <> Leaf -> plug c t <> Leaf.
Proof.
  revert t. induction c as [|f c IH]; intros t Ht; simpl; [done|].
  apply IH. by destruct f.
Qed.

(** X14: [begin] returns the cursor of index 0: the node of the first
    element, or the end cursor when the tree has no element. *)
Theorem begin_is_index_zero fuel h this hd t :
  head_ this = Some hd -> tree_rep h this t -> (height t < fuel)%nat ->
  wp (begin_ fuel this) h (fun it h' =>
    h' = h /\ exists a, it = mkIterator (Some a) /\ cursor_at t hd a 0
      /\ (t = Leaf -> it = end_ this)).
Proof.
  intros Hh Htr Hf. unfold begin_. rewrite Hh. apply wp_bind. eapply wp_mono.
  { by eapply First_head. }
  intros res h' (-> & [[-> ->]|(c & x & sz & bh & b & v & r & Et & -> & Hs)]);
    apply wp_ret; (split; [done|]).
  - exists hd. split_and!; [done|by left|]. intros _. unfold end_. by rewrite Hh.
  - exists x. split_and!; [done| |].
    2: { intros El. rewrite El in Et. symmetry in Et. by apply plug_not_leaf in Et. }
    apply at_pos_cursor.
    pose proof (at_node _ hd c Leaf x sz bh b v r Et) as Hat.
    rewrite (left_spine_cpre c Hs) in Hat. exact Hat.
Qed.

Lemma cursor_at_inj h this hd t a b i j :
  head_ this = Some hd -> tree_rep h this t ->
  cursor_at t hd a i -> cursor_at t hd b j -> (a = b <-> i = j).
Proof.
  intros Hh Htr Ha Hb.
  pose proof (tree_rep_nodup _ _ _ _ Hh Htr) as Hnd.
  apply NoDup_cons in Hnd as [Hnhd Hnd].
  assert (Hin : forall x k v, elems t !! k = Some (x, v) -> x ∈ (elems t).*1 /\ (k < count t)%nat).
  { intros x k v Hk. split.
    - apply list_elem_of_fmap. exists (x, v). split; [done|]. by eapply list_elem_of_lookup_2.
    - apply lookup_lt_Some in Hk. by rewrite count_elems in Hk. }
  destruct Ha as [[-> ->]|[v Hi]], Hb as [[-> ->]|[w Hj]].
  - done.
  - destruct (Hin _ _ _ Hj). split; [intros <-; done|lia].
  - destruct (Hin _ _ _ Hi). split; [intros ->; done|lia].
  - split.
    + intros <-. eapply NoDup_lookup; [exact Hnd| |];
        rewrite list_lookup_fmap; [by rewrite Hi|by rewrite Hj].
    + intros <-. congruence.
Qed.

(** X15: for two cursors of a tree, [operator-] returns the difference of
    their indices, [operator<], [operator<=], [operator>] and [operator>=]
    compare the indices, and [operator==] holds exactly when the indices are
    equal. *)
Theorem cursor_comparisons fuel h this hd t a b i j :
  head_ this = Some hd -> tree_rep h this t -> valid t ->
  Z.of_nat (count t) <= max_size -> (height t + 2 <= fuel)%nat ->
  cursor_at t hd a i -> cursor_at t hd b j ->
  let ia := mkIterator (Some a) in
  let ib := mkIterator (Some b) in
  wp (Iterator_diff fuel ia ib) h (fun d h' => h' = h /\ d = Z.of_nat i - Z.of_nat j)
  /\ wp (Iterator_lt fuel ia ib) h (fun res h' => h' = h /\ res = (i <? j)%nat)
  /\ wp (Iterator_le fuel ia ib) h (fun res h' => h' = h /\ res = (i <=? j)%nat)
  /\ wp (Iterator_gt fuel ia ib) h (fun res h' => h' = h /\ res = (j <? i)%nat)
  /\ wp (Iterator_ge fuel ia ib) h (fun res h' => h' = h /\ res = (j <=? i)%nat)
  /\ (Iterator_eq ia ib = true <-> i = j)
  /\ (Iterator_ne ia ib = true <-> i <> j).
Proof.
  intros Hh Htr Hv Hsz Hf Ha Hb ia ib.
  pose proof (valid_tsize _ Hv) as Hst.
  assert (Hsz' : tsize t <= max_size) by lia.
  assert (Hd : forall x y m n, cursor_at t hd x m -> cursor_at t hd y n ->
    wp (Difference_ fuel (Some x) (Some y)) h (fun d h' =>
      h' = h /\ d = Z.of_nat m - Z.of_nat n)).
  { intros x y m n Hx Hy.
    eapply (Difference_spec fuel h this hd t x m y n); try done;
      by apply cursor_at_pos. }
  assert (Hlt : forall x y m n, cursor_at t hd x m -> cursor_at t hd y n ->
    wp (Iterator_lt fuel (mkIterator (Some x)) (mkIterator (Some y))) h (fun res h' =>
      h' = h /\ res = (m <? n)%nat)).
  { intros x y m n Hx Hy. unfold Iterator_lt. simpl. apply wp_bind.
    eapply wp_mono; [by apply (Hd x y m n)|].
    intros d h' (-> & ->). apply wp_ret. split; [done|].
    destruct (Nat.ltb_spec m n), (Z.ltb_spec (Z.of_nat m - Z.of_nat n) 0); lia || done. }
  pose proof (cursor_at_inj h this hd t a b i j Hh Htr Ha Hb) as Hinj.
  split_and!.
  - by apply Hd.
  - by apply Hlt.
  - unfold Iterator_le. apply wp_bind. eapply wp_mono; [by apply (Hlt b a j i)|].
    intros res h' (-> & ->). apply wp_ret. split; [done|].
    destruct (Nat.ltb_spec j i), (Nat.leb_spec i j); lia || done.
  - by apply Hlt.
  - unfold Iterator_ge. apply wp_bind. eapply wp_mono; [by apply (Hlt a b i j)|].
    intros res h' (-> & ->). apply wp_ret. split; [done|].
    destruct (Nat.ltb_spec i j), (Nat.leb_spec j i); lia || done.
  - unfold Iterator_eq, ia, ib. simpl. rewrite Pos.eqb_eq. done.
  - unfold Iterator_ne, ia, ib. simpl. rewrite negb_true_iff, Pos.eqb_neq. tauto.
Qed.

(** X16: [operator[]] of a cursor of index [i] with an offset [k] such that
    [0 <= i + k < size] returns the value at index [i + k]. *)
Theorem cursor_index_returns_value fuel h this hd t a i k :
  head_ this = Some hd -> tree_rep h this t -> valid t ->
  Z.of_nat (count t) <= max_size -> (height t + 2 <= fuel)%nat ->
  cursor_at t hd a i -> 0 <= Z.of_nat i + k < Z.of_nat (count t) ->
  wp (Iterator_index fuel (mkIterator (Some a)) k) h (fun v h' =>
    h' = h /\ values t !! Z.to_nat (Z.of_nat i + k) = Some v).
Proof.
  intros Hh Htr Hv Hsz Hf Hat Hk. pose proof (valid_tsize _ Hv) as Hst.
  unfold max_size in Hsz. unfold Iterator_index. simpl. apply wp_bind.
  eapply wp_mono.
  { eapply (Advance_spec fuel h this hd t a i k); try done; [lia| |lia].
    by apply cursor_at_pos. }
  intros res h' (-> & m & j & -> & Hm & Ej).
  replace (Z.to_nat (Z.of_nat i + k)) with j by lia.
  destruct Hm as [|c l x sz bh b v r Et]; [lia|].
  rewrite Et in Htr.
  destruct (plug_node_lookup _ _ _ _ _ _ _ _ _ _ Htr) as ((n & Hn & Hvn) & Hlk).
  unfold get_value. apply wp_bind. eapply wp_get; [exact Hn|]. rewrite Hvn.
  apply wp_ret. split; [done|]. by rewrite Et.
Qed.

(** ** Stepping a cursor *)

Lemma climb_left_top h hd : forall c fuel nd (n : Node_),
  rep_ctx h (Some hd) c (Some nd) ->
  h !! hd = Some (head_node (Some (ctop c nd))) ->
  h !! nd = Some n -> parent n = parent_of c (Some hd) ->
  nd ∉ hd :: caddrs c -> hd ∉ caddrs c -> NoDup (caddrs c) ->
  forallb is_InL c = true -> (length c + 2 <= fuel)%nat ->
  wp (climb_left fuel (Some nd)) h (fun res h' => h' = h /\ res = Some hd).
Proof.
  induction c as [|f c IH]; intros fuel nd n Hc Hhd Hnd Hp Hn Hh Hdup H1 Hf;
    (destruct fuel as [|fuel]; [simpl in Hf; lia|]);
    simpl climb_left; apply wp_bind; (eapply wp_get; [exact Hnd|]); rewrite Hp.
  - destruct fuel as [|fuel]; [simpl in Hf; lia|].
    cbn [parent_of]. unfold ctop in Hhd. simpl in Hhd. nodup_all.
    cbn [is_null]. cbv iota. apply wp_bind. eapply wp_get; [exact Hhd|].
    cbn [head_node left]. rewrite ptr_eqb_refl.
    simpl climb_left. apply wp_bind. eapply wp_get; [exact Hhd|].
    cbn [head_node parent is_null]. cbv iota. by apply wp_ret.
  - destruct f as [a sz bh b v r|]; [|done]. simpl in H1, Hf.
    rewrite ctop_cons in Hhd. cbn [faddr] in Hhd.
    simpl in Hc. destruct Hc as (Ha & Hr & Hc). nodup_all.
    cbn [parent_of faddr]. simpl_fields. wp_run.
    eapply wp_mono.
    { eapply (IH fuel a _); [done|exact Hhd|exact Ha|done|solve_distinct|done|done|done|lia]. }
    intros res h' (-> & ->). done.
Qed.

Lemma Next_spec fuel h this hd t a i :
  head_ this = Some hd -> tree_rep h this t -> (height t + 2 <= fuel)%nat ->
  cursor_at t hd a i -> (i < count t)%nat ->
  wp (Next_ fuel (Some a)) h (fun res h' =>
    h' = h /\ exists m, res = Some m /\ cursor_at t hd m (S i)).
Proof.
  intros Hh Htr Hf Hat Hi. apply cursor_at_pos in Hat.
  destruct Hat as [|c l x sz bh b v r Et]; [lia|].
  pose proof Htr as Htr'. rewrite Et in Htr'.
  pose proof (tree_rep_plug _ _ _ _ _ Hh Htr') as (Hhd & Hc & Hx & Hnd).
  pose proof (length_plug_height c (Node l x sz bh b v r)) as Hlen.
  rewrite <- Et in Hlen. simpl in Hlen.
  simpl in Hx. destruct Hx as (Hx & Hl & Hr).
  unfold Next_. apply wp_bind. eapply wp_get; [exact Hx|]. cbn [right].
  destruct r as [|rl ra rsz rbh rb rv rr].
  - cbn [root is_null]. cbv iota.
    destruct (span_InR c) as (c1 & c2 & Ec & H1 & H2).
    assert (length c = (length c1 + length c2)%nat) as Hlc by (by rewrite Ec, length_app).
    rewrite Ec in Hc, Hnd, Hx.
    apply wp_bind. eapply wp_mono.
    { nodup_all.
      eapply (climb_right_spec h hd _ c1 c2 fuel x _);
        [exact Hc|exact Hhd|exact Hx|done|solve_distinct|done|done|done|done|lia]. }
    intros res h' (-> & m & n' & -> & Hm & Hpm).
    eapply wp_get; [exact Hm|]. rewrite Hpm. split; [done|].
    destruct c2 as [|[a2 sz2 bh2 b2 v2 r2|] c3]; [| |done]; cbn [parent_of faddr].
    + exists hd. split; [done|]. left. split; [done|].
      rewrite Et, Ec, app_nil_r, count_plug_pre_post, (cpost_InR c1 H1). simpl.
      lia.
    + exists a2. split; [done|]. apply at_pos_cursor.
      assert (t = plug c3 (Node (plug c1 (Node l x sz bh b v Leaf)) a2 sz2 bh2 b2 v2 r2)) as Et2.
      { by rewrite Et, Ec, plug_app. }
      pose proof (at_node _ hd c3 _ a2 sz2 bh2 b2 v2 r2 Et2) as Hat.
      rewrite count_plug_pre_post, (cpost_InR c1 H1) in Hat. simpl in Hat.
      rewrite Ec, cpre_app, length_app. simpl.
      replace (S (length (cpre c3) + length (cpre c1) + count l))
        with (length (cpre c3) + (length (cpre c1) + S (count l + 0) + 0))%nat by lia.
      exact Hat.
  - set (r := Node rl ra rsz rbh rb rv rr) in *.
    change (is_null (root r)) with false. cbv iota.
    eapply wp_mono.
    { eapply (First_spec fuel h (Some x) r); [exact Hr|done|]. simpl in Hlen |- *. lia. }
    intros res h' (-> & c' & y & sz' & bh' & b' & v' & r' & Er & -> & Hs).
    split; [done|]. exists y. split; [done|]. apply at_pos_cursor.
    assert (t = plug (c' ++ InR l x sz bh b v :: c) (Node Leaf y sz' bh' b' v' r')) as Et2.
    { rewrite plug_app. simpl. by rewrite <- Er. }
    pose proof (at_node _ hd _ _ y sz' bh' b' v' r' Et2) as Hat.
    rewrite cpre_app, (left_spine_cpre c' Hs) in Hat. cbn [cpre] in Hat.
    rewrite !length_app, count_elems in Hat. simpl in Hat.
    replace (S (length (cpre c) + count l))
      with (length (cpre c) + (count l + 1) + 0 + 0)%nat by lia.
    exact Hat.
Qed.

Lemma Next_end fuel h this hd t :
  head_ this = Some hd -> tree_rep h this t -> (0 < fuel)%nat ->
  wp (Next_ fuel (Some hd)) h (fun res h' => h' = h /\ res = None).
Proof.
  intros Hh (hd' & Hh' & Hhd & _) Hf. assert (hd' = hd) as -> by congruence.
  destruct fuel as [|fuel]; [lia|].
  unfold Next_. apply wp_bind. eapply wp_get; [exact Hhd|].
  cbn [head_node right is_null]. cbv iota. simpl climb_right.
  apply wp_bind. apply wp_bind. eapply wp_get; [exact Hhd|].
  cbn [head_node parent is_null]. cbv iota. apply wp_ret.
  eapply wp_get; [exact Hhd|]. done.
Qed.

Lemma Prev_spec fuel h this hd t a i :
  head_ this = Some hd -> tree_rep h this t -> (height t + 2 <= fuel)%nat ->
  cursor_at t hd a i -> (0 < i)%nat ->
  wp (Prev_ fuel (Some a)) h (fun res h' =>
    h' = h /\ exists m, res = Some m /\ cursor_at t hd m (i - 1)).
Proof.
  intros Hh Htr Hf Hat Hi. apply cursor_at_pos in Hat.
  destruct Hat as [|c l x sz bh b v r Et].
  - pose proof Htr as (hd' & Hh' & Hhd & Hr & _).
    assert (hd' = hd) as -> by congruence.
    unfold Prev_. apply wp_bind. eapply wp_get; [exact Hhd|]. cbn [head_node left].
    destruct t as [|tl ta tsz tbh tb tv tr]; [simpl in Hi; lia|].
    set (t := Node tl ta tsz tbh tb tv tr) in *.
    change (is_null (root t)) with false. cbv iota.
    eapply wp_mono.
    { eapply (Last_spec fuel h (Some hd) t); [exact Hr|done|lia]. }
    intros res h' (-> & c & l & x & sz & bh & b & v & Et & -> & Hs).
    split; [done|]. exists x. split; [done|]. apply at_pos_cursor.
    pose proof (at_node _ hd c l x sz bh b v Leaf Et) as Hat.
    replace (count t - 1)%nat with (length (cpre c) + count l)%nat; [done|].
    rewrite Et. rewrite count_plug_pre_post, (right_spine_cpost c Hs). simpl. lia.
  - pose proof Htr as Htr'. rewrite Et in Htr'.
    pose proof (tree_rep_plug _ _ _ _ _ Hh Htr') as (Hhd & Hc & Hx & Hnd).
    pose proof (length_plug_height c (Node l x sz bh b v r)) as Hlen.
    rewrite <- Et in Hlen. simpl in Hlen.
    simpl in Hx. destruct Hx as (Hx & Hl & Hr).
    unfold Prev_. apply wp_bind. eapply wp_get; [exact Hx|]. cbn [left].
    destruct l as [|ll la lsz lbh lb lv lr].
    + cbn [root is_null]. cbv iota.
      destruct (span_InL c) as (c1 & c2 & Ec & H1 & H2).
      assert (length c = (length c1 + length c2)%nat) as Hlc by (by rewrite Ec, length_app).
      assert (length (cpre c) = length (cpre c2)) as Hpre.
      { rewrite Ec, cpre_app, length_app, (cpre_InL c1 H1). simpl. lia. }
      rewrite Ec in Hc, Hnd, Hx.
      destruct c2 as [|[|l2 a2 sz2 bh2 b2 v2] c3]; [simpl in *; lia|done|].
      apply wp_bind. eapply wp_mono.
      { nodup_all.
        eapply (climb_left_spec h hd _ c1 _ fuel x _);
          [exact Hc|exact Hhd|exact Hx|done|solve_distinct|done|done|done|done|lia]. }
      intros res h' (-> & m & n' & -> & Hm & Hpm).
      eapply wp_get; [exact Hm|]. rewrite Hpm. split; [done|].
      cbn [parent_of faddr]. exists a2. split; [done|]. apply at_pos_cursor.
      assert (t = plug c3 (Node l2 a2 sz2 bh2 b2 v2 (plug c1 (Node Leaf x sz bh b v r)))) as Et2.
      { by rewrite Et, Ec, plug_app. }
      pose proof (at_node _ hd c3 _ a2 sz2 bh2 b2 v2 _ Et2) as Hat.
      cbn [cpre] in Hpre. rewrite !length_app, count_elems in Hpre. simpl in Hpre.
      replace (length (cpre c) + count Leaf - 1)%nat
        with (length (cpre c3) + count l2)%nat by (simpl; lia).
      exact Hat.
    + set (l := Node ll la lsz lbh lb lv lr) in *.
      change (is_null (root l)) with false. cbv iota.
      eapply wp_mono.
      { eapply (Last_spec fuel h (Some x) l); [exact Hl|done|]. simpl in Hlen |- *. lia. }
      intros res h' (-> & c' & l' & y & sz' & bh' & b' & v' & El & -> & Hs).
      split; [done|]. exists y. split; [done|]. apply at_pos_cursor.
      assert (t = plug (c' ++ InL x sz bh b v r :: c) (Node l' y sz' bh' b' v' Leaf)) as Et2.
      { rewrite plug_app. simpl. by rewrite <- El. }
      pose proof (at_node _ hd _ _ y sz' bh' b' v' Leaf Et2) as Hat.
      rewrite cpre_app in Hat. cbn [cpre] in Hat. rewrite length_app in Hat.
      replace (length (cpre c) + count l - 1)%nat
        with (length (cpre c) + length (cpre c') + count l')%nat; [done|].
      rewrite El. rewrite count_plug_pre_post, (right_spine_cpost c' Hs). simpl. lia.
Qed.

Lemma cpre_nil_InL c : cpre c = [] -> forallb is_InL c = true.
Proof.
  induction c as [|f c IH]; [done|]. destruct f; simpl.
  - exact IH.
  - intros E. apply app_eq_nil in E as [_ E]. apply app_eq_nil in E as [_ E]. done.
Qed.

Lemma Prev_first fuel h this hd t a i :
  head_ this = Some hd -> tree_rep h this t -> (height t + 2 <= fuel)%nat ->
  cursor_at t hd a i -> i = 0%nat ->
  wp (Prev_ fuel (Some a)) h (fun res h' => h' = h /\ res = None).
Proof.
  intros Hh Htr Hf Hat Ei. apply cursor_at_pos in Hat.
  destruct Hat as [|c l x sz bh b v r Et].
  - pose proof Htr as (hd' & Hh' & Hhd & Hr & _).
    assert (hd' = hd) as -> by congruence.
    destruct t; [|simpl in Ei; lia]. simpl in Hhd.
    destruct fuel as [|fuel]; [lia|].
    unfold Prev_. apply wp_bind. eapply wp_get; [exact Hhd|].
    cbn [head_node left is_null]. cbv iota. simpl climb_left.
    apply wp_bind. apply wp_bind. eapply wp_get; [exact Hhd|].
    cbn [head_node parent is_null]. cbv iota. apply wp_ret.
    eapply wp_get; [exact Hhd|]. done.
  - assert (cpre c = [] /\ l = Leaf) as [Hpre ->].
    { destruct (cpre c); [|simpl in Ei; lia]. destruct l; [done|simpl in Ei; lia]. }
    pose proof Htr as Htr'. rewrite Et in Htr'.
    pose proof (tree_rep_plug _ _ _ _ _ Hh Htr') as (Hhd & Hc & Hx & Hnd).
    pose proof (length_plug_height c (Node Leaf x sz bh b v r)) as Hlen.
    rewrite <- Et in Hlen. simpl in Hlen.
    simpl in Hx. destruct Hx as (Hx & Hl & Hr).
    rewrite (root_plug_ctop c (Node Leaf x sz bh b v r) x eq_refl) in Hhd.
    unfold Prev_. apply wp_bind. eapply wp_get; [exact Hx|].
    cbn [left root is_null]. cbv iota.
    apply wp_bind. eapply wp_mono.
    { nodup_all.
      eapply (climb_left_top h hd c fuel x _);
        [exact Hc|exact Hhd|exact Hx|done|solve_distinct|done|done
        |by apply cpre_nil_InL|lia]. }
    intros res h' (-> & ->).
    destruct Htr as (hd' & Hh' & Hhd' & _). assert (hd' = hd) as -> by congruence.
    eapply wp_get; [exact Hhd'|]. done.
Qed.

(** X17: [operator++] moves a cursor of index [i] below the size to the
    cursor of index [i + 1], the end cursor after the last element; applied
    to the end cursor it gives the null cursor. *)
Theorem cursor_increment fuel h this hd t a i :
  head_ this = Some hd -> tree_rep h this t -> (height t + 2 <= fuel)%nat ->
  cursor_at t hd a i ->
  wp (Iterator_inc fuel (mkIterator (Some a))) h (fun it h' =>
    h' = h
    /\ ((i < count t)%nat -> exists m, it = mkIterator (Some m) /\ cursor_at t hd m (S i))
    /\ (i = count t -> Iterator_is_null it = true)).
Proof.
  intros Hh Htr Hf Hat. unfold Iterator_inc. simpl. apply wp_bind.
  pose proof (cursor_at_le _ _ _ _ Hat) as Hle.
  destruct (decide (i = count t)) as [Ei|Ni].
  - assert (a = hd) as ->.
    { apply (cursor_at_inj h this hd t a hd i (count t) Hh Htr Hat); [by left|done]. }
    eapply wp_mono; [eapply (Next_end fuel h this hd t); [done|done|lia]|].
    intros res h' (-> & ->). apply wp_ret. split_and!; [done|lia|done].
  - eapply wp_mono; [eapply (Next_spec fuel h this hd t a i); [done..|lia]|].
    intros res h' (-> & m & -> & Hm). apply wp_ret. split_and!; [done| |done].
    intros _. by exists m.
Qed.

(** X18: [operator--] moves a cursor of index [i] above 0, the end cursor
    included, to the cursor of index [i - 1]; applied to the cursor of
    index 0 it gives the null cursor. *)
Theorem cursor_decrement fuel h this hd t a i :
  head_ this = Some hd -> tree_rep h this t -> (height t + 2 <= fuel)%nat ->
  cursor_at t hd a i ->
  wp (Iterator_dec fuel (mkIterator (Some a))) h (fun it h' =>
    h' = h
    /\ ((0 < i)%nat -> exists m, it = mkIterator (Some m) /\ cursor_at t hd m (i - 1))
    /\ (i = 0%nat -> Iterator_is_null it = true)).
Proof.
  intros Hh Htr Hf Hat. unfold Iterator_dec. simpl. apply wp_bind.
  destruct i as [|i].
  - eapply wp_mono; [by eapply (Prev_first fuel h this hd t a 0)|].
    intros res h' (-> & ->). apply wp_ret. split_and!; [done|lia|done].
  - eapply wp_mono; [eapply (Prev_spec fuel h this hd t a (S i)); [done..|lia]|].
    intros res h' (-> & m & -> & Hm). apply wp_ret. split_and!; [done| |done].
    intros _. by exists m.
Qed.

(** ** Clearing, destroying, merging with an empty tree *)

(** X19: [clear] frees every node of the tree and keeps the head node: the
    tree is left without elements, and the rest of the store is as before. *)
Theorem clear_frees_nodes fuel h this hd t :
  head_ this = Some hd -> tree_rep h this t -> (2 * count t + 2 <= fuel)%nat ->
  wp (clear fuel this) h (fun _ h' =>
    tree_rep h' this Leaf
    /\ (forall x, x ∈ addrs t -> h' !! x = None)
    /\ (forall x, x ∉ hd :: addrs t -> h' !! x = h !! x)).
Proof.
  intros Hh Htr Hf. unfold clear. eapply wp_mono; [by eapply ClearTree_spec|].
  intros _ h' (Hl & Hf1 & Hf2). split_and!; try done.
  intros x Hx. apply not_elem_of_cons in Hx as [Hne Hx].
  rewrite Hf2 by done. by apply lookup_insert_ne.
Qed.

(** X20: the destructor frees every node of the tree and the head node, and
    leaves the rest of the store as it was. *)
Theorem destroy_frees_everything fuel h this hd t :
  head_ this = Some hd -> tree_rep h this t -> (2 * count t + 2 <= fuel)%nat ->
  wp (RBTree_destroy fuel this) h (fun _ h' =>
    (forall x, x ∈ hd :: addrs t -> h' !! x = None)
    /\ (forall x, x ∉ hd :: addrs t -> h' !! x = h !! x)).
Proof.
  intros Hh Htr Hf. unfold RBTree_destroy. apply wp_bind.
  eapply wp_mono; [by eapply ClearTree_spec|].
  intros _ h' ((hd' & Hh' & Hhd' & _) & Hf1 & Hf2).
  assert (hd' = hd) as -> by congruence. rewrite Hh.
  exists tt, (delete hd h'). split; [unfold free; by rewrite Hhd'|]. split.
  - intros x [->|Hx]%elem_of_cons; [apply lookup_delete_eq|].
    destruct (decide (x = hd)) as [->|Hne]; [apply lookup_delete_eq|].
    rewrite lookup_delete_ne by done. by apply Hf1.
  - intros x Hx. apply not_elem_of_cons in Hx as [Hne Hx].
    rewrite lookup_delete_ne by done. rewrite Hf2 by done.
    by apply lookup_insert_ne.
Qed.

(** X21: [merge] with an argument without elements changes nothing, and
    [merge] into a receiver without elements moves no node: it exchanges
    the head nodes of the two trees, so the receiver takes the head node
    and with it the end cursor of the argument. *)
Theorem merge_with_empty fuel h this tree t :
  (tree_rep h this t -> tree_rep h tree Leaf ->
     merge fuel this tree h = Some ((this, tree), h))
  /\ (tree_rep h this Leaf -> tree_rep h tree t -> t <> Leaf ->
     merge fuel this tree h
       = Some ((mkRBTree (head_ tree), mkRBTree (head_ this)), h)).
Proof.
  assert (Hg : forall o u hd, head_ o = Some hd -> tree_rep h o u ->
            empty o h = Some (is_null (root u), h)).
  { intros o u hd Hh (hd' & Hh' & Hhd & _). assert (hd' = hd) as -> by congruence.
    unfold empty, get, bind, load, ret. rewrite Hh, Hhd. done. }
  split.
  - intros _ Htr. pose proof Htr as (hd & Hh & _).
    unfold merge, bind. by rewrite (Hg tree Leaf hd Hh Htr).
  - intros Htr1 Htr2 Hne. pose proof Htr1 as (hd1 & Hh1 & _).
    pose proof Htr2 as (hd2 & Hh2 & _).
    unfold merge, bind. rewrite (Hg tree t hd2 Hh2 Htr2).
    destruct t; [done|]. simpl. by rewrite (Hg this Leaf hd1 Hh1 Htr1).
Qed.

(** X22: inserting a value at a cursor of the tree and erasing at the
    returned cursor gives back the sequence of values the tree had. *)
Theorem insert_then_erase fuel h this t it val :
  tree_rep h this t -> rb_tree t -> Z.of_nat (count t) < max_size ->
  (count t + 1 < fuel)%nat -> cursor_of this t it ->
  wp (do res <- insert_ fuel this it val; erase fuel this res) h (fun _ h' =>
    exists t', tree_rep h' this t' /\ rb_tree t' /\ values t' = values t).
Proof.
  intros Htr Hrb Hsz Hf Hit. pose proof Htr as (hd & Hh & _).
  apply wp_bind. eapply wp_mono.
  { eapply (insert_before_cursor_aux fuel h this t it val); try done. lia. }
  intros res h1 (b & E1 & E2 & t1 & -> & Hb & He & Htr1 & Hrb1 & He1).
  assert (Hc1 : count t1 = S (count t)).
  { rewrite <- !count_elems, He1, He, !length_app. simpl. lia. }
  assert (Hin : b ∈ addrs t1).
  { rewrite addrs_elems, He1, fmap_app, elem_of_app. right. simpl.
    apply elem_of_cons. by left. }
  pose proof (tree_rep_nodup _ _ _ _ Hh Htr1) as Hnd.
  apply NoDup_cons in Hnd as [_ Hnd]. rewrite He1 in Hnd.
  destruct (rb_bounds t1 Hrb1 ltac:(lia)) as (Hst & Hlt & Hht).
  destruct (in_addrs_plug _ _ Hin) as (c & xl & sz & bh & bl & v & xr & Et).
  assert ((xl = Leaf \/ xr = Leaf) \/ (xl <> Leaf /\ xr <> Leaf)) as Hcase.
  { destruct xl; [by left; left|]. destruct xr; [by left; right|]. by right. }
  assert (Hb2 : (height t1 < fuel)%nat) by lia.
  rewrite Et in Htr1, Hrb1, Hlt, Hb2.
  destruct Hcase as [Hs|[Hl Hr]].
  - eapply wp_mono.
    { eapply (erase_simple fuel h1 this hd c xl b sz bh bl v xr); done. }
    intros _ h' (_ & F1 & F2 & Hf' & Hins). rewrite <- Et in Hf'.
    destruct Hins as (t' & Htr' & Hrb' & He' & _).
    rewrite He1 in Hf'.
    destruct (split_unique E1 F1 E2 F2 b val v Hnd Hf') as (<- & _ & <-).
    exists t'. split_and!; try done. by rewrite !values_elems, He', He.
  - eapply wp_mono.
    { eapply (erase_two fuel h1 this hd c xl b sz bh bl v xr); done. }
    intros _ h' (F1 & tmp & tv & F2 & Hf' & _ & Hins). rewrite <- Et in Hf'.
    destruct Hins as (t' & Htr' & Hrb' & He' & _).
    rewrite He1 in Hf'.
    assert (Hf'' : E1 ++ (b, val) :: E2 = (F1 ++ [(tmp, tv)]) ++ (b, v) :: F2).
    { by rewrite <- app_assoc. }
    destruct (split_unique E1 (F1 ++ [(tmp, tv)]) E2 F2 b val v Hnd Hf'') as (E1' & <- & <-).
    exists t'. split_and!; try done.
    rewrite !values_elems, He', He, E1', !fmap_app. simpl. by rewrite <- app_assoc.
Qed.

(** ** [insert_merge] and [erase_and_split] *)

(** X23: [insert_merge] makes the sequence of the receiver its previous
    sequence, the new value, and the previous sequence of the argument, and
    leaves the argument without elements; the invariants hold again. *)
Theorem insert_merge_joins fuel h this tree t1 t2 val :
  tree_rep h this t1 -> tree_rep h tree t2 -> rb_tree t1 -> rb_tree t2 ->
  disj (footprint this t1) (footprint tree t2) ->
  Z.of_nat (count t1 + count t2) < max_size ->
  (count t1 < fuel)%nat -> (count t2 < fuel)%nat ->
  wp (insert_merge fuel this tree val) h (fun _ h' =>
    exists m t', h !! m = None /\ tree_rep h' this t' /\ rb_tree t'
      /\ elems t' = elems t1 ++ (m, val) :: elems t2
      /\ values t' = values t1 ++ val :: values t2
      /\ tree_rep h' tree Leaf).
Proof.
  intros Htr1 Htr2 Hrb1 Hrb2 Hd Hsz Hf1 Hf2.
  pose proof Htr1 as (hd1 & Hh1 & Hhd1 & Hr1 & Hn1 & Hnd1).
  pose proof Htr2 as (hd2 & Hh2 & Hhd2 & Hr2 & Hn2 & Hnd2).
  unfold footprint in Hd. rewrite Hh1, Hh2 in Hd. simpl in Hd.
  pose proof (valid_tsize _ (proj1 Hrb1)) as Hs1.
  pose proof (valid_tsize _ (proj1 Hrb2)) as Hs2.
  pose proof (height_le_count t1). pose proof (height_le_count t2).
  unfold max_size in Hsz.
  unfold insert_merge, GenNode_. rewrite Hh1, Hh2.
  apply wp_bind. eapply wp_get; [exact Hhd1|]. cbn [head_node left].
  apply wp_bind. apply wp_malloc. intros m Hm.
  pose proof (tree_rep_fresh _ _ _ _ _ Hh1 Htr1 Hm) as Hm1.
  pose proof (tree_rep_fresh _ _ _ _ _ Hh2 Htr2 Hm) as Hm2.
  nodup_all.
  set (h1 := <[m := new_Node_ (Some val)]> h).
  assert (Hhd1' : h1 !! hd1 = Some (head_node (root t1))).
  { unfold h1. by rewrite lookup_insert_ne. }
  assert (Hhd2' : h1 !! hd2 = Some (head_node (root t2))).
  { unfold h1. by rewrite lookup_insert_ne. }
  assert (Hr1' : rep h1 (Some hd1) t1).
  { eapply rep_agree; [|exact Hr1]. intros y Hy. apply lookup_insert_ne. by intros ->. }
  assert (Hr2' : rep h1 (Some hd2) t2).
  { eapply rep_agree; [|exact Hr2]. intros y Hy. apply lookup_insert_ne. by intros ->. }
  assert (Hm' : h1 !! m = Some (new_Node_ (Some val))) by apply lookup_insert_eq.
  clearbody h1.
  apply wp_bind. eapply wp_get; [exact Hhd2'|]. cbn [head_node left].
  apply wp_bind. eapply wp_mono.
  { eapply (Merge_spec fuel h1 m _ val t1 t2 (Some hd1) (Some hd2));
      [done|done|exact Hm'|done|done|done|solve_distinct|lia|lia|lia]. }
  intros res h2 (t' & -> & Hs & (par & Hr') & Hb' & He' & Hfr1).
  destruct (merged_addrs t1 m val t2 t' He') as [Ea _].
  assert (NoDup (addrs t')) by (rewrite Ea; solve_distinct).
  assert (hd1 ∉ addrs t') by (rewrite Ea; solve_distinct).
  assert (hd2 ∉ addrs t') by (rewrite Ea; solve_distinct).
  unfold head_node in Hhd1', Hhd2'.
  wp_run.
  exists m, t'. split_and!; try done.
  - exists hd1. split_and!; [done|lookup|rep_frame|done|done].
  - by rewrite !values_elems, He', fmap_app.
  - exists hd2. split_and!; [done|lookup|done|solve_distinct|constructor].
Qed.

Lemma Split_nopivot fuel h this hd c xl x sz bh b v xr :
  head_ this = Some hd ->
  tree_rep h this (plug c (Node xl x sz bh b v xr)) ->
  rb_tree (plug c (Node xl x sz bh b v xr)) ->
  tsize (plug c (Node xl x sz bh b v xr)) < 2 ^ 64 ->
  (2 * count (plug c (Node xl x sz bh b v xr)) < fuel)%nat ->
  wp (Split_ fuel this (Some x) false) h
     (split_done h (cpre c ++ elems xl) (elems xr ++ cpost c)
        (caddrs c ++ addrs xl ++ addrs xr)).
Proof.
  intros Hh Htr [Hv Hblk] Hsz Hf.
  pose proof (tree_rep_plug _ _ _ _ _ Hh Htr) as (Hhd & Hc & Hx & Hnd).
  rewrite (valid_tsize _ Hv), count_plug_caddrs in Hsz.
  rewrite count_plug_caddrs in Hf. pose proof (length_caddrs c) as Hlc.
  apply valid_plug_inv in Hv as [Hvx Hcv]. apply ctx_valid_sibs in Hcv.
  simpl in Hx, Hvx, Hsz, Hf. destruct Hx as (Hx & Hxl & Hxr).
  destruct Hvx as (_ & _ & _ & _ & Hvl & Hvr).
  pose proof (valid_tsize _ Hvl) as Hsl. pose proof (valid_tsize _ Hvr) as Hsr.
  nodup_all.
  unfold Split_. wp_run.
  apply wp_bind. eapply (PaintBlack_spec _ (Some x) xl); [rep_frame|done|lia|done|].
  intros h1 Hl1 Hfr1.
  apply wp_bind. eapply (PaintBlack_spec _ (Some x) xr); [rep_frame|done|lia|done|].
  intros h2 Hr2 Hfr2.
  destruct (paint_props xl) as (Ple & Pla & Plr & Pls & Plc & Plh).
  destruct (paint_props xr) as (Pre & Pra & Prr & Prs & Prc & Prh).
  rewrite <- Plr, <- Prr. wp_run.
  eapply wp_mono.
  { eapply (Split_loop_spec this hd c fuel h2 x (paint xl) (paint xr) (Some x) (Some x));
      try done.
    - rep_frame.
    - eapply rep_rebase; [exact Hfr2|rewrite Pla; solve_distinct|exact Hl1].
    - by apply paint_rb.
    - by apply paint_rb.
    - rewrite Pla, Pra. solve_distinct.
    - solve_distinct.
    - rewrite Plc, Prc. lia.
    - rewrite Plc, Prc. lia. }
  intros res h4 (TL' & TR' & pL' & pR' & -> & ? & ? & ? & ? & EL & ER & Hfr4).
  exists TL', TR', pL', pR'. split_and!; try done.
  - by rewrite EL, Ple.
  - by rewrite ER, Pre.
  - rewrite Pla, Pra in Hfr4.
    eapply (frame_eq_trans _ _ h1).
    { eapply frame_eq_mono; [exact Hfr1|]. solve_elem. }
    eapply (frame_eq_trans _ _ h2).
    { eapply frame_eq_mono; [exact Hfr2|]. solve_elem. }
    exact Hfr4.
Qed.

(** X24: [erase_and_split] at a node of the tree frees that node, leaves
    the receiver with the elements before it and returns a new tree with
    the elements after it; both trees satisfy the invariants. *)
Theorem erase_and_split_parts fuel h this t x :
  tree_rep h this t -> rb_tree t -> Z.of_nat (count t) <= max_size ->
  (2 * count t < fuel)%nat -> x ∈ addrs t ->
  wp (erase_and_split fuel this (mkIterator (Some x))) h (fun ret h' =>
    exists E1 v E2 t1 t2,
      elems t = E1 ++ (x, v) :: E2 /\ h' !! x = None
      /\ tree_rep h' this t1 /\ rb_tree t1 /\ elems t1 = E1
      /\ tree_rep h' ret t2 /\ rb_tree t2 /\ elems t2 = E2
      /\ values t = values t1 ++ v :: values t2).
Proof.
  intros Htr Hrb Hsz Hf Hx. pose proof Htr as (hd & Hh & Hhd & _ & Hn & _).
  destruct (rb_bounds t Hrb Hsz) as (Hst & Hlt & _).
  pose proof (tree_rep_nodup _ _ _ _ Hh Htr) as Hnd.
  assert (x <> hd) by (by intros ->).
  unfold erase_and_split. cbn [ptr_].
  unfold RBTree_new, Init_. apply wp_bind. apply wp_bind.
  apply wp_malloc. intros hd2 Hb. apply wp_ret.
  pose proof (tree_rep_fresh _ _ _ _ _ Hh Htr Hb) as Hn2.
  assert (Htr1 : tree_rep (<[hd2:=new_Node_ None]> h) this t).
  { eapply tree_rep_frame; [done|apply frame_eq_insert| |done].
    nodup_all. solve_distinct. }
  destruct (in_addrs_plug _ _ Hx) as (c & xl & sz & bh & b & v & xr & ->).
  pose proof (tree_rep_plug _ _ _ _ _ Hh Htr1) as (_ & _ & Hxc & Hndp).
  simpl in Hxc. destruct Hxc as (Hxc & _ & _).
  cbn [head_]. apply wp_bind. eapply wp_mono.
  { by apply (Split_nopivot fuel _ this hd c xl x sz bh b v xr). }
  intros res h2 (TL & TR & pL & pR & -> & HL & HR & HbL & HbR & EL & ER & Hfr2).
  cbn [fst snd].
  rewrite elems_plug_pre_post in Hnd. cbn [elems] in Hnd.
  assert (EaL : addrs TL = (cpre c ++ elems xl).*1) by (by rewrite addrs_elems, EL).
  assert (EaR : addrs TR = (elems xr ++ cpost c).*1) by (by rewrite addrs_elems, ER).
  assert (Eat : forall y, y ∈ addrs (plug c (Node xl x sz bh b v xr))
            <-> y ∈ addrs TL \/ y = x \/ y ∈ addrs TR).
  { intros y. rewrite !addrs_elems, elems_plug_pre_post, EL, ER.
    cbn [elems].
    repeat (rewrite fmap_app || rewrite fmap_cons || rewrite elem_of_app
            || rewrite elem_of_cons).
    simpl. tauto. }
  assert (Hxfr : x ∉ caddrs c ++ addrs xl ++ addrs xr).
  { simpl in Hndp. nodup_all. solve_distinct. }
  assert (Hx2 : is_Some (h2 !! x)).
  { rewrite Hfr2 by exact Hxfr. by rewrite Hxc. }
  destruct Hx2 as [nx Hx2].
  assert (Hfr_hd2 : h2 !! hd2 = Some (new_Node_ None)).
  { rewrite Hfr2; [apply lookup_insert_eq|].
    intros Hin. apply Hn2. apply elem_of_cons. right. rewrite addrs_plug. simpl.
    rewrite !elem_of_app, elem_of_cons in *. tauto. }
  assert (Hfr_hd : h2 !! hd = Some (head_node (root (plug c (Node xl x sz bh b v xr))))).
  { rewrite Hfr2; [by rewrite lookup_insert_ne by (intros ->; apply Hn2, elem_of_cons; by left)|].
    intros Hin. apply Hn. rewrite addrs_plug. simpl.
    rewrite !elem_of_app, elem_of_cons in *. tauto. }
  repeat (rewrite fmap_app in Hnd || rewrite fmap_cons in Hnd). cbn [fst] in Hnd.
  rewrite fmap_app in EaL, EaR.
  nodup_all.
  assert (hd2 <> hd) by neq.
  assert (Hhd2n : hd2 ∉ addrs (plug c (Node xl x sz bh b v xr))) by done.
  assert (hd2 ∉ addrs TL /\ hd2 <> x /\ hd2 ∉ addrs TR) as (? & ? & ?).
  { split_and!; intros Hin; apply Hhd2n, Eat; tauto. }
  assert (NoDup (addrs TL)) by (rewrite EaL; solve_distinct).
  assert (NoDup (addrs TR)) by (rewrite EaR; solve_distinct).
  assert (hd ∉ addrs TL) by (rewrite EaL; solve_distinct).
  assert (hd ∉ addrs TR) by (rewrite EaR; solve_distinct).
  assert (x ∉ addrs TL) by (rewrite EaL; solve_distinct).
  assert (x ∉ addrs TR) by (rewrite EaR; solve_distinct).
  assert (disj (addrs TL) (addrs TR)) by (rewrite EaL, EaR; solve_distinct).
  apply wp_bind. eapply wp_FreeNode_; [exact Hx2|].
  set (h3 := delete x h2).
  assert (Hhd2' : h3 !! hd2 = Some (new_Node_ None)).
  { unfold h3. by rewrite lookup_delete_ne by done. }
  assert (Hhd' : h3 !! hd = Some (head_node (root (plug c (Node xl x sz bh b v xr))))).
  { unfold h3. by rewrite lookup_delete_ne by done. }
  assert (HL3 : rep h3 pL TL).
  { eapply rep_agree; [|exact HL]. intros y Hy. apply lookup_delete_ne. by intros ->. }
  assert (HR3 : rep h3 pR TR).
  { eapply rep_agree; [|exact HR]. intros y Hy. apply lookup_delete_ne. by intros ->. }
  assert (Hx3 : h3 !! x = None) by apply lookup_delete_eq.
  clearbody h3. clear HL HR.
  unfold new_Node_ in Hhd2'. unfold head_node in Hhd'. rewrite Hh.
  wp_run.
  exists (cpre c ++ elems xl), v, (elems xr ++ cpost c), TL, TR.
  split_and!; try done.
  - rewrite elems_plug_pre_post. list_assoc.
  - rewrite Hfr0 by done. rewrite lookup_insert_ne by done.
    rewrite Hfr by done. by rewrite lookup_insert_ne by done.
  - exists hd. split_and!; [done|lookup|rep_frame|done|done].
  - exists hd2. split_and!; [done|lookup|rep_frame|done|done].
  - rewrite !values_elems, EL, ER, elems_plug_pre_post. cbn [elems].
    repeat (rewrite fmap_app || rewrite fmap_cons). simpl. list_assoc.
Qed.

(** ** Partition by a predicate on cursors *)

Lemma PartitionBoundIter_loop_spec (func : ConstIterator_ -> bool) h :
  forall t fuel par (P F : list addr) last,
  rep h par t -> addrs t = P ++ F ->
  Forall (fun x => func (mkConstIterator (Some x)) = true) P ->
  Forall (fun x => func (mkConstIterator (Some x)) = false) F ->
  (height t < fuel)%nat ->
  wp (PartitionBoundIter_loop fuel func (root t) last) h (fun res h' =>
    h' = h /\ res = match F with [] => last | x :: _ => Some x end).
Proof.
  induction t as [|l IHl a sz bh b v r IHr]; intros fuel par P F last Hr Hv HP HF Hf;
    (destruct fuel as [|fuel]; [lia|]); cbn [PartitionBoundIter_loop root is_null].
  { apply wp_ret. split; [done|]. simpl in Hv. symmetry in Hv.
    apply app_eq_nil in Hv as [-> ->]. done. }
  simpl in Hr, Hv, Hf. destruct Hr as (Ha & Hl & Hrr).
  destruct (func (mkConstIterator (Some a))) eqn:Ev.
  - wp_run.
    destruct (mono_split_true (fun x => func (mkConstIterator (Some x)))
                _ _ _ _ _ Hv HF Ev) as (P' & -> & Er).
    apply Forall_app in HP as [HP1 HP2]. apply Forall_cons in HP2 as [_ HP2].
    eapply (IHr fuel _ P' F last); [done|done|done|done|lia].
  - wp_run.
    destruct (mono_split_false (fun x => func (mkConstIterator (Some x)))
                _ _ _ _ _ Hv HP Ev) as (F1 & El & ->).
    apply Forall_app in HF as [HF1 HF2].
    eapply wp_mono; [eapply (IHl fuel _ P F1 (Some a)); [done|done|done|done|lia]|].
    intros res h' (-> & ->). split; [done|]. by destruct F1.
Qed.

(** X25: for a predicate on cursors that is true on the cursors of a prefix
    [P] of the sequence and false on the rest [F], [iter_partition_bound]
    returns the first cursor of [F], and the end cursor when [F] is empty;
    the store is unchanged. *)
Theorem iter_partition_bound_first_false (func : ConstIterator_ -> bool)
  fuel h this t (P F : list addr) :
  tree_rep h this t -> addrs t = P ++ F ->
  Forall (fun x => func (mkConstIterator (Some x)) = true) P ->
  Forall (fun x => func (mkConstIterator (Some x)) = false) F ->
  (height t < fuel)%nat ->
  wp (iter_partition_bound fuel this func) h (fun it h' =>
    h' = h /\ it = match F with [] => end_ this | x :: _ => mkIterator (Some x) end).
Proof.
  intros (hd & Hh & Hhd & Hr & _) Hv HP HF Hf.
  unfold iter_partition_bound, PartitionBoundIter_. rewrite Hh. wp_run.
  eapply wp_mono.
  { eapply (PartitionBoundIter_loop_spec func h t fuel _ P F); done. }
  intros res h' (-> & ->). wp_run. split; [done|].
  unfold end_. rewrite Hh. by destruct F.
Qed.

(** ** The checker of the debug build *)

Lemma chk_bh_root h par t (Q : Z -> heap -> Prop) :
  rep h par t -> Q (bhf t) h ->
  wp (if is_null (root t) then ret 0 else get black_height (root t)) h Q.
Proof.
  destruct t; simpl; intros Hr HQ; [by apply wp_ret|].
  eapply wp_get; [apply Hr|done].
Qed.

Lemma chk_parent_root h (a : addr) t (Q : bool -> heap -> Prop) :
  rep h (Some a) t -> Q true h ->
  wp (if is_null (root t) then ret true
      else do p <- get parent (root t); ret (ptr_eqb p (Some a))) h Q.
Proof.
  destruct t; simpl; intros Hr HQ; [by apply wp_ret|].
  apply wp_bind. eapply wp_get; [apply Hr|]. apply wp_ret.
  cbn [parent]. by rewrite ptr_eqb_refl.
Qed.

Lemma CheckRB_spec h : forall t fuel par,
  rep h par t -> valid t -> tsize t <= max_size -> (height t < fuel)%nat ->
  wp (CheckRB_ fuel (root t)) h (fun res h' => res = true /\ h' = h).
Proof.
  induction t as [|l IHl a sz bh b v r IHr]; intros fuel par Hr Hv Hs Hf;
    (destruct fuel as [|fuel]; [lia|]); cbn [CheckRB_ root is_null].
  { by apply wp_ret. }
  pose proof (valid_bhf_bound _ Hv Hs) as Hbh.
  simpl in Hr, Hv, Hs, Hf, Hbh. destruct Hr as (Ha & Hl & Hrr).
  destruct Hv as (Hsz & Hbl & Hbr & Hred & Hvl & Hvr).
  pose proof (valid_tsize_nonneg _ Hvl). pose proof (valid_tsize_nonneg _ Hvr).
  pose proof (valid_bhf_nonneg _ Hvl).
  assert (0 <= Z.b2z b <= 1) by (destruct b; simpl; lia).
  apply wp_bind. eapply wp_load; [exact Ha|].
  cbn [left right parent size black_height black value].
  apply wp_bind. eapply chk_bh_root; [exact Hl|].
  apply wp_bind. eapply chk_bh_root; [exact Hrr|].
  apply wp_bind. eapply wp_is_red_root; [exact Hl|].
  apply wp_bind. eapply wp_is_red_root; [exact Hrr|].
  apply wp_bind. eapply chk_parent_root; [exact Hl|].
  apply wp_bind. eapply chk_parent_root; [exact Hrr|].
  apply wp_bind. eapply wp_Size_root; [exact Hl|].
  apply wp_bind. eapply wp_Size_root; [exact Hrr|].
  rewrite (uint8_t_small (bh - Z.b2z b)) by lia.
  rewrite (size_t_small (tsize l + tsize r)) by (unfold max_size in *; lia).
  rewrite (size_t_small (tsize l + tsize r + 1)) by lia.
  rewrite Hbl, Hbr, Z.eqb_refl.
  rewrite (proj2 (Z.eqb_eq sz (tsize l + tsize r + 1))) by done.
  assert (negb b && (negb (is_black l) || negb (is_black r)) = false) as ->.
  { destruct b; [done|]. by destruct (Hred eq_refl) as [-> ->]. }
  cbn [negb orb].
  apply wp_bind. eapply wp_mono.
  { eapply (IHl fuel); [exact Hl|done|lia|lia]. }
  intros res h' [-> ->]. eapply (IHr fuel); [exact Hrr|done|lia|lia].
Qed.

(** X26: on a tree with the invariants, the checker of the debug build,
    [check_], returns true and changes nothing. *)
Theorem check_accepts_invariants fuel h this t :
  tree_rep h this t -> rb_tree t -> Z.of_nat (count t) <= max_size ->
  (height t < fuel)%nat ->
  wp (check_ fuel this) h (fun res h' => res = true /\ h' = h).
Proof.
  intros (hd & Hh & Hhd & Hr & _) Hrb Hsz Hf.
  destruct (rb_bounds t Hrb Hsz) as (Hst & _ & _). destruct Hrb as [Hv Hb].
  unfold check_. rewrite Hh.
  apply wp_bind. eapply wp_get; [exact Hhd|]. cbn [head_node left].
  destruct t as [|l a sz bh b v r]; [by apply wp_ret|].
  cbn [root is_null]. simpl in Hb. subst b. pose proof Hr as (Ha & _).
  apply wp_bind. eapply wp_get; [exact Ha|]. cbn [black].
  eapply (CheckRB_spec h (Node l a sz bh true v r) fuel); [exact Hr|done|lia|done].
Qed.

(** ** Copies *)



(** ** Insertion, then lookup *)

(** X29: after [insert] of a value at the cursor of index [i], [operator[]]
    of the tree at [i] returns that value. *)
Theorem insert_then_index fuel h this hd t a i val :
  head_ this = Some hd -> tree_rep h this t -> rb_tree t ->
  Z.of_nat (count t) < max_size -> (count t < fuel)%nat ->
  cursor_at t hd a i ->
  wp (do_ insert_ fuel this (mkIterator (Some a)) val;
      at_ fuel this (Z.of_nat i)) h (fun v _ => v = val).
Proof.
  intros Hh Htr Hrb Hsz Hf Hat.
  pose proof (tree_rep_nodup _ _ _ _ Hh Htr) as Hnd.
  apply NoDup_cons in Hnd as [Hnhd Hnd].
  assert (Hit : cursor_of this t (mkIterator (Some a))).
  { destruct Hat as [[-> ->]|[v Hi]].
    - left. unfold end_. by rewrite Hh.
    - right. exists a. split; [done|]. rewrite addrs_elems.
      apply list_elem_of_fmap. exists (a, v). split; [done|].
      by eapply list_elem_of_lookup_2. }
  apply wp_bind. eapply wp_mono.
  { by apply (insert_before_cursor_full fuel h this t _ val). }
  intros res h' (b & E1 & E2 & t' & -> & Hb & He & Hc1 & Hc2 & Htr' & Hrb' & He' & Hv').
  assert (Hlen : length E1 = i).
  { destruct Hat as [[-> ->]|[v Hi]].
    - assert (E2 = []) as -> by (apply Hc2; unfold end_; by rewrite Hh).
      rewrite app_nil_r in He. by rewrite <- (count_elems t), He.
    - assert (Hin : a ∈ addrs t).
      { rewrite addrs_elems. apply list_elem_of_fmap. exists (a, v). split; [done|].
        by eapply list_elem_of_lookup_2. }
      destruct (Hc1 a eq_refl Hin) as (v' & E2' & ->).
      eapply (NoDup_lookup _ _ _ a Hnd).
      + rewrite He, list_lookup_fmap, list_lookup_middle; done.
      + by rewrite list_lookup_fmap, Hi. }
  assert (Hcnt : count t' = S (count t)).
  { rewrite <- (count_elems t'), <- (count_elems t), He', He, !length_app.
    simpl. lia. }
  destruct Hrb' as [Hv Hbl]. pose proof (height_le_count t').
  pose proof (cursor_at_le _ _ _ _ Hat).
  eapply wp_mono.
  { apply (at_values fuel h' this t' (Z.of_nat i)); try done; lia. }
  intros v h'' (_ & Hlk). rewrite Nat2Z.id, Hv' in Hlk.
  rewrite <- Hlen, <- (length_fmap snd E1), list_lookup_middle in Hlk by done.
  congruence.
Qed.

End Xtr.

Ltac concrete :=
  repeat match goal with
  | |- _ /\ _ => split
  | |- True => exact I
  | |- _ = _ => reflexivity
  | |- _ = _ => vm_compute; reflexivity
  | |- (_ < _)%nat => vm_compute; lia
  | |- (_ <= _)%nat => vm_compute; lia
  | |- _ <= _ => vm_compute; discriminate
  | |- _ < _ => vm_compute; reflexivity
  | |- _ ∉ _ => apply (bool_decide_unpack _); vm_compute; exact I
  | |- NoDup _ => apply (bool_decide_unpack _); vm_compute; exact I
  | |- _ ∈ _ => apply (bool_decide_unpack _); vm_compute; exact I
  | |- _ -> _ => let H := fresh in intros H; try discriminate H
  | |- _ <> _ => discriminate
  end.

Lemma ex_rep : tree_rep ex_heap ex_this ex_tree.
Proof. exists 1%positive. simpl. concrete. Qed.

Lemma ex_rep2 : tree_rep ex_heap ex_other ex_tree2.
Proof. exists 5%positive. simpl. concrete. Qed.

Lemma ex_rb : rb_tree ex_tree.
Proof. unfold rb_tree. simpl. concrete. Qed.

Lemma ex_rb2 : rb_tree ex_tree2.
Proof. unfold rb_tree. simpl. concrete. Qed.

Lemma ex_disj : disj (footprint ex_this ex_tree) (footprint ex_other ex_tree2).
Proof. unfold disj. simpl. repeat constructor; concrete. Qed.

Lemma ex_reachable : reachable ex_world.
Proof.
  apply (reach_push_back (mkWorld ex_h1 [ex_obj]) 0 ex_obj Leaf 5 7 ex_h2).
  - apply (reach_new (mkWorld ∅ []) ex_obj ex_h1); [apply reach_init|].
    vm_compute. reflexivity.
  - reflexivity.
  - exists 1%positive. simpl. concrete.
  - vm_compute. reflexivity.
  - simpl. lia.
  - vm_compute. reflexivity.
Qed.

Lemma reachable_rb_invariants_witness :
  reachable ex_world
  /\ exists hd t, head_ ex_obj = Some hd /\ tree_rep (w_heap ex_world) ex_obj t
       /\ is_black t = true
       /\ forall c l a sz bh b v r, t = plug c (Node l a sz bh b v r) ->
            node_inv (w_heap ex_world) hd c l a sz bh b v r.
Proof.
  split; [exact ex_reachable|].
  apply (reachable_rb_invariants ex_world 0 ex_obj); [exact ex_reachable|reflexivity].
Defined.

Lemma merge_concatenates_witness :
  wp (merge 10 ex_this ex_other) ex_heap (fun res h' =>
    exists t', tree_rep h' (fst res) t' /\ values t' = [10; 20; 30; 40]
      /\ tree_rep h' (snd res) Leaf).
Proof.
  eapply wp_mono.
  - apply (merge_concatenates 10 ex_heap ex_this ex_other ex_tree ex_tree2);
      [exact ex_rep|exact ex_rep2|exact ex_rb|exact ex_rb2|exact ex_disj
      |vm_compute; discriminate|simpl; lia|simpl; lia].
  - intros res h' (t' & Htr & _ & _ & Hv & Hl). exists t'. split_and!; done.
Defined.

Lemma ex_cursor : cursor_of ex_this ex_tree (mkIterator (Some 2%positive)).
Proof. right. exists 2%positive. simpl. concrete. Qed.

Lemma split_at_cursor_witness :
  wp (split 10 ex_this (mkIterator (Some 2%positive))) ex_heap (fun ret h' =>
    exists t1 t2, tree_rep h' ex_this t1 /\ tree_rep h' ret t2
      /\ values t1 ++ values t2 = [10; 20; 30]
      /\ exists V, values t2 = 20 :: V).
Proof.
  eapply wp_mono.
  - apply (split_at_cursor 10 ex_heap ex_this ex_tree (mkIterator (Some 2%positive)));
      [exact ex_rep|exact ex_rb|vm_compute; discriminate|simpl; lia|exact ex_cursor].
  - intros ret h' (E1 & E2 & t1 & t2 & He & Hc & _ & Htr1 & _ & _ & Hv1 & Htr2 & _ & _ & Hv2).
    exists t1, t2. split_and!; try done.
    + rewrite Hv1, Hv2, <- fmap_app, <- He. reflexivity.
    + destruct (Hc 2%positive eq_refl) as (v & E2' & ->); [simpl; concrete|].
      assert ((2%positive, v) ∈ elems ex_tree) as Hin.
      { rewrite He. rewrite elem_of_app, elem_of_cons. auto. }
      simpl in Hin. rewrite !elem_of_cons, elem_of_nil in Hin.
      destruct Hin as [[=]|[[= ->]|[[=]|[]]]].
      exists (E2'.*2). by rewrite Hv2.
Defined.

Lemma split_then_merge_witness :
  wp (do ret <- split 10 ex_this (mkIterator (Some 2%positive)); merge 10 ex_this ret)
    ex_heap (fun res h' =>
    exists t', tree_rep h' (fst res) t' /\ values t' = [10; 20; 30]
      /\ tree_rep h' (snd res) Leaf).
Proof.
  eapply wp_mono.
  - apply (split_then_merge 10 ex_heap ex_this ex_tree (mkIterator (Some 2%positive)));
      [exact ex_rep|exact ex_rb|vm_compute; discriminate|simpl; lia|exact ex_cursor].
  - intros res h' (t' & Htr & _ & _ & Hv & Hl). exists t'. split_and!; done.
Defined.

Lemma select_order_advance_difference_witness :
  wp (do nd <- Select_ 5 (root ex_tree) 2; Order_ 5 nd) ex_heap
    (fun res h' => h' = ex_heap /\ res = 2)
  /\ wp (do m <- Advance_ 5 (Some 3%positive) 2; Difference_ 5 m (Some 3%positive)) ex_heap
       (fun res h' => h' = ex_heap /\ res = 2).
Proof.
  destruct (select_order_advance_difference 5 ex_heap ex_this ex_tree)
    as [Hsel Hadv];
    [exact ex_rep|exact (proj1 ex_rb)|vm_compute; discriminate|simpl; lia|].
  split.
  - apply Hsel. simpl. lia.
  - destruct (Hadv 3%positive) as (o & Ho & Hk); [simpl; concrete|].
    apply Hk.
    destruct Ho as (x & h' & Hrun & _ & ->).
    vm_compute in Hrun. injection Hrun as <- _. simpl. lia.
Defined.

Lemma partition_bound_first_false_witness :
  wp (partition_bound 5 ex_this (fun x => x <? 25)) ex_heap (fun it h' =>
    h' = ex_heap /\ it = mkIterator (Some 4%positive)).
Proof.
  eapply wp_mono.
  - apply (partition_bound_first_false (fun x => x <? 25) 5 ex_heap ex_this ex_tree
             [10; 20] [30]);
      [exact ex_rep|reflexivity|repeat constructor|repeat constructor|simpl; lia].
  - intros [p] h' (-> & Hb & _). split; [done|].
    destruct Hb as (a & E1 & E2 & Hp & He & H1 & H2). simpl in Hp. subst p.
    assert ((a, 30) ∈ elems ex_tree) as Hin.
    { rewrite He. rewrite elem_of_app, elem_of_cons. auto. }
    simpl in Hin. rewrite !elem_of_cons, elem_of_nil in Hin.
    destruct Hin as [[=]|[[=]|[[= ->]|[]]]]. done.
Defined.

Lemma erase_two_children_witness :
  wp (erase 5 ex_this (mkIterator (Some 2%positive))) ex_heap (fun _ h' =>
    exists t' (n : Node_ Z), tree_rep h' ex_this t' /\ h' !! 3%positive = None
      /\ h' !! 2%positive = Some n /\ value n = Some 10
      /\ values t' = [10; 30]).
Proof.
  eapply wp_mono.
  - apply (erase_two_children 5 ex_heap ex_this [] ex_left 2%positive 3 1 true 20 ex_right);
      [exact ex_rep|exact ex_rb|vm_compute; discriminate|simpl; lia
      |discriminate|discriminate].
  - intros _ h' (E1 & tmp & tv & E2 & t' & n & He & Hfree & Htr & _ & _ & Hn & Hv & _ & Hvs).
    simpl in He.
    assert (E1 = [] /\ tmp = 3%positive /\ tv = 10 /\ E2 = [(4%positive, 30)])
      as (-> & -> & -> & ->).
    { destruct E1 as [|e1 [|e2 [|e3 E1]]]; simpl in He; simplify_eq; try done.
      destruct E1; discriminate. }
    exists t', n. split_and!; done.
Defined.

Lemma move_transfers_witness :
  wp (RBTree_move ex_other) ex_heap (fun res h' =>
    tree_rep h' (fst res) ex_tree2 /\ tree_rep h' (snd res) Leaf)
  /\ wp (move_assign ex_this ex_other) ex_heap (fun res h' =>
       h' = ex_heap /\ tree_rep h' (fst res) ex_tree2 /\ tree_rep h' (snd res) ex_tree).
Proof.
  apply (move_transfers ex_heap ex_this ex_other ex_tree ex_tree2);
    [exact ex_rep|exact ex_rep2].
Defined.

(** C8 as stated fails for move assignment: after [ex_this = move(ex_other)]
    the source [ex_other] is not empty, it holds the three elements the
    destination had. *)

Lemma move_assign_source_not_empty :
  exists res h',
    move_assign ex_this ex_other ex_heap = Some (res, h')
    /\ tree_rep ex_heap ex_this ex_tree /\ tree_rep ex_heap ex_other ex_tree2
    /\ size_ (snd res) h' = Some (3, h')
    /\ ~ tree_rep h' (snd res) Leaf.
Proof.
  exists (ex_other, ex_this), ex_heap. split_and!.
  - reflexivity.
  - exact ex_rep.
  - exact ex_rep2.
  - vm_compute. reflexivity.
  - intros Hl. pose proof (tree_rep_unique _ _ _ _ Hl ex_rep). discriminate.
Qed.

Lemma copy_assign_self_empties_witness :
  wp (copy_assign 10 ex_this ex_this) ex_heap (fun _ h' =>
    tree_rep h' ex_this Leaf
    /\ (forall x, x ∈ addrs ex_tree -> h' !! x = None)
    /\ wp (size_ ex_this) h' (fun n _ => n = 0)).
Proof.
  apply (copy_assign_self_empties 10 ex_heap ex_this ex_tree); [exact ex_rep|simpl; lia].
Defined.

(** * The further properties on the concrete trees *)

Lemma ex_rep3 : tree_rep ex_heap3 ex_this ex_tree.
Proof. exists 1%positive. simpl. concrete. Qed.

Lemma ex_rep3_empty : tree_rep ex_heap3 ex_empty Leaf.
Proof. exists 7%positive. simpl. concrete. Qed.

Lemma ex_cursor_first : cursor_at ex_tree 1%positive 3%positive 0.
Proof. right. by exists 10. Qed.

Lemma ex_cursor_last : cursor_at ex_tree 1%positive 4%positive 2.
Proof. right. by exists 30. Qed.

Lemma push_back_appends_witness :
  wp (push_back 10 ex_this 50) ex_heap (fun _ h' =>
    exists b t', ex_heap !! b = None /\ tree_rep h' ex_this t' /\ rb_tree t'
      /\ elems t' = elems ex_tree ++ [(b, 50)]
      /\ values t' = values ex_tree ++ [50]).
Proof.
  apply (push_back_appends 10 ex_heap ex_this ex_tree 50);
    [exact ex_rep|exact ex_rb|vm_compute; reflexivity|simpl; lia].
Defined.

Lemma push_front_prepends_witness :
  wp (push_front 10 ex_this 5) ex_heap (fun _ h' =>
    exists b t', ex_heap !! b = None /\ tree_rep h' ex_this t' /\ rb_tree t'
      /\ elems t' = (b, 5) :: elems ex_tree
      /\ values t' = 5 :: values ex_tree).
Proof.
  apply (push_front_prepends 10 ex_heap ex_this ex_tree 5);
    [exact ex_rep|exact ex_rb|vm_compute; reflexivity|simpl; lia].
Defined.

Lemma insert_before_cursor_witness :
  wp (insert_ 10 ex_this (mkIterator (Some 2%positive)) 15) ex_heap (fun res h' =>
    exists b E1 E2 t', res = mkIterator (Some b) /\ ex_heap !! b = None
      /\ elems ex_tree = E1 ++ E2
      /\ (forall a, ptr_ (mkIterator (Some 2%positive)) = Some a -> a ∈ addrs ex_tree ->
            exists v E2', E2 = (a, v) :: E2')
      /\ (mkIterator (Some 2%positive) = end_ ex_this -> E2 = [])
      /\ tree_rep h' ex_this t' /\ rb_tree t'
      /\ elems t' = E1 ++ (b, 15) :: E2
      /\ values t' = E1.*2 ++ 15 :: E2.*2).
Proof.
  apply (insert_before_cursor 10 ex_heap ex_this ex_tree (mkIterator (Some 2%positive)) 15);
    [exact ex_rep|exact ex_rb|vm_compute; reflexivity|simpl; lia|exact ex_cursor].
Defined.

Lemma erase_removes_element_witness :
  wp (erase 5 ex_this (mkIterator (Some 2%positive))) ex_heap (fun _ h' =>
    exists A1 A2 V1 v V2 y t',
      addrs ex_tree = A1 ++ 2%positive :: A2 /\ values ex_tree = V1 ++ v :: V2
      /\ length A1 = length V1
      /\ tree_rep h' ex_this t' /\ rb_tree t' /\ values t' = V1 ++ V2
      /\ y ∈ addrs ex_tree /\ h' !! y = None
      /\ (forall z, z ∈ addrs t' <-> z ∈ addrs ex_tree /\ z <> y)).
Proof.
  apply (erase_removes_element 5 ex_heap ex_this ex_tree 2%positive);
    [exact ex_rep|exact ex_rb|vm_compute; discriminate|simpl; lia|simpl; concrete].
Defined.

Lemma pop_back_removes_last_witness :
  wp (pop_back 5 ex_this) ex_heap (fun _ h' =>
    exists V x v t', values ex_tree = V ++ [v] /\ addrs ex_tree = (elems t').*1 ++ [x]
      /\ h' !! x = None
      /\ tree_rep h' ex_this t' /\ rb_tree t' /\ values t' = V).
Proof.
  apply (pop_back_removes_last 5 ex_heap ex_this ex_tree);
    [exact ex_rep|exact ex_rb|vm_compute; discriminate|simpl; lia|discriminate].
Defined.

Lemma pop_front_removes_first_witness :
  wp (pop_front 5 ex_this) ex_heap (fun _ h' =>
    exists V x v t', values ex_tree = v :: V /\ addrs ex_tree = x :: (elems t').*1
      /\ h' !! x = None
      /\ tree_rep h' ex_this t' /\ rb_tree t' /\ values t' = V).
Proof.
  apply (pop_front_removes_first 5 ex_heap ex_this ex_tree);
    [exact ex_rep|exact ex_rb|vm_compute; discriminate|simpl; lia|discriminate].
Defined.

Lemma empty_tree_no_result_witness :
  pop_back 5 ex_empty ex_heap3 = None /\ pop_front 5 ex_empty ex_heap3 = None
  /\ front 5 ex_empty ex_heap3 = None /\ back 5 ex_empty ex_heap3 = None.
Proof. apply (empty_tree_no_result 5 ex_heap3 ex_empty). exact ex_rep3_empty. Defined.

Lemma size_and_empty_witness :
  wp (size_ ex_this) ex_heap (fun n h' =>
    h' = ex_heap /\ n = Z.of_nat (length (values ex_tree)))
  /\ wp (empty ex_this) ex_heap (fun b h' =>
       h' = ex_heap /\ (b = true <-> values ex_tree = [])).
Proof.
  apply (size_and_empty ex_heap ex_this ex_tree);
    [exact ex_rep|exact (proj1 ex_rb)|vm_compute; discriminate].
Defined.

Lemma order_is_index_witness :
  wp (Order_ 5 (Some 4%positive)) ex_heap (fun res h' => h' = ex_heap /\ res = Z.of_nat 2).
Proof.
  apply (order_is_index 5 ex_heap ex_this 1%positive ex_tree 4%positive 2);
    [reflexivity|exact ex_rep|exact (proj1 ex_rb)|vm_compute; discriminate
    |simpl; lia|exact ex_cursor_last].
Defined.

Lemma advance_moves_index_witness :
  wp (Advance_ 5 (Some 3%positive) 2) ex_heap (fun res h' =>
    h' = ex_heap /\ exists m, res = Some m
      /\ cursor_at ex_tree 1%positive m (Z.to_nat (Z.of_nat 0 + 2))).
Proof.
  apply (advance_moves_index 5 ex_heap ex_this 1%positive ex_tree 3%positive 0 2);
    [reflexivity|exact ex_rep|exact (proj1 ex_rb)|vm_compute; discriminate
    |simpl; lia|exact ex_cursor_first|simpl; lia].
Defined.

Lemma index_returns_value_witness :
  wp (at_ 5 ex_this 1) ex_heap (fun v h' =>
    h' = ex_heap /\ values ex_tree !! Z.to_nat 1 = Some v).
Proof.
  apply (index_returns_value 5 ex_heap ex_this ex_tree 1);
    [exact ex_rep|exact (proj1 ex_rb)|vm_compute; discriminate|simpl; lia|simpl; lia].
Defined.

Lemma index_out_of_range_no_result_witness : at_ 5 ex_this 3 ex_heap = None.
Proof.
  apply (index_out_of_range_no_result 5 ex_heap ex_this ex_tree 3);
    [exact ex_rep|exact (proj1 ex_rb)|split; [simpl; lia|reflexivity]].
Defined.

Lemma front_and_back_witness :
  wp (front 5 ex_this) ex_heap (fun v h' =>
    h' = ex_heap /\ exists V, values ex_tree = v :: V)
  /\ wp (back 5 ex_this) ex_heap (fun v h' =>
       h' = ex_heap /\ exists V, values ex_tree = V ++ [v]).
Proof.
  apply (front_and_back 5 ex_heap ex_this ex_tree);
    [exact ex_rep|discriminate|simpl; lia].
Defined.

Lemma begin_is_index_zero_witness :
  wp (begin_ 5 ex_this) ex_heap (fun it h' =>
    h' = ex_heap /\ exists a, it = mkIterator (Some a)
      /\ cursor_at ex_tree 1%positive a 0
      /\ (ex_tree = Leaf -> it = end_ ex_this)).
Proof.
  apply (begin_is_index_zero 5 ex_heap ex_this 1%positive ex_tree);
    [reflexivity|exact ex_rep|simpl; lia].
Defined.

Lemma cursor_comparisons_witness :
  wp (Iterator_diff 5 (mkIterator (Some 3%positive)) (mkIterator (Some 4%positive)))
     ex_heap (fun d h' => h' = ex_heap /\ d = Z.of_nat 0 - Z.of_nat 2)
  /\ wp (Iterator_lt 5 (mkIterator (Some 3%positive)) (mkIterator (Some 4%positive)))
       ex_heap (fun res h' => h' = ex_heap /\ res = (0 <? 2)%nat)
  /\ wp (Iterator_le 5 (mkIterator (Some 3%positive)) (mkIterator (Some 4%positive)))
       ex_heap (fun res h' => h' = ex_heap /\ res = (0 <=? 2)%nat)
  /\ wp (Iterator_gt 5 (mkIterator (Some 3%positive)) (mkIterator (Some 4%positive)))
       ex_heap (fun res h' => h' = ex_heap /\ res = (2 <? 0)%nat)
  /\ wp (Iterator_ge 5 (mkIterator (Some 3%positive)) (mkIterator (Some 4%positive)))
       ex_heap (fun res h' => h' = ex_heap /\ res = (2 <=? 0)%nat)
  /\ (Iterator_eq (mkIterator (Some 3%positive)) (mkIterator (Some 4%positive)) = true
      <-> 0%nat = 2%nat)
  /\ (Iterator_ne (mkIterator (Some 3%positive)) (mkIterator (Some 4%positive)) = true
      <-> 0%nat <> 2%nat).
Proof.
  apply (cursor_comparisons 5 ex_heap ex_this 1%positive ex_tree 3%positive 4%positive 0 2);
    [reflexivity|exact ex_rep|exact (proj1 ex_rb)|vm_compute; discriminate
    |simpl; lia|exact ex_cursor_first|exact ex_cursor_last].
Defined.

Lemma cursor_index_returns_value_witness :
  wp (Iterator_index 5 (mkIterator (Some 3%positive)) 2) ex_heap (fun v h' =>
    h' = ex_heap /\ values ex_tree !! Z.to_nat (Z.of_nat 0 + 2) = Some v).
Proof.
  apply (cursor_index_returns_value 5 ex_heap ex_this 1%positive ex_tree 3%positive 0 2);
    [reflexivity|exact ex_rep|exact (proj1 ex_rb)|vm_compute; discriminate
    |simpl; lia|exact ex_cursor_first|simpl; lia].
Defined.

Lemma cursor_increment_witness :
  wp (Iterator_inc 5 (mkIterator (Some 3%positive))) ex_heap (fun it h' =>
    h' = ex_heap
    /\ ((0 < count ex_tree)%nat ->
          exists m, it = mkIterator (Some m) /\ cursor_at ex_tree 1%positive m 1)
    /\ (0%nat = count ex_tree -> Iterator_is_null it = true)).
Proof.
  apply (cursor_increment 5 ex_heap ex_this 1%positive ex_tree 3%positive 0);
    [reflexivity|exact ex_rep|simpl; lia|exact ex_cursor_first].
Defined.

Lemma cursor_decrement_witness :
  wp (Iterator_dec 5 (mkIterator (Some 4%positive))) ex_heap (fun it h' =>
    h' = ex_heap
    /\ ((0 < 2)%nat ->
          exists m, it = mkIterator (Some m) /\ cursor_at ex_tree 1%positive m (2 - 1))
    /\ (2%nat = 0%nat -> Iterator_is_null it = true)).
Proof.
  apply (cursor_decrement 5 ex_heap ex_this 1%positive ex_tree 4%positive 2);
    [reflexivity|exact ex_rep|simpl; lia|exact ex_cursor_last].
Defined.

Lemma clear_frees_nodes_witness :
  wp (clear 10 ex_this) ex_heap (fun _ h' =>
    tree_rep h' ex_this Leaf
    /\ (forall x, x ∈ addrs ex_tree -> h' !! x = None)
    /\ (forall x, x ∉ 1%positive :: addrs ex_tree -> h' !! x = ex_heap !! x)).
Proof.
  apply (clear_frees_nodes 10 ex_heap ex_this 1%positive ex_tree);
    [reflexivity|exact ex_rep|simpl; lia].
Defined.

Lemma destroy_frees_everything_witness :
  wp (RBTree_destroy 10 ex_this) ex_heap (fun _ h' =>
    (forall x, x ∈ 1%positive :: addrs ex_tree -> h' !! x = None)
    /\ (forall x, x ∉ 1%positive :: addrs ex_tree -> h' !! x = ex_heap !! x)).
Proof.
  apply (destroy_frees_everything 10 ex_heap ex_this 1%positive ex_tree);
    [reflexivity|exact ex_rep|simpl; lia].
Defined.

Lemma merge_with_empty_witness :
  merge 5 ex_this ex_empty ex_heap3 = Some ((ex_this, ex_empty), ex_heap3)
  /\ merge 5 ex_empty ex_this ex_heap3
     = Some ((mkRBTree (head_ ex_this), mkRBTree (head_ ex_empty)), ex_heap3).
Proof.
  split.
  - apply (proj1 (merge_with_empty 5 ex_heap3 ex_this ex_empty ex_tree));
      [exact ex_rep3|exact ex_rep3_empty].
  - apply (proj2 (merge_with_empty 5 ex_heap3 ex_empty ex_this ex_tree));
      [exact ex_rep3_empty|exact ex_rep3|discriminate].
Defined.

Lemma insert_then_erase_witness :
  wp (do res <- insert_ 10 ex_this (mkIterator (Some 2%positive)) 15;
      erase 10 ex_this res) ex_heap (fun _ h' =>
    exists t', tree_rep h' ex_this t' /\ rb_tree t' /\ values t' = values ex_tree).
Proof.
  apply (insert_then_erase 10 ex_heap ex_this ex_tree (mkIterator (Some 2%positive)) 15);
    [exact ex_rep|exact ex_rb|vm_compute; reflexivity|simpl; lia|exact ex_cursor].
Defined.

Lemma insert_merge_joins_witness :
  wp (insert_merge 10 ex_this ex_other 35) ex_heap (fun _ h' =>
    exists m t', ex_heap !! m = None /\ tree_rep h' ex_this t' /\ rb_tree t'
      /\ elems t' = elems ex_tree ++ (m, 35) :: elems ex_tree2
      /\ values t' = values ex_tree ++ 35 :: values ex_tree2
      /\ tree_rep h' ex_other Leaf).
Proof.
  apply (insert_merge_joins 10 ex_heap ex_this ex_other ex_tree ex_tree2 35);
    [exact ex_rep|exact ex_rep2|exact ex_rb|exact ex_rb2|exact ex_disj
    |vm_compute; reflexivity|simpl; lia|simpl; lia].
Defined.

Lemma erase_and_split_parts_witness :
  wp (erase_and_split 10 ex_this (mkIterator (Some 2%positive))) ex_heap (fun ret h' =>
    exists E1 v E2 t1 t2,
      elems ex_tree = E1 ++ (2%positive, v) :: E2 /\ h' !! 2%positive = None
      /\ tree_rep h' ex_this t1 /\ rb_tree t1 /\ elems t1 = E1
      /\ tree_rep h' ret t2 /\ rb_tree t2 /\ elems t2 = E2
      /\ values ex_tree = values t1 ++ v :: values t2).
Proof.
  apply (erase_and_split_parts 10 ex_heap ex_this ex_tree 2%positive);
    [exact ex_rep|exact ex_rb|vm_compute; discriminate|simpl; lia|simpl; concrete].
Defined.

Lemma iter_partition_bound_first_false_witness :
  wp (iter_partition_bound 5 ex_this
        (fun it => match cptr_ it with Some a => Pos.eqb a 3 | None => false end))
     ex_heap (fun it h' => h' = ex_heap /\ it = mkIterator (Some 2%positive)).
Proof.
  apply (iter_partition_bound_first_false
           (fun it => match cptr_ it with Some a => Pos.eqb a 3 | None => false end)
           5 ex_heap ex_this ex_tree [3%positive] [2%positive; 4%positive]);
    [exact ex_rep|reflexivity|repeat constructor|repeat constructor|simpl; lia].
Defined.

Lemma check_accepts_invariants_witness :
  wp (check_ 5 ex_this) ex_heap (fun res h' => res = true /\ h' = ex_heap).
Proof.
  apply (check_accepts_invariants 5 ex_heap ex_this ex_tree);
    [exact ex_rep|exact ex_rb|vm_compute; discriminate|simpl; lia].
Defined.



Lemma insert_then_index_witness :
  wp (do_ insert_ 10 ex_this (mkIterator (Some 4%positive)) 25;
      at_ 10 ex_this (Z.of_nat 2)) ex_heap (fun v _ => v = 25).
Proof.
  apply (insert_then_index 10 ex_heap ex_this 1%positive ex_tree 4%positive 2 25);
    [reflexivity|exact ex_rep|exact ex_rb|vm_compute; reflexivity|simpl; lia
    |exact ex_cursor_last].
Defined.
